(** * ROAM terrain patches (rts/Map/SMF/ROAM/Patch.cpp)

    A shallow embedding of the triangle-node pool, the binary-triangle-tree
    split, the variance precomputation, the tessellation driver and the
    border extraction of [Patch.cpp], with the properties the specification
    states about them; and of the set-up of a patch and of its height field
    ([Patch::Init], [Patch::UpdateHeightMap]), the index buffer
    ([Patch::GenerateIndices]) and [Platform::GetBinaryPath]
    (rts/System/Platform/Misc.cpp), with further properties of the code.

    Conventions of the embedding:
    - a [TriTreeNode*] is an [option ptr]: [None] is [nullptr], and a
      [ptr] names one of the two root triangles of the patch or a slot of
      the node pool;
    - [size_t] values are [Z] with the 64-bit wrap-around written out
      ([wrap64]); pool watermarks index a list and are [nat];
    - [int] values are [Z]; the coordinates and heap indices of a patch stay
      far inside the range of [int], where C++ arithmetic is exact;
    - [float] values are rationals ([Q]): the properties proved here use
      only the order of the values and exact products, never rounding;
    - recursion that C++ leaves to the call stack takes a [fuel] argument;
      a computation returns [Err] when the fuel runs out or when it would
      dereference a null or dangling pointer. *)

From Stdlib Require Import ZArith QArith Qabs Qminmax Lia Bool.
From Stdlib Require Ascii.
From stdpp Require Import base decidable option list.

#[local] Open Scope Z_scope.

(** ** Tree nodes (Patch.h) *)

Inductive ptr : Type :=
  | BaseLeft : ptr
  | BaseRight : ptr
  | PoolNode (i : nat) : ptr.

#[global] Instance ptr_eq_dec : EqDecision ptr.
Proof. solve_decision. Defined.

Record TriTreeNode : Type := mkNode {
  LeftChild : option ptr;
  RightChild : option ptr;
  BaseNeighbor : option ptr;
  LeftNeighbor : option ptr;
  RightNeighbor : option ptr
}.

(** [TriTreeNode()]: every link is null. *)
Definition zeroNode : TriTreeNode := mkNode None None None None None.

(** Modelled from the spec: [TriTreeNode::IsLeaf] and [IsBranch] are inline
    members of Patch.h; the data model says a node is a leaf iff both
    children are null, and a branch otherwise. *)
Definition IsLeaf (n : TriTreeNode) : bool :=
  match LeftChild n, RightChild n with
  | None, None => true
  | _, _ => false
  end.

Definition IsBranch (n : TriTreeNode) : bool := negb (IsLeaf n).

(** ** The node pool *)

Record CTriNodePool : Type := mkPool {
  pool : list TriTreeNode;
  nextTriNodeIdx : nat
}.

Definition poolSize (p : CTriNodePool) : nat := length (pool p).

(** Modelled from the spec: [CTriNodePool::OutOfNodes] is an inline member
    of Patch.h; the arena contract says it is true when the remaining
    capacity is below two. *)
Definition OutOfNodes (p : CTriNodePool) : bool :=
  (poolSize p <? nextTriNodeIdx p + 2)%nat.

(** [CTriNodePool::CTriNodePool(poolSize)]: [pool.resize(poolSize)] fills
    the vector with default-constructed nodes. *)
Definition newPool (size : nat) : CTriNodePool :=
  mkPool (replicate size zeroNode) 0.

(** The two assertions of the constructor. *)
Definition ctor_asserts (size : Z) : bool :=
  (Z.land size 1 =? 0) && (0 <? size).

(** [CTriNodePool::Reset]: [memset] of the first [nextTriNodeIdx] entries. *)
Definition Reset (p : CTriNodePool) : CTriNodePool :=
  mkPool
    (if (0 <? nextTriNodeIdx p)%nat
     then replicate (nextTriNodeIdx p) zeroNode ++ drop (nextTriNodeIdx p) (pool p)
     else pool p)
    0.

(** [CTriNodePool::Allocate(left, right)]: the result is the returned flag,
    the two output pointers and the pool afterwards. *)
Definition Allocate (p : CTriNodePool)
  : bool * option ptr * option ptr * CTriNodePool :=
  if OutOfNodes p then (false, None, None, p)
  else
    let left := PoolNode (nextTriNodeIdx p) in
    let p1 := mkPool (pool p) (S (nextTriNodeIdx p)) in
    let right := PoolNode (nextTriNodeIdx p1) in
    let p2 := mkPool (pool p1) (S (nextTriNodeIdx p1)) in
    (true, Some left, Some right, p2).

(** What a pool handle points at. *)
Definition poolAt (p : CTriNodePool) (x : option ptr) : option TriTreeNode :=
  match x with
  | Some (PoolNode i) => pool p !! i
  | _ => None
  end.

(** The arena invariant of the data model, together with the fact that the
    slots above the watermark are still in their reset state. *)
Record pool_wf (p : CTriNodePool) : Prop := {
  wf_even : Nat.Even (nextTriNodeIdx p);
  wf_bound : (nextTriNodeIdx p <= poolSize p)%nat;
  wf_zero : forall i n, (nextTriNodeIdx p <= i)%nat -> pool p !! i = Some n -> n = zeroNode
}.

(** ** Pool sizing and growth *)

Definition wrap64 (z : Z) : Z := z mod 2 ^ 64.

Module Pools.

(** The file-level statics: [CUR_POOL_SIZE], [MAX_POOL_SIZE] and the two
    vectors [pools[MESH_COUNT]], indexed by [shadowPass]. *)
Record globals : Type := mkGlobals {
  CUR_POOL_SIZE : Z;
  MAX_POOL_SIZE : Z;
  pools : bool -> list CTriNodePool
}.

Definition set_pools (g : globals) (shadowPass : bool) (v : list CTriNodePool) : globals :=
  mkGlobals (CUR_POOL_SIZE g) (MAX_POOL_SIZE g)
    (fun b => if Bool.eqb b shadowPass then v else pools g b).

(** [thrPoolSize] of [InitPools]; [numThreads] is converted to [size_t]
    for the division. *)
Definition thrPoolSize (numThreads newPoolSize : Z) : Z :=
  Z.max (newPoolSize / wrap64 numThreads) (newPoolSize / 3).

(** The argument of [emplace_back]. *)
Definition thrPoolCapacity (numThreads newPoolSize : Z) : Z :=
  let t := thrPoolSize numThreads newPoolSize in
  wrap64 (t + Z.land t 1).

(** [CTriNodePool::InitPools(shadowPass, newPoolSize)], on the path where
    no [std::bad_alloc] is thrown.  [numThreads] is the value of
    [ThreadPool::GetMaxThreads()]. *)
Definition InitPools (numThreads : Z) (shadowPass : bool) (newPoolSize : Z)
    (g : globals) : globals :=
  let g1 := mkGlobals newPoolSize (MAX_POOL_SIZE g) (pools g) in
  let cap := thrPoolCapacity numThreads newPoolSize in
  set_pools g1 shadowPass
    (replicate (Z.to_nat numThreads) (newPool (Z.to_nat cap))).

(** The loop of [ResetAll]: [outOfNodes |= pool.OutOfNodes(); pool.Reset()]. *)
Fixpoint resetLoop (outOfNodes : bool) (ps : list CTriNodePool)
  : bool * list CTriNodePool :=
  match ps with
  | [] => (outOfNodes, [])
  | p :: ps' =>
      let outOfNodes' := outOfNodes || OutOfNodes p in
      let '(r, qs) := resetLoop outOfNodes' ps' in
      (r, Reset p :: qs)
  end.

(** [CTriNodePool::ResetAll(shadowPass)]. *)
Definition ResetAll (numThreads : Z) (shadowPass : bool) (g : globals) : globals :=
  let '(outOfNodes, ps) := resetLoop false (pools g shadowPass) in
  let g1 := set_pools g shadowPass ps in
  if negb outOfNodes then g1
  else if MAX_POOL_SIZE g1 <=? CUR_POOL_SIZE g1 then g1
  else InitPools numThreads shadowPass
         (Z.min (wrap64 (CUR_POOL_SIZE g1 * 2)) (MAX_POOL_SIZE g1)) g1.

(** The sizing rule in the words of the specification: the naive even
    split, floored at one third of that split, rounded up to even. *)
Definition spec_thrPoolCapacity (numThreads total : Z) : Z :=
  let even_split := total / numThreads in
  let t := Z.max even_split (even_split / 3) in
  t + t mod 2.

Definition emptyGlobals : globals := mkGlobals 0 0 (fun _ => []).

Definition exhaustedGlobals : globals :=
  mkGlobals 4 32 (fun _ => [mkPool (replicate 2 zeroNode) 2; newPool 2]).

End Pools.

(** ** Patches *)

Module int2.
Record t : Type := mk { x : Z; y : Z }.
End int2.

Module float3.
Record t : Type := mk { x : Q; y : Q; z : Q }.
End float3.

(** [std::max] and [std::min] on [float]: [(a < b) ? b : a] and
    [(b < a) ? b : a]. *)
Definition Qltb (a b : Q) : bool := negb (Qle_bool b a).
Definition fmax (a b : Q) : Q := if Qltb a b then b else a.
Definition fmin (a b : Q) : Q := if Qltb b a then b else a.

(** Which of the two variance tables [currentVariance] points into. *)
Inductive side : Type := SideLeft | SideRight.

Record Patch : Type := mkPatch {
  baseLeft : TriTreeNode;
  baseRight : TriTreeNode;
  currentPool : CTriNodePool;
  varianceLeft : list Q;
  varianceRight : list Q;
  currentVariance : option side;
  varianceMaxLimit : Q;
  camDistLODFactor : Q;
  coors : int2.t;
  vertices : list Q
}.

Definition with_nodes (p : Patch) (l r : TriTreeNode) (cp : CTriNodePool) : Patch :=
  mkPatch l r cp (varianceLeft p) (varianceRight p) (currentVariance p)
    (varianceMaxLimit p) (camDistLODFactor p) (coors p) (vertices p).

Definition with_variance (p : Patch) (vl vr : list Q) (cv : option side) : Patch :=
  mkPatch (baseLeft p) (baseRight p) (currentPool p) vl vr cv
    (varianceMaxLimit p) (camDistLODFactor p) (coors p) (vertices p).

Definition with_lod (p : Patch) (limit factor : Q) : Patch :=
  mkPatch (baseLeft p) (baseRight p) (currentPool p) (varianceLeft p)
    (varianceRight p) (currentVariance p) limit factor (coors p) (vertices p).

(** *** Memory: nodes, links, and the computation monad *)

Inductive link : Type := LC | RC | BN | LN | RN.

#[global] Instance link_eq_dec : EqDecision link.
Proof. solve_decision. Defined.

Definition getLink (f : link) (n : TriTreeNode) : option ptr :=
  match f with
  | LC => LeftChild n
  | RC => RightChild n
  | BN => BaseNeighbor n
  | LN => LeftNeighbor n
  | RN => RightNeighbor n
  end.

Definition setLink (f : link) (v : option ptr) (n : TriTreeNode) : TriTreeNode :=
  match f with
  | LC => mkNode v (RightChild n) (BaseNeighbor n) (LeftNeighbor n) (RightNeighbor n)
  | RC => mkNode (LeftChild n) v (BaseNeighbor n) (LeftNeighbor n) (RightNeighbor n)
  | BN => mkNode (LeftChild n) (RightChild n) v (LeftNeighbor n) (RightNeighbor n)
  | LN => mkNode (LeftChild n) (RightChild n) (BaseNeighbor n) v (RightNeighbor n)
  | RN => mkNode (LeftChild n) (RightChild n) (BaseNeighbor n) (LeftNeighbor n) v
  end.

Definition nodeAt (p : Patch) (x : ptr) : option TriTreeNode :=
  match x with
  | BaseLeft => Some (baseLeft p)
  | BaseRight => Some (baseRight p)
  | PoolNode i => pool (currentPool p) !! i
  end.

Definition setNode (p : Patch) (x : ptr) (n : TriTreeNode) : Patch :=
  match x with
  | BaseLeft => with_nodes p n (baseRight p) (currentPool p)
  | BaseRight => with_nodes p (baseLeft p) n (currentPool p)
  | PoolNode i =>
      with_nodes p (baseLeft p) (baseRight p)
        (mkPool (<[i := n]> (pool (currentPool p))) (nextTriNodeIdx (currentPool p)))
  end.

Inductive error : Type :=
  | OutOfFuel
  | NullPointer
  | BadVarianceIndex
  | BadVertexIndex.

Inductive result (A : Type) : Type :=
  | Ok (a : A)
  | Err (e : error).
Arguments Ok {A} a.
Arguments Err {A} e.

Definition M (A : Type) : Type := Patch -> result (A * Patch).

Definition ret {A} (a : A) : M A := fun p => Ok (a, p).
Definition fail {A} (e : error) : M A := fun _ => Err e.
Definition bind {A B} (m : M A) (k : A -> M B) : M B :=
  fun p => match m p with
           | Ok (a, p') => k a p'
           | Err e => Err e
           end.

Notation "x <- m ;; k" := (bind m (fun x => k))
  (at level 100, m at next level, k at level 200, right associativity, only parsing).
Notation "m ;;; k" := (bind m (fun _ => k))
  (at level 100, k at level 200, right associativity, only parsing).

(** [x->f] as an rvalue and as an lvalue. *)
Definition load (x : option ptr) (f : link) : M (option ptr) :=
  fun p => match x with
           | Some a => match nodeAt p a with
                       | Some n => Ok (getLink f n, p)
                       | None => Err NullPointer
                       end
           | None => Err NullPointer
           end.

Definition store (x : option ptr) (f : link) (v : option ptr) : M unit :=
  fun p => match x with
           | Some a => match nodeAt p a with
                       | Some n => Ok (tt, setNode p a (setLink f v n))
                       | None => Err NullPointer
                       end
           | None => Err NullPointer
           end.

Definition isLeaf (x : option ptr) : M bool :=
  fun p => match x with
           | Some a => match nodeAt p a with
                       | Some n => Ok (IsLeaf n, p)
                       | None => Err NullPointer
                       end
           | None => Err NullPointer
           end.

Definition isBranch (x : option ptr) : M bool :=
  b <- isLeaf x ;; ret (negb b).

(** [currentPool->Allocate(tri->LeftChild, tri->RightChild)]. *)
Definition allocateChildren (tri : ptr) : M bool :=
  fun p =>
    let '(ok, l, r, cp) := Allocate (currentPool p) in
    (store (Some tri) LC l ;;;
     store (Some tri) RC r ;;;
     ret ok) (with_nodes p (baseLeft p) (baseRight p) cp).

(** *** Patch::Split, by the phases its comments name *)

(** "fill in the information we can get from the parent" *)
Definition linkChildren (tri : ptr) : M unit :=
  lc <- load (Some tri) LC ;;
  ln <- load (Some tri) LN ;;
  store lc BN ln ;;;
  lc <- load (Some tri) LC ;;
  rc <- load (Some tri) RC ;;
  store lc LN rc ;;;
  rc <- load (Some tri) RC ;;
  rn <- load (Some tri) RN ;;
  store rc BN rn ;;;
  rc <- load (Some tri) RC ;;
  lc <- load (Some tri) LC ;;
  store rc RN lc.

(** "link our left-neighbor to the new children" *)
Definition relinkLeft (tri : ptr) : M unit :=
  ln <- load (Some tri) LN ;;
  match ln with
  | None => ret tt
  | Some _ =>
      lc <- load (Some tri) LC ;;
      b <- load ln BN ;;
      if decide (b = Some tri) then store ln BN lc
      else
        l <- load ln LN ;;
        if decide (l = Some tri) then store ln LN lc
        else
          r <- load ln RN ;;
          if decide (r = Some tri) then store ln RN lc
          else ret tt
  end.

(** "link our right-neighbor to the new children" *)
Definition relinkRight (tri : ptr) : M unit :=
  rn <- load (Some tri) RN ;;
  match rn with
  | None => ret tt
  | Some _ =>
      rc <- load (Some tri) RC ;;
      b <- load rn BN ;;
      if decide (b = Some tri) then store rn BN rc
      else
        r <- load rn RN ;;
        if decide (r = Some tri) then store rn RN rc
        else
          l <- load rn LN ;;
          if decide (l = Some tri) then store rn LN rc
          else ret tt
  end.

(** The branch of "link our base-neighbor to the new children" taken when
    the base neighbor is already split. *)
Definition crossLink (tri : ptr) : M unit :=
  b <- load (Some tri) BN ;;
  blc <- load b LC ;;
  rc <- load (Some tri) RC ;;
  store blc RN rc ;;;
  b <- load (Some tri) BN ;;
  brc <- load b RC ;;
  lc <- load (Some tri) LC ;;
  store brc LN lc ;;;
  lc <- load (Some tri) LC ;;
  b <- load (Some tri) BN ;;
  brc <- load b RC ;;
  store lc RN brc ;;;
  rc <- load (Some tri) RC ;;
  b <- load (Some tri) BN ;;
  blc <- load b LC ;;
  store rc LN blc.

(** "edge triangle, trivial case" *)
Definition clearEdge (tri : ptr) : M unit :=
  lc <- load (Some tri) LC ;;
  store lc RN None ;;;
  rc <- load (Some tri) RC ;;
  store rc LN None.

Fixpoint Split (fuel : nat) (tri : option ptr) : M bool :=
  match fuel with
  | O => fail OutOfFuel
  | S fuel' =>
      leaf <- isLeaf tri ;;
      if negb leaf then ret true
      else
        b <- load tri BN ;;
        bb <- match b with Some _ => load b BN | None => ret None end ;;
        (if decide (b <> None /\ bb <> tri)
         then _ <- Split fuel' b ;; ret tt
         else ret tt) ;;;
        match tri with
        | None => fail NullPointer
        | Some t =>
            ok <- allocateChildren t ;;
            if negb ok then ret false
            else
              linkChildren t ;;;
              relinkLeft t ;;;
              relinkRight t ;;;
              b <- load tri BN ;;
              match b with
              | Some _ =>
                  br <- isBranch b ;;
                  if br then crossLink t
                  else _ <- Split fuel' b ;; ret tt
              | None => clearEdge t
              end ;;;
              ret true
        end
  end.

(** [Patch::Reset]: both roots become leaves again, attached to each other. *)
Definition Patch_Reset (p : Patch) : Patch :=
  with_nodes p
    (setLink BN (Some BaseRight) zeroNode)
    (setLink BN (Some BaseLeft) zeroNode)
    (currentPool p).

(** Pure traversals read the tree through [child]. *)
Definition child (p : Patch) (x : option ptr) (f : link) : result (option ptr) :=
  match load x f p with
  | Ok (v, _) => Ok v
  | Err e => Err e
  end.

Definition leafAt (p : Patch) (x : option ptr) : result bool :=
  match isLeaf x p with
  | Ok (v, _) => Ok v
  | Err e => Err e
  end.

Definition wrap32 (z : Z) : Z := z mod 2 ^ 32.

(** [{(left.x + right.x) >> 1, (left.y + right.y) >> 1}] *)
Definition midpoint (left right : int2.t) : int2.t :=
  int2.mk (Z.shiftr (int2.x left + int2.x right) 1)
          (Z.shiftr (int2.y left + int2.y right) 1).

(** One vertex handed to [CVertexArray::AddVertexQC]: the grid vertex it is
    read from (as the index of its first float in [vertices]), whether its
    height is replaced by [-400.0f], and the alpha byte of its colour. *)
Record borderVertex : Type := mkBorderVertex {
  vindex : Z;
  lowered : bool;
  alpha : Z
}.

Definition white (i : Z) : borderVertex := mkBorderVertex i false 255.
Definition trans (i : Z) : borderVertex := mkBorderVertex i true 0.

(** The two skirt triangles below the edge from vertex [a] to vertex [b]. *)
Definition skirt (a b : Z) : list borderVertex :=
  [white a; trans a; white b; white b; trans a; trans b].

Section PatchOps.

(** [PATCH_SIZE] and [VARIANCE_DEPTH] are macros of Patch.h. *)
Variables (PATCH_SIZE VARIANCE_DEPTH : Z).

(** [Patch::Patch()].  The null [currentPool] is an empty pool. *)
Definition Patch_new : Patch :=
  mkPatch zeroNode zeroNode (mkPool [] 0)
    (replicate (Z.to_nat (Z.shiftl 1 VARIANCE_DEPTH)) 0%Q)
    (replicate (Z.to_nat (Z.shiftl 1 VARIANCE_DEPTH)) 0%Q)
    None
    (inject_Z (2 ^ 128 - 2 ^ 104))
    1%Q
    (int2.mk (-1) (-1))
    [].

Definition varianceTable (p : Patch) (s : side) : list Q :=
  match s with
  | SideLeft => varianceLeft p
  | SideRight => varianceRight p
  end.

(** [currentVariance[node]] as an rvalue and as an lvalue. *)
Definition readVariance (node : Z) : M Q :=
  fun p => match currentVariance p with
           | None => Err NullPointer
           | Some s =>
               if node <? 0 then Err BadVarianceIndex
               else match varianceTable p s !! Z.to_nat node with
                    | Some v => Ok (v, p)
                    | None => Err BadVarianceIndex
                    end
           end.

Definition writeVariance (node : Z) (v : Q) : M unit :=
  fun p => match currentVariance p with
           | None => Err NullPointer
           | Some s =>
               if (node <? 0) || (Z.of_nat (length (varianceTable p s)) <=? node)
               then Err BadVarianceIndex
               else match s with
                    | SideLeft =>
                        Ok (tt, with_variance p (<[Z.to_nat node := v]> (varianceLeft p))
                                  (varianceRight p) (currentVariance p))
                    | SideRight =>
                        Ok (tt, with_variance p (varianceLeft p)
                                  (<[Z.to_nat node := v]> (varianceRight p)) (currentVariance p))
                    end
           end.

Definition setCurrentVariance (s : side) : M unit :=
  fun p => Ok (tt, with_variance p (varianceLeft p) (varianceRight p) (Some s)).

(** *** Patch::RecursTessellate *)

Definition footprintSmall (left right : int2.t) : bool :=
  (Z.abs (int2.x left - int2.x right) <=? 1)
  && (Z.abs (int2.y left - int2.y right) <=? 1).

Definition footprintSize (left right : int2.t) : Z :=
  let sizeX := Z.max (int2.x left - int2.x right) (int2.x right - int2.x left) in
  let sizeY := Z.max (int2.y left - int2.y right) (int2.y right - int2.y left) in
  Z.max sizeX sizeY.

(** [triVariance] as computed before the comparison with [1.0f]. *)
Definition triVariance (left right : int2.t) (node : Z) : M Q :=
  if node <? Z.shiftl 1 VARIANCE_DEPTH then
    v <- readVariance node ;;
    fun p =>
      Ok ((fmin v (varianceMaxLimit p) * inject_Z PATCH_SIZE
           * inject_Z (footprintSize left right)) * camDistLODFactor p, p)%Q
  else ret 10%Q.

(** The value returned next to the state is the list of nodes on which
    [Split] was invoked, in call order; C++ returns [void]. *)
Fixpoint RecursTessellate (fuel : nat) (tri : option ptr)
    (left right apex : int2.t) (node : Z) : M (list (option ptr)) :=
  match fuel with
  | O => fail OutOfFuel
  | S fuel' =>
      if footprintSmall left right then ret []
      else
        tv <- triVariance left right node ;;
        if Qle_bool tv 1 then ret []
        else
          _ <- Split fuel' tri ;;
          br <- isBranch tri ;;
          if br then
            let center := midpoint left right in
            lc <- load tri LC ;;
            t1 <- RecursTessellate fuel' lc apex left center (Z.shiftl node 1) ;;
            rc <- load tri RC ;;
            t2 <- RecursTessellate fuel' rc right apex center (Z.shiftl node 1 + 1) ;;
            ret (tri :: t1 ++ t2)
          else ret [tri]
  end.

(** *** Patch::RecursRender and the leaves it visits *)

Definition gridIndex (v : int2.t) : Z :=
  int2.x v + int2.y v * (PATCH_SIZE + 1).

Fixpoint RecursRender (fuel : nat) (p : Patch) (tri : option ptr)
    (left right apex : int2.t) : result (list Z) :=
  match fuel with
  | O => Err OutOfFuel
  | S fuel' =>
      match leafAt p tri with
      | Err e => Err e
      | Ok true =>
          Ok [wrap32 (gridIndex apex); wrap32 (gridIndex left); wrap32 (gridIndex right)]
      | Ok false =>
          let center := midpoint left right in
          match child p tri LC with
          | Err e => Err e
          | Ok lc =>
              match RecursRender fuel' p lc apex left center with
              | Err e => Err e
              | Ok i1 =>
                  match child p tri RC with
                  | Err e => Err e
                  | Ok rc =>
                      match RecursRender fuel' p rc right apex center with
                      | Err e => Err e
                      | Ok i2 => Ok (i1 ++ i2)
                      end
                  end
              end
          end
      end
  end.

(** [Patch::GenerateIndices]: the contents of [indices] afterwards. *)
Definition GenerateIndices (fuel : nat) (p : Patch) : result (list Z) :=
  match RecursRender fuel p (Some BaseLeft)
          (int2.mk 0 PATCH_SIZE) (int2.mk PATCH_SIZE 0) (int2.mk 0 0) with
  | Err e => Err e
  | Ok i1 =>
      match RecursRender fuel p (Some BaseRight)
              (int2.mk PATCH_SIZE 0) (int2.mk 0 PATCH_SIZE) (int2.mk PATCH_SIZE PATCH_SIZE) with
      | Err e => Err e
      | Ok i2 => Ok (i1 ++ i2)
      end
  end.

(** *** Patch::GetHeight and Patch::RecursComputeVariance *)

Definition GetHeight (pos : int2.t) : M Q :=
  fun p =>
    let vindex := (int2.y pos * (PATCH_SIZE + 1) + int2.x pos) * 3 + 1 in
    if vindex <? 0 then Err BadVertexIndex
    else match vertices p !! Z.to_nat vindex with
         | Some h => Ok (h, p)
         | None => Err BadVertexIndex
         end.

(** The test of "shore lines get more variance for higher accuracy". *)
Definition shoreLine (hgts : float3.t) (mhgt : Q) : bool :=
  Qltb (float3.x hgts * float3.y hgts) 0
  || Qltb (float3.x hgts * mhgt) 0
  || Qltb (float3.y hgts * mhgt) 0.

(** [myVariance] before the children are visited. *)
Definition localVariance (hgts : float3.t) (mhgt : Q) : Q :=
  let myVariance := Qabs (mhgt - ((float3.x hgts + float3.y hgts) * (1 # 2))) in
  if shoreLine hgts mhgt then fmax (myVariance * (3 # 2)) 20 else myVariance.

Definition recurseVariance (left rght : int2.t) : bool :=
  (4 <=? Z.abs (int2.x left - int2.x rght))
  || (4 <=? Z.abs (int2.y left - int2.y rght)).

Fixpoint RecursComputeVariance (fuel : nat) (left rght apex : int2.t)
    (hgts : float3.t) (node : Z) : M Q :=
  match fuel with
  | O => fail OutOfFuel
  | S fuel' =>
      let mpos := midpoint left rght in
      mhgt <- GetHeight mpos ;;
      let myVariance := localVariance hgts mhgt in
      myVariance <-
        (if recurseVariance left rght then
           let hgts1 := float3.mk (float3.z hgts) (float3.x hgts) mhgt in
           let hgts2 := float3.mk (float3.y hgts) (float3.z hgts) mhgt in
           child1Variance <-
             RecursComputeVariance fuel' apex left mpos hgts1 (Z.shiftl node 1) ;;
           child2Variance <-
             RecursComputeVariance fuel' rght apex mpos hgts2 (Z.shiftl node 1 + 1) ;;
           let myVariance := fmax myVariance child1Variance in
           ret (fmax myVariance child2Variance)
         else ret myVariance) ;;
      let myVariance := fmax (1 # 1000) myVariance in
      (if node <? Z.shiftl 1 VARIANCE_DEPTH
       then writeVariance node myVariance
       else ret tt) ;;;
      ret myVariance
  end.

(** [Patch::ComputeVariance]; the dirty flag is not part of the model. *)
Definition ComputeVariance (fuel : nat) : M unit :=
  setCurrentVariance SideLeft ;;;
  (let left := int2.mk 0 PATCH_SIZE in
   let rght := int2.mk PATCH_SIZE 0 in
   let apex := int2.mk 0 0 in
   hl <- GetHeight left ;;
   hr <- GetHeight rght ;;
   ha <- GetHeight apex ;;
   _ <- RecursComputeVariance fuel left rght apex (float3.mk hl hr ha) 1 ;;
   ret tt) ;;;
  setCurrentVariance SideRight ;;;
  (let left := int2.mk PATCH_SIZE 0 in
   let rght := int2.mk 0 PATCH_SIZE in
   let apex := int2.mk PATCH_SIZE PATCH_SIZE in
   hl <- GetHeight left ;;
   hr <- GetHeight rght ;;
   ha <- GetHeight apex ;;
   _ <- RecursComputeVariance fuel left rght apex (float3.mk hl hr ha) 1 ;;
   ret tt).

(** *** Patch::Tessellate

    [dist] is the value of [midPos.distance(camPos)] and [passPool] the pool
    that [CTriNodePool::GetPool(shadowPass)] returns.  The result carries
    the [Split] invocations of the two walks next to the returned flag. *)
Definition Tessellate (fuel : nat) (dist : Q) (viewRadius : Z)
    (passPool : CTriNodePool) : M (bool * list (option ptr)) :=
  (fun p => Ok (tt, with_nodes p (baseLeft p) (baseRight p) passPool)) ;;;
  (fun p =>
     let f := (dist * (300 / inject_Z viewRadius))%Q in
     let f := fmax 1 f in
     let f := (1 / f)%Q in
     Ok (tt, with_lod p (inject_Z viewRadius * (35 # 100))%Q f)) ;;;
  setCurrentVariance SideLeft ;;;
  c <- (fun p => Ok (coors p, p)) ;;
  t1 <- RecursTessellate fuel (Some BaseLeft)
          (int2.mk (int2.x c) (int2.y c + PATCH_SIZE))
          (int2.mk (int2.x c + PATCH_SIZE) (int2.y c))
          (int2.mk (int2.x c) (int2.y c)) 1 ;;
  setCurrentVariance SideRight ;;;
  t2 <- RecursTessellate fuel (Some BaseRight)
          (int2.mk (int2.x c + PATCH_SIZE) (int2.y c))
          (int2.mk (int2.x c) (int2.y c + PATCH_SIZE))
          (int2.mk (int2.x c + PATCH_SIZE) (int2.y c + PATCH_SIZE)) 1 ;;
  fun p => Ok ((negb (OutOfNodes (currentPool p)), t1 ++ t2), p).

(** *** Patch::RecursBorderRender and Patch::GenerateBorderIndices *)

Definition vertexIndex (v : int2.t) : Z := gridIndex v * 3.

Fixpoint RecursBorderRender (fuel : nat) (p : Patch) (tri : option ptr)
    (left rght apex : int2.t) (depth : Z) (leftChild : bool)
  : result (list borderVertex) :=
  match fuel with
  | O => Err OutOfFuel
  | S fuel' =>
      match leafAt p tri with
      | Err e => Err e
      | Ok true =>
          let v1 := vertexIndex apex in
          let v2 := vertexIndex left in
          let v3 := vertexIndex rght in
          if Z.land depth 1 =? 0 then Ok (skirt v2 v3)
          else if leftChild then Ok (skirt v1 v2)
          else Ok (skirt v3 v1)
      | Ok false =>
          let center := midpoint left rght in
          if Z.land depth 1 =? 0 then
            match child p tri LC with
            | Err e => Err e
            | Ok lc =>
                match RecursBorderRender fuel' p lc apex left center (depth + 1) (negb leftChild) with
                | Err e => Err e
                | Ok o1 =>
                    match child p tri RC with
                    | Err e => Err e
                    | Ok rc =>
                        match RecursBorderRender fuel' p rc rght apex center (depth + 1) leftChild with
                        | Err e => Err e
                        | Ok o2 => Ok (o1 ++ o2)
                        end
                    end
                end
            end
          else if leftChild then
            match child p tri LC with
            | Err e => Err e
            | Ok lc => RecursBorderRender fuel' p lc apex left center (depth + 1) true
            end
          else
            match child p tri RC with
            | Err e => Err e
            | Ok rc => RecursBorderRender fuel' p rc rght apex center (depth + 1) true
            end
      end
  end.

(** One guarded call of [GenerateBorderIndices], appending to [va]. *)
Definition borderWalk (fuel : nat) (p : Patch) (root : ptr) (slot : link)
    (left rght apex : int2.t) (leftChild : bool) (va : list borderVertex)
  : result (list borderVertex) :=
  match child p (Some root) slot with
  | Err e => Err e
  | Ok (Some _) => Ok va
  | Ok None =>
      match RecursBorderRender fuel p (Some root) left rght apex 1 leftChild with
      | Err e => Err e
      | Ok o => Ok (va ++ o)
      end
  end.

Definition GenerateBorderIndices (fuel : nat) (p : Patch) : result (list borderVertex) :=
  let PS := PATCH_SIZE in
  let va := [] in
  match borderWalk fuel p BaseLeft LN (int2.mk 0 PS) (int2.mk PS 0) (int2.mk 0 0) true va with
  | Err e => Err e
  | Ok va =>
  match borderWalk fuel p BaseLeft RN (int2.mk 0 PS) (int2.mk PS 0) (int2.mk 0 0) false va with
  | Err e => Err e
  | Ok va =>
  match borderWalk fuel p BaseRight RN (int2.mk PS 0) (int2.mk 0 PS) (int2.mk PS PS) false va with
  | Err e => Err e
  | Ok va =>
      borderWalk fuel p BaseRight LN (int2.mk PS 0) (int2.mk 0 PS) (int2.mk PS PS) true va
  end end end.

End PatchOps.

(** ** Notions the properties are stated with *)

(** Two heights lie on opposite sides of the water level. *)
Definition opposite (a b : Q) : Prop :=
  (a < 0 /\ 0 < b)%Q \/ (0 < a /\ b < 0)%Q.

(** A water/land crossing among the left, right and midpoint samples. *)
Definition crossing (hgts : float3.t) (mhgt : Q) : Prop :=
  opposite (float3.x hgts) (float3.y hgts)
  \/ opposite (float3.x hgts) mhgt
  \/ opposite (float3.y hgts) mhgt.

(** The distance between the midpoint height and the interpolated one. *)
Definition interpolationError (hgts : float3.t) (mhgt : Q) : Q :=
  Qabs (mhgt - (float3.x hgts + float3.y hgts) * (1 # 2)).

(** *** Reading and writing links of a patch *)

Definition nextIdx (p : Patch) : nat := nextTriNodeIdx (currentPool p).
Definition capacity (p : Patch) : nat := poolSize (currentPool p).
Definition exhausted (p : Patch) : bool := OutOfNodes (currentPool p).

(** A pointer that can be dereferenced, and one that has been handed out. *)
Definition valid (p : Patch) (x : ptr) : Prop :=
  match x with
  | PoolNode i => (i < capacity p)%nat
  | _ => True
  end.

Definition live (p : Patch) (x : ptr) : Prop :=
  match x with
  | PoolNode i => (i < nextIdx p)%nat
  | _ => True
  end.

Definition rd (p : Patch) (x : ptr) (f : link) : option ptr :=
  match nodeAt p x with
  | Some n => getLink f n
  | None => None
  end.

Definition wr (p : Patch) (x : ptr) (f : link) (v : option ptr) : Patch :=
  match nodeAt p x with
  | Some n => setNode p x (setLink f v n)
  | None => p
  end.

Definition leaf (p : Patch) (x : ptr) : bool :=
  match rd p x LC, rd p x RC with
  | None, None => true
  | _, _ => false
  end.

(** The watermark moved up by two, as a successful [Allocate] leaves it. *)
Definition bump (p : Patch) : Patch :=
  with_nodes p (baseLeft p) (baseRight p)
    (mkPool (pool (currentPool p)) (S (S (nextIdx p)))).

(** *** The phases of [Split] as state transformers

    [Split] is the composition of these pieces; [Split_unfold] below shows
    it. *)

(** The part of [Split] after the forced split of the base neighbor. *)
Definition splitRest (rec : option ptr -> M bool) (t : ptr) : M bool :=
  ok <- allocateChildren t ;;
  if negb ok then ret false
  else
    linkChildren t ;;;
    relinkLeft t ;;;
    relinkRight t ;;;
    b <- load (Some t) BN ;;
    match b with
    | Some _ =>
        br <- isBranch b ;;
        if br then crossLink t
        else _ <- rec b ;; ret tt
    | None => clearEdge t
    end ;;;
    ret true.

(** The state after a successful [allocateChildren t; linkChildren t]. *)
Definition childrenState (p : Patch) (t : ptr) : Patch :=
  let lc := PoolNode (nextIdx p) in
  let rc := PoolNode (S (nextIdx p)) in
  let q0 := wr (wr (bump p) t LC (Some lc)) t RC (Some rc) in
  let q1 := wr q0 lc BN (rd p t LN) in
  let q2 := wr q1 lc LN (Some rc) in
  let q3 := wr q2 rc BN (rd p t RN) in
  wr q3 rc RN (Some lc).

(** The first of the slots [order] of [l] that holds [t], if any. *)
Definition slotHolding (q : Patch) (l t : ptr) (order : list link) : option link :=
  List.find (fun s => bool_decide (rd q l s = Some t)) order.

(** The state after [relinkLeft] or [relinkRight]: the neighbor [nb] of [t]
    has the first of its slots that holds [t] redirected to [c]. *)
Definition relinkState (q : Patch) (t : ptr) (nb : option ptr) (order : list link)
    (c : ptr) : Patch :=
  match nb with
  | None => q
  | Some l =>
      match slotHolding q l t order with
      | Some s => wr q l s (Some c)
      | None => q
      end
  end.

Definition linkedState (p : Patch) (t : ptr) : Patch :=
  let lc := PoolNode (nextIdx p) in
  let rc := PoolNode (S (nextIdx p)) in
  let q4 := childrenState p t in
  let q5 := relinkState q4 t (rd p t LN) [BN; LN; RN] lc in
  relinkState q5 t (rd p t RN) [BN; RN; LN] rc.

(** The state after [crossLink t]. *)
Definition crossState (q : Patch) (t b lc rc blc brc : ptr) : Patch :=
  wr (wr (wr (wr q blc RN (Some rc)) brc LN (Some lc)) lc RN (Some brc)) rc LN (Some blc).

(** *** The mesh invariant

    [lv] gives every node its depth in the bintree it belongs to.  [O] is
    the set of open nodes: branches that have a base neighbor but whose
    children are not yet cross-linked with the children of that neighbor,
    which is the state of a node between its own split and the split of
    its diamond partner. *)

Definition nbr (s : link) : Prop := s = BN \/ s = LN \/ s = RN.

Definition weight (s : link) : nat :=
  match s with
  | BN => 1
  | _ => 0
  end.

Record MeshInv (lv : ptr -> nat) (O : ptr -> Prop) (p : Patch) : Prop := {
  mi_cap : (nextIdx p <= capacity p)%nat;
  mi_zero : forall i f, (nextIdx p <= i)%nat -> rd p (PoolNode i) f = None;
  mi_scope : forall x f y, live p x -> rd p x f = Some y -> live p y;
  mi_level : forall x, live p x -> (lv x <= nextIdx p)%nat;
  mi_pair : forall x, live p x -> rd p x LC = None <-> rd p x RC = None;
  mi_child : forall x f c, live p x -> f = LC \/ f = RC ->
    rd p x f = Some c -> lv c = S (lv x);
  mi_noself : forall x s, live p x -> nbr s -> rd p x s <> Some x;
  mi_sym : forall x s y, live p x -> leaf p x = true -> nbr s -> rd p x s = Some y ->
    (leaf p y = true \/ (s = BN /\ O y /\ rd p y BN = Some x))
    /\ exists s', nbr s' /\ rd p y s' = Some x
                 /\ (lv y + weight s = lv x + weight s')%nat;
  mi_dist : forall x s s' y, live p x -> leaf p x = true -> nbr s -> nbr s' ->
    rd p x s = Some y -> rd p x s' = Some y -> s = s';
  mi_branch : forall x b, live p x -> leaf p x = false -> rd p x BN = Some b ->
    rd p b BN = Some x /\ lv b = lv x /\ (leaf p b = false \/ O x);
  mi_cross : forall x b c d, live p x -> leaf p x = false -> ~ O x ->
    rd p x BN = Some b -> leaf p b = false ->
    rd p x LC = Some c -> rd p b RC = Some d ->
    leaf p c = true -> leaf p d = true ->
    rd p c RN = Some d /\ rd p d LN = Some c;
  mi_open : forall x, O x ->
    live p x /\ leaf p x = false /\ (exists b, rd p x BN = Some b)
    /\ (forall c, rd p x LC = Some c -> leaf p c = true /\ rd p c RN = None)
    /\ (forall c, rd p x RC = Some c -> leaf p c = true /\ rd p c LN = None)
}.

(** The depths and the open nodes after the leaf [t] of [p] got its two
    children and its leg neighbors were redirected to them. *)
Definition childLevel (lv : ptr -> nat) (p : Patch) (t : ptr) : ptr -> nat :=
  fun x =>
    if decide (x = PoolNode (nextIdx p) \/ x = PoolNode (S (nextIdx p)))
    then S (lv t) else lv x.

Definition openAfter (O : ptr -> Prop) (p : Patch) (t : ptr) : ptr -> Prop :=
  fun x => O x \/ (x = t /\ rd p t BN <> None).

(** A patch as [Split] calls on a freshly reset patch leave it: no node is
    open unless the pool ran out. *)
Definition Mesh (p : Patch) : Prop :=
  exists lv O, MeshInv lv O p /\ (exhausted p = false -> forall x, ~ O x).

(** Everything of a patch that [Split] never writes. *)
Definition params (p : Patch) :=
  (varianceLeft p, varianceRight p, currentVariance p, varianceMaxLimit p,
   camDistLODFactor p, coors p, vertices p).

Definition sameParams (p p' : Patch) : Prop := params p' = params p.

(** How a patch evolves while nodes of depth at most [L] are split. *)
Record ext (L : nat) (lv : ptr -> nat) (p : Patch) (lv' : ptr -> nat) (p' : Patch)
  : Prop := {
  ext_next : (nextIdx p <= nextIdx p')%nat;
  ext_cap : capacity p' = capacity p;
  ext_params : sameParams p p';
  ext_lv : forall x, live p x -> lv' x = lv x;
  ext_branch : forall x f, live p x -> leaf p x = false ->
    leaf p' x = false /\ (f = LC \/ f = RC -> rd p' x f = rd p x f);
  ext_keep : forall x, live p x -> leaf p x = true -> (L < lv x)%nat -> leaf p' x = true;
  ext_slot : forall x s, live p x -> leaf p' x = true -> nbr s ->
    rd p' x s = rd p x s
    \/ exists z c, rd p x s = Some z /\ live p z /\ leaf p' z = false
                  /\ rd p' x s = Some c /\ live p' c /\ (lv z < lv' c)%nat;
  ext_deep : forall x, live p' x -> leaf p' x = false ->
    (live p x /\ leaf p x = false) \/ (lv' x <= L)%nat
}.

(** *** Sequences of [Split] calls on a freshly reset patch *)

#[global] Instance live_dec p x : Decision (live p x).
Proof. destruct x; simpl; apply _. Defined.

(** [currentPool = CTriNodePool::GetPool(shadowPass)]. *)
Definition bindPool (p : Patch) (cp : CTriNodePool) : Patch :=
  with_nodes p (baseLeft p) (baseRight p) cp.

(** A patch after [Patch::Reset], working on a pool of [cap] slots after
    [CTriNodePool::Reset]. *)
Definition freshPatch (p0 : Patch) (cap : nat) : Patch :=
  Patch_Reset (bindPool p0 (newPool cap)).

(** [Split] called on the nodes [calls], one after the other.  A call on a
    pointer that has not been handed out is not a call on a node of the
    patch. *)
Fixpoint SplitAll (fuel : nat) (calls : list ptr) : M unit :=
  match calls with
  | [] => ret tt
  | t :: ts =>
      fun p =>
        if decide (live p t)
        then (_ <- Split fuel (Some t) ;; SplitAll fuel ts) p
        else Err NullPointer
  end.

(** The diamond invariant as the specification words it. *)
Definition diamondClaim (p : Patch) : Prop :=
  forall x b, live p x -> leaf p x = false -> rd p x BN = Some b ->
    leaf p b = false
    /\ exists c1 c2 d1 d2,
         rd p x LC = Some c1 /\ rd p x RC = Some c2
         /\ rd p b LC = Some d1 /\ rd p b RC = Some d2
         /\ rd p c1 RN = Some d2 /\ rd p c2 LN = Some d1.

(** The diamond invariant as the code keeps it: the base neighbor of a
    branch is a branch and points back, and children that face each other
    across the shared edge are cross-linked for as long as both of them
    are leaves. *)
Definition diamondInv (p : Patch) : Prop :=
  forall x b, live p x -> leaf p x = false -> rd p x BN = Some b ->
    leaf p b = false /\ rd p b BN = Some x
    /\ (forall c d, rd p x LC = Some c -> rd p b RC = Some d ->
          leaf p c = true -> leaf p d = true ->
          rd p c RN = Some d /\ rd p d LN = Some c)
    /\ (forall c d, rd p x RC = Some c -> rd p b LC = Some d ->
          leaf p c = true -> leaf p d = true ->
          rd p c LN = Some d /\ rd p d RN = Some c).

(** A patch to run examples on. *)
Definition samplePatch : Patch := Patch_new 1.

(** A computation that leaves the parameters of the patch alone and fails
    only for lack of fuel or on a bad pointer. *)
Definition tame {A} (m : M A) : Prop :=
  forall p,
    match m p with
    | Ok (_, p') => params p' = params p
    | Err e => e = OutOfFuel \/ e = NullPointer
    end.

(** The two variance tables have the size the constructor gave them, and
    [currentVariance] points into one of them. *)
Definition varSized (VARIANCE_DEPTH : Z) (p : Patch) : Prop :=
  length (varianceLeft p) = Z.to_nat (Z.shiftl 1 VARIANCE_DEPTH)
  /\ length (varianceRight p) = Z.to_nat (Z.shiftl 1 VARIANCE_DEPTH).

Definition varReady (VARIANCE_DEPTH : Z) (p : Patch) : Prop :=
  varSized VARIANCE_DEPTH p /\ currentVariance p <> None.

(** What a walk of [RecursTessellate] over a mesh returns. *)
Definition tessPost (lv : ptr -> nat) (p : Patch)
    (res : result (list (option ptr) * Patch)) : Prop :=
  exists trace lv' O' p',
    res = Ok (trace, p')
    /\ MeshInv lv' O' p'
    /\ (exhausted p' = false -> forall x, ~ O' x)
    /\ ext (capacity p) lv p lv' p'.

(** What a call [Split (Some t)] on a mesh returns: an answer, never an
    error, and a patch that is again a mesh and extends the old one. *)
Definition splitPost (lv : ptr -> nat) (p : Patch) (t : ptr)
    (res : result (bool * Patch)) : Prop :=
  exists r lv' O' p',
    res = Ok (r, p')
    /\ MeshInv lv' O' p'
    /\ (exhausted p' = false -> forall x, ~ O' x)
    /\ ext (lv t) lv p lv' p'
    /\ (exhausted p' = false -> leaf p' t = false).

(** The state in which [Tessellate] starts its first walk. *)
Definition tessStart (dist : Q) (viewRadius : Z) (passPool : CTriNodePool)
    (p : Patch) : Patch :=
  let p1 := with_nodes p (baseLeft p) (baseRight p) passPool in
  let p2 := with_lod p1 (inject_Z viewRadius * (35 # 100))%Q
              (1 / fmax 1 (dist * (300 / inject_Z viewRadius)))%Q in
  with_variance p2 (varianceLeft p2) (varianceRight p2) (Some SideLeft).

(** The entry of the variance table that [currentVariance[node]] denotes. *)
Definition storedVariance (p : Patch) (node : Z) : option Q :=
  match currentVariance p with
  | Some s => if node <? 0 then None else varianceTable p s !! Z.to_nat node
  | None => None
  end.

(** The metric of the tessellation walk as the specification words it:
    the stored variance [v] clamped by the limit, times the patch size, the
    footprint size and the LOD factor; a constant past the stored depth. *)
Definition specMetric (PATCH_SIZE VARIANCE_DEPTH : Z) (left right : int2.t)
    (node : Z) (p : Patch) (v : Q) : Q :=
  if decide (node < 2 ^ VARIANCE_DEPTH) then
    (Qmin v (varianceMaxLimit p) * inject_Z PATCH_SIZE
     * inject_Z (Z.max (Z.abs (int2.x left - int2.x right))
                       (Z.abs (int2.y left - int2.y right)))
     * camDistLODFactor p)%Q
  else 10%Q.

(** When the walk returns without splitting, as the specification words it. *)
Definition specStop (PATCH_SIZE VARIANCE_DEPTH : Z) (left right : int2.t)
    (node : Z) (p : Patch) (v : Q) : Prop :=
  (Z.abs (int2.x left - int2.x right) <= 1
   /\ Z.abs (int2.y left - int2.y right) <= 1)
  \/ (specMetric PATCH_SIZE VARIANCE_DEPTH left right node p v <= 1)%Q.

(** A patch whose variance tables hold two entries, the second one [v]. *)
Definition tablePatch (v : Q) : Patch :=
  with_variance samplePatch [0%Q; v] [0%Q; v] (Some SideLeft).

(** Heap indices in the subtree of [node]. *)
Inductive under : Z -> Z -> Prop :=
  | under_here node : under node node
  | under_left node n : under (2 * node) n -> under node n
  | under_right node n : under (2 * node + 1) n -> under node n.

(** [computed ... node p n x]: in the run of [RecursComputeVariance] on
    [node] from the state [p], the call for the heap index [n] returns
    [x]. *)
Fixpoint computed (PATCH_SIZE VARIANCE_DEPTH : Z) (fuel : nat)
    (left rght apex : int2.t) (hgts : float3.t) (node : Z) (p : Patch)
    (n : Z) (x : Q) : Prop :=
  match fuel with
  | O => False
  | S fuel' =>
      (n = node
       /\ exists p', RecursComputeVariance PATCH_SIZE VARIANCE_DEPTH (S fuel')
                       left rght apex hgts node p = Ok (x, p'))
      \/ (recurseVariance left rght = true
          /\ match GetHeight PATCH_SIZE (midpoint left rght) p with
             | Ok (mhgt, _) =>
                 let mpos := midpoint left rght in
                 let hgts1 := float3.mk (float3.z hgts) (float3.x hgts) mhgt in
                 let hgts2 := float3.mk (float3.y hgts) (float3.z hgts) mhgt in
                 computed PATCH_SIZE VARIANCE_DEPTH fuel' apex left mpos hgts1
                   (2 * node) p n x
                 \/ match RecursComputeVariance PATCH_SIZE VARIANCE_DEPTH fuel'
                            apex left mpos hgts1 (2 * node) p with
                    | Ok (_, p1) =>
                        computed PATCH_SIZE VARIANCE_DEPTH fuel' rght apex mpos hgts2
                          (2 * node + 1) p1 n x
                    | Err _ => False
                    end
             | Err _ => False
             end)
  end.

(** A run that dereferences no variance-table entry out of range, and
    leaves the tables at their size. *)
Definition inBounds {A} (VARIANCE_DEPTH : Z) (m : M A) (p : Patch) : Prop :=
  match m p with
  | Ok (_, p') => varSized VARIANCE_DEPTH p'
  | Err e => e <> BadVarianceIndex
  end.

(** A patch of 4 x 4 squares with a height field that crosses the water
    level, and variance tables of depth 3. *)
Definition heightPatch : Patch :=
  mkPatch zeroNode zeroNode (mkPool [] 0)
    (replicate 8 0%Q) (replicate 8 0%Q) (Some SideLeft) 1%Q 1%Q (int2.mk 0 0)
    (flat_map (fun i => [0%Q; inject_Z (Z.of_nat i mod 7 - 3); 0%Q]) (seq 0 25)).

(** *** Leaves and sides of a patch *)

(** A triangle by its corners [(left, right, apex)]. *)
Definition triangle : Type := int2.t * int2.t * int2.t.

(** The leaf triangles below a node, in the order in which [RecursRender]
    meets them. *)
Fixpoint leafTriangles (fuel : nat) (p : Patch) (tri : option ptr)
    (left rght apex : int2.t) : result (list triangle) :=
  match fuel with
  | O => Err OutOfFuel
  | S fuel' =>
      match leafAt p tri with
      | Err e => Err e
      | Ok true => Ok [(left, rght, apex)]
      | Ok false =>
          let center := midpoint left rght in
          match child p tri LC with
          | Err e => Err e
          | Ok lc =>
              match leafTriangles fuel' p lc apex left center with
              | Err e => Err e
              | Ok o1 =>
                  match child p tri RC with
                  | Err e => Err e
                  | Ok rc =>
                      match leafTriangles fuel' p rc rght apex center with
                      | Err e => Err e
                      | Ok o2 => Ok (o1 ++ o2)
                      end
                  end
              end
          end
      end
  end.

(** A side of the patch square: the grid points whose [ax] coordinate is
    [k]. *)
Inductive axis : Type := AxisX | AxisY.

Definition coord (ax : axis) (v : int2.t) : Z :=
  match ax with
  | AxisX => int2.x v
  | AxisY => int2.y v
  end.

Definition onSide (ax : axis) (k : Z) (v : int2.t) : bool := coord ax v =? k.

(** The edge of a triangle that lies on the side, when two of its corners
    do, directed as the triangle is wound. *)
Definition sideEdge (ax : axis) (k : Z) (t : triangle) : option (int2.t * int2.t) :=
  let '(l, r, a) := t in
  if onSide ax k l && onSide ax k r then Some (l, r)
  else if onSide ax k a && onSide ax k l then Some (a, l)
  else if onSide ax k r && onSide ax k a then Some (r, a)
  else None.

(** The skirt below the triangles of a list that have an edge on the side. *)
Definition sideSkirt (PATCH_SIZE : Z) (ax : axis) (k : Z) (ts : list triangle)
  : list borderVertex :=
  flat_map (fun t => match sideEdge ax k t with
                     | Some (u, v) => skirt (vertexIndex PATCH_SIZE u) (vertexIndex PATCH_SIZE v)
                     | None => []
                     end) ts.

(** The corners of a triangle as [RecursRender] emits them. *)
Definition cornerIndices (PATCH_SIZE : Z) (t : triangle) : list Z :=
  let '(l, r, a) := t in
  [wrap32 (gridIndex PATCH_SIZE a); wrap32 (gridIndex PATCH_SIZE l);
   wrap32 (gridIndex PATCH_SIZE r)].

Definition inPatch (PATCH_SIZE : Z) (v : int2.t) : Prop :=
  0 <= int2.x v <= PATCH_SIZE /\ 0 <= int2.y v <= PATCH_SIZE.

(** Every branch below the node has its hypotenuse midpoint on the grid. *)
Fixpoint exactTree (fuel : nat) (p : Patch) (tri : option ptr)
    (left rght apex : int2.t) : Prop :=
  match fuel with
  | O => True
  | S fuel' =>
      match leafAt p tri with
      | Ok false =>
          Z.even (int2.x left + int2.x rght) = true
          /\ Z.even (int2.y left + int2.y rght) = true
          /\ match child p tri LC with
             | Ok lc => exactTree fuel' p lc apex left (midpoint left rght)
             | Err _ => True
             end
          /\ match child p tri RC with
             | Ok rc => exactTree fuel' p rc rght apex (midpoint left rght)
             | Err _ => True
             end
      | _ => True
      end
  end.

(** The three situations in which [RecursBorderRender] is entered: the
    hypotenuse, the left leg or the right leg of the triangle lies on the
    side, and the remaining corner does not. *)
Definition borderMode (ax : axis) (k : Z) (depth : Z) (leftChild : bool)
    (left rght apex : int2.t) : Prop :=
  (Z.land depth 1 = 0 /\ leftChild = true
   /\ onSide ax k left = true /\ onSide ax k rght = true /\ onSide ax k apex = false)
  \/ (Z.land depth 1 = 1 /\ leftChild = true
      /\ onSide ax k apex = true /\ onSide ax k left = true /\ onSide ax k rght = false)
  \/ (Z.land depth 1 = 1 /\ leftChild = false
      /\ onSide ax k rght = true /\ onSide ax k apex = true /\ onSide ax k left = false).

(** At most one corner on the side. *)
Definition offSide (ax : axis) (k : Z) (left rght apex : int2.t) : Prop :=
  (onSide ax k left = false /\ onSide ax k rght = false)
  \/ (onSide ax k left = false /\ onSide ax k apex = false)
  \/ (onSide ax k rght = false /\ onSide ax k apex = false).

(** The skirt of a side when the root slot [slot] of [root] is null. *)
Definition borderOf (PATCH_SIZE : Z) (p : Patch) (root : ptr) (slot : link)
    (ax : axis) (k : Z) (ts : list triangle) : list borderVertex :=
  match rd p root slot with
  | None => sideSkirt PATCH_SIZE ax k ts
  | Some _ => []
  end.

(** The sample patch on a pool of eight nodes, both roots split. *)
Definition splitPatch : Patch :=
  match SplitAll 10 [BaseLeft] (freshPatch samplePatch 8) with
  | Ok (_, p) => p
  | Err _ => samplePatch
  end.

(** The same patch with an outer neighbor at every side. *)
Definition fencedPatch : Patch :=
  wr (wr (wr (wr splitPatch BaseLeft LN (Some BaseRight)) BaseLeft RN (Some BaseRight))
        BaseRight LN (Some BaseLeft)) BaseRight RN (Some BaseLeft).

(** *** The triangles of the bisection

    A triangle of side [s] whose hypotenuse runs along a diagonal of the
    grid, and one whose hypotenuse runs along a grid line. *)
Definition diagonal (s : Z) (l r a : int2.t) : Prop :=
  Z.abs (int2.x r - int2.x l) = s /\ Z.abs (int2.y r - int2.y l) = s
  /\ ((int2.x a = int2.x l /\ int2.y a = int2.y r)
      \/ (int2.x a = int2.x r /\ int2.y a = int2.y l)).

Definition straight (s : Z) (l r a : int2.t) : Prop :=
  (int2.y r = int2.y l /\ Z.abs (int2.x r - int2.x l) = s
   /\ 2 * int2.x a = int2.x l + int2.x r /\ 2 * Z.abs (int2.y a - int2.y l) = s)
  \/ (int2.x r = int2.x l /\ Z.abs (int2.y r - int2.y l) = s
      /\ 2 * int2.y a = int2.y l + int2.y r /\ 2 * Z.abs (int2.x a - int2.x l) = s).

(** A patch on which [ComputeVariance] can run: a height for every grid
    point and variance tables of the size the constructor gave them. *)
Definition heightsReady (PATCH_SIZE VARIANCE_DEPTH : Z) (p : Patch) : Prop :=
  3 * (PATCH_SIZE + 1) * (PATCH_SIZE + 1) <= Z.of_nat (length (vertices p))
  /\ varSized VARIANCE_DEPTH p.

(** Every branch lies at a depth below [B]. *)
Definition shallow (B : nat) (lv : ptr -> nat) (p : Patch) : Prop :=
  forall x, live p x -> leaf p x = false -> (lv x < B)%nat.

(** The triangle of a node at depth [d] below a root of side [2 ^ k]. *)
Definition shapeAt (k d : nat) (l r a : int2.t) : Prop :=
  exists i : nat,
    (i <= k)%nat
    /\ ((d = (2 * i)%nat /\ diagonal (2 ^ Z.of_nat (k - i)) l r a)
        \/ (d = (2 * i + 1)%nat /\ straight (2 ^ Z.of_nat (k - i)) l r a)).

(** ** Handing out the pools *)

Module PoolAccess.
Import Pools.

(** [CTriNodePool::GetPool(shadowPass)]: the element of [pools[shadowPass]]
    at [ThreadPool::GetThreadNum()]; [None] where the C++ index is out of
    range. *)
Definition GetPool (threadNum : Z) (shadowPass : bool) (g : globals)
  : option CTriNodePool :=
  if threadNum <? 0 then None
  else pools g shadowPass !! Z.to_nat threadNum.

End PoolAccess.

(** *** What every step of the tree code respects *)

(** A computation whose final state, when it returns, is [R]-related to
    the state it started from. *)
Definition keeps {A} (R : Patch -> Patch -> Prop) (m : M A) : Prop :=
  forall p, match m p with
            | Ok (_, p') => R p p'
            | Err _ => True
            end.

(** The pool keeps its capacity and its watermark moves up by whole
    pairs of nodes. *)
Definition grows (p p' : Patch) : Prop :=
  capacity p' = capacity p
  /\ exists k : nat, nextIdx p' = (nextIdx p + 2 * k)%nat.

(** The branch [t] keeps its two children. *)
Definition staysSplit (t : ptr) (p p' : Patch) : Prop :=
  valid p t -> leaf p t = false ->
  valid p' t /\ rd p' t LC = rd p t LC /\ rd p' t RC = rd p t RC.

(** A consistent assignment of depths: the roots are at depth 0 and a
    child is one deeper than its parent. *)
Record levels (p : Patch) (lv : ptr -> nat) : Prop := {
  lv_left : lv BaseLeft = 0%nat;
  lv_right : lv BaseRight = 0%nat;
  lv_child : forall x f c, live p x -> f = LC \/ f = RC ->
    rd p x f = Some c -> lv c = S (lv x)
}.

(** No T-junctions: what a leaf has in a neighbor slot is a leaf that has
    the first one in a neighbor slot, and the two are at the same depth
    when they meet leg to leg or base to base, while the one that meets
    with its base the leg of the other is one deeper. *)
Definition crackFree (p : Patch) : Prop :=
  exists lv, levels p lv
    /\ forall x s y, live p x -> leaf p x = true -> nbr s -> rd p x s = Some y ->
         live p y /\ leaf p y = true
         /\ exists s', nbr s' /\ rd p y s' = Some x
                       /\ (lv y + weight s = lv x + weight s')%nat.

(** *** The triangles that are drawn *)

(** Twice the signed area of a triangle, its corners taken in the order
    in which [RecursRender] emits them: apex, left, right. *)
Definition area2 (t : triangle) : Z :=
  let '(l, r, a) := t in
  (int2.x l - int2.x a) * (int2.y r - int2.y a)
  - (int2.y l - int2.y a) * (int2.x r - int2.x a).

Definition totalArea2 (ts : list triangle) : Z :=
  foldr (fun t s => area2 t + s) 0 ts.

(** The three corners of a triangle are grid points of the patch. *)
Definition triangleInPatch (PATCH_SIZE : Z) (t : triangle) : Prop :=
  let '(l, r, a) := t in
  inPatch PATCH_SIZE l /\ inPatch PATCH_SIZE r /\ inPatch PATCH_SIZE a.

(** *** What the variance pass leaves alone *)

Definition otherSide (s : side) : side :=
  match s with
  | SideLeft => SideRight
  | SideRight => SideLeft
  end.

(** A step that writes nothing but entries of the variance table [s]. *)
Record varFrame (s : side) (p p' : Patch) : Prop := {
  vf_left : baseLeft p' = baseLeft p;
  vf_right : baseRight p' = baseRight p;
  vf_pool : currentPool p' = currentPool p;
  vf_limit : varianceMaxLimit p' = varianceMaxLimit p;
  vf_factor : camDistLODFactor p' = camDistLODFactor p;
  vf_coors : coors p' = coors p;
  vf_vertices : vertices p' = vertices p;
  vf_current : currentVariance p' = currentVariance p;
  vf_other : varianceTable p' (otherSide s) = varianceTable p (otherSide s);
  vf_length : length (varianceTable p' s) = length (varianceTable p s)
}.

(** Entry [n] of the table [s] after a run from [p] and after the same
    run from [q]: the two runs wrote the same value, or none wrote. *)
Definition replayed (s : side) (p p' q q' : Patch) (n : nat) : Prop :=
  varianceTable q' s !! n = varianceTable p' s !! n
  \/ (varianceTable q' s !! n = varianceTable q s !! n
      /\ varianceTable p' s !! n = varianceTable p s !! n).

(** A height field that is [h] everywhere. *)
Definition flatHeights (PATCH_SIZE : Z) (h : Q) (p : Patch) : Prop :=
  forall pos hh, GetHeight PATCH_SIZE pos p = Ok (hh, p) -> hh = h.

(** A patch of 2 x 2 squares at height 5 throughout, with variance tables
    of depth 2. *)
Definition flatPatch : Patch :=
  mkPatch zeroNode zeroNode (mkPool [] 0)
    (replicate 4 0%Q) (replicate 4 0%Q) None 1%Q 1%Q (int2.mk 0 0)
    (replicate 27 5%Q).

(** *** Patch::Init and Patch::UpdateHeightMap *)

Definition with_vertices (p : Patch) (vs : list Q) : Patch :=
  mkPatch (baseLeft p) (baseRight p) (currentPool p) (varianceLeft p)
    (varianceRight p) (currentVariance p) (varianceMaxLimit p)
    (camDistLODFactor p) (coors p) vs.

Definition with_coors (p : Patch) (c : int2.t) : Patch :=
  mkPatch (baseLeft p) (baseRight p) (currentPool p) (varianceLeft p)
    (varianceRight p) (currentVariance p) (varianceMaxLimit p)
    (camDistLODFactor p) c (vertices p).

(** The fields of [SRectangle] that [UpdateHeightMap] reads. *)
Module SRectangle.
Record t : Type := mk { x1 : Z; z1 : Z; x2 : Z; z2 : Z }.
End SRectangle.

(** [n] rounds of a [for] loop whose counter starts at [i] and is
    incremented after each round; [s] are the locals that the body
    updates. *)
Fixpoint forLoop {S : Type} (n : nat) (i : Z) (body : Z -> S -> M S) (s : S) : M S :=
  match n with
  | O => ret s
  | Datatypes.S n' => s' <- body i s ;; forLoop n' (i + 1) body s'
  end.

(** [for (int i = lo; i <= hi; i++)] *)
Definition forUpTo {S : Type} (lo hi : Z) (body : Z -> S -> M S) (s : S) : M S :=
  forLoop (Z.to_nat (hi - lo + 1)) lo body s.

(** [vertices[i] = v] *)
Definition writeVertex (i : Z) (v : Q) : M unit :=
  fun p =>
    if (i <? 0) || (Z.of_nat (length (vertices p)) <=? i) then Err BadVertexIndex
    else Ok (tt, with_vertices p (<[Z.to_nat i := v]> (vertices p))).

Section HeightMap.

(** [PATCH_SIZE] and [SQUARE_SIZE] are macros of headers, [mapxp1] is
    [mapDims.mapxp1], and [hMap] is the array that
    [readMap->GetCornerHeightMapUnsynced()] returns, whose bounds are
    those of the map. *)
Variables (PATCH_SIZE SQUARE_SIZE mapxp1 : Z) (hMap : Z -> Q).

(** [Patch::UpdateHeightMap(rect)].  The upload to the vertex buffer and
    the dirty flag are not part of the model. *)
Definition UpdateHeightMap (rect : SRectangle.t) : M unit :=
  forUpTo (SRectangle.z1 rect) (SRectangle.z2 rect)
    (fun z _ =>
       forUpTo (SRectangle.x1 rect) (SRectangle.x2 rect)
         (fun x _ =>
            let vindex := (z * (PATCH_SIZE + 1) + x) * 3 in
            c <- (fun p => Ok (coors p, p)) ;;
            let xw := x + int2.x c in
            let zw := z + int2.y c in
            writeVertex (vindex + 1) (hMap (zw * mapxp1 + xw)))
         tt)
    tt.

(** [Patch::Init(drawer, patchX, patchZ)].  [rect] is the default
    argument of [UpdateHeightMap], which Patch.h declares; [index] is an
    [unsigned int].  The OpenGL objects are not part of the model. *)
Definition Patch_Init (patchX patchZ : Z) (rect : SRectangle.t) : M unit :=
  (fun p => Ok (tt, with_coors p (int2.mk patchX patchZ))) ;;;
  store (Some BaseLeft) BN (Some BaseRight) ;;;
  store (Some BaseRight) BN (Some BaseLeft) ;;;
  (fun p => Ok (tt, with_vertices p
                      (resize (Z.to_nat (3 * (PATCH_SIZE + 1) * (PATCH_SIZE + 1))) 0%Q
                         (vertices p)))) ;;;
  c <- (fun p => Ok (coors p, p)) ;;
  _ <- forUpTo (int2.y c) (int2.y c + PATCH_SIZE)
         (fun z index =>
            forUpTo (int2.x c) (int2.x c + PATCH_SIZE)
              (fun x index =>
                 writeVertex index (inject_Z (x * SQUARE_SIZE)) ;;;
                 let index := wrap32 (index + 1) in
                 writeVertex index 0%Q ;;;
                 let index := wrap32 (index + 1) in
                 writeVertex index (inject_Z (z * SQUARE_SIZE)) ;;;
                 ret (wrap32 (index + 1)))
              index)
         0 ;;
  UpdateHeightMap rect.

(** The assertion of [Patch::GetHeight]: the vertex holds the height of
    the map at its grid point. *)
Definition heightSynced (pos : int2.t) (p : Patch) : Prop :=
  vertices p !! Z.to_nat ((int2.y pos * (PATCH_SIZE + 1) + int2.x pos) * 3 + 1)
  = Some (hMap ((int2.y (coors p) + int2.y pos) * mapxp1
                + (int2.x (coors p) + int2.x pos))).

End HeightMap.

Definition inRect (rect : SRectangle.t) (pos : int2.t) : Prop :=
  SRectangle.x1 rect <= int2.x pos <= SRectangle.x2 rect
  /\ SRectangle.z1 rect <= int2.y pos <= SRectangle.z2 rect.

(** The index of the height of the grid point [(x, z)] in [vertices]. *)
Definition hidx (PATCH_SIZE z x : Z) : Z := (z * (PATCH_SIZE + 1) + x) * 3 + 1.

(** The heights of the grid points in [C] have been taken from the map;
    nothing else has changed. *)
Definition heightsWritten (PATCH_SIZE mapxp1 : Z) (hMap : Z -> Q)
    (C : Z -> Z -> Prop) (p q : Patch) : Prop :=
  q = with_vertices p (vertices q)
  /\ length (vertices q) = length (vertices p)
  /\ (forall z x, C z x ->
        vertices q !! Z.to_nat (hidx PATCH_SIZE z x)
        = Some (hMap ((z + int2.y (coors p)) * mapxp1 + (x + int2.x (coors p)))))
  /\ (forall i : nat, (forall z x, C z x -> Z.of_nat i <> hidx PATCH_SIZE z x) ->
        vertices q !! i = vertices p !! i).

(** The first [m] grid points, row by row, have their two coordinates and
    a height of 0 in [vs]. *)
Definition gridFilled (PATCH_SIZE SQUARE_SIZE : Z) (c : int2.t) (m : Z) (vs : list Q)
  : Prop :=
  forall r x, 0 <= r -> 0 <= x <= PATCH_SIZE -> r * (PATCH_SIZE + 1) + x < m ->
    let i := 3 * (r * (PATCH_SIZE + 1) + x) in
    vs !! Z.to_nat i = Some (inject_Z ((int2.x c + x) * SQUARE_SIZE))
    /\ vs !! Z.to_nat (i + 1) = Some 0%Q
    /\ vs !! Z.to_nat (i + 2) = Some (inject_Z ((int2.y c + r) * SQUARE_SIZE)).

(** ** Platform::GetBinaryPath (System/Platform/Misc.cpp), the [linux]
    branch *)

Module Platform.
Import Ascii.

(** [std::string::npos] *)
Definition npos : Z := 2 ^ 64 - 1.

(** The position of the last [c] in [s], if any. *)
Fixpoint last_index (s : list ascii) (c : ascii) : option nat :=
  match s with
  | [] => None
  | a :: s' =>
      match last_index s' c with
      | Some i => Some (S i)
      | None => if Ascii.eqb a c then Some 0%nat else None
      end
  end.

(** [s.find_last_of(c)] *)
Definition find_last_of (s : list ascii) (c : ascii) : Z :=
  match last_index s c with
  | Some i => Z.of_nat i
  | None => npos
  end.

(** [s.substr(0, n)] *)
Definition substr0 (s : list ascii) (n : Z) : list ascii :=
  take (Z.to_nat (Z.min n (Z.of_nat (length s)))) s.

(** [std::string path(file)]: the characters before the first NUL. *)
Fixpoint c_str (file : list ascii) : list ascii :=
  match file with
  | [] => []
  | a :: file' => if Ascii.eqb a zero then [] else a :: c_str file'
  end.

(** [readlink] is [None] when [readlink("/proc/self/exe", file, 255)]
    returns a negative value, and otherwise the bytes that it has put
    into [file], which [file[ret] = '\0'] terminates. *)
Definition GetBinaryPath (readlink : option (list ascii)) : list ascii :=
  match readlink with
  | Some file =>
      let path := c_str file in
      substr0 path (find_last_of path "/"%char)
  | None => []
  end.

End Platform.

(** *** The vertices that the skirt reads *)

(** A vertex of the skirt is read from the three floats of a grid point
    of the patch, and it is opaque exactly when it is not lowered. *)
Definition borderVertexOk (PATCH_SIZE : Z) (b : borderVertex) : Prop :=
  (exists v, inPatch PATCH_SIZE v /\ vindex b = vertexIndex PATCH_SIZE v)
  /\ 0 <= vindex b /\ vindex b + 2 < 3 * (PATCH_SIZE + 1) * (PATCH_SIZE + 1)
  /\ alpha b = (if lowered b then 0 else 255).

(** *** Counting the triangles *)

(** The branches below a node, in the order in which [RecursRender] meets
    them. *)
Fixpoint branchesBelow (fuel : nat) (p : Patch) (tri : option ptr)
  : result (list ptr) :=
  match fuel with
  | O => Err OutOfFuel
  | S fuel' =>
      match leafAt p tri with
      | Err e => Err e
      | Ok true => Ok []
      | Ok false =>
          match tri with
          | None => Err NullPointer
          | Some t =>
              match child p tri LC with
              | Err e => Err e
              | Ok lc =>
                  match branchesBelow fuel' p lc with
                  | Err e => Err e
                  | Ok b1 =>
                      match child p tri RC with
                      | Err e => Err e
                      | Ok rc =>
                          match branchesBelow fuel' p rc with
                          | Err e => Err e
                          | Ok b2 => Ok (t :: b1 ++ b2)
                          end
                      end
                  end
              end
          end
      end
  end.

(** The children of a branch are the two nodes of one allocation, handed
    out below the watermark, and no two branches share an allocation. *)
Definition pairsInv (p : Patch) : Prop :=
  Nat.Even (nextIdx p)
  /\ (forall x, valid p x -> leaf p x = false ->
        exists j : nat,
          rd p x LC = Some (PoolNode (2 * j)) /\ rd p x RC = Some (PoolNode (2 * j + 1))
          /\ (2 * j + 1 < nextIdx p)%nat)
  /\ (forall x x', valid p x -> valid p x' -> leaf p x = false ->
        rd p x LC = rd p x' LC -> x = x').

Definition keepsPairs (p p' : Patch) : Prop := pairsInv p -> pairsInv p'.

(** [z] lies [d] levels below [x]. *)
Inductive desc (p : Patch) (x : ptr) : ptr -> nat -> Prop :=
  | desc_here : desc p x x 0
  | desc_child z d f c :
      desc p x z d -> f = LC \/ f = RC -> rd p z f = Some c -> desc p x c (S d).

(** * Properties *)

(** ** The node pool *)

Lemma newPool_wf size : pool_wf (newPool size).
Proof.
  split; simpl.
  - exists 0%nat. reflexivity.
  - lia.
  - intros i n _ H. apply lookup_replicate in H. tauto.
Qed.

Lemma OutOfNodes_remaining p :
  OutOfNodes p = true <-> (poolSize p - nextTriNodeIdx p < 2)%nat \/ (poolSize p < nextTriNodeIdx p)%nat.
Proof. unfold OutOfNodes. rewrite Nat.ltb_lt. lia. Qed.

(** C3: under the arena invariant, [Allocate] either succeeds, returning
    the two slots at the watermark, both still zero-initialised, and moves
    the watermark up by exactly two; or, when fewer than two slots remain,
    fails with both outputs null and the pool untouched.  In both cases the
    outputs are null together, and the invariant (even watermark, bounded
    by the capacity) holds afterwards. *)
Theorem Allocate_spec (p : CTriNodePool) :
  pool_wf p ->
  let '(ok, l, r, p') := Allocate p in
  pool_wf p'
  /\ (l = None <-> r = None)
  /\ ((ok = true
       /\ (2 <= poolSize p - nextTriNodeIdx p)%nat
       /\ l = Some (PoolNode (nextTriNodeIdx p))
       /\ r = Some (PoolNode (S (nextTriNodeIdx p)))
       /\ poolAt p' l = Some zeroNode
       /\ poolAt p' r = Some zeroNode
       /\ nextTriNodeIdx p' = (nextTriNodeIdx p + 2)%nat
       /\ pool p' = pool p)
      \/ (ok = false
          /\ (poolSize p - nextTriNodeIdx p < 2)%nat
          /\ l = None /\ r = None
          /\ p' = p)).
Proof.
  intros [Hev Hb Hz]. unfold Allocate.
  destruct (OutOfNodes p) eqn:Ho.
  - split; [by split|]. split; [tauto|]. right.
    apply OutOfNodes_remaining in Ho. repeat split; auto. lia.
  - assert (Hlt : (nextTriNodeIdx p + 2 <= poolSize p)%nat).
    { unfold OutOfNodes in Ho. apply Nat.ltb_ge in Ho. lia. }
    unfold poolSize in *. cbn [pool nextTriNodeIdx].
    split; [|split; [split; discriminate|left]].
    + split; cbn [pool nextTriNodeIdx poolSize].
      * destruct Hev as [k Hk]. exists (S k). lia.
      * unfold poolSize. cbn. lia.
      * intros i n Hi. apply Hz. lia.
    + assert (H1 : is_Some (pool p !! nextTriNodeIdx p)) by (apply lookup_lt_is_Some; lia).
      assert (H2 : is_Some (pool p !! S (nextTriNodeIdx p))) by (apply lookup_lt_is_Some; lia).
      destruct H1 as [n1 H1], H2 as [n2 H2].
      repeat split; try lia; cbn [poolAt pool].
      * rewrite H1. f_equal. eapply Hz; [|exact H1]. lia.
      * rewrite H2. f_equal. eapply Hz; [|exact H2]. lia.
Qed.

Lemma Allocate_spec_witness :
  pool_wf (newPool 4) /\ pool_wf (snd (Allocate (newPool 4))).
Proof.
  split; [apply newPool_wf|].
  pose proof (Allocate_spec (newPool 4) (newPool_wf 4)) as H.
  destruct (Allocate (newPool 4)) as [[[ok l] r] p'].
  destruct H as [H _]. exact H.
Defined.

(** ** Pool sizing and growth *)

Module PoolsFacts.
Import Pools.

Lemma land_1_mod t : Z.land t 1 = t mod 2.
Proof. change 1 with (Z.ones 1). rewrite Z.land_ones by lia. reflexivity. Qed.

Lemma thrPoolCapacity_exact numThreads total :
  1 <= numThreads < 2 ^ 64 -> 0 <= total < 2 ^ 64 - 1 ->
  thrPoolCapacity numThreads total =
    (let t := Z.max (total / numThreads) (total / 3) in t + t mod 2).
Proof.
  intros Hn Ht. unfold thrPoolCapacity, thrPoolSize, wrap64.
  rewrite (Z.mod_small numThreads) by lia.
  cbv zeta. rewrite land_1_mod.
  set (t := Z.max _ _).
  assert (0 <= t <= total).
  { unfold t. split.
    - apply Z.max_le_iff. right. apply Z.div_pos; lia.
    - apply Z.max_lub.
      + apply Z.div_le_upper_bound; nia.
      + apply Z.div_le_upper_bound; lia. }
  pose proof (Z.mod_pos_bound t 2 ltac:(lia)).
  apply Z.mod_small. lia.
Qed.

(** C6, as the code has it: every pool that [InitPools] creates has the
    capacity [max (total / numThreads) (total / 3)], rounded up to an even
    number; the floor is one third of the total request, not of the even
    split.  There are [numThreads] such pools, all empty, and
    [CUR_POOL_SIZE] records the total. *)
Theorem InitPools_capacity numThreads shadowPass total g :
  1 <= numThreads < 2 ^ 64 -> 0 <= total < 2 ^ 64 - 1 ->
  let g' := InitPools numThreads shadowPass total g in
  let t := Z.max (total / numThreads) (total / 3) in
  CUR_POOL_SIZE g' = total
  /\ length (pools g' shadowPass) = Z.to_nat numThreads
  /\ (forall p, p ∈ pools g' shadowPass ->
        Z.of_nat (poolSize p) = t + t mod 2
        /\ Z.even (Z.of_nat (poolSize p)) = true
        /\ total / numThreads <= Z.of_nat (poolSize p)
        /\ total / 3 <= Z.of_nat (poolSize p)
        /\ nextTriNodeIdx p = 0%nat).
Proof.
  intros Hn Ht g' t. unfold g', InitPools, set_pools. cbn [CUR_POOL_SIZE pools].
  rewrite Bool.eqb_reflx, length_replicate.
  split; [reflexivity|]. split; [reflexivity|].
  intros p Hp. apply elem_of_replicate in Hp as [-> _].
  unfold newPool, poolSize. cbn [pool nextTriNodeIdx]. rewrite length_replicate.
  rewrite thrPoolCapacity_exact by assumption. cbv zeta. fold t.
  assert (0 <= t).
  { unfold t. apply Z.max_le_iff. right. apply Z.div_pos; lia. }
  pose proof (Z.mod_pos_bound t 2 ltac:(lia)).
  rewrite Z2Nat.id by lia.
  split; [reflexivity|]. split; [|split; [|split; [|reflexivity]]].
  - rewrite Z.even_add, Zmod_even. by destruct (Z.even t).
  - pose proof (Z.le_max_l (total / numThreads) (total / 3)). fold t in H1. lia.
  - pose proof (Z.le_max_r (total / numThreads) (total / 3)). fold t in H1. lia.
Qed.

Lemma InitPools_capacity_witness :
  (1 <= 6 < 2 ^ 64) /\ (0 <= 12 < 2 ^ 64 - 1)
  /\ CUR_POOL_SIZE (InitPools 6 false 12 emptyGlobals) = 12.
Proof.
  split; [lia|]. split; [lia|].
  apply (InitPools_capacity 6 false 12 emptyGlobals); lia.
Defined.

(** C6, as the specification words it, fails: with twelve slots requested
    for six threads the naive even split is two and a third of it is zero,
    but every pool gets four slots. *)
Lemma InitPools_spec_counterexample :
  ~ (forall p, p ∈ pools (InitPools 6 false 12 emptyGlobals) false ->
       Z.of_nat (poolSize p) = spec_thrPoolCapacity 6 12).
Proof.
  intros H. specialize (H (newPool 4)).
  assert (Hin : newPool 4 ∈ pools (InitPools 6 false 12 emptyGlobals) false).
  { vm_compute. constructor. }
  specialize (H Hin). vm_compute in H. discriminate.
Qed.

Lemma resetLoop_spec acc ps :
  resetLoop acc ps = (acc || existsb OutOfNodes ps, map Reset ps).
Proof.
  revert acc. induction ps as [|p ps IH]; intros acc; simpl.
  - by rewrite orb_false_r.
  - rewrite IH. by rewrite orb_assoc.
Qed.

Lemma Reset_watermark p : nextTriNodeIdx (Reset p) = 0%nat.
Proof. reflexivity. Qed.

Lemma Reset_poolSize p :
  (nextTriNodeIdx p <= poolSize p)%nat -> poolSize (Reset p) = poolSize p.
Proof.
  unfold Reset, poolSize. cbn [pool]. intros H.
  destruct (0 <? nextTriNodeIdx p)%nat; [|reflexivity].
  rewrite length_app, length_replicate, length_drop. lia.
Qed.

Lemma set_pools_same g s v : pools (set_pools g s v) s = v.
Proof. unfold set_pools. cbn. by rewrite Bool.eqb_reflx. Qed.



End PoolsFacts.

(** ** Rational arithmetic standing in for [float] *)

Lemma Qltb_lt a b : Qltb a b = true <-> (a < b)%Q.
Proof.
  unfold Qltb. rewrite negb_true_iff, <- not_true_iff_false, Qle_bool_iff.
  split; [apply Qnot_le_lt | apply Qlt_not_le].
Qed.

Lemma Qltb_ge a b : Qltb a b = false <-> (b <= a)%Q.
Proof. unfold Qltb. by rewrite negb_false_iff, Qle_bool_iff. Qed.

Lemma fmax_l a b : (a <= fmax a b)%Q.
Proof.
  unfold fmax. destruct (Qltb a b) eqn:E.
  - apply Qltb_lt in E. by apply Qlt_le_weak.
  - apply Qle_refl.
Qed.

Lemma fmax_r a b : (b <= fmax a b)%Q.
Proof.
  unfold fmax. destruct (Qltb a b) eqn:E.
  - apply Qle_refl.
  - by apply Qltb_ge in E.
Qed.

Lemma Qmult_neg_iff a b : (a * b < 0)%Q <-> opposite a b.
Proof.
  unfold opposite. destruct a as [p q], b as [p' q'].
  unfold Qlt, Qmult. cbn [Qnum Qden]. rewrite !Z.mul_1_r, !Z.mul_0_l.
  split; [|nia]. intros H.
  destruct (Z.lt_trichotomy p 0) as [|[|]], (Z.lt_trichotomy p' 0) as [|[|]];
    subst; nia.
Qed.

Lemma shoreLine_crossing hgts mhgt : shoreLine hgts mhgt = true <-> crossing hgts mhgt.
Proof.
  unfold shoreLine, crossing.
  rewrite !orb_true_iff, !Qltb_lt, !Qmult_neg_iff. tauto.
Qed.



(** ** Memory of a patch *)

Section Memory.

Implicit Types (p : Patch) (x y : ptr) (f g : link) (v : option ptr).

Lemma getLink_setLink f g v n :
  getLink g (setLink f v n) = if decide (f = g) then v else getLink g n.
Proof. by destruct f, g. Qed.

Lemma setLink_id f n : setLink f (getLink f n) n = n.
Proof. by destruct f, n. Qed.

Lemma valid_nodeAt p x : valid p x <-> is_Some (nodeAt p x).
Proof.
  destruct x; simpl; unfold capacity, poolSize; try (split; eauto; fail).
  by rewrite lookup_lt_is_Some.
Qed.

Lemma nodeAt_setNode p x n y :
  valid p x ->
  nodeAt (setNode p x n) y = if decide (x = y) then Some n else nodeAt p y.
Proof.
  intros Hv. destruct x, y; simpl in *; try done.
  destruct (decide (i = i0)) as [->|Hne].
  - rewrite decide_True by done. by apply list_lookup_insert_eq.
  - rewrite decide_False by congruence. by apply list_lookup_insert_ne.
Qed.

Lemma setNode_id p x n : nodeAt p x = Some n -> setNode p x n = p.
Proof.
  destruct p as [bl br [l k] ? ? ? ? ? ? ?], x; simpl; intros H.
  - by inversion H.
  - by inversion H.
  - unfold with_nodes; simpl. by rewrite list_insert_id.
Qed.

Lemma valid_setNode p x n y : valid (setNode p x n) y <-> valid p y.
Proof.
  destruct x, y; simpl; try tauto.
  unfold capacity, poolSize; simpl. by rewrite length_insert.
Qed.

Lemma valid_wr p x f v y : valid (wr p x f v) y <-> valid p y.
Proof. unfold wr. destruct (nodeAt p x); [apply valid_setNode | tauto]. Qed.

Lemma nextIdx_wr p x f v : nextIdx (wr p x f v) = nextIdx p.
Proof. unfold wr. destruct (nodeAt p x); [|done]. by destruct x. Qed.

Lemma capacity_wr p x f v : capacity (wr p x f v) = capacity p.
Proof.
  unfold wr. destruct (nodeAt p x); [|done].
  destruct x; try done. unfold capacity, poolSize; simpl. by rewrite length_insert.
Qed.

Lemma live_wr p x f v y : live (wr p x f v) y <-> live p y.
Proof. destruct y; simpl; try tauto. by rewrite nextIdx_wr. Qed.

Lemma exhausted_wr p x f v : exhausted (wr p x f v) = exhausted p.
Proof.
  unfold exhausted, OutOfNodes.
  change (poolSize (currentPool ?q)) with (capacity q).
  change (nextTriNodeIdx (currentPool ?q)) with (nextIdx q).
  by rewrite capacity_wr, nextIdx_wr.
Qed.

Lemma rd_wr p x f v y g :
  valid p x ->
  rd (wr p x f v) y g = if decide (x = y /\ f = g) then v else rd p y g.
Proof.
  intros Hv. unfold rd, wr.
  destruct (proj1 (valid_nodeAt p x) Hv) as [n Hn]. rewrite Hn.
  rewrite nodeAt_setNode by done.
  destruct (decide (x = y)) as [->|Hne].
  - rewrite Hn, getLink_setLink.
    destruct (decide (f = g)); [by rewrite decide_True | by rewrite decide_False by tauto].
  - by rewrite decide_False by tauto.
Qed.

Lemma rd_wr_eq p x f v : valid p x -> rd (wr p x f v) x f = v.
Proof. intros. rewrite rd_wr by done. by rewrite decide_True. Qed.

Lemma rd_wr_ne p x f v y g : x <> y \/ f <> g -> rd (wr p x f v) y g = rd p y g.
Proof.
  intros Hne. unfold rd, wr. destruct (nodeAt p x) as [n|] eqn:Hn; [|done].
  assert (Hv : valid p x) by (apply valid_nodeAt; eauto).
  rewrite nodeAt_setNode by done.
  destruct (decide (x = y)) as [->|]; [|done].
  rewrite Hn, getLink_setLink. destruct (decide (f = g)); [tauto|done].
Qed.

Lemma wr_id p x f : wr p x f (rd p x f) = p.
Proof.
  unfold wr, rd. destruct (nodeAt p x) as [n|] eqn:Hn; [|done].
  rewrite setLink_id. by apply setNode_id.
Qed.

Lemma rd_invalid p x f : ~ valid p x -> rd p x f = None.
Proof.
  intros H. unfold rd. destruct (nodeAt p x) eqn:E; [|done].
  exfalso. apply H, valid_nodeAt. eauto.
Qed.

Lemma load_ok p x f : valid p x -> load (Some x) f p = Ok (rd p x f, p).
Proof.
  intros Hv. unfold load, rd.
  by destruct (proj1 (valid_nodeAt p x) Hv) as [n ->].
Qed.

Lemma store_ok p x f v : valid p x -> store (Some x) f v p = Ok (tt, wr p x f v).
Proof.
  intros Hv. unfold store, wr.
  by destruct (proj1 (valid_nodeAt p x) Hv) as [n ->].
Qed.

Lemma IsLeaf_leaf p x n : nodeAt p x = Some n -> IsLeaf n = leaf p x.
Proof. intros H. unfold leaf, rd, IsLeaf. by rewrite H. Qed.

Lemma isLeaf_ok p x : valid p x -> isLeaf (Some x) p = Ok (leaf p x, p).
Proof.
  intros Hv. unfold isLeaf.
  destruct (proj1 (valid_nodeAt p x) Hv) as [n Hn]. rewrite Hn.
  by rewrite (IsLeaf_leaf p x n).
Qed.

Lemma isBranch_ok p x : valid p x -> isBranch (Some x) p = Ok (negb (leaf p x), p).
Proof. intros Hv. unfold isBranch, bind. by rewrite isLeaf_ok. Qed.

Lemma leaf_wr p x f v y :
  f <> LC -> f <> RC -> leaf (wr p x f v) y = leaf p y.
Proof. intros H1 H2. unfold leaf. rewrite !rd_wr_ne by auto. done. Qed.

Lemma bind_ok {A B} (m : M A) (k : A -> M B) p a p' :
  m p = Ok (a, p') -> bind m k p = k a p'.
Proof. unfold bind. by intros ->. Qed.

Lemma bind_err {A B} (m : M A) (k : A -> M B) p e :
  m p = Err e -> bind m k p = Err e.
Proof. unfold bind. by intros ->. Qed.

Lemma bind_inv {A B} (m : M A) (k : A -> M B) p b p' :
  bind m k p = Ok (b, p') -> exists a p1, m p = Ok (a, p1) /\ k a p1 = Ok (b, p').
Proof. unfold bind. destruct (m p) as [[a p1]|]; [eauto|done]. Qed.

Lemma nodeAt_bump p x : nodeAt (bump p) x = nodeAt p x.
Proof. by destruct x. Qed.

Lemma rd_bump p x f : rd (bump p) x f = rd p x f.
Proof. unfold rd. by rewrite nodeAt_bump. Qed.

Lemma valid_bump p x : valid (bump p) x <-> valid p x.
Proof. by destruct x. Qed.

Lemma valid_wr_2 p x f v y : valid p y -> valid (wr p x f v) y.
Proof. apply valid_wr. Qed.

Lemma valid_bump_2 p y : valid p y -> valid (bump p) y.
Proof. apply valid_bump. Qed.

End Memory.

Ltac vsolve :=
  repeat first [apply valid_wr_2 | apply valid_bump_2];
  first [assumption | simpl; lia].

Ltac rds :=
  repeat first
    [ rewrite rd_wr_eq by vsolve
    | rewrite rd_wr_ne by (first [right; discriminate | left; congruence])
    | rewrite rd_bump ].

(** ** Once the pool is exhausted *)

Section Exhausted.

Implicit Types (p : Patch) (x y : ptr) (f g : link) (v : option ptr).

Lemma with_nodes_id p : with_nodes p (baseLeft p) (baseRight p) (currentPool p) = p.
Proof. by destruct p. Qed.

Lemma isLeaf_inv tri p b p1 :
  isLeaf tri p = Ok (b, p1) ->
  p1 = p /\ exists t, tri = Some t /\ valid p t /\ b = leaf p t.
Proof.
  unfold isLeaf. destruct tri as [t|]; [|done].
  destruct (nodeAt p t) as [n|] eqn:Hn; [|done].
  intros [= <- <-]. split; [done|]. exists t.
  split; [done|]. split; [apply valid_nodeAt; eauto | by apply IsLeaf_leaf].
Qed.

Lemma load_inv tri f p v p1 :
  load tri f p = Ok (v, p1) ->
  p1 = p /\ exists t, tri = Some t /\ valid p t /\ v = rd p t f.
Proof.
  unfold load. destruct tri as [t|]; [|done].
  destruct (nodeAt p t) as [n|] eqn:Hn; [|done].
  intros [= <- <-]. split; [done|]. exists t.
  split; [done|]. split; [apply valid_nodeAt; eauto|].
  unfold rd. by rewrite Hn.
Qed.

Lemma allocateChildren_exhausted t p :
  exhausted p = true -> valid p t -> leaf p t = true ->
  allocateChildren t p = Ok (false, p).
Proof.
  intros Ho Hv Hl. unfold allocateChildren, Allocate.
  unfold exhausted in Ho. rewrite Ho, with_nodes_id.
  assert (rd p t LC = None /\ rd p t RC = None) as [H1 H2].
  { unfold leaf in Hl. by destruct (rd p t LC), (rd p t RC). }
  assert (W1 : wr p t LC None = p) by (rewrite <- H1; apply wr_id).
  assert (W2 : wr p t RC None = p) by (rewrite <- H2; apply wr_id).
  rewrite (bind_ok _ _ _ _ _ (store_ok p t LC None Hv)), W1.
  by rewrite (bind_ok _ _ _ _ _ (store_ok p t RC None Hv)), W2.
Qed.

Lemma Split_exhausted fuel tri p r p' :
  exhausted p = true -> Split fuel tri p = Ok (r, p') -> p' = p.
Proof.
  revert tri p r p'. induction fuel as [|fuel IH]; intros tri p r p' Ho; [done|].
  cbn [Split]. intros H.
  apply bind_inv in H as (lf & p1 & H1 & H).
  apply isLeaf_inv in H1 as [-> (t & -> & Hv & ->)].
  destruct (leaf p t) eqn:Hl; cbn [negb] in H; cbv iota in H; [|unfold ret in H; by inversion H].
  apply bind_inv in H as (b & p1 & H1 & H).
  apply load_inv in H1 as [-> (? & [= <-] & _ & ->)].
  apply bind_inv in H as (bb & p1 & H1 & H).
  assert (p1 = p) as ->.
  { destruct (rd p t BN); [by apply load_inv in H1 as [-> _] | by inversion H1]. }
  apply bind_inv in H as ([] & p1 & H2 & H).
  assert (p1 = p) as ->.
  { destruct (decide _); [|by inversion H2].
    apply bind_inv in H2 as (? & p2 & H2 & H3). inversion H3; subst.
    by apply IH in H2. }
  rewrite (bind_ok _ _ _ _ _ (allocateChildren_exhausted t p Ho Hv Hl)) in H.
  by inversion H.
Qed.

End Exhausted.

(** ** The phases of [Split] *)

Section Phases.

Implicit Types (p q : Patch) (x y t : ptr) (f g s : link) (v : option ptr).

Lemma Split_unfold fuel tri :
  Split (S fuel) tri =
    (leaf <- isLeaf tri ;;
     if negb leaf then ret true
     else
       b <- load tri BN ;;
       bb <- match b with Some _ => load b BN | None => ret None end ;;
       (if decide (b <> None /\ bb <> tri)
        then _ <- Split fuel b ;; ret tt
        else ret tt) ;;;
       match tri with
       | None => fail NullPointer
       | Some t => splitRest (Split fuel) t
       end).
Proof. by destruct tri. Qed.

Lemma bind_load {B} p x f (k : option ptr -> M B) :
  valid p x -> bind (load (Some x) f) k p = k (rd p x f) p.
Proof. intros Hv. by rewrite (bind_ok _ _ _ _ _ (load_ok p x f Hv)). Qed.

Lemma bind_store {B} p x f v (k : unit -> M B) :
  valid p x -> bind (store (Some x) f v) k p = k tt (wr p x f v).
Proof. intros Hv. by rewrite (bind_ok _ _ _ _ _ (store_ok p x f v Hv)). Qed.

Lemma bind_isBranch {B} p x (k : bool -> M B) :
  valid p x -> bind (isBranch (Some x)) k p = k (negb (leaf p x)) p.
Proof. intros Hv. by rewrite (bind_ok _ _ _ _ _ (isBranch_ok p x Hv)). Qed.

Lemma bind_isLeaf {B} p x (k : bool -> M B) :
  valid p x -> bind (isLeaf (Some x)) k p = k (leaf p x) p.
Proof. intros Hv. by rewrite (bind_ok _ _ _ _ _ (isLeaf_ok p x Hv)). Qed.

Lemma nextIdx_bump p : nextIdx (bump p) = S (S (nextIdx p)).
Proof. reflexivity. Qed.

Lemma capacity_bump p : capacity (bump p) = capacity p.
Proof. reflexivity. Qed.

Lemma exhausted_false p : exhausted p = false <-> (nextIdx p + 2 <= capacity p)%nat.
Proof. unfold exhausted, OutOfNodes, nextIdx, capacity. rewrite Nat.ltb_ge. lia. Qed.

Lemma allocateChildren_ok t p :
  exhausted p = false -> valid p t ->
  allocateChildren t p
  = Ok (true, wr (wr (bump p) t LC (Some (PoolNode (nextIdx p)))) t RC
                 (Some (PoolNode (S (nextIdx p))))).
Proof.
  intros Ho Hv. unfold allocateChildren, Allocate.
  unfold exhausted in Ho. rewrite Ho. cbn [nextTriNodeIdx pool].
  fold (nextIdx p). fold (bump p).
  rewrite bind_store by by apply valid_bump.
  rewrite bind_store by by apply valid_wr, valid_bump.
  reflexivity.
Qed.

Lemma linkChildren_exec p t :
  let lc := PoolNode (nextIdx p) in
  let rc := PoolNode (S (nextIdx p)) in
  valid p t -> valid p lc -> valid p rc -> t <> lc -> t <> rc ->
  linkChildren t (wr (wr (bump p) t LC (Some lc)) t RC (Some rc))
  = Ok (tt, childrenState p t).
Proof.
  intros lc rc Ht Hlc Hrc N1 N2. unfold linkChildren, childrenState.
  fold lc rc. cbv zeta.
  set (q0 := wr (wr (bump p) t LC (Some lc)) t RC (Some rc)).
  assert (E1 : rd q0 t LC = Some lc) by (unfold q0; rds; done).
  assert (E2 : rd q0 t RC = Some rc) by (unfold q0; rds; done).
  assert (E3 : rd q0 t LN = rd p t LN) by (unfold q0; rds; done).
  assert (E4 : rd q0 t RN = rd p t RN) by (unfold q0; rds; done).
  assert (V0 : forall y, valid p y -> valid q0 y) by (intros; unfold q0; vsolve).
  rewrite bind_load by auto. rewrite E1.
  rewrite bind_load by auto. rewrite E3.
  rewrite bind_store by auto.
  set (q1 := wr q0 lc BN _).
  rewrite bind_load by (unfold q1; vsolve; auto).
  replace (rd q1 t LC) with (Some lc) by (unfold q1; rds; done).
  rewrite bind_load by (unfold q1; vsolve; auto).
  replace (rd q1 t RC) with (Some rc) by (unfold q1; rds; done).
  rewrite bind_store by (unfold q1; apply valid_wr_2; auto).
  set (q2 := wr q1 lc LN _).
  rewrite bind_load by (unfold q2, q1; do 2 apply valid_wr_2; auto).
  replace (rd q2 t RC) with (Some rc) by (unfold q2, q1; rds; done).
  rewrite bind_load by (unfold q2, q1; do 2 apply valid_wr_2; auto).
  replace (rd q2 t RN) with (rd p t RN) by (unfold q2, q1; rds; done).
  rewrite bind_store by (unfold q2, q1; do 2 apply valid_wr_2; auto).
  set (q3 := wr q2 rc BN _).
  rewrite bind_load by (unfold q3, q2, q1; do 3 apply valid_wr_2; auto).
  replace (rd q3 t RC) with (Some rc) by (unfold q3, q2, q1; rds; done).
  rewrite bind_load by (unfold q3, q2, q1; do 3 apply valid_wr_2; auto).
  replace (rd q3 t LC) with (Some lc) by (unfold q3, q2, q1; rds; done).
  rewrite store_ok by (unfold q3, q2, q1; do 3 apply valid_wr_2; auto).
  reflexivity.
Qed.

Lemma relinkLeft_exec q t nb lc :
  valid q t -> rd q t LN = nb -> rd q t LC = Some lc ->
  (forall l, nb = Some l -> valid q l) ->
  relinkLeft t q = Ok (tt, relinkState q t nb [BN; LN; RN] lc).
Proof.
  intros Ht Hn Hc Hv. unfold relinkLeft, relinkState, slotHolding.
  rewrite bind_load by done. rewrite Hn.
  destruct nb as [l|]; [|done]. specialize (Hv l eq_refl).
  rewrite bind_load by done. rewrite Hc.
  rewrite bind_load by done. cbn [find].
  destruct (decide (rd q l BN = Some t)) as [E|E].
  { rewrite bool_decide_eq_true_2 by done. by rewrite store_ok. }
  rewrite bool_decide_eq_false_2 by done.
  rewrite bind_load by done.
  destruct (decide (rd q l LN = Some t)) as [E1|E1].
  { rewrite bool_decide_eq_true_2 by done. by rewrite store_ok. }
  rewrite bool_decide_eq_false_2 by done.
  rewrite bind_load by done.
  destruct (decide (rd q l RN = Some t)) as [E2|E2].
  { rewrite bool_decide_eq_true_2 by done. by rewrite store_ok. }
  by rewrite bool_decide_eq_false_2 by done.
Qed.

Lemma relinkRight_exec q t nb rc :
  valid q t -> rd q t RN = nb -> rd q t RC = Some rc ->
  (forall l, nb = Some l -> valid q l) ->
  relinkRight t q = Ok (tt, relinkState q t nb [BN; RN; LN] rc).
Proof.
  intros Ht Hn Hc Hv. unfold relinkRight, relinkState, slotHolding.
  rewrite bind_load by done. rewrite Hn.
  destruct nb as [l|]; [|done]. specialize (Hv l eq_refl).
  rewrite bind_load by done. rewrite Hc.
  rewrite bind_load by done. cbn [find].
  destruct (decide (rd q l BN = Some t)) as [E|E].
  { rewrite bool_decide_eq_true_2 by done. by rewrite store_ok. }
  rewrite bool_decide_eq_false_2 by done.
  rewrite bind_load by done.
  destruct (decide (rd q l RN = Some t)) as [E1|E1].
  { rewrite bool_decide_eq_true_2 by done. by rewrite store_ok. }
  rewrite bool_decide_eq_false_2 by done.
  rewrite bind_load by done.
  destruct (decide (rd q l LN = Some t)) as [E2|E2].
  { rewrite bool_decide_eq_true_2 by done. by rewrite store_ok. }
  by rewrite bool_decide_eq_false_2 by done.
Qed.

Lemma crossLink_exec q t b lc rc blc brc :
  valid q t -> valid q b -> valid q lc -> valid q rc -> valid q blc -> valid q brc ->
  rd q t BN = Some b -> rd q t LC = Some lc -> rd q t RC = Some rc ->
  rd q b LC = Some blc -> rd q b RC = Some brc ->
  crossLink t q = Ok (tt, crossState q t b lc rc blc brc).
Proof.
  intros Vt Vb Vlc Vrc Vblc Vbrc Eb Elc Erc Eblc Ebrc.
  unfold crossLink, crossState.
  rewrite bind_load by done. rewrite Eb.
  rewrite bind_load by done. rewrite Eblc.
  rewrite bind_load by done. rewrite Erc.
  rewrite bind_store by done.
  set (q1 := wr q blc RN _).
  assert (R1 : forall x f, f <> RN -> rd q1 x f = rd q x f)
    by (intros; unfold q1; by rewrite rd_wr_ne by auto).
  assert (V1 : forall y, valid q y -> valid q1 y) by (intros; unfold q1; vsolve).
  rewrite bind_load by auto. rewrite R1, Eb by done.
  rewrite bind_load by auto. rewrite R1, Ebrc by done.
  rewrite bind_load by auto. rewrite R1, Elc by done.
  rewrite bind_store by auto.
  set (q2 := wr q1 brc LN _).
  assert (R2 : forall x f, f <> RN -> f <> LN -> rd q2 x f = rd q x f)
    by (intros; unfold q2; rewrite rd_wr_ne by auto; auto).
  assert (V2 : forall y, valid q y -> valid q2 y) by (intros; unfold q2; vsolve; auto).
  rewrite bind_load by auto. rewrite R2, Elc by done.
  rewrite bind_load by auto. rewrite R2, Eb by done.
  rewrite bind_load by auto. rewrite R2, Ebrc by done.
  rewrite bind_store by auto.
  set (q3 := wr q2 lc RN _).
  assert (R3 : forall x f, f <> RN -> f <> LN -> rd q3 x f = rd q x f)
    by (intros; unfold q3; rewrite rd_wr_ne by auto; auto).
  assert (V3 : forall y, valid q y -> valid q3 y) by (intros; unfold q3; vsolve; auto).
  rewrite bind_load by auto. rewrite R3, Erc by done.
  rewrite bind_load by auto. rewrite R3, Eb by done.
  rewrite bind_load by auto. rewrite R3, Eblc by done.
  by rewrite store_ok by auto.
Qed.

Lemma clearEdge_exec q t lc rc :
  valid q t -> valid q lc -> valid q rc ->
  rd q t LC = Some lc -> rd q t RC = Some rc ->
  clearEdge t q = Ok (tt, wr (wr q lc RN None) rc LN None).
Proof.
  intros Vt Vlc Vrc Elc Erc. unfold clearEdge.
  rewrite bind_load by done. rewrite Elc.
  rewrite bind_store by done.
  rewrite bind_load by vsolve. rewrite rd_wr_ne, Erc by (right; discriminate).
  by rewrite store_ok by vsolve.
Qed.

End Phases.

(** ** One split step preserves the mesh invariant *)

Section Char.
Implicit Types (p q : Patch) (x y t : ptr) (f g s : link) (v : option ptr).

Lemma live_ne_fresh p t i : live p t -> (nextIdx p <= i)%nat -> t <> PoolNode i.
Proof. intros Hl Hi ->. simpl in Hl. lia. Qed.

Lemma childrenState_rd p t x f :
  valid p t -> (nextIdx p + 2 <= capacity p)%nat -> live p t ->
  rd (childrenState p t) x f =
    if decide (x = PoolNode (S (nextIdx p))) then
      match f with
      | RN => Some (PoolNode (nextIdx p))
      | BN => rd p t RN
      | _ => rd p x f
      end
    else if decide (x = PoolNode (nextIdx p)) then
      match f with
      | LN => Some (PoolNode (S (nextIdx p)))
      | BN => rd p t LN
      | _ => rd p x f
      end
    else if decide (x = t) then
      match f with
      | LC => Some (PoolNode (nextIdx p))
      | RC => Some (PoolNode (S (nextIdx p)))
      | _ => rd p x f
      end
    else rd p x f.
Proof.
  intros Vt Hcap Lt.
  assert (N1 : t <> PoolNode (nextIdx p)) by (apply (live_ne_fresh p); [done|lia]).
  assert (N2 : t <> PoolNode (S (nextIdx p))) by (apply (live_ne_fresh p); [done|lia]).
  assert (V1 : valid p (PoolNode (nextIdx p))) by (simpl; lia).
  assert (V2 : valid p (PoolNode (S (nextIdx p)))) by (simpl; lia).
  unfold childrenState. cbv zeta.
  rewrite !rd_wr by vsolve. rewrite rd_bump.
  destruct f; repeat case_decide; destruct_and?; subst; try congruence; try done.
  all: try (exfalso; naive_solver).
  all: try (exfalso; match goal with H : PoolNode _ = PoolNode _ |- _ => inversion H; lia end).
Qed.

Lemma nbr_order1 s : nbr s <-> In s [BN; LN; RN].
Proof. unfold nbr. simpl. intuition congruence. Qed.

Lemma nbr_order2 s : nbr s <-> In s [BN; RN; LN].
Proof. unfold nbr. simpl. intuition congruence. Qed.

Lemma relinkState_rd q t l order c x f :
  valid q l ->
  (forall s, nbr s <-> In s order) ->
  (forall s s', nbr s -> nbr s' -> rd q l s = Some t -> rd q l s' = Some t -> s = s') ->
  rd (relinkState q t (Some l) order c) x f
  = if decide (x = l /\ nbr f /\ rd q l f = Some t) then Some c else rd q x f.
Proof.
  intros Vl Ho Hu. unfold relinkState, slotHolding.
  destruct (find _ order) as [s|] eqn:E.
  - apply find_some in E as [Hin Hb]. apply bool_decide_eq_true in Hb.
    apply Ho in Hin. rewrite rd_wr by done.
    destruct (decide (l = x /\ s = f)) as [[-> ->]|N].
    + by rewrite decide_True.
    + rewrite decide_False; [done|]. intros (-> & Hf & Ht).
      apply N. split; [done|]. by apply Hu.
  - rewrite decide_False; [done|]. intros (-> & Hf & Ht).
    apply Ho in Hf. eapply find_none in E; [|exact Hf].
    apply bool_decide_eq_false in E. done.
Qed.


Lemma params_wr p x f v : params (wr p x f v) = params p.
Proof. unfold wr. destruct (nodeAt p x); [|done]. by destruct x. Qed.

Lemma params_bump p : params (bump p) = params p.
Proof. reflexivity. Qed.

Lemma relinkState_params q t nb order c : params (relinkState q t nb order c) = params q.
Proof.
  unfold relinkState. destruct nb; [|done].
  destruct (slotHolding _ _ _ _); [apply params_wr | done].
Qed.

Lemma relinkState_nextIdx q t nb order c : nextIdx (relinkState q t nb order c) = nextIdx q.
Proof.
  unfold relinkState. destruct nb; [|done].
  destruct (slotHolding _ _ _ _); [apply nextIdx_wr | done].
Qed.

Lemma relinkState_capacity q t nb order c : capacity (relinkState q t nb order c) = capacity q.
Proof.
  unfold relinkState. destruct nb; [|done].
  destruct (slotHolding _ _ _ _); [apply capacity_wr | done].
Qed.

Lemma childrenState_nextIdx p t : nextIdx (childrenState p t) = S (S (nextIdx p)).
Proof. unfold childrenState. cbv zeta. by rewrite !nextIdx_wr. Qed.

Lemma childrenState_capacity p t : capacity (childrenState p t) = capacity p.
Proof. unfold childrenState. cbv zeta. by rewrite !capacity_wr. Qed.

Lemma childrenState_params p t : params (childrenState p t) = params p.
Proof. unfold childrenState. cbv zeta. by rewrite !params_wr. Qed.

Lemma linkedState_nextIdx p t : nextIdx (linkedState p t) = S (S (nextIdx p)).
Proof. unfold linkedState. cbv zeta. by rewrite !relinkState_nextIdx, childrenState_nextIdx. Qed.

Lemma linkedState_capacity p t : capacity (linkedState p t) = capacity p.
Proof. unfold linkedState. cbv zeta. by rewrite !relinkState_capacity, childrenState_capacity. Qed.

Lemma linkedState_params p t : params (linkedState p t) = params p.
Proof. unfold linkedState. cbv zeta. by rewrite !relinkState_params, childrenState_params. Qed.

Lemma leaf_true p x : leaf p x = true <-> rd p x LC = None /\ rd p x RC = None.
Proof. unfold leaf. destruct (rd p x LC), (rd p x RC); intuition congruence. Qed.

Section Linked.

Context (lv : ptr -> nat) (O : ptr -> Prop) (p : Patch) (t : ptr).
Hypothesis Hinv : MeshInv lv O p.
Hypothesis Hex : exhausted p = false.
Hypothesis Lt : live p t.
Hypothesis Hleaf : leaf p t = true.

Local Notation "'lc'" := (PoolNode (nextIdx p)).
Local Notation "'rc'" := (PoolNode (S (nextIdx p))).

Lemma live_valid x : live p x -> valid p x.
Proof. pose proof (mi_cap _ _ _ Hinv). destruct x; simpl; [done|done|lia]. Qed.

Lemma fresh_cap : (nextIdx p + 2 <= capacity p)%nat.
Proof. by apply exhausted_false. Qed.

Lemma live_fresh x : live p x -> x <> lc /\ x <> rc.
Proof.
  intros H. split; apply (live_ne_fresh p); try done; lia.
Qed.

Lemma rd_live x f y : rd p x f = Some y -> live p x.
Proof.
  intros H. destruct x as [| |i]; simpl; try done.
  destruct (decide (i < nextIdx p)%nat); [done|].
  rewrite (mi_zero _ _ _ Hinv) in H by lia. done.
Qed.

(** A neighbor of the leaf [t] through slot [s]. *)
Lemma leaf_nbr s l :
  nbr s -> rd p t s = Some l ->
  live p l /\ l <> t
  /\ (leaf p l = true \/ (s = BN /\ O l /\ rd p l BN = Some t))
  /\ exists s0, nbr s0 /\ rd p l s0 = Some t
               /\ (lv l + weight s = lv t + weight s0)%nat.
Proof.
  intros Hs E.
  destruct (mi_sym _ _ _ Hinv t s l Lt Hleaf Hs E) as [Hl Hb].
  split; [by eapply mi_scope|]. split; [|done].
  intros ->. by eapply (mi_noself _ _ _ Hinv t s).
Qed.

Lemma leg_unique s l s1 s2 :
  nbr s -> s <> BN -> rd p t s = Some l ->
  nbr s1 -> nbr s2 -> rd p l s1 = Some t -> rd p l s2 = Some t -> s1 = s2.
Proof.
  intros Hs Hne E H1 H2 E1 E2.
  destruct (leaf_nbr s l Hs E) as (Ll & _ & [Hl|[? _]] & _); [|done].
  by eapply (mi_dist _ _ _ Hinv l s1 s2 t).
Qed.

Lemma linkedState_rd x f :
  rd (linkedState p t) x f =
    if decide (x = rc) then
      match f with RN => Some lc | BN => rd p t RN | _ => None end
    else if decide (x = lc) then
      match f with LN => Some rc | BN => rd p t LN | _ => None end
    else if decide (x = t) then
      match f with LC => Some lc | RC => Some rc | _ => rd p t f end
    else if decide (nbr f /\ rd p x f = Some t /\ rd p t LN = Some x) then Some lc
    else if decide (nbr f /\ rd p x f = Some t /\ rd p t RN = Some x) then Some rc
    else rd p x f.
Proof.
  pose proof fresh_cap as Hcap.
  pose proof (live_fresh t Lt) as [N1 N2].
  pose proof (live_valid t Lt) as Vt.
  assert (Z1 : forall g, rd p lc g = None) by (intros; apply (mi_zero _ _ _ Hinv); lia).
  assert (Z2 : forall g, rd p rc g = None) by (intros; apply (mi_zero _ _ _ Hinv); lia).
  assert (Q4 : forall y g, y <> t -> y <> lc -> y <> rc ->
            rd (childrenState p t) y g = rd p y g).
  { intros y g A B C. rewrite childrenState_rd by done.
    by rewrite !decide_False by done. }
  assert (V4 : forall y, live p y -> valid (childrenState p t) y).
  { intros y Hy. unfold childrenState. cbv zeta.
    repeat first [apply valid_wr_2 | apply valid_bump_2]. by apply live_valid. }
  unfold linkedState. cbv zeta.
  set (q4 := childrenState p t) in *.
  set (q5 := relinkState q4 t (rd p t LN) [BN; LN; RN] lc).
  (* the left neighbor *)
  assert (Q5 : forall y g, rd q5 y g =
            if decide (nbr g /\ rd p y g = Some t /\ rd p t LN = Some y)
            then Some lc else rd q4 y g).
  { intros y g. unfold q5. destruct (rd p t LN) as [l|] eqn:EL.
    - destruct (leaf_nbr LN l) as (Ll & Nl & _ & _); [unfold nbr; auto|done|].
      destruct (live_fresh l Ll) as [? ?].
      rewrite relinkState_rd.
      + destruct (decide (y = l)) as [->|Ny].
        * rewrite Q4 by done. apply decide_ext. intuition congruence.
        * rewrite !decide_False; [done| |]; intuition congruence.
      + by apply V4.
      + apply nbr_order1.
      + intros s1 s2 H1 H2. rewrite !Q4 by done.
        by apply (leg_unique LN l); [unfold nbr; auto| | | |].
    - simpl. rewrite decide_False; [done|]. intuition congruence. }
  assert (V5 : forall y, live p y -> valid q5 y).
  { intros y Hy. unfold q5, relinkState. destruct (rd p t LN); [|by apply V4].
    destruct (slotHolding _ _ _ _); [|by apply V4]. by apply valid_wr_2, V4. }
  (* the right neighbor *)
  assert (Q6 : forall y g,
            rd (relinkState q5 t (rd p t RN) [BN; RN; LN] rc) y g =
            if decide (nbr g /\ rd p y g = Some t /\ rd p t RN = Some y)
            then Some rc else rd q5 y g).
  { intros y g. destruct (rd p t RN) as [r|] eqn:ER.
    - destruct (leaf_nbr RN r) as (Lr & Nr & _ & _); [unfold nbr; auto|done|].
      destruct (live_fresh r Lr) as [? ?].
      assert (NL : rd p t LN <> Some r).
      { intros EL. assert (LN = RN); [|done].
        eapply (mi_dist _ _ _ Hinv t LN RN r); unfold nbr; auto. }
      assert (R5 : forall s, rd q5 r s = rd p r s).
      { intros s. rewrite Q5, Q4 by done. rewrite decide_False; [done|]. intuition. }
      rewrite relinkState_rd.
      + destruct (decide (y = r)) as [->|Ny].
        * rewrite R5. apply decide_ext. intuition congruence.
        * rewrite !decide_False; [done| |]; intuition congruence.
      + by apply V5.
      + apply nbr_order2.
      + intros s1 s2 H1 H2. rewrite !R5.
        by apply (leg_unique RN r); [unfold nbr; auto| | | |].
    - simpl. rewrite decide_False; [done|]. intuition congruence. }
  rewrite Q6, Q5. unfold q4. rewrite childrenState_rd by done.
  destruct (decide (x = rc)) as [->|Nrc].
  { rewrite !decide_False by (rewrite Z2; intuition congruence).
    destruct f; rewrite ?Z2; done. }
  destruct (decide (x = lc)) as [->|Nlc].
  { rewrite !decide_False by (rewrite Z1; intuition congruence).
    destruct f; rewrite ?Z1; done. }
  destruct (decide (x = t)) as [->|Nt].
  { assert (A : forall s, nbr s -> rd p t s <> Some t)
      by (intros s Hs; by apply (mi_noself _ _ _ Hinv)).
    rewrite !decide_False.
    - destruct f; done.
    - intros (Hf & E & _). by apply (A f).
    - intros (Hf & E & _). by apply (A f). }
  destruct (decide (nbr f /\ rd p x f = Some t /\ rd p t LN = Some x)) as [H|H].
  { rewrite decide_False; [done|]. intros (_ & _ & ER).
    destruct H as (_ & _ & EL).
    assert (LN = RN); [|done].
    eapply (mi_dist _ _ _ Hinv t LN RN x); unfold nbr; auto. }
  done.
Qed.

Local Notation "'p1'" := (linkedState p t).
Local Notation "'lv''" := (childLevel lv p t).
Local Notation "'O''" := (openAfter O p t).

Hypothesis Hmut : forall y, rd p t BN = Some y -> rd p y BN = Some t.
Hypothesis Hnc : forall x f, O x -> f = LC \/ f = RC -> rd p x f <> Some t.

Lemma live_p1 x : live p1 x <-> live p x \/ x = lc \/ x = rc.
Proof.
  destruct x as [| |i]; simpl; [tauto|tauto|].
  rewrite linkedState_nextIdx. split.
  - intros H. destruct (decide (i < nextIdx p)%nat); [by left|].
    right. destruct (decide (i = nextIdx p)); [left|right]; f_equal; lia.
  - intros [H|[[= ->]|[= ->]]]; lia.
Qed.

Lemma t_rd f :
  rd p1 t f = match f with LC => Some lc | RC => Some rc | _ => rd p t f end.
Proof.
  rewrite linkedState_rd.
  destruct (live_fresh t Lt). by rewrite !decide_False, decide_True by done.
Qed.

Lemma lc_rd f :
  rd p1 lc f = match f with LN => Some rc | BN => rd p t LN | _ => None end.
Proof.
  rewrite linkedState_rd.
  rewrite decide_False, decide_True; [done|done|].
  intros [=]. lia.
Qed.

Lemma rc_rd f :
  rd p1 rc f = match f with RN => Some lc | BN => rd p t RN | _ => None end.
Proof. rewrite linkedState_rd. by rewrite decide_True. Qed.

Lemma old_rd x f :
  live p x -> x <> t ->
  rd p1 x f =
    if decide (nbr f /\ rd p x f = Some t /\ rd p t LN = Some x) then Some lc
    else if decide (nbr f /\ rd p x f = Some t /\ rd p t RN = Some x) then Some rc
    else rd p x f.
Proof.
  intros Lx Nx. rewrite linkedState_rd.
  destruct (live_fresh x Lx). by rewrite !decide_False by done.
Qed.

Lemma old_child x f : live p x -> x <> t -> f = LC \/ f = RC -> rd p1 x f = rd p x f.
Proof.
  intros Lx Nx Hf. rewrite old_rd by done.
  rewrite !decide_False; [done| |]; unfold nbr; intuition congruence.
Qed.

Lemma old_leaf x : live p x -> x <> t -> leaf p1 x = leaf p x.
Proof. intros Lx Nx. unfold leaf. rewrite !old_child by auto. done. Qed.

Lemma t_leaf : leaf p1 t = false.
Proof. unfold leaf. by rewrite !t_rd. Qed.

Lemma lc_leaf : leaf p1 lc = true.
Proof. unfold leaf. by rewrite !lc_rd. Qed.

Lemma rc_leaf : leaf p1 rc = true.
Proof. unfold leaf. by rewrite !rc_rd. Qed.

Lemma lv'_old x : live p x -> lv' x = lv x.
Proof.
  intros Lx. unfold childLevel. destruct (live_fresh x Lx).
  rewrite decide_False; [done|]. tauto.
Qed.

Lemma lv'_lc : lv' lc = S (lv t).
Proof. unfold childLevel. by rewrite decide_True by auto. Qed.

Lemma lv'_rc : lv' rc = S (lv t).
Proof. unfold childLevel. by rewrite decide_True by auto. Qed.

Lemma nbr_BN : nbr BN. Proof. unfold nbr; auto. Qed.
Lemma nbr_LN : nbr LN. Proof. unfold nbr; auto. Qed.
Lemma nbr_RN : nbr RN. Proof. unfold nbr; auto. Qed.

Lemma legs_differ l : rd p t LN = Some l -> rd p t RN = Some l -> False.
Proof.
  intros E1 E2. assert (LN = RN); [|done].
  eapply (mi_dist _ _ _ Hinv t LN RN l); auto using nbr_LN, nbr_RN.
Qed.

Lemma leg_not_base s l : nbr s -> s <> BN -> rd p t s = Some l -> rd p t BN <> Some l.
Proof.
  intros Hs Hne E1 E2. apply Hne.
  eapply (mi_dist _ _ _ Hinv t s BN l); auto using nbr_BN.
Qed.

(** The leg neighbor [l] of [t]: an old leaf whose only slot holding [t] is
    redirected. *)
Lemma leg_nbr s l :
  nbr s -> s <> BN -> rd p t s = Some l ->
  live p l /\ l <> t /\ leaf p l = true
  /\ exists s0, nbr s0 /\ rd p l s0 = Some t /\ lv l = (lv t + weight s0)%nat
       /\ forall s1, nbr s1 -> rd p l s1 = Some t -> s1 = s0.
Proof.
  intros Hs Hne E.
  destruct (leaf_nbr s l Hs E) as (Ll & Nl & [Hl|[? _]] & s0 & H0 & E0 & Hlv); [|done].
  split; [done|]. split; [done|]. split; [done|].
  exists s0. split; [done|]. split; [done|]. split.
  - destruct s; try done; simpl in Hlv; lia.
  - intros s1 H1 E1. by eapply (mi_dist _ _ _ Hinv l s1 s0 t).
Qed.

(** How a neighbor slot of an old leaf reads after the step. *)
Lemma old_slot x s y :
  live p x -> x <> t -> leaf p x = true -> nbr s -> rd p1 x s = Some y ->
  (y = lc /\ rd p x s = Some t /\ rd p t LN = Some x)
  \/ (y = rc /\ rd p x s = Some t /\ rd p t RN = Some x)
  \/ (rd p x s = Some y /\ live p y /\ y <> t)
  \/ (y = t /\ rd p x s = Some t /\ s = BN /\ rd p t BN = Some x).
Proof.
  intros Lx Nx Hl Hs. rewrite old_rd by done.
  destruct (decide _) as [(_ & A & B)|N1]; [intros [= <-]; auto|].
  destruct (decide _) as [(_ & A & B)|N2]; [intros [= <-]; auto|].
  intros E. right. right.
  destruct (decide (y = t)) as [->|Nv].
  - right. destruct (mi_sym _ _ _ Hinv x s t Lx Hl Hs E) as [_ (s' & Hs' & E' & _)].
    destruct Hs' as [-> | [-> | ->]].
    + split; [done|]. split; [done|]. split; [|done].
      eapply (mi_dist _ _ _ Hinv x s BN t); auto using nbr_BN.
    + exfalso. apply N1. auto.
    + exfalso. apply N2. auto.
  - left. split; [done|]. split; [|done]. by eapply mi_scope.
Qed.

(** The base link of an old branch is not touched. *)
Lemma old_branch_base x :
  live p x -> leaf p x = false -> rd p1 x BN = rd p x BN.
Proof.
  intros Lx Hl. assert (Nx : x <> t) by congruence.
  rewrite old_rd by done.
  rewrite !decide_False; [done| |].
  - intros (_ & _ & B). destruct (leg_nbr RN x nbr_RN ltac:(done) B) as (_ & _ & ? & _). congruence.
  - intros (_ & _ & B). destruct (leg_nbr LN x nbr_LN ltac:(done) B) as (_ & _ & ? & _). congruence.
Qed.

Lemma linked_sym x s y :
  live p1 x -> leaf p1 x = true -> nbr s -> rd p1 x s = Some y ->
  (leaf p1 y = true \/ (s = BN /\ O' y /\ rd p1 y BN = Some x))
  /\ exists s', nbr s' /\ rd p1 y s' = Some x
               /\ (lv' y + weight s = lv' x + weight s')%nat.
Proof.
  intros Lx Hl Hs E. apply live_p1 in Lx as [Lx | [-> | ->]].
  - assert (Nx : x <> t) by (intros ->; by rewrite t_leaf in Hl).
    rewrite old_leaf in Hl by done.
    destruct (old_slot x s y Lx Nx Hl Hs E)
      as [(-> & A & B)|[(-> & A & B)|[(A & Ly & Ny)|(-> & A & -> & B)]]].
    + split; [left; apply lc_leaf|].
      exists BN. split; [apply nbr_BN|]. rewrite lc_rd. split; [done|].
      destruct (leg_nbr LN x nbr_LN ltac:(done) B) as (_ & _ & _ & s0 & H0 & E0 & Hlv & Hu).
      rewrite (Hu s Hs A), lv'_lc, lv'_old by done. simpl. lia.
    + split; [left; apply rc_leaf|].
      exists BN. split; [apply nbr_BN|]. rewrite rc_rd. split; [done|].
      destruct (leg_nbr RN x nbr_RN ltac:(done) B) as (_ & _ & _ & s0 & H0 & E0 & Hlv & Hu).
      rewrite (Hu s Hs A), lv'_rc, lv'_old by done. simpl. lia.
    + destruct (mi_sym _ _ _ Hinv x s y Lx Hl Hs A) as [Hy (s' & Hs' & E' & Hlv)].
      split.
      * rewrite old_leaf by done. destruct Hy as [?|(? & HO & ?)]; [by left|right].
        split; [done|]. split; [by left|].
        destruct (mi_open _ _ _ Hinv y HO) as (_ & Hb & _).
        by rewrite old_branch_base.
      * exists s'. split; [done|]. rewrite old_rd by done.
        rewrite !decide_False by (rewrite E'; intuition congruence).
        split; [done|]. by rewrite !lv'_old.
    + split; [right; split; [done|]; split; [right; split; [done|congruence]|by rewrite t_rd]|].
      exists BN. split; [apply nbr_BN|]. rewrite t_rd. split; [done|].
      rewrite !lv'_old by done.
      destruct (mi_sym _ _ _ Hinv x BN t Lx Hl nbr_BN A) as [_ (s' & Hs' & E' & Hlv)].
      assert (s' = BN) as ->; [|simpl in *; lia].
      eapply (mi_dist _ _ _ Hinv t s' BN x); auto using nbr_BN.
  - rewrite lc_rd in E. destruct s; try done.
    + destruct (leg_nbr LN y nbr_LN ltac:(done) E) as (Ly & Ny & Hly & s0 & H0 & E0 & Hlv & Hu).
      split; [left; by rewrite old_leaf|].
      exists s0. split; [done|]. rewrite old_rd by done.
      rewrite decide_True by done. split; [done|].
      rewrite lv'_lc, lv'_old by done. simpl. lia.
    + injection E as <-. split; [left; apply rc_leaf|].
      exists RN. split; [apply nbr_RN|]. rewrite rc_rd. split; [done|].
      by rewrite lv'_lc, lv'_rc.
  - rewrite rc_rd in E. destruct s; try done.
    + destruct (leg_nbr RN y nbr_RN ltac:(done) E) as (Ly & Ny & Hly & s0 & H0 & E0 & Hlv & Hu).
      split; [left; by rewrite old_leaf|].
      exists s0. split; [done|]. rewrite old_rd by done.
      rewrite decide_False by (intros (_ & _ & B); by eapply legs_differ).
      rewrite decide_True by done. split; [done|].
      rewrite lv'_rc, lv'_old by done. simpl. lia.
    + injection E as <-. split; [left; apply lc_leaf|].
      exists LN. split; [apply nbr_LN|]. rewrite lc_rd. split; [done|].
      by rewrite lv'_lc, lv'_rc.
Qed.

Lemma fresh_not_live : ~ live p lc /\ ~ live p rc.
Proof. simpl. lia. Qed.

Lemma lc_ne_rc : lc <> rc.
Proof. intros [=]. lia. Qed.

Lemma stored_live x f y : rd p x f = Some y -> live p y.
Proof. intros E. eapply (mi_scope _ _ _ Hinv); [|exact E]. by eapply rd_live. Qed.

Lemma linked_dist x s s' y :
  live p1 x -> leaf p1 x = true -> nbr s -> nbr s' ->
  rd p1 x s = Some y -> rd p1 x s' = Some y -> s = s'.
Proof.
  destruct fresh_not_live as [F1 F2]. pose proof lc_ne_rc as F3.
  intros Lx Hl Hs Hs' E E'. apply live_p1 in Lx as [Lx | [-> | ->]].
  - assert (Nx : x <> t) by (intros ->; by rewrite t_leaf in Hl).
    rewrite old_leaf in Hl by done.
    destruct (old_slot x s y Lx Nx Hl Hs E)
      as [(-> & A & B)|[(-> & A & B)|[(A & Ly & Ny)|(-> & A & -> & B)]]];
    destruct (old_slot x s' _ Lx Nx Hl Hs' E')
      as [(C & A' & B')|[(C & A' & B')|[(A' & Ly' & Ny')|(C & A' & D & B')]]];
    try congruence; try done;
    try (by eapply (mi_dist _ _ _ Hinv x s s'));
    try (by eapply (mi_dist _ _ _ Hinv x BN s')); try (by eapply (mi_dist _ _ _ Hinv x s BN)).
  - rewrite lc_rd in E, E'.
    destruct s, s'; try done; try congruence;
      exfalso; apply stored_live in E || apply stored_live in E'; congruence.
  - rewrite rc_rd in E, E'.
    destruct s, s'; try done; try congruence;
      exfalso; apply stored_live in E || apply stored_live in E'; congruence.
Qed.

Lemma base_nbr y :
  rd p t BN = Some y ->
  live p y /\ y <> t /\ rd p y BN = Some t /\ lv y = lv t /\ rd p1 y BN = Some t.
Proof.
  intros E. pose proof (Hmut y E) as M.
  destruct (leaf_nbr BN y nbr_BN E) as (Ly & Ny & Hy & s0 & H0 & E0 & Hlv).
  split; [done|]. split; [done|]. split; [done|].
  assert (lv y = lv t) as Elv.
  { destruct (leaf p y) eqn:Hly.
    - assert (s0 = BN) as ->; [|simpl in Hlv; lia].
      by eapply (mi_dist _ _ _ Hinv y s0 BN t); auto using nbr_BN.
    - by destruct (mi_branch _ _ _ Hinv y t Ly Hly M) as (_ & ? & _). }
  split; [done|].
  rewrite old_rd by done. rewrite !decide_False; [done| |].
  - intros (_ & _ & B). by eapply (leg_not_base RN y nbr_RN).
  - intros (_ & _ & B). by eapply (leg_not_base LN y nbr_LN).
Qed.

Lemma linked_branch x b :
  live p1 x -> leaf p1 x = false -> rd p1 x BN = Some b ->
  rd p1 b BN = Some x /\ lv' b = lv' x /\ (leaf p1 b = false \/ O' x).
Proof.
  intros Lx Hl E. apply live_p1 in Lx as [Lx | [-> | ->]];
    [|by rewrite lc_leaf in Hl|by rewrite rc_leaf in Hl].
  destruct (decide (x = t)) as [->|Nx].
  - rewrite t_rd in E. destruct (base_nbr b E) as (Lb & Nb & M & Elv & M1).
    split; [done|]. rewrite !lv'_old by done. split; [done|].
    right. right. split; [done|congruence].
  - rewrite old_leaf in Hl by done. rewrite old_branch_base in E by done.
    destruct (mi_branch _ _ _ Hinv x b Lx Hl E) as (M & Elv & Hb).
    assert (Lb : live p b) by by eapply stored_live.
    rewrite !lv'_old by done. split; [|split; [done|]].
    + destruct (decide (b = t)) as [->|Nb]; [by rewrite t_rd|].
      rewrite old_rd by done.
      rewrite !decide_False by (rewrite M; intuition congruence). done.
    + destruct (decide (b = t)) as [->|Nb]; [left; apply t_leaf|].
      rewrite old_leaf by done. destruct Hb; [by left|right; by left].
Qed.

Lemma linked_cross x b c d :
  live p1 x -> leaf p1 x = false -> ~ O' x ->
  rd p1 x BN = Some b -> leaf p1 b = false ->
  rd p1 x LC = Some c -> rd p1 b RC = Some d ->
  leaf p1 c = true -> leaf p1 d = true ->
  rd p1 c RN = Some d /\ rd p1 d LN = Some c.
Proof.
  intros Lx Hl HO E Hb Ec Ed Hc Hd.
  apply live_p1 in Lx as [Lx | [-> | ->]];
    [|by rewrite lc_leaf in Hl|by rewrite rc_leaf in Hl].
  destruct (decide (x = t)) as [->|Nx].
  { exfalso. apply HO. right. split; [done|]. rewrite t_rd in E. congruence. }
  rewrite old_leaf in Hl by done. rewrite old_branch_base in E by done.
  assert (HOx : ~ O x) by (intros ?; apply HO; by left).
  destruct (mi_branch _ _ _ Hinv x b Lx Hl E) as (M & Elv & Hb').
  assert (Lb : live p b) by by eapply stored_live.
  assert (Nb : b <> t).
  { intros ->. destruct Hb'; [congruence|done]. }
  rewrite old_leaf in Hb by done.
  rewrite old_child in Ec, Ed by auto.
  assert (Lc : live p c) by by eapply stored_live.
  assert (Ld : live p d) by by eapply stored_live.
  assert (Nc : c <> t) by (intros ->; by rewrite t_leaf in Hc).
  assert (Nd : d <> t) by (intros ->; by rewrite t_leaf in Hd).
  rewrite old_leaf in Hc, Hd by done.
  destruct (mi_cross _ _ _ Hinv x b c d) as [X1 X2]; try done.
  rewrite !old_rd by done.
  rewrite !decide_False by (rewrite ?X1, ?X2; intuition congruence). done.
Qed.

Lemma linked_open x :
  O' x ->
  live p1 x /\ leaf p1 x = false /\ (exists b, rd p1 x BN = Some b)
  /\ (forall c, rd p1 x LC = Some c -> leaf p1 c = true /\ rd p1 c RN = None)
  /\ (forall c, rd p1 x RC = Some c -> leaf p1 c = true /\ rd p1 c LN = None).
Proof.
  intros [Hx|[-> Hb]].
  - destruct (mi_open _ _ _ Hinv x Hx) as (Lx & Hl & [b E] & C1 & C2).
    assert (Nx : x <> t) by congruence.
    split; [apply live_p1; by left|]. split; [by rewrite old_leaf|].
    split; [exists b; by rewrite old_branch_base|].
    split; intros c Ec; rewrite old_child in Ec by auto.
    + destruct (C1 c Ec) as [Hc Z]. assert (Nc : c <> t) by (intros ->; by apply (Hnc x LC Hx); auto).
      assert (Lc : live p c) by by eapply stored_live.
      rewrite old_leaf by done. split; [done|]. rewrite old_rd by done.
      rewrite !decide_False by (rewrite Z; intuition congruence). done.
    + destruct (C2 c Ec) as [Hc Z]. assert (Nc : c <> t) by (intros ->; by apply (Hnc x RC Hx); auto).
      assert (Lc : live p c) by by eapply stored_live.
      rewrite old_leaf by done. split; [done|]. rewrite old_rd by done.
      rewrite !decide_False by (rewrite Z; intuition congruence). done.
  - split; [apply live_p1; by left|]. split; [apply t_leaf|].
    split; [rewrite t_rd; destruct (rd p t BN); [eauto|done]|].
    split; intros c; rewrite t_rd; intros [= <-].
    + split; [apply lc_leaf|by rewrite lc_rd].
    + split; [apply rc_leaf|by rewrite rc_rd].
Qed.

Lemma linked_stored x f y :
  live p1 x -> rd p1 x f = Some y ->
  y = lc \/ y = rc \/ (live p y /\ exists x' f', rd p x' f' = Some y).
Proof.
  intros Lx E. apply live_p1 in Lx as [Lx | [-> | ->]].
  - destruct (decide (x = t)) as [->|Nx].
    + rewrite t_rd in E. destruct f; try (injection E as <-; auto);
        right; right; (split; [by eapply stored_live|eauto]).
    + rewrite old_rd in E by done.
      repeat case_decide; try (injection E as <-; auto).
      right; right; (split; [by eapply stored_live|eauto]).
  - rewrite lc_rd in E. destruct f; try done; try (injection E as <-; auto).
    right; right; (split; [by eapply stored_live|eauto]).
  - rewrite rc_rd in E. destruct f; try done; try (injection E as <-; auto).
    right; right; (split; [by eapply stored_live|eauto]).
Qed.

Lemma linked_inv : MeshInv lv' O' p1.
Proof.
  pose proof fresh_cap as Hcap.
  destruct fresh_not_live as [F1 F2]. pose proof lc_ne_rc as F3.
  split.
  - rewrite linkedState_nextIdx, linkedState_capacity. lia.
  - intros i f Hi. rewrite linkedState_nextIdx in Hi.
    rewrite linkedState_rd.
    assert (Z : forall g, rd p (PoolNode i) g = None)
      by (intros; apply (mi_zero _ _ _ Hinv); lia).
    rewrite !decide_False; [apply Z| | | | |].
    + rewrite Z. intuition congruence.
    + rewrite Z. intuition congruence.
    + intros <-. simpl in Lt. lia.
    + intros [=]. lia.
    + intros [=]. lia.
  - intros x f y Lx E. apply live_p1.
    destruct (linked_stored x f y Lx E) as [->|[->|[? _]]]; auto.
  - intros x Lx. rewrite linkedState_nextIdx.
    pose proof (mi_level _ _ _ Hinv t Lt).
    apply live_p1 in Lx as [Lx | [-> | ->]].
    + rewrite lv'_old by done. pose proof (mi_level _ _ _ Hinv x Lx). lia.
    + rewrite lv'_lc. lia.
    + rewrite lv'_rc. lia.
  - intros x Lx. apply live_p1 in Lx as [Lx | [-> | ->]].
    + destruct (decide (x = t)) as [->|Nx]; [by rewrite !t_rd|].
      rewrite !old_child by auto. by apply (mi_pair _ _ _ Hinv).
    + by rewrite !lc_rd.
    + by rewrite !rc_rd.
  - intros x f c Lx Hf E. apply live_p1 in Lx as [Lx | [-> | ->]].
    + destruct (decide (x = t)) as [->|Nx].
      * rewrite t_rd in E. rewrite (lv'_old t) by done.
        destruct Hf as [->| ->]; injection E as <-; [apply lv'_lc|apply lv'_rc].
      * rewrite old_child in E by done.
        rewrite !lv'_old by (done || by eapply stored_live).
        by eapply (mi_child _ _ _ Hinv).
    + rewrite lc_rd in E. by destruct Hf as [->| ->].
    + rewrite rc_rd in E. by destruct Hf as [->| ->].
  - intros x s Lx Hs E. apply live_p1 in Lx as [Lx | [-> | ->]].
    + destruct (decide (x = t)) as [->|Nx].
      * rewrite t_rd in E. apply (mi_noself _ _ _ Hinv t s Lt Hs).
        destruct Hs as [-> | [-> | ->]]; done.
      * rewrite old_rd in E by done.
        repeat case_decide; try (injection E as <-; done).
        by apply (mi_noself _ _ _ Hinv x s Lx Hs).
    + rewrite lc_rd in E. destruct s; try done; try congruence.
      apply stored_live in E. done.
    + rewrite rc_rd in E. destruct s; try done; try congruence.
      apply stored_live in E. done.
  - apply linked_sym.
  - apply linked_dist.
  - apply linked_branch.
  - apply linked_cross.
  - apply linked_open.
Qed.

Lemma linked_ext : ext (lv t) lv p lv' p1.
Proof.
  split.
  - rewrite linkedState_nextIdx. lia.
  - apply linkedState_capacity.
  - apply linkedState_params.
  - apply lv'_old.
  - intros x f Lx Hl. assert (Nx : x <> t) by congruence.
    split; [by rewrite old_leaf|]. intros Hf. by apply old_child.
  - intros x Lx Hl Hlt. rewrite old_leaf; [done|done|]. intros ->. lia.
  - intros x s Lx Hl Hs.
    assert (Nx : x <> t) by (intros ->; by rewrite t_leaf in Hl).
    rewrite old_leaf in Hl by done.
    rewrite old_rd by done.
    destruct (decide _) as [(_ & A & B)|N1].
    { right. exists t, lc. split; [done|]. split; [done|]. split; [apply t_leaf|].
      split; [done|]. split; [apply live_p1; auto|]. rewrite lv'_lc. lia. }
    destruct (decide _) as [(_ & A & B)|N2].
    { right. exists t, rc. split; [done|]. split; [done|]. split; [apply t_leaf|].
      split; [done|]. split; [apply live_p1; auto|]. rewrite lv'_rc. lia. }
    by left.
  - intros x Lx Hl. apply live_p1 in Lx as [Lx | [-> | ->]].
    + destruct (decide (x = t)) as [->|Nx].
      * right. by rewrite lv'_old.
      * left. split; [done|]. by rewrite <- (old_leaf x).
    + by rewrite lc_leaf in Hl.
    + by rewrite rc_leaf in Hl.
Qed.

End Linked.

End Char.
(** ** Cross-linking a diamond preserves the mesh invariant *)

Section Cross.

Context (lv : ptr -> nat) (O : ptr -> Prop) (q : Patch) (a b a1 a2 b1 b2 : ptr).
Hypothesis Hinv : MeshInv lv O q.
Hypothesis Oa : O a.
Hypothesis Ob : O b.
Hypothesis Honly : forall x, O x -> x = a \/ x = b.
Hypothesis Eab : rd q a BN = Some b.
Hypothesis Ea1 : rd q a LC = Some a1.
Hypothesis Ea2 : rd q a RC = Some a2.
Hypothesis Eb1 : rd q b LC = Some b1.
Hypothesis Eb2 : rd q b RC = Some b2.
Hypothesis Hnd :
  a1 <> a2 /\ a1 <> b1 /\ a1 <> b2 /\ a2 <> b1 /\ a2 <> b2 /\ b1 <> b2.
Hypothesis D1 : forall s, nbr s -> rd q a1 s <> Some b2.
Hypothesis D2 : forall s, nbr s -> rd q a2 s <> Some b1.
Hypothesis D3 : forall s, nbr s -> rd q b1 s <> Some a2.
Hypothesis D4 : forall s, nbr s -> rd q b2 s <> Some a1.

Local Notation "'q3'" := (crossState q a b a1 a2 b1 b2).

Lemma cross_facts :
  live q a /\ live q b /\ leaf q a = false /\ leaf q b = false
  /\ rd q b BN = Some a /\ lv b = lv a
  /\ live q a1 /\ live q a2 /\ live q b1 /\ live q b2
  /\ leaf q a1 = true /\ leaf q a2 = true /\ leaf q b1 = true /\ leaf q b2 = true
  /\ rd q a1 RN = None /\ rd q a2 LN = None /\ rd q b1 RN = None /\ rd q b2 LN = None
  /\ lv a1 = S (lv a) /\ lv a2 = S (lv a) /\ lv b1 = S (lv a) /\ lv b2 = S (lv a).
Proof.
  destruct (mi_open _ _ _ Hinv a Oa) as (La & Ha & _ & Ca1 & Ca2).
  destruct (mi_open _ _ _ Hinv b Ob) as (Lb & Hb & _ & Cb1 & Cb2).
  destruct (mi_branch _ _ _ Hinv a b La Ha Eab) as (M & Elv & _).
  destruct (Ca1 a1 Ea1), (Ca2 a2 Ea2), (Cb1 b1 Eb1), (Cb2 b2 Eb2).
  pose proof (mi_child _ _ _ Hinv a LC a1 La ltac:(auto) Ea1).
  pose proof (mi_child _ _ _ Hinv a RC a2 La ltac:(auto) Ea2).
  pose proof (mi_child _ _ _ Hinv b LC b1 Lb ltac:(auto) Eb1).
  pose proof (mi_child _ _ _ Hinv b RC b2 Lb ltac:(auto) Eb2).
  pose proof (mi_scope _ _ _ Hinv a LC a1 La Ea1).
  pose proof (mi_scope _ _ _ Hinv a RC a2 La Ea2).
  pose proof (mi_scope _ _ _ Hinv b LC b1 Lb Eb1).
  pose proof (mi_scope _ _ _ Hinv b RC b2 Lb Eb2).
  repeat split; try done; congruence.
Qed.

Lemma cross_valid x : live q x -> valid q x.
Proof. pose proof (mi_cap _ _ _ Hinv). destruct x; simpl; [done|done|lia]. Qed.

Lemma cross_rd x f :
  rd q3 x f =
    if decide (a2 = x /\ LN = f) then Some b1
    else if decide (a1 = x /\ RN = f) then Some b2
    else if decide (b2 = x /\ LN = f) then Some a1
    else if decide (b1 = x /\ RN = f) then Some a2
    else rd q x f.
Proof.
  destruct cross_facts as (_ & _ & _ & _ & _ & _ & L1 & L2 & L3 & L4 & _).
  apply cross_valid in L1, L2, L3, L4.
  unfold crossState. by rewrite !rd_wr by vsolve.
Qed.

Lemma cross_nextIdx : nextIdx q3 = nextIdx q.
Proof. unfold crossState. by rewrite !nextIdx_wr. Qed.

Lemma cross_capacity : capacity q3 = capacity q.
Proof. unfold crossState. by rewrite !capacity_wr. Qed.

Lemma cross_params : params q3 = params q.
Proof. unfold crossState. by rewrite !params_wr. Qed.

Lemma cross_live x : live q3 x <-> live q x.
Proof. destruct x; simpl; try tauto. by rewrite cross_nextIdx. Qed.

Lemma cross_child x f : f = LC \/ f = RC -> rd q3 x f = rd q x f.
Proof.
  intros Hf. rewrite cross_rd.
  rewrite !decide_False; [done| | | |]; intuition congruence.
Qed.

Lemma cross_leaf x : leaf q3 x = leaf q x.
Proof. unfold leaf. by rewrite !cross_child by auto. Qed.

Lemma cross_keep x f y : rd q x f = Some y -> rd q3 x f = Some y.
Proof.
  destruct cross_facts as (_ & _ & _ & _ & _ & _ & _ & _ & _ & _ & _ & _ & _ & _
                           & Z1 & Z2 & Z3 & Z4 & _).
  intros E. rewrite cross_rd.
  destruct (decide (a2 = x /\ LN = f)) as [[<- <-]|_]; [congruence|].
  destruct (decide (a1 = x /\ RN = f)) as [[<- <-]|_]; [congruence|].
  destruct (decide (b2 = x /\ LN = f)) as [[<- <-]|_]; [congruence|].
  destruct (decide (b1 = x /\ RN = f)) as [[<- <-]|_]; [congruence|].
  done.
Qed.

(** A link of the cross-linked patch is an old one or one of the four new
    ones. *)
Lemma cross_slot x f y :
  rd q3 x f = Some y ->
  rd q x f = Some y
  \/ (x = a2 /\ f = LN /\ y = b1) \/ (x = a1 /\ f = RN /\ y = b2)
  \/ (x = b2 /\ f = LN /\ y = a1) \/ (x = b1 /\ f = RN /\ y = a2).
Proof.
  rewrite cross_rd.
  destruct (decide (a2 = x /\ LN = f)) as [[<- <-]|_]; [intros [= <-]; auto 10|].
  destruct (decide (a1 = x /\ RN = f)) as [[<- <-]|_]; [intros [= <-]; auto 10|].
  destruct (decide (b2 = x /\ LN = f)) as [[<- <-]|_]; [intros [= <-]; auto 10|].
  destruct (decide (b1 = x /\ RN = f)) as [[<- <-]|_]; [intros [= <-]; auto 10|].
  auto.
Qed.

Lemma cross_new :
  rd q3 a2 LN = Some b1 /\ rd q3 a1 RN = Some b2
  /\ rd q3 b2 LN = Some a1 /\ rd q3 b1 RN = Some a2.
Proof.
  destruct Hnd as (N12 & N13 & N14 & N23 & N24 & N34).
  repeat split; rewrite cross_rd.
  - by rewrite decide_True.
  - rewrite decide_False by (intros [_ ?]; done). by rewrite decide_True.
  - rewrite decide_False by (intros [? _]; congruence).
    rewrite decide_False by (intros [_ ?]; done). by rewrite decide_True.
  - rewrite decide_False by (intros [_ ?]; done).
    rewrite decide_False by (intros [? _]; congruence).
    rewrite decide_False by (intros [_ ?]; done). by rewrite decide_True.
Qed.

Lemma cross_inv : MeshInv lv (fun _ => False) q3.
Proof.
  destruct cross_facts as (La & Lb & Ha & Hb & Eba & Elv & L1 & L2 & L3 & L4
                           & H1 & H2 & H3 & H4 & Z1 & Z2 & Z3 & Z4 & V1 & V2 & V3 & V4).
  destruct cross_new as (X1 & X2 & X3 & X4).
  destruct Hnd as (N12 & N13 & N14 & N23 & N24 & N34).
  split.
  - rewrite cross_nextIdx, cross_capacity. apply (mi_cap _ _ _ Hinv).
  - intros i f Hi. rewrite cross_nextIdx in Hi. rewrite cross_rd.
    assert (~ live q (PoolNode i)) by (simpl; lia).
    rewrite !decide_False by (intros [-> _]; done).
    by apply (mi_zero _ _ _ Hinv).
  - intros x f y Lx E. apply cross_live in Lx. apply cross_live.
    destruct (cross_slot x f y E) as [E'|[(-> & -> & ->)|[(-> & -> & ->)|[(-> & -> & ->)|(-> & -> & ->)]]]];
      try done. by eapply (mi_scope _ _ _ Hinv).
  - intros x Lx. rewrite cross_nextIdx. apply (mi_level _ _ _ Hinv). by apply cross_live.
  - intros x Lx. rewrite !cross_child by auto. apply (mi_pair _ _ _ Hinv). by apply cross_live.
  - intros x f c Lx Hf E. rewrite cross_child in E by done.
    eapply (mi_child _ _ _ Hinv); [by apply cross_live|done|done].
  - intros x s Lx Hs E. apply cross_live in Lx.
    destruct (cross_slot x s x E) as [E'|[(-> & -> & ?)|[(-> & -> & ?)|[(-> & -> & ?)|(-> & -> & ?)]]]];
      try done. by eapply (mi_noself _ _ _ Hinv x s).
  - intros x s y Lx Hl Hs E. apply cross_live in Lx. rewrite cross_leaf in Hl.
    destruct (cross_slot x s y E) as [E'|[(-> & -> & ->)|[(-> & -> & ->)|[(-> & -> & ->)|(-> & -> & ->)]]]].
    + destruct (mi_sym _ _ _ Hinv x s y Lx Hl Hs E') as [Hy (s' & Hs' & Es' & Hlv)].
      split.
      * left. rewrite cross_leaf. destruct Hy as [?|(_ & HO & M)]; [done|].
        exfalso. destruct (Honly y HO) as [-> | ->]; congruence.
      * exists s'. split; [done|]. split; [by apply cross_keep|done].
    + split; [left; by rewrite cross_leaf|].
      exists RN. split; [unfold nbr; auto|]. split; [done|]. simpl. lia.
    + split; [left; by rewrite cross_leaf|].
      exists LN. split; [unfold nbr; auto|]. split; [done|]. simpl. lia.
    + split; [left; by rewrite cross_leaf|].
      exists RN. split; [unfold nbr; auto|]. split; [done|]. simpl. lia.
    + split; [left; by rewrite cross_leaf|].
      exists LN. split; [unfold nbr; auto|]. split; [done|]. simpl. lia.
  - intros x s s' y Lx Hl Hs Hs' E E'. apply cross_live in Lx. rewrite cross_leaf in Hl.
    destruct (cross_slot x s y E) as [A|[(-> & -> & ->)|[(-> & -> & ->)|[(-> & -> & ->)|(-> & -> & ->)]]]];
    destruct (cross_slot _ s' _ E') as [A'|[(? & ? & ?)|[(? & ? & ?)|[(? & ? & ?)|(? & ? & ?)]]]];
      try congruence; try done.
    + by eapply (mi_dist _ _ _ Hinv x s s').
    + subst. by destruct (D2 s Hs).
    + subst. by destruct (D1 s Hs).
    + subst. by destruct (D4 s Hs).
    + subst. by destruct (D3 s Hs).
    + by destruct (D2 s' Hs').
    + by destruct (D1 s' Hs').
    + by destruct (D4 s' Hs').
    + by destruct (D3 s' Hs').
  - intros x y Lx Hl E. apply cross_live in Lx. rewrite cross_leaf in Hl.
    rewrite cross_rd in E.
    rewrite !decide_False in E by (intros [_ ?]; done).
    destruct (mi_branch _ _ _ Hinv x y Lx Hl E) as (M & Hlv & Hy).
    split; [by apply cross_keep|]. split; [done|]. left. rewrite cross_leaf.
    destruct Hy as [?|HO]; [done|].
    destruct (Honly x HO) as [-> | ->]; congruence.
  - intros x y c d Lx Hl _ E Hy Ec Ed Hc Hd. apply cross_live in Lx.
    rewrite cross_leaf in Hl, Hy, Hc, Hd. rewrite cross_child in Ec, Ed by auto.
    rewrite cross_rd in E.
    rewrite !decide_False in E by (intros [_ ?]; done).
    destruct (decide (x = a)) as [->|Na].
    { assert (y = b) as -> by congruence. assert (c = a1) as -> by congruence.
      assert (d = b2) as -> by congruence. done. }
    destruct (decide (x = b)) as [->|Nb].
    { assert (y = a) as -> by congruence. assert (c = b1) as -> by congruence.
      assert (d = a2) as -> by congruence. done. }
    destruct (mi_cross _ _ _ Hinv x y c d) as [C1 C2]; try done.
    { intros HO. destruct (Honly x HO); done. }
    split; by apply cross_keep.
  - done.
Qed.

End Cross.

(** ** [Split] preserves the mesh invariant *)

Section SplitSound.

Implicit Types (p q : Patch) (x y t : ptr) (f g s : link) (lv : ptr -> nat)
  (O : ptr -> Prop).

Lemma MeshInv_open_iff lv O O' p :
  (forall x, O x <-> O' x) -> MeshInv lv O p -> MeshInv lv O' p.
Proof.
  intros HO [C1 C2 C3 C4 C5 C6 C7 C8 C9 C10 C11 C12]. split; try done.
  - intros x s y Lx Hl Hs E. destruct (C8 x s y Lx Hl Hs E) as [[?|(? & ? & ?)] ?].
    + split; [by left|done].
    + split; [right; split; [done|]; split; [by apply HO|done]|done].
  - intros x b Lx Hl E. destruct (C10 x b Lx Hl E) as (? & ? & [?|?]).
    + split; [done|]. split; [done|by left].
    + split; [done|]. split; [done|right; by apply HO].
  - intros x b c d Lx Hl HOx. apply C11; [done|done|]. intros ?. by apply HOx, HO.
  - intros x Hx. by apply C12, HO.
Qed.

Lemma ext_refl L lv p : ext L lv p lv p.
Proof. split; try done; intros; by left. Qed.

Lemma ext_weaken L L' lv p lv' p' :
  (L <= L')%nat -> ext L lv p lv' p' -> ext L' lv p lv' p'.
Proof.
  intros HL [E1 E2 E3 E4 E5 E6 E7 E8]. split; try done.
  - intros x Lx Hl Hlt. apply E6; [done|done|lia].
  - intros x Lx Hl. destruct (E8 x Lx Hl) as [?|?]; [by left|right; lia].
Qed.

Lemma live_mono p p' x : (nextIdx p <= nextIdx p')%nat -> live p x -> live p' x.
Proof. destruct x; simpl; try done. lia. Qed.

Lemma ext_trans L lv O p lv1 p1 lv2 p2 :
  MeshInv lv O p ->
  ext L lv p lv1 p1 -> ext L lv1 p1 lv2 p2 -> ext L lv p lv2 p2.
Proof.
  intros Hinv [A1 A2 A3 A4 A5 A6 A7 A8] [B1 B2 B3 B4 B5 B6 B7 B8].
  assert (LM : forall x, live p x -> live p1 x) by (intros x; by apply live_mono).
  split.
  - lia.
  - congruence.
  - unfold sameParams in *. congruence.
  - intros x Lx. rewrite B4 by auto. auto.
  - intros x f Lx Hl. destruct (A5 x f Lx Hl) as [H1 H2].
    destruct (B5 x f (LM x Lx) H1) as [H3 H4]. split; [done|].
    intros Hf. rewrite H4, H2 by done. done.
  - intros x Lx Hl Hlt. apply B6; [auto|by apply A6|]. rewrite A4 by done. done.
  - intros x s Lx Hl Hs.
    assert (Hl1 : leaf p1 x = true).
    { destruct (leaf p1 x) eqn:E; [done|].
      destruct (B5 x LC (LM x Lx) E) as [? _]. congruence. }
    destruct (B7 x s (LM x Lx) Hl Hs) as [E2|(z2 & c2 & E2 & Lz2 & Hz2 & Ec2 & Lc2 & Hlv2)];
    destruct (A7 x s Lx Hl1 Hs) as [E1|(z1 & c1 & E1 & Lz1 & Hz1 & Ec1 & Lc1 & Hlv1)].
    + left. congruence.
    + right. exists z1, c1. split; [done|]. split; [done|].
      split; [by destruct (B5 z1 LC (LM z1 Lz1) Hz1)|].
      split; [congruence|]. split; [by eapply live_mono|].
      rewrite B4 by done. done.
    + right. exists z2, c2. rewrite E1 in E2.
      assert (Lz : live p z2) by by eapply (mi_scope _ _ _ Hinv).
      split; [done|]. split; [done|]. split; [done|]. split; [done|].
      split; [done|]. rewrite <- (A4 z2) by done. done.
    + right. exists z1, c2. split; [done|]. split; [done|].
      split; [by destruct (B5 z1 LC (LM z1 Lz1) Hz1)|].
      split; [done|]. split; [done|].
      assert (c1 = z2) as -> by congruence. lia.
  - intros x Lx Hl. destruct (B8 x Lx Hl) as [[Lx1 Hl1]|?]; [|by right].
    destruct (A8 x Lx1 Hl1) as [?|?]; [by left|]. right. rewrite B4 by done. done.
Qed.

Lemma relinkState_rd_ne q t nb order c x f :
  nb <> Some x -> rd (relinkState q t nb order c) x f = rd q x f.
Proof.
  intros N. unfold relinkState. destruct nb as [l|]; [|done].
  destruct (slotHolding _ _ _ _); [|done].
  apply rd_wr_ne. left. congruence.
Qed.

Lemma relinkState_valid q t nb order c x :
  valid q x -> valid (relinkState q t nb order c) x.
Proof.
  intros V. unfold relinkState. destruct nb as [l|]; [|done].
  destruct (slotHolding _ _ _ _); [|done]. by apply valid_wr_2.
Qed.

Lemma childrenState_valid p t x : valid p x -> valid (childrenState p t) x.
Proof.
  intros V. unfold childrenState. cbv zeta.
  repeat first [apply valid_wr_2 | apply valid_bump_2]. done.
Qed.

Lemma linkedState_valid p t x : valid p x -> valid (linkedState p t) x.
Proof.
  intros V. unfold linkedState. cbv zeta.
  by do 2 apply relinkState_valid; apply childrenState_valid.
Qed.

Lemma exhausted_linked p t :
  exhausted (linkedState p t) = true <-> (capacity p < nextIdx p + 4)%nat.
Proof.
  unfold exhausted, OutOfNodes.
  change (poolSize (currentPool ?q)) with (capacity q).
  change (nextTriNodeIdx (currentPool ?q)) with (nextIdx q).
  rewrite linkedState_nextIdx, linkedState_capacity, Nat.ltb_lt. lia.
Qed.

Section Step.

Context (lv : ptr -> nat) (O : ptr -> Prop) (p : Patch) (t : ptr).
Hypothesis Hinv : MeshInv lv O p.
Hypothesis Hex : exhausted p = false.
Hypothesis Lt : live p t.
Hypothesis Hleaf : leaf p t = true.

Local Notation "'lc'" := (PoolNode (nextIdx p)).
Local Notation "'rc'" := (PoolNode (S (nextIdx p))).
Local Notation "'p1'" := (linkedState p t).

(** The four link phases of [splitRest] run without error and end in
    [linkedState]. *)
Lemma splitRest_exec (rec : option ptr -> M bool) :
  splitRest rec t p =
    bind (load (Some t) BN)
      (fun b =>
         bind match b with
              | Some _ =>
                  bind (isBranch b) (fun br =>
                    if br then crossLink t
                    else bind (rec b) (fun _ => ret tt))
              | None => clearEdge t
              end
           (fun _ => ret true)) p1.
Proof.
  pose proof (fresh_cap p Hex) as Hcap.
  pose proof (live_valid _ _ _ Hinv t Lt) as Vt.
  destruct (live_fresh p t Lt) as [N1 N2].
  assert (V1 : valid p lc) by (simpl; lia).
  assert (V2 : valid p rc) by (simpl; lia).
  unfold splitRest.
  rewrite (bind_ok _ _ _ _ _ (allocateChildren_ok t p Hex Vt)). cbn [negb].
  rewrite (bind_ok _ _ _ _ _ (linkChildren_exec p t Vt V1 V2 N1 N2)).
  set (q4 := childrenState p t).
  assert (R4 : forall f, rd q4 t f =
            match f with LC => Some lc | RC => Some rc | _ => rd p t f end).
  { intros f. unfold q4. rewrite childrenState_rd by done.
    by rewrite !decide_False, decide_True by done. }
  assert (NL : forall s l, nbr s -> rd p t s = Some l -> l <> t /\ valid p l).
  { intros s l Hs E.
    destruct (leaf_nbr _ _ _ _ Hinv Lt Hleaf s l Hs E) as (Ll & Nl & _).
    split; [done|]. by eapply live_valid. }
  rewrite (bind_ok _ _ _ _ _
             (relinkLeft_exec q4 t (rd p t LN) lc
                (childrenState_valid p t t Vt) (R4 LN) (R4 LC)
                (fun l E => childrenState_valid p t l
                              (proj2 (NL LN l ltac:(unfold nbr; auto) E))))).
  set (q5 := relinkState q4 t (rd p t LN) [BN; LN; RN] lc).
  assert (R5 : forall f, rd q5 t f = rd q4 t f).
  { intros f. unfold q5. apply relinkState_rd_ne. intros E.
    by destruct (NL LN t ltac:(unfold nbr; auto) E). }
  assert (V5 : forall x, valid p x -> valid q5 x).
  { intros x V. unfold q5. by apply relinkState_valid, childrenState_valid. }
  assert (E5n : rd q5 t RN = rd p t RN) by (by rewrite R5, R4).
  assert (E5c : rd q5 t RC = Some rc) by (by rewrite R5, R4).
  rewrite (bind_ok _ _ _ _ _
             (relinkRight_exec q5 t (rd p t RN) rc (V5 t Vt) E5n E5c
                (fun l E => V5 l (proj2 (NL RN l ltac:(unfold nbr; auto) E))))).
  reflexivity.
Qed.

Lemma bind_assoc {A B C} (m : M A) (k1 : A -> M B) (k2 : B -> M C) q :
  bind (bind m k1) k2 q = bind m (fun a => bind (k1 a) k2) q.
Proof. unfold bind. by destruct (m q) as [[a q']|]. Qed.

Lemma bind_ret {A B} (a : A) (k : A -> M B) q : bind (ret a) k q = k a q.
Proof. reflexivity. Qed.

Lemma wr_same q x f w : rd q x f = w -> wr q x f w = q.
Proof. intros <-. apply wr_id. Qed.

(** A triangle on the patch edge. *)
Lemma splitRest_edge (rec : option ptr -> M bool) :
  (forall x, ~ O x) -> rd p t BN = None ->
  splitPost lv p t (splitRest rec t p).
Proof.
  intros HO E.
  pose proof (fresh_cap p Hex) as Hcap.
  pose proof (live_valid _ _ _ Hinv t Lt) as Vt.
  assert (T : forall f, rd p1 t f = _) by apply (t_rd _ _ _ _ Hinv Hex Lt Hleaf).
  assert (L : forall f, rd p1 lc f = _) by apply (lc_rd _ _ _ _ Hinv Hex Lt Hleaf).
  assert (R : forall f, rd p1 rc f = _) by apply (rc_rd _ _ _ _ Hinv Hex Lt Hleaf).
  rewrite splitRest_exec.
  rewrite bind_load by by apply linkedState_valid.
  rewrite T, E.
  rewrite (bind_ok _ _ _ _ _
             (clearEdge_exec p1 t lc rc
                (linkedState_valid p t t Vt)
                (linkedState_valid p t lc ltac:(simpl; lia))
                (linkedState_valid p t rc ltac:(simpl; lia))
                (T LC) (T RC))).
  rewrite (wr_same p1 lc RN None) by by rewrite L.
  rewrite (wr_same p1 rc LN None) by by rewrite R.
  exists true, (childLevel lv p t), (openAfter O p t), p1.
  split; [done|]. split.
  { apply linked_inv; try done; [congruence|]. intros x f Hx. by destruct (HO x). }
  split.
  { intros _ x [Hx|[_ Hx]]; [by apply (HO x)|done]. }
  split; [by eapply linked_ext|].
  intros _. by eapply t_leaf.
Qed.

End Step.

(** The second half of a diamond: [y] is a leaf whose base neighbor [t0]
    is the one open node. *)
Section SecondHalf.

Context (lv : ptr -> nat) (O : ptr -> Prop) (p : Patch) (y t0 lc0 rc0 : ptr).
Hypothesis Hinv : MeshInv lv O p.
Hypothesis Hex : exhausted p = false.
Hypothesis Ly : live p y.
Hypothesis Hleaf : leaf p y = true.
Hypothesis HO : forall x, O x <-> x = t0.
Hypothesis E : rd p y BN = Some t0.
Hypothesis Elc : rd p t0 LC = Some lc0.
Hypothesis Erc : rd p t0 RC = Some rc0.
Hypothesis Hne : lc0 <> rc0.
Hypothesis HL : rd p y LN <> Some rc0.
Hypothesis HR : rd p y RN <> Some lc0.

Local Notation "'lc'" := (PoolNode (nextIdx p)).
Local Notation "'rc'" := (PoolNode (S (nextIdx p))).
Local Notation "'p2'" := (linkedState p y).
Local Notation "'p3'" := (crossState (linkedState p y) y t0 lc rc lc0 rc0).

Lemma second_facts :
  live p t0 /\ leaf p t0 = false /\ rd p t0 BN = Some y /\ t0 <> y
  /\ live p lc0 /\ live p rc0 /\ lc0 <> y /\ rc0 <> y.
Proof.
  destruct (mi_open _ _ _ Hinv t0 (proj2 (HO t0) eq_refl)) as (Lt & Ht & _ & _).
  destruct (mi_sym _ _ _ Hinv y BN t0 Ly Hleaf ltac:(unfold nbr; auto) E)
    as [[?|(_ & _ & M)] _]; [congruence|].
  assert (N : t0 <> y) by congruence.
  pose proof (mi_scope _ _ _ Hinv t0 LC lc0 Lt Elc).
  pose proof (mi_scope _ _ _ Hinv t0 RC rc0 Lt Erc).
  pose proof (mi_child _ _ _ Hinv t0 LC lc0 Lt ltac:(auto) Elc).
  pose proof (mi_child _ _ _ Hinv t0 RC rc0 Lt ltac:(auto) Erc).
  destruct (mi_branch _ _ _ Hinv t0 y Lt Ht M) as (_ & Hlv & _).
  repeat split; try done; intros ->; lia.
Qed.

Lemma second_mutual y' : rd p y BN = Some y' -> rd p y' BN = Some y.
Proof.
  destruct second_facts as (_ & _ & M & _). intros E'. congruence.
Qed.

Lemma second_not_child x f : O x -> f = LC \/ f = RC -> rd p x f <> Some y.
Proof.
  destruct second_facts as (_ & _ & _ & _ & _ & _ & N1 & N2).
  intros Hx [-> | ->]; apply HO in Hx as ->; congruence.
Qed.

Lemma second_inv2 : MeshInv (childLevel lv p y) (openAfter O p y) p2.
Proof. apply linked_inv; auto using second_mutual, second_not_child. Qed.

Lemma second_links :
  rd p2 y BN = Some t0 /\ rd p2 y LC = Some lc /\ rd p2 y RC = Some rc
  /\ rd p2 t0 LC = Some lc0 /\ rd p2 t0 RC = Some rc0
  /\ leaf p2 t0 = false.
Proof.
  destruct second_facts as (Lt & Ht & M & N & L1 & L2 & N1 & N2).
  rewrite !(t_rd _ _ _ _ Hinv Hex Ly Hleaf).
  rewrite !(old_child _ _ _ _ Hinv Hex Ly Hleaf) by auto.
  rewrite (old_leaf _ _ _ _ Hinv Hex Ly Hleaf) by auto. done.
Qed.

Lemma second_exec (rec : option ptr -> M bool) :
  splitRest rec y p = Ok (true, p3).
Proof.
  pose proof (fresh_cap p Hex) as Hcap.
  destruct second_facts as (Lt & Ht & M & N & L1 & L2 & N1 & N2).
  destruct second_links as (B1 & B2 & B3 & B4 & B5 & B6).
  assert (V : forall x, live p x -> valid p2 x).
  { intros x Lx. by apply linkedState_valid, (live_valid _ _ _ Hinv). }
  rewrite (splitRest_exec _ _ _ _ Hinv Hex Ly Hleaf).
  rewrite bind_load by auto. rewrite B1. cbv beta iota.
  rewrite bind_assoc, bind_isBranch by auto. rewrite B6. cbn [negb]. cbv beta iota.
  rewrite (bind_ok _ _ _ _ _
             (crossLink_exec p2 y t0 lc rc lc0 rc0 (V y Ly) (V t0 Lt)
                (linkedState_valid p y lc ltac:(simpl; lia))
                (linkedState_valid p y rc ltac:(simpl; lia))
                (V lc0 L1) (V rc0 L2) B1 B2 B3 B4 B5)).
  done.
Qed.

Lemma second_open :
  openAfter O p y y /\ openAfter O p y t0
  /\ forall x, openAfter O p y x -> x = y \/ x = t0.
Proof.
  split; [right; split; [done|congruence]|].
  split; [left; by apply HO|].
  intros x [Hx|[-> _]]; [right; by apply HO|by left].
Qed.

Lemma second_inv : MeshInv (childLevel lv p y) (fun _ => False) p3.
Proof.
  destruct second_facts as (Lt & Ht & M & N & L1 & L2 & N1 & N2).
  destruct second_links as (B1 & B2 & B3 & B4 & B5 & B6).
  destruct second_open as (O1 & O2 & O3).
  destruct (live_fresh p lc0 L1) as [F1 F2].
  destruct (live_fresh p rc0 L2) as [F3 F4].
  assert (F5 : lc <> rc) by (intros [=]; lia).
  assert (SL : forall x f, rd p x f <> Some lc /\ rd p x f <> Some rc).
  { intros x f. split; intros E'; apply (stored_live _ _ _ Hinv) in E';
      simpl in E'; lia. }
  apply (cross_inv _ _ _ _ _ _ _ _ _ second_inv2 O1 O2 O3 B1 B2 B3 B4 B5).
  - repeat split; congruence.
  - intros s Hs. rewrite (lc_rd _ _ _ _ Hinv Hex Ly Hleaf).
    destruct s; try done. congruence.
  - intros s Hs. rewrite (rc_rd _ _ _ _ Hinv Hex Ly Hleaf).
    destruct s; try done. congruence.
  - intros s Hs. rewrite (old_rd _ _ _ _ Hinv Hex Ly Hleaf) by done.
    destruct (decide _) as [?|_]; [congruence|].
    destruct (decide _) as [(_ & _ & ?)|_]; [done|]. apply SL.
  - intros s Hs. rewrite (old_rd _ _ _ _ Hinv Hex Ly Hleaf) by done.
    destruct (decide _) as [(_ & _ & ?)|_]; [done|].
    destruct (decide _) as [?|_]; [congruence|]. apply SL.
Qed.

Lemma second_frame :
  nextIdx p3 = nextIdx p2 /\ capacity p3 = capacity p2 /\ params p3 = params p2
  /\ (forall x, leaf p3 x = leaf p2 x)
  /\ (forall x f, f = LC \/ f = RC -> rd p3 x f = rd p2 x f)
  /\ (forall x f, x <> lc -> x <> rc -> x <> lc0 -> x <> rc0 ->
         rd p3 x f = rd p2 x f).
Proof.
  destruct second_links as (B1 & B2 & B3 & B4 & B5 & B6).
  destruct second_open as (O1 & O2 & O3).
  pose proof (cross_rd _ _ _ _ _ _ _ _ _ second_inv2 O1 O2 B1 B2 B3 B4 B5) as R.
  split; [unfold crossState; by rewrite !nextIdx_wr|].
  split; [unfold crossState; by rewrite !capacity_wr|].
  split; [unfold crossState; by rewrite !params_wr|].
  assert (C : forall x f, f = LC \/ f = RC -> rd p3 x f = rd p2 x f).
  { intros x f Hf. rewrite R.
    rewrite !decide_False; [done| | | |]; intuition congruence. }
  split; [intros x; unfold leaf; by rewrite !C by auto|].
  split; [done|].
  intros x f N1 N2 N3 N4. rewrite R.
  rewrite !decide_False; [done| | | |]; intuition congruence.
Qed.

End SecondHalf.

(** Changes confined to nodes that were not live in [p0] keep [ext]. *)
Lemma ext_frame L lv p0 lv2 p2 p3 :
  ext L lv p0 lv2 p2 ->
  nextIdx p3 = nextIdx p2 -> capacity p3 = capacity p2 -> params p3 = params p2 ->
  (forall x, leaf p3 x = leaf p2 x) ->
  (forall x f, f = LC \/ f = RC -> rd p3 x f = rd p2 x f) ->
  (forall x f, live p0 x -> rd p3 x f = rd p2 x f) ->
  ext L lv p0 lv2 p3.
Proof.
  intros [A1 A2 A3 A4 A5 A6 A7 A8] N C P HL HC HR. split.
  - lia.
  - congruence.
  - unfold sameParams in *. congruence.
  - done.
  - intros x f Lx Hl. rewrite HL. destruct (A5 x f Lx Hl) as [? H2].
    split; [done|]. intros Hf. rewrite HC by done. auto.
  - intros x Lx Hl Hlt. rewrite HL. auto.
  - intros x s Lx Hl Hs. rewrite HL in Hl. rewrite HR by done.
    destruct (A7 x s Lx Hl Hs) as [?|(z & c & ? & ? & ? & ? & Lc & ?)]; [by left|].
    right. exists z, c. rewrite HL. repeat split; try done.
    destruct c; simpl in *; try done. lia.
  - intros x Lx Hl. rewrite HL in Hl. apply A8; [|done].
    destruct x; simpl in *; try done. lia.
Qed.

(** A complete diamond: [t] and its base neighbor [y] are both leaves. *)
Section Diamond.

Context (lv : ptr -> nat) (O : ptr -> Prop) (p : Patch) (t y : ptr).
Hypothesis Hinv : MeshInv lv O p.
Hypothesis Hex : exhausted p = false.
Hypothesis Lt : live p t.
Hypothesis Hleaf : leaf p t = true.
Hypothesis HO : forall x, ~ O x.
Hypothesis E : rd p t BN = Some y.
Hypothesis Mu : rd p y BN = Some t.

Local Notation "'lc'" := (PoolNode (nextIdx p)).
Local Notation "'rc'" := (PoolNode (S (nextIdx p))).
Local Notation "'p1'" := (linkedState p t).
Local Notation "'lv1'" := (childLevel lv p t).
Local Notation "'O1'" := (openAfter O p t).

Lemma diamond_mutual y' : rd p t BN = Some y' -> rd p y' BN = Some t.
Proof. intros E'. congruence. Qed.

Lemma diamond_not_child x f : O x -> f = LC \/ f = RC -> rd p x f <> Some t.
Proof. intros Hx. by destruct (HO x). Qed.

Lemma diamond_inv1 : MeshInv lv1 O1 p1.
Proof. apply linked_inv; auto using diamond_mutual, diamond_not_child. Qed.

Lemma diamond_facts :
  live p y /\ y <> t /\ leaf p y = true /\ lv y = lv t
  /\ live p1 y /\ leaf p1 y = true /\ rd p1 y BN = Some t
  /\ rd p1 t BN = Some y /\ rd p1 t LC = Some lc /\ rd p1 t RC = Some rc
  /\ rd p1 y LN <> Some rc /\ rd p1 y RN <> Some lc
  /\ forall x, O1 x <-> x = t.
Proof.
  destruct (base_nbr _ _ _ _ Hinv Hex Lt Hleaf diamond_mutual y E)
    as (Ly & Ny & _ & Hlv & M1).
  assert (Hy : leaf p y = true).
  { destruct (mi_sym _ _ _ Hinv t BN y Lt Hleaf ltac:(unfold nbr; auto) E)
      as [[?|(_ & Hx & _)] _]; [done|by destruct (HO y)]. }
  assert (SL : forall x f, rd p x f <> Some lc /\ rd p x f <> Some rc).
  { intros x f. split; intros E'; apply (stored_live _ _ _ Hinv) in E';
      simpl in E'; lia. }
  split; [done|]. split; [done|]. split; [done|]. split; [done|].
  split; [apply live_p1; by left|].
  split; [by rewrite (old_leaf _ _ _ _ Hinv Hex Lt Hleaf)|].
  split; [done|].
  rewrite !(t_rd _ _ _ _ Hinv Hex Lt Hleaf).
  split; [done|]. split; [done|]. split; [done|].
  rewrite !(old_rd _ _ _ _ Hinv Hex Lt Hleaf) by done.
  split; [|split].
  - destruct (decide _) as [(_ & _ & B)|_].
    { exfalso. by eapply (leg_not_base _ _ _ _ Hinv Lt Hleaf LN y); unfold nbr; auto. }
    destruct (decide _) as [(_ & _ & B)|_]; [|apply SL].
    exfalso. by eapply (leg_not_base _ _ _ _ Hinv Lt Hleaf RN y); unfold nbr; auto.
  - destruct (decide _) as [(_ & _ & B)|_].
    { exfalso. by eapply (leg_not_base _ _ _ _ Hinv Lt Hleaf LN y); unfold nbr; auto. }
    destruct (decide _) as [(_ & _ & B)|_]; [|apply SL].
    exfalso. by eapply (leg_not_base _ _ _ _ Hinv Lt Hleaf RN y); unfold nbr; auto.
  - intros x. split.
    + intros [Hx|[-> _]]; [by destruct (HO x)|done].
    + intros ->. right. split; [done|congruence].
Qed.

Lemma splitRest_diamond fuel :
  splitPost lv p t (splitRest (Split (S fuel)) t p).
Proof.
  pose proof (fresh_cap p Hex) as Hcap.
  destruct diamond_facts
    as (Ly & Ny & Hy & Hlv & Ly1 & Hy1 & M1 & B1 & C1 & C2 & D1 & D2 & HO1).
  pose proof diamond_inv1 as Hinv1.
  assert (V : forall x, live p x -> valid p1 x).
  { intros x Lx. by apply linkedState_valid, (live_valid _ _ _ Hinv). }
  assert (X1 : ext (lv t) lv p lv1 p1) by by eapply linked_ext.
  rewrite (splitRest_exec _ _ _ _ Hinv Hex Lt Hleaf).
  rewrite bind_load by auto. rewrite B1. cbv beta iota.
  rewrite bind_assoc, bind_isBranch by auto. rewrite Hy1. cbn [negb]. cbv beta iota.
  rewrite bind_assoc, Split_unfold.
  rewrite bind_assoc, bind_isLeaf by auto. rewrite Hy1. cbn [negb]. cbv beta iota.
  rewrite !bind_assoc, bind_load by auto. rewrite M1.
  rewrite !bind_assoc, bind_load by auto. rewrite B1.
  rewrite decide_False by (intros [_ ?]; done).
  rewrite ?bind_assoc. rewrite bind_ret.
  destruct (exhausted p1) eqn:Hex1.
  - unfold splitRest at 1.
    rewrite !bind_assoc.
    rewrite (bind_ok _ _ _ _ _ (allocateChildren_exhausted y p1 Hex1 (V y Ly) Hy1)).
    cbn. exists true, lv1, O1, p1.
    split; [reflexivity|]. split; [done|]. split; [congruence|]. split; [done|]. congruence.
  - pose proof (second_exec _ _ _ _ _ _ _ Hinv1 Hex1 Ly1 Hy1 HO1 M1 C1 C2
                  ltac:(intros [=]; lia) D1 D2 (Split fuel)) as X.
    pose proof (second_inv _ _ _ _ _ _ _ Hinv1 Hex1 Ly1 Hy1 HO1 M1 C1 C2
                  ltac:(intros [=]; lia) D1 D2) as I3.
    destruct (second_frame _ _ _ _ _ _ _ Hinv1 Hex1 Ly1 Hy1 HO1 M1 C1 C2
                  ltac:(intros [=]; lia) D1 D2) as (F1 & F2 & F3 & F4 & F5 & F6).
    rewrite (bind_ok _ _ _ _ _ X). cbn.
    eexists true, _, _, _. split; [reflexivity|]. split; [exact I3|].
    split; [intros _ x []|]. split.
    + assert (EL : lv1 y = lv t) by (by rewrite (lv'_old lv p t y Ly)).
      assert (X2 : ext (lv t) lv p (childLevel lv1 p1 y) (linkedState p1 y)).
      { apply (ext_trans _ _ _ _ _ _ _ _ Hinv X1).
        rewrite <- EL. by eapply linked_ext. }
      apply (ext_frame _ _ _ _ _ _ X2); try done.
      * intros x f Lx. apply F6.
        -- rewrite linkedState_nextIdx. intros ->. simpl in Lx. lia.
        -- rewrite linkedState_nextIdx. intros ->. simpl in Lx. lia.
        -- intros ->. simpl in Lx. lia.
        -- intros ->. simpl in Lx. lia.
    + intros _. rewrite F4.
      rewrite (old_leaf _ _ _ _ Hinv1 Hex1 Ly1 Hy1) by (apply live_p1; auto) || done.
      by eapply t_leaf.
Qed.

End Diamond.

Lemma splitRest_exhausted (rec : option ptr -> M bool) lv O p t :
  MeshInv lv O p -> exhausted p = true -> live p t -> leaf p t = true ->
  splitPost lv p t (splitRest rec t p).
Proof.
  intros Hinv Hex Lt Hleaf. unfold splitRest.
  rewrite (bind_ok _ _ _ _ _
             (allocateChildren_exhausted t p Hex (live_valid _ _ _ Hinv t Lt) Hleaf)).
  cbn. exists false, lv, O, p.
  split; [reflexivity|]. split; [done|]. split; [congruence|].
  split; [apply ext_refl|congruence].
Qed.

Lemma splitPost_trans lv O p lv1 p1 t res :
  MeshInv lv O p -> ext (lv t) lv p lv1 p1 -> live p t ->
  splitPost lv1 p1 t res -> splitPost lv p t res.
Proof.
  intros Hinv X Lt (r & lv' & O' & p' & E & I & HO & X' & B).
  exists r, lv', O', p'. split; [done|]. split; [done|]. split; [done|].
  split; [|done].
  apply (ext_trans _ _ _ _ _ _ _ _ Hinv X).
  by rewrite (ext_lv _ _ _ _ _ X t Lt) in X'.
Qed.

Lemma Split_sound fuel :
  forall lv O p t,
    MeshInv lv O p -> (exhausted p = false -> forall x, ~ O x) ->
    live p t -> (lv t + 2 <= fuel)%nat ->
    splitPost lv p t (Split fuel (Some t) p).
Proof.
  induction fuel as [|fuel IH]; intros lv O p t Hinv HO Lt Hf; [lia|].
  pose proof (live_valid _ _ _ Hinv t Lt) as Vt.
  rewrite Split_unfold. rewrite bind_isLeaf by done.
  destruct (leaf p t) eqn:Hleaf; cbn [negb]; cbv iota.
  2:{ exists true, lv, O, p. split; [reflexivity|]. split; [done|].
      split; [done|]. split; [apply ext_refl|done]. }
  rewrite bind_load by done.
  destruct (rd p t BN) as [y|] eqn:E; cbv iota.
  - assert (Ly : live p y) by by eapply (mi_scope _ _ _ Hinv).
    pose proof (live_valid _ _ _ Hinv y Ly) as Vy.
    rewrite bind_load by done.
    destruct (decide (Some y <> None /\ rd p y BN <> Some t)) as [[_ Nm]|Hm].
    + (* the base neighbor is coarser: split it first *)
      destruct (mi_sym _ _ _ Hinv t BN y Lt Hleaf ltac:(unfold nbr; auto) E)
        as [_ (s' & Hs' & Es' & Hlv)].
      assert (Hlt : (lv y + 1 = lv t)%nat).
      { destruct Hs' as [-> | [-> | ->]]; simpl in Hlv; [congruence|lia|lia]. }
      destruct (IH lv O p y Hinv HO Ly ltac:(lia))
        as (r1 & lv1 & O1 & p1 & X & Hinv1 & HO1 & Ext1 & Br1).
      rewrite bind_assoc, (bind_ok _ _ _ _ _ X). rewrite !bind_ret.
      assert (Lt1 : live p1 t) by (eapply live_mono; [apply Ext1|done]).
      assert (Hleaf1 : leaf p1 t = true) by (apply (ext_keep _ _ _ _ _ Ext1); [done|done|lia]).
      assert (Elv : lv1 t = lv t) by by apply (ext_lv _ _ _ _ _ Ext1).
      apply (splitPost_trans lv O p lv1 p1); [done|by eapply ext_weaken; [|exact Ext1]; lia|done|].
      destruct (exhausted p1) eqn:Hex1; [by eapply splitRest_exhausted|].
      specialize (HO1 eq_refl). specialize (Br1 eq_refl).
      destruct (ext_slot _ _ _ _ _ Ext1 t BN Lt Hleaf1 ltac:(unfold nbr; auto))
        as [E1|(z & c & Ez & Lz & Hz & E1 & Lc & Hlc)].
      * exfalso. rewrite E in E1.
        destruct (mi_sym _ _ _ Hinv1 t BN y Lt1 Hleaf1 ltac:(unfold nbr; auto) E1)
          as [[?|(_ & Hx & _)] _]; [congruence|by destruct (HO1 y)].
      * assert (z = y) as -> by congruence.
        destruct (mi_sym _ _ _ Hinv1 t BN c Lt1 Hleaf1 ltac:(unfold nbr; auto) E1)
          as [_ (s1 & Hs1 & Es1 & Hlv1)].
        rewrite (ext_lv _ _ _ _ _ Ext1 y Ly) in Hlc || idtac.
        assert (s1 = BN) as ->.
        { destruct Hs1 as [-> | [-> | ->]]; [done| |]; simpl in Hlv1; lia. }
        destruct fuel as [|fuel']; [lia|].
        by eapply splitRest_diamond.
    + assert (Mu : rd p y BN = Some t).
      { destruct (decide (rd p y BN = Some t)); [done|]. exfalso. apply Hm. done. }
      rewrite !bind_ret.
      destruct (exhausted p) eqn:Hex; [by eapply splitRest_exhausted|].
      destruct fuel as [|fuel']; [lia|].
      by eapply splitRest_diamond; eauto.
  - rewrite bind_ret. rewrite decide_False by (intros [? _]; done).
    rewrite bind_ret.
    destruct (exhausted p) eqn:Hex; [by eapply splitRest_exhausted|].
    by eapply splitRest_edge; eauto.
Qed.

End SplitSound.

(** ** Sequences of [Split] calls *)

Section Sequences.

Implicit Types (p q : Patch) (x y t : ptr) (f g s : link).

Lemma fresh_rd p0 cap x f :
  rd (freshPatch p0 cap) x f =
    match x, f with
    | BaseLeft, BN => Some BaseRight
    | BaseRight, BN => Some BaseLeft
    | _, _ => None
    end.
Proof.
  unfold rd. destruct x as [| |i]; simpl; [by destruct f|by destruct f|].
  destruct (replicate cap zeroNode !! i) as [n|] eqn:E; [|done].
  apply lookup_replicate in E as [-> _]. by destruct f.
Qed.

Lemma fresh_live p0 cap x : live (freshPatch p0 cap) x -> x = BaseLeft \/ x = BaseRight.
Proof. destruct x; [auto|auto|]. unfold live, nextIdx. simpl. lia. Qed.

Lemma fresh_capacity p0 cap : capacity (freshPatch p0 cap) = cap.
Proof. unfold capacity, poolSize. simpl. apply length_replicate. Qed.

Lemma fresh_inv p0 cap : MeshInv (fun _ => 0%nat) (fun _ => False) (freshPatch p0 cap).
Proof.
  split.
  - rewrite fresh_capacity. unfold nextIdx. simpl. lia.
  - intros i f _. by rewrite fresh_rd.
  - intros x f y _. rewrite fresh_rd.
    destruct x, f; try done; by intros [= <-].
  - intros x _. lia.
  - intros x _. rewrite !fresh_rd. by destruct x.
  - intros x f c _ [-> | ->]; rewrite fresh_rd; by destruct x.
  - intros x s _ _. rewrite fresh_rd. by destruct x, s.
  - intros x s y Lx _ Hs. rewrite fresh_rd.
    destruct x, s; try done; intros [= <-].
    + split; [left; unfold leaf; by rewrite !fresh_rd|].
      exists BN. split; [done|]. by rewrite fresh_rd.
    + split; [left; unfold leaf; by rewrite !fresh_rd|].
      exists BN. split; [done|]. by rewrite fresh_rd.
  - intros x s s' y _ _ _ _. rewrite !fresh_rd.
    destruct x, s, s'; try done.
  - intros x b _ Hl. unfold leaf in Hl. rewrite !fresh_rd in Hl. by destruct x.
  - intros x b c d _ Hl. unfold leaf in Hl. rewrite !fresh_rd in Hl. by destruct x.
  - done.
Qed.

Lemma Mesh_diamond lv O p :
  MeshInv lv O p -> (forall x, ~ O x) -> diamondInv p.
Proof.
  intros Hinv HO x b Lx Hl E.
  destruct (mi_branch _ _ _ Hinv x b Lx Hl E) as (M & _ & [Hb|Hx]); [|by destruct (HO x)].
  assert (Lb : live p b) by by eapply (mi_scope _ _ _ Hinv).
  split; [done|]. split; [done|]. split.
  - intros c d Ec Ed Hc Hd. by apply (mi_cross _ _ _ Hinv x b c d).
  - intros c d Ec Ed Hc Hd.
    destruct (mi_cross _ _ _ Hinv b x d c) as [? ?]; done.
Qed.

Lemma SplitAll_sound fuel calls :
  forall lv O p,
    MeshInv lv O p -> (exhausted p = false -> forall x, ~ O x) ->
    (capacity p + 2 <= fuel)%nat ->
    (exists lv' O' p',
        SplitAll fuel calls p = Ok (tt, p')
        /\ MeshInv lv' O' p' /\ (exhausted p' = false -> forall x, ~ O' x)
        /\ capacity p' = capacity p)
    \/ SplitAll fuel calls p = Err NullPointer.
Proof.
  induction calls as [|t ts IH]; intros lv O p Hinv HO Hf.
  { left. by exists lv, O, p. }
  cbn [SplitAll]. destruct (decide (live p t)) as [Lt|]; [|by right].
  pose proof (mi_level _ _ _ Hinv t Lt). pose proof (mi_cap _ _ _ Hinv).
  destruct (Split_sound fuel lv O p t Hinv HO Lt ltac:(lia))
    as (r & lv1 & O1 & p1 & X & Hinv1 & HO1 & Ext1 & _).
  rewrite (bind_ok _ _ _ _ _ X).
  pose proof (ext_cap _ _ _ _ _ Ext1) as C.
  destruct (IH lv1 O1 p1 Hinv1 HO1 ltac:(lia)) as [(lv' & O' & p' & Y & I' & HO' & C')|Y].
  - left. exists lv', O', p'. split; [done|]. split; [done|]. split; [done|]. congruence.
  - by right.
Qed.


End Sequences.



(** ** Computations that leave the parameters alone *)

Create HintDb tame discriminated.

Lemma tame_ret {A} (a : A) : tame (ret a).
Proof. intros p. reflexivity. Qed.

Lemma tame_fail_fuel {A} : tame (@fail A OutOfFuel).
Proof. intros p. by left. Qed.

Lemma tame_fail_null {A} : tame (@fail A NullPointer).
Proof. intros p. by right. Qed.

Lemma tame_bind {A B} (m : M A) (k : A -> M B) :
  tame m -> (forall a, tame (k a)) -> tame (bind m k).
Proof.
  intros Hm Hk p. unfold bind. specialize (Hm p).
  destruct (m p) as [[a p1]|e]; [|done].
  specialize (Hk a p1). destruct (k a p1) as [[b p2]|e]; [congruence|done].
Qed.

Lemma tame_load x f : tame (load x f).
Proof.
  intros p. unfold load. destruct x as [a|]; [|by right].
  destruct (nodeAt p a); [done|by right].
Qed.

Lemma tame_store x f v : tame (store x f v).
Proof.
  intros p. unfold store. destruct x as [a|]; [|by right].
  destruct (nodeAt p a) eqn:E; [|by right].
  by destruct a.
Qed.

Lemma tame_isLeaf x : tame (isLeaf x).
Proof.
  intros p. unfold isLeaf. destruct x as [a|]; [|by right].
  destruct (nodeAt p a); [done|by right].
Qed.

#[local] Hint Resolve tame_ret tame_fail_fuel tame_fail_null tame_load tame_store
  tame_isLeaf : tame.
#[local] Hint Extern 2 (tame (bind _ _)) => apply tame_bind; [|intros ?] : tame.
#[local] Hint Extern 2 (tame (match ?x with _ => _ end)) => destruct x : tame.

Lemma tame_isBranch x : tame (isBranch x).
Proof. unfold isBranch. auto with tame. Qed.

Lemma tame_allocateChildren t : tame (allocateChildren t).
Proof.
  intros p. unfold allocateChildren.
  destruct (Allocate (currentPool p)) as [[[ok l] r] cp].
  set (q := with_nodes p _ _ cp).
  assert (T : tame (bind (store (Some t) LC l)
                      (fun _ => bind (store (Some t) RC r) (fun _ => ret ok))))
    by auto with tame.
  specialize (T q). destruct (bind _ _ q) as [[a p']|e]; [|done].
  rewrite T. reflexivity.
Qed.

#[local] Hint Resolve tame_isBranch tame_allocateChildren : tame.

Lemma tame_linkChildren t : tame (linkChildren t).
Proof. unfold linkChildren. auto 30 with tame. Qed.

Lemma tame_relinkLeft t : tame (relinkLeft t).
Proof. unfold relinkLeft. auto 30 with tame. Qed.

Lemma tame_relinkRight t : tame (relinkRight t).
Proof. unfold relinkRight. auto 30 with tame. Qed.

Lemma tame_crossLink t : tame (crossLink t).
Proof. unfold crossLink. auto 40 with tame. Qed.

Lemma tame_clearEdge t : tame (clearEdge t).
Proof. unfold clearEdge. auto 30 with tame. Qed.

#[local] Hint Resolve tame_linkChildren tame_relinkLeft tame_relinkRight
  tame_crossLink tame_clearEdge : tame.

Lemma tame_Split fuel : forall tri, tame (Split fuel tri).
Proof.
  induction fuel as [|fuel IH]; intros tri; cbn [Split]; [auto with tame|].
  auto 30 with tame.
Qed.

(** ** Tessellation walks *)

Section Tessellation.

Variables (PATCH_SIZE VARIANCE_DEPTH : Z).

Implicit Types (p q : Patch) (x y t : ptr) (f g s : link).


Lemma varReady_params p p' : params p' = params p -> varReady VARIANCE_DEPTH p -> varReady VARIANCE_DEPTH p'.
Proof.
  unfold params, varReady, varSized. intros [= -> -> -> _ _ _ _]. done.
Qed.

Lemma readVariance_ok p node :
  varReady VARIANCE_DEPTH p -> 0 <= node < Z.shiftl 1 VARIANCE_DEPTH ->
  exists v, readVariance node p = Ok (v, p).
Proof.
  intros [[S1 S2] C] Hn. unfold readVariance.
  destruct (currentVariance p) as [s|]; [|done].
  destruct (Z.ltb_spec node 0); [lia|].
  assert (L : (Z.to_nat node < length (varianceTable p s))%nat).
  { destruct s; simpl; rewrite ?S1, ?S2; apply Z2Nat.inj_lt; lia. }
  apply lookup_lt_is_Some in L as [v ->]. eauto.
Qed.

Lemma triVariance_ok p left right node :
  varReady VARIANCE_DEPTH p -> 0 <= node -> exists m, triVariance PATCH_SIZE VARIANCE_DEPTH left right node p = Ok (m, p).
Proof.
  intros R Hn. unfold triVariance.
  destruct (Z.ltb_spec node (Z.shiftl 1 VARIANCE_DEPTH)); [|by eexists].
  destruct (readVariance_ok p node R ltac:(lia)) as [v E].
  rewrite (bind_ok _ _ _ _ _ E). eauto.
Qed.

Lemma leaf_false_children lv O p t :
  MeshInv lv O p -> live p t -> leaf p t = false ->
  exists c d, rd p t LC = Some c /\ rd p t RC = Some d.
Proof.
  intros Hinv Lt Hl. pose proof (mi_pair _ _ _ Hinv t Lt) as P.
  unfold leaf in Hl. destruct (rd p t LC) as [c|], (rd p t RC) as [d|]; eauto.
  - destruct P as [_ P]. by specialize (P eq_refl).
  - destruct P as [P _]. by specialize (P eq_refl).
  - done.
Qed.

Lemma shiftl_1 node : Z.shiftl node 1 = 2 * node.
Proof. rewrite Z.shiftl_mul_pow2 by lia. lia. Qed.

Lemma RecursTessellate_total fuel :
  forall lv O p t left right apex node,
    MeshInv lv O p -> (exhausted p = false -> forall x, ~ O x) ->
    live p t -> varReady VARIANCE_DEPTH p -> 0 <= node ->
    (2 * capacity p + 3 <= fuel + lv t)%nat ->
    tessPost lv p (RecursTessellate PATCH_SIZE VARIANCE_DEPTH fuel (Some t) left right apex node p).
Proof.
  induction fuel as [|fuel IH]; intros lv O p t left right apex node Hinv HO Lt R Hn Hf.
  { pose proof (mi_level _ _ _ Hinv t Lt). pose proof (mi_cap _ _ _ Hinv). lia. }
  assert (Stop : forall tr, tessPost lv p (Ok (tr, p))).
  { intros tr. exists tr, lv, O, p. split; [done|]. split; [done|].
    split; [done|apply ext_refl]. }
  cbn [RecursTessellate].
  destruct (footprintSmall left right); [apply Stop|].
  destruct (triVariance_ok p left right node R Hn) as [m Em].
  rewrite (bind_ok _ _ _ _ _ Em).
  destruct (Qle_bool m 1); [apply Stop|].
  pose proof (mi_level _ _ _ Hinv t Lt) as Hlv. pose proof (mi_cap _ _ _ Hinv) as Hcap.
  destruct (Split_sound fuel lv O p t Hinv HO Lt ltac:(lia))
    as (r & lv1 & O1 & p1 & X & Hinv1 & HO1 & Ext1 & _).
  rewrite (bind_ok _ _ _ _ _ X). cbv beta.
  pose proof (ext_cap _ _ _ _ _ Ext1) as C1.
  assert (Lt1 : live p1 t) by (eapply live_mono; [apply (ext_next _ _ _ _ _ Ext1)|done]).
  assert (Ext1' : ext (capacity p) lv p lv1 p1).
  { eapply ext_weaken; [|exact Ext1]. lia. }
  assert (R1 : varReady VARIANCE_DEPTH p1) by (eapply varReady_params; [apply (ext_params _ _ _ _ _ Ext1)|done]).
  rewrite bind_isBranch by exact (live_valid _ _ _ Hinv1 _ Lt1). cbv beta.
  destruct (leaf p1 t) eqn:Hl1; cbn [negb].
  { exists [Some t], lv1, O1, p1. done. }
  destruct (leaf_false_children _ _ _ _ Hinv1 Lt1 Hl1) as (c & d & Ec & Ed).
  rewrite bind_load by exact (live_valid _ _ _ Hinv1 _ Lt1). cbv beta. rewrite Ec.
  assert (Lc : live p1 c) by exact (mi_scope _ _ _ Hinv1 t LC c Lt1 Ec).
  assert (Ld : live p1 d) by exact (mi_scope _ _ _ Hinv1 t RC d Lt1 Ed).
  pose proof (mi_child _ _ _ Hinv1 t LC c Lt1 ltac:(auto) Ec) as Hc.
  pose proof (mi_child _ _ _ Hinv1 t RC d Lt1 ltac:(auto) Ed) as Hd.
  pose proof (ext_lv _ _ _ _ _ Ext1 t Lt) as Elv.
  destruct (IH lv1 O1 p1 c apex left (midpoint left right) (Z.shiftl node 1)
              Hinv1 HO1 Lc R1 ltac:(rewrite shiftl_1; lia) ltac:(lia))
    as (t1 & lv2 & O2 & p2 & Y & Hinv2 & HO2 & Ext2).
  rewrite (bind_ok _ _ _ _ _ Y). cbv beta.
  assert (Lt2 : live p2 t) by (eapply live_mono; [apply (ext_next _ _ _ _ _ Ext2)|done]).
  assert (Ld2 : live p2 d) by (eapply live_mono; [apply (ext_next _ _ _ _ _ Ext2)|done]).
  destruct (ext_branch _ _ _ _ _ Ext2 t RC Lt1 Hl1) as [Hl2 Ed2].
  rewrite bind_load by exact (live_valid _ _ _ Hinv2 _ Lt2). cbv beta. rewrite Ed2, Ed by auto.
  assert (R2 : varReady VARIANCE_DEPTH p2) by (eapply varReady_params; [apply (ext_params _ _ _ _ _ Ext2)|done]).
  pose proof (ext_cap _ _ _ _ _ Ext2) as C2.
  pose proof (ext_lv _ _ _ _ _ Ext2 d Ld) as Elvd.
  destruct (IH lv2 O2 p2 d right apex (midpoint left right) (Z.shiftl node 1 + 1)
              Hinv2 HO2 Ld2 R2 ltac:(rewrite shiftl_1; lia) ltac:(lia))
    as (t2 & lv3 & O3 & p3 & W & Hinv3 & HO3 & Ext3).
  rewrite (bind_ok _ _ _ _ _ W). cbv beta.
  exists (Some t :: t1 ++ t2), lv3, O3, p3.
  split; [done|]. split; [done|]. split; [done|].
  rewrite C1 in Ext2. rewrite C2, C1 in Ext3.
  eapply ext_trans; [exact Hinv|exact Ext1'|].
  eapply ext_trans; [exact Hinv1|exact Ext2|exact Ext3].
Qed.


Lemma classic_stop left right node p v :
  specStop PATCH_SIZE VARIANCE_DEPTH left right node p v
  \/ ~ specStop PATCH_SIZE VARIANCE_DEPTH left right node p v.
Proof.
  unfold specStop.
  destruct (decide (Z.abs (int2.x left - int2.x right) <= 1
                    /\ Z.abs (int2.y left - int2.y right) <= 1)) as [H|H]; [by left; left|].
  destruct (Qlt_le_dec 1 (specMetric PATCH_SIZE VARIANCE_DEPTH left right node p v))
    as [H1|H1]; [|by left; right].
  right. intros [H2|H2]; [done|]. by apply Qlt_not_le in H1.
Qed.

(** *** Walks on an exhausted pool *)

Lemma RecursTessellate_exhausted fuel :
  forall tri left right apex node p tr p',
    exhausted p = true ->
    RecursTessellate PATCH_SIZE VARIANCE_DEPTH fuel tri left right apex node p = Ok (tr, p') -> p' = p.
Proof.
  induction fuel as [|fuel IH]; intros tri left right apex node p tr p' Hex; [done|].
  cbn [RecursTessellate].
  destruct (footprintSmall left right); [by intros [= _ ->]|].
  intros H. apply bind_inv in H as (m & q & Hm & H).
  assert (q = p) as ->.
  { unfold triVariance in Hm.
    destruct (node <? Z.shiftl 1 VARIANCE_DEPTH).
    - apply bind_inv in Hm as (v & q' & Hv & Hm). injection Hm as _ <-.
      unfold readVariance in Hv.
      destruct (currentVariance p); [|done]. destruct (node <? 0); [done|].
      destruct (_ !! _); [|done]. by injection Hv as _ <-.
    - by injection Hm as _ <-. }
  destruct (Qle_bool m 1); [by injection H as _ <-|].
  apply bind_inv in H as (r & p1 & Hs & H).
  apply (Split_exhausted _ _ _ _ _ Hex) in Hs as ->.
  apply bind_inv in H as (br & p2 & Hb & H).
  assert (p2 = p) as ->.
  { unfold isBranch in Hb. apply bind_inv in Hb as (rc & q & Hl & Hb).
    apply isLeaf_inv in Hl as [-> _]. by injection Hb as _ <-. }
  destruct br; [|by injection H as _ <-].
  apply bind_inv in H as (lc & q & Hl & H). apply load_inv in Hl as [-> _].
  apply bind_inv in H as (t1 & p3 & H1 & H). apply (IH _ _ _ _ _ _ _ _ Hex) in H1 as ->.
  apply bind_inv in H as (rc & q & Hl & H). apply load_inv in Hl as [-> _].
  apply bind_inv in H as (t2 & p4 & H2 & H). apply (IH _ _ _ _ _ _ _ _ Hex) in H2 as ->.
  by injection H as _ <-.
Qed.

Lemma Tessellate_unfold fuel dist viewRadius passPool p :
  Tessellate PATCH_SIZE VARIANCE_DEPTH fuel dist viewRadius passPool p
  = (let c := coors p in
     t1 <- RecursTessellate PATCH_SIZE VARIANCE_DEPTH fuel (Some BaseLeft)
             (int2.mk (int2.x c) (int2.y c + PATCH_SIZE))
             (int2.mk (int2.x c + PATCH_SIZE) (int2.y c))
             (int2.mk (int2.x c) (int2.y c)) 1 ;;
     setCurrentVariance SideRight ;;;
     t2 <- RecursTessellate PATCH_SIZE VARIANCE_DEPTH fuel (Some BaseRight)
             (int2.mk (int2.x c + PATCH_SIZE) (int2.y c))
             (int2.mk (int2.x c) (int2.y c + PATCH_SIZE))
             (int2.mk (int2.x c + PATCH_SIZE) (int2.y c + PATCH_SIZE)) 1 ;;
     fun p => Ok ((negb (OutOfNodes (currentPool p)), t1 ++ t2), p))
    (tessStart dist viewRadius passPool p).
Proof. reflexivity. Qed.



(** *** One step of the walk *)

Lemma fmin_Qmin a b : fmin a b = Qmin a b.
Proof.
  unfold fmin, Qmin, GenericMinMax.gmin.
  destruct (Qltb b a) eqn:E.
  - apply Qltb_lt in E. by rewrite (proj1 (Qgt_alt a b) E).
  - apply Qltb_ge in E. destruct (a ?= b)%Q eqn:C; done.
Qed.

Lemma footprintSmall_spec left right :
  footprintSmall left right = true
  <-> Z.abs (int2.x left - int2.x right) <= 1 /\ Z.abs (int2.y left - int2.y right) <= 1.
Proof. unfold footprintSmall. rewrite andb_true_iff, !Z.leb_le. done. Qed.

Lemma footprintSize_abs left right :
  footprintSize left right
  = Z.max (Z.abs (int2.x left - int2.x right)) (Z.abs (int2.y left - int2.y right)).
Proof. unfold footprintSize. lia. Qed.

Lemma shiftl_pow2 : 0 <= VARIANCE_DEPTH -> Z.shiftl 1 VARIANCE_DEPTH = 2 ^ VARIANCE_DEPTH.
Proof. intros H. rewrite Z.shiftl_mul_pow2 by done. lia. Qed.

Lemma triVariance_spec left right node p v :
  0 <= VARIANCE_DEPTH -> 0 <= node ->
  (node < 2 ^ VARIANCE_DEPTH -> storedVariance p node = Some v) ->
  triVariance PATCH_SIZE VARIANCE_DEPTH left right node p
  = Ok (specMetric PATCH_SIZE VARIANCE_DEPTH left right node p v, p).
Proof.
  intros HV Hn Hs. unfold triVariance, specMetric.
  rewrite shiftl_pow2 by done.
  destruct (Z.ltb_spec node (2 ^ VARIANCE_DEPTH)) as [Hlt|Hge].
  - rewrite decide_True by done. specialize (Hs Hlt).
    unfold storedVariance in Hs. unfold bind, readVariance.
    destruct (currentVariance p) as [s|]; [|done].
    destruct (node <? 0); [done|]. rewrite Hs.
    by rewrite fmin_Qmin, footprintSize_abs.
  - rewrite decide_False by lia. done.
Qed.


End Tessellation.



(** ** The variance tables *)

Section Heap.

Lemma under_ge node n : 1 <= node -> under node n -> node <= n.
Proof. intros H U. induction U; lia. Qed.

Lemma under_trans node n c : under node n -> under n c -> under node c.
Proof.
  intros U. induction U; intros V; [done| |].
  - apply under_left. auto.
  - apply under_right. auto.
Qed.

Lemma under_children n : under n (2 * n) /\ under n (2 * n + 1).
Proof. split; [apply under_left|apply under_right]; apply under_here. Qed.

Lemma under_shiftr node n : under node n -> exists k, 0 <= k /\ Z.shiftr n k = node.
Proof.
  induction 1 as [node|node n _ (k & Hk & E)|node n _ (k & Hk & E)].
  - exists 0. split; [lia|apply Z.shiftr_0_r].
  - exists (k + 1). split; [lia|].
    rewrite <- Z.shiftr_shiftr, E by lia.
    rewrite Z.shiftr_div_pow2 by lia. change (2 ^ 1) with 2.
    rewrite Z.mul_comm. by apply Z.div_mul.
  - exists (k + 1). split; [lia|].
    rewrite <- Z.shiftr_shiftr, E by lia.
    rewrite Z.shiftr_div_pow2 by lia. change (2 ^ 1) with 2.
    rewrite Z.mul_comm, Z.div_add_l by lia. change (1 / 2) with 0. lia.
Qed.

Lemma shiftr_le a k : 0 <= a -> 0 <= k -> Z.shiftr a k <= a.
Proof.
  intros Ha Hk. rewrite Z.shiftr_div_pow2 by done.
  pose proof (Z.pow_pos_nonneg 2 k ltac:(lia) Hk).
  apply Z.div_le_upper_bound; nia.
Qed.

Lemma shiftr_split n j k : 0 <= k -> k < j -> Z.shiftr n j = Z.shiftr (Z.shiftr (Z.shiftr n k) 1) (j - k - 1).
Proof.
  intros Hk Hj. rewrite !Z.shiftr_shiftr by lia. f_equal. lia.
Qed.

Lemma half_even a : Z.shiftr (2 * a) 1 = a.
Proof.
  rewrite Z.shiftr_div_pow2 by lia. change (2 ^ 1) with 2.
  rewrite Z.mul_comm. by apply Z.div_mul.
Qed.

Lemma half_odd a : Z.shiftr (2 * a + 1) 1 = a.
Proof.
  rewrite Z.shiftr_div_pow2 by lia. change (2 ^ 1) with 2.
  rewrite Z.mul_comm, Z.div_add_l by lia. change (1 / 2) with 0. lia.
Qed.

Lemma under_disjoint node n : 1 <= node -> under (2 * node) n -> under (2 * node + 1) n -> False.
Proof.
  intros Hn U V.
  apply under_shiftr in U as (k & Hk & Ek). apply under_shiftr in V as (j & Hj & Ej).
  destruct (Z.lt_trichotomy k j) as [H|[H|H]].
  - rewrite (shiftr_split n j k), Ek, half_even in Ej by lia.
    pose proof (shiftr_le node (j - k - 1)). lia.
  - subst j. lia.
  - rewrite (shiftr_split n k j), Ej, half_odd in Ek by lia.
    pose proof (shiftr_le node (k - j - 1)). lia.
Qed.

End Heap.

Section Variance.

Variables (PATCH_SIZE VARIANCE_DEPTH : Z).

Implicit Types (p q : Patch) (s : side) (v x y : Q).

Lemma GetHeight_inv pos p h p' : GetHeight PATCH_SIZE pos p = Ok (h, p') -> p' = p.
Proof.
  unfold GetHeight. destruct (_ <? 0); [done|]. destruct (_ !! _); [|done].
  by intros [= _ <-].
Qed.

Lemma writeVariance_inv node v p s p' :
  currentVariance p = Some s -> writeVariance node v p = Ok (tt, p') ->
  0 <= node
  /\ currentVariance p' = Some s
  /\ varianceTable p' s = <[Z.to_nat node := v]> (varianceTable p s)
  /\ (Z.to_nat node < length (varianceTable p s))%nat.
Proof.
  intros Hs. unfold writeVariance. rewrite Hs.
  destruct (Z.ltb_spec node 0); [done|].
  destruct (Z.leb_spec (Z.of_nat (length (varianceTable p s))) node); [done|].
  cbn [orb]. destruct s; intros [= <-]; (split; [done|]); (split; [done|]);
    (split; [done|]); simpl in *; lia.
Qed.

(** The store at the end of [RecursComputeVariance]. *)
Lemma storeVariance_inv node v p s p' :
  0 <= VARIANCE_DEPTH -> 1 <= node -> currentVariance p = Some s ->
  (if node <? Z.shiftl 1 VARIANCE_DEPTH then writeVariance node v else ret tt) p
    = Ok (tt, p') ->
  currentVariance p' = Some s
  /\ (forall n, 0 <= n -> n <> node ->
        varianceTable p' s !! Z.to_nat n = varianceTable p s !! Z.to_nat n)
  /\ (node < 2 ^ VARIANCE_DEPTH -> varianceTable p' s !! Z.to_nat node = Some v).
Proof.
  intros HV Hn Hs. rewrite shiftl_pow2 by done.
  destruct (Z.ltb_spec node (2 ^ VARIANCE_DEPTH)) as [Hlt|Hge].
  - intros H. apply (writeVariance_inv _ _ _ s) in H as (_ & C & T & L); [|done].
    split; [done|]. rewrite T. split.
    + intros n Hn0 Hne. apply list_lookup_insert_ne. lia.
    + intros _. by apply list_lookup_insert_eq.
  - intros [= <-]. split; [done|]. split; [done|]. lia.
Qed.

Local Abbreviation RCV := (RecursComputeVariance PATCH_SIZE VARIANCE_DEPTH).
Local Abbreviation computed' := (computed PATCH_SIZE VARIANCE_DEPTH).

Lemma computed_under fuel : forall left rght apex hgts node p n x,
  computed' fuel left rght apex hgts node p n x -> under node n.
Proof.
  induction fuel as [|fuel IH]; intros left rght apex hgts node p n x; [done|].
  cbn [computed]. intros [[-> _]|[_ H]]; [apply under_here|].
  destruct (GetHeight _ _ _) as [[mhgt ?]|]; [|done].
  destruct H as [H|H].
  - apply under_left. eauto.
  - destruct (RecursComputeVariance _ _ _ _ _ _ _ _ _) as [[? p1]|]; [|done].
    apply under_right. eauto.
Qed.

Lemma computed_root fuel left rght apex hgts node p x :
  1 <= node -> computed' fuel left rght apex hgts node p node x ->
  exists p', RCV fuel left rght apex hgts node p = Ok (x, p').
Proof.
  intros Hn. destruct fuel as [|fuel]; [done|].
  cbn [computed]. intros [[_ H]|[_ H]]; [done|].
  destruct (GetHeight _ _ _) as [[mhgt ?]|]; [|done].
  destruct H as [H|H].
  - apply computed_under in H. apply under_ge in H; lia.
  - destruct (RecursComputeVariance _ _ _ _ _ _ _ _ _) as [[? p1]|]; [|done].
    apply computed_under in H. apply under_ge in H; lia.
Qed.

Lemma Qle_fmax_l a b c : (a <= b)%Q -> (a <= fmax b c)%Q.
Proof. intros H. eapply Qle_trans; [exact H|apply fmax_l]. Qed.

Lemma Qle_fmax_r a b c : (a <= c)%Q -> (a <= fmax b c)%Q.
Proof. intros H. eapply Qle_trans; [exact H|apply fmax_r]. Qed.

Lemma RecursComputeVariance_inv fuel :
  forall left rght apex hgts node p s v p',
    0 <= VARIANCE_DEPTH -> 1 <= node -> currentVariance p = Some s ->
    RCV fuel left rght apex hgts node p = Ok (v, p') ->
    currentVariance p' = Some s
    /\ (forall n, 0 <= n -> ~ under node n ->
          varianceTable p' s !! Z.to_nat n = varianceTable p s !! Z.to_nat n)
    /\ forall n x, computed' fuel left rght apex hgts node p n x ->
         (1 # 1000 <= x)%Q
         /\ (n < 2 ^ VARIANCE_DEPTH -> varianceTable p' s !! Z.to_nat n = Some x)
         /\ (forall c y, under n c ->
               computed' fuel left rght apex hgts node p c y -> (y <= x)%Q).
Proof.
  induction fuel as [|fuel IH]; intros left rght apex hgts node p s v p' HV Hn Hs E;
    [done|].
  pose proof E as E0.
  cbn [RecursComputeVariance] in E.
  apply bind_inv in E as (mhgt & q & Hm & E).
  pose proof (GetHeight_inv _ _ _ _ Hm) as ->.
  apply bind_inv in E as (mv & q & Hq & E).
  apply bind_inv in E as ([] & q2 & Hw & E). injection E as <- <-.
  cbn [computed]. rewrite Hm. cbv zeta.
  destruct (recurseVariance left rght) eqn:Hr.
  - (* both children are visited *)
    apply bind_inv in Hq as (v1 & p1 & H1 & Hq).
    apply bind_inv in Hq as (v2 & p2 & H2 & Hq). injection Hq as <- <-.
    rewrite shiftl_1 in H1, H2.
    assert (Hn1 : 1 <= 2 * node) by lia.
    assert (Hn2 : 1 <= 2 * node + 1) by lia.
    destruct (IH _ _ _ _ _ _ s _ _ HV Hn1 Hs H1) as (C1 & F1 & K1).
    destruct (IH _ _ _ _ _ _ s _ _ HV Hn2 C1 H2) as (C2 & F2 & K2).
    destruct (storeVariance_inv _ _ _ s _ HV Hn C2 Hw) as (C3 & F3 & W3).
    rewrite H1.
    set (my := localVariance hgts mhgt) in *.
    set (vv := fmax (1 # 1000) (fmax (fmax my v1) v2)) in *.
    assert (V1 : (v1 <= vv)%Q) by (apply Qle_fmax_r, Qle_fmax_l, fmax_r).
    assert (V2 : (v2 <= vv)%Q) by (apply Qle_fmax_r, fmax_r).
    split; [done|]. split.
    { intros n Hn0 Hu. rewrite F3, F2, F1; try done.
      - intros U. apply Hu. by apply under_left.
      - intros U. apply Hu. by apply under_right.
      - intros ->. apply Hu, under_here. }
    (* the three places a computed value can come from *)
    assert (Root : forall c y,
      (c = node /\ exists p'0, RCV (S fuel) left rght apex hgts node p = Ok (y, p'0))
      -> y = vv).
    { intros c y [_ [p0 Hp0]]. rewrite E0 in Hp0. by injection Hp0 as ->. }
    assert (In1 : forall c y,
      computed' fuel apex left (midpoint left rght)
        (float3.mk (float3.z hgts) (float3.x hgts) mhgt) (2 * node) p c y ->
      (y <= v1)%Q /\ under (2 * node) c).
    { intros c y Hc. split; [|by eapply computed_under].
      destruct fuel as [|fuel']; [done|].
      assert (Hroot : computed' (S fuel') apex left (midpoint left rght)
                (float3.mk (float3.z hgts) (float3.x hgts) mhgt) (2 * node) p
                (2 * node) v1) by (left; eauto).
      destruct (K1 _ _ Hroot) as (_ & _ & Sub).
      apply (Sub c y); [by eapply computed_under|done]. }
    assert (In2 : forall c y,
      computed' fuel rght apex (midpoint left rght)
        (float3.mk (float3.y hgts) (float3.z hgts) mhgt) (2 * node + 1) p1 c y ->
      (y <= v2)%Q /\ under (2 * node + 1) c).
    { intros c y Hc. split; [|by eapply computed_under].
      destruct fuel as [|fuel']; [done|].
      assert (Hroot : computed' (S fuel') rght apex (midpoint left rght)
                (float3.mk (float3.y hgts) (float3.z hgts) mhgt) (2 * node + 1) p1
                (2 * node + 1) v2) by (left; eauto).
      destruct (K2 _ _ Hroot) as (_ & _ & Sub).
      apply (Sub c y); [by eapply computed_under|done]. }
    intros n x [Hroot|[_ [H|H]]].
    + (* the root *)
      pose proof (Root _ _ Hroot) as ->. destruct Hroot as [-> _].
      split; [apply fmax_l|]. split; [done|].
      intros c y _ [Hc|[_ [Hc|Hc]]].
      * rewrite (Root _ _ Hc). apply Qle_refl.
      * eapply Qle_trans; [apply (In1 _ _ Hc)|done].
      * eapply Qle_trans; [apply (In2 _ _ Hc)|done].
    + (* below the left child *)
      destruct (K1 _ _ H) as (Fl & St & Sub).
      destruct (In1 _ _ H) as [_ Un].
      pose proof (under_ge _ _ Hn1 Un) as Hge.
      split; [done|]. split.
      { intros Hlt. rewrite F3, F2 by (try lia; intros U; exact (under_disjoint node n Hn Un U)).
        auto. }
      intros c y Uc [[-> _]|[_ [Hc|Hc]]].
      * apply under_ge in Uc; lia.
      * by apply (Sub c y).
      * destruct (In2 _ _ Hc) as [_ Uc2].
        destruct (under_disjoint node c Hn (under_trans _ _ _ Un Uc) Uc2).
    + (* below the right child *)
      destruct (K2 _ _ H) as (Fl & St & Sub).
      destruct (In2 _ _ H) as [_ Un].
      pose proof (under_ge _ _ Hn2 Un) as Hge.
      split; [done|]. split.
      { intros Hlt. rewrite F3 by lia. auto. }
      intros c y Uc [[-> _]|[_ [Hc|Hc]]].
      * apply under_ge in Uc; lia.
      * destruct (In1 _ _ Hc) as [_ Uc1].
        destruct (under_disjoint node c Hn Uc1 (under_trans _ _ _ Un Uc)).
      * by apply (Sub c y).
  - (* a triangle of the last level *)
    injection Hq as <- <-.
    destruct (storeVariance_inv _ _ _ s _ HV Hn Hs Hw) as (C3 & F3 & W3).
    split; [done|]. split.
    { intros n Hn0 Hu. apply F3; [done|]. intros ->. apply Hu, under_here. }
    intros n x [[-> [p0 Hp0]]|[? _]]; [|done].
    rewrite E0 in Hp0. injection Hp0 as <-.
    split; [apply fmax_l|]. split; [done|].
    intros c y _ [[-> [p3 Hp3]]|[? _]]; [|done].
    rewrite E0 in Hp3. injection Hp3 as <-. apply Qle_refl.
Qed.


(** C4.  In a run of [RecursComputeVariance] that returns, the value that
    the call for any heap index [n] computes is at least 0.001, is the one
    found in the table at [n] afterwards when [n] lies within the stored
    depth, and is no smaller than the value computed for either child
    [2 * n], [2 * n + 1], nor than that of any index below [n].  Heights
    are rationals: no NaN, no rounding. *)
Theorem RecursComputeVariance_monotonic fuel left rght apex hgts node p s v p' :
  0 <= VARIANCE_DEPTH -> 1 <= node -> currentVariance p = Some s ->
  RCV fuel left rght apex hgts node p = Ok (v, p') ->
  computed' fuel left rght apex hgts node p node v
  /\ forall n x, computed' fuel left rght apex hgts node p n x ->
       (1 # 1000 <= x)%Q
       /\ (n < 2 ^ VARIANCE_DEPTH -> varianceTable p' s !! Z.to_nat n = Some x)
       /\ (forall c y, c = 2 * n \/ c = 2 * n + 1 ->
             computed' fuel left rght apex hgts node p c y -> (y <= x)%Q)
       /\ (forall c y, under n c ->
             computed' fuel left rght apex hgts node p c y -> (y <= x)%Q).
Proof.
  intros HV Hn Hs E.
  destruct (RecursComputeVariance_inv fuel _ _ _ _ _ _ s _ _ HV Hn Hs E) as (_ & _ & K).
  split.
  - destruct fuel as [|fuel]; [done|]. left. eauto.
  - intros n x Hc. destruct (K n x Hc) as (Fl & St & Sub).
    split; [done|]. split; [done|]. split; [|done].
    intros c y [-> | ->]; apply Sub; apply under_children.
Qed.

(** *** No access out of range *)

Lemma inBounds_bind {A B} (m : M A) (k : A -> M B) p :
  inBounds VARIANCE_DEPTH m p ->
  (forall a p', m p = Ok (a, p') -> varSized VARIANCE_DEPTH p' ->
                inBounds VARIANCE_DEPTH (k a) p') ->
  inBounds VARIANCE_DEPTH (bind m k) p.
Proof.
  unfold inBounds at 1 3, bind. destruct (m p) as [[a p']|e]; [|done].
  intros Hs Hk. by apply Hk.
Qed.

Lemma inBounds_tame {A} (m : M A) p :
  tame m -> varSized VARIANCE_DEPTH p -> inBounds VARIANCE_DEPTH m p.
Proof.
  intros Ht Hs. specialize (Ht p). unfold inBounds.
  destruct (m p) as [[a p']|e].
  - unfold params in Ht. injection Ht as E1 E2 _. unfold varSized in *. by rewrite E1, E2.
  - by destruct Ht as [-> | ->].
Qed.

Lemma inBounds_ret {A} (a : A) p :
  varSized VARIANCE_DEPTH p -> inBounds VARIANCE_DEPTH (ret a) p.
Proof. done. Qed.

Lemma inBounds_GetHeight pos p :
  varSized VARIANCE_DEPTH p -> inBounds VARIANCE_DEPTH (GetHeight PATCH_SIZE pos) p.
Proof.
  intros Hs. unfold inBounds, GetHeight.
  destruct (_ <? 0); [done|]. by destruct (_ !! _).
Qed.

Lemma inBounds_setCurrentVariance s p :
  varSized VARIANCE_DEPTH p -> inBounds VARIANCE_DEPTH (setCurrentVariance s) p.
Proof. done. Qed.

Lemma inBounds_readVariance node p :
  varSized VARIANCE_DEPTH p -> 0 <= node < Z.shiftl 1 VARIANCE_DEPTH ->
  inBounds VARIANCE_DEPTH (readVariance node) p.
Proof.
  intros Hs Hn. unfold inBounds, readVariance.
  destruct (currentVariance p) as [s|]; [|done].
  destruct (Z.ltb_spec node 0); [lia|].
  assert (L : (Z.to_nat node < length (varianceTable p s))%nat).
  { destruct Hs as [S1 S2]. destruct s; simpl; rewrite ?S1, ?S2; apply Z2Nat.inj_lt; lia. }
  by apply lookup_lt_is_Some in L as [v ->].
Qed.

Lemma inBounds_writeVariance node v p :
  varSized VARIANCE_DEPTH p -> 0 <= node < Z.shiftl 1 VARIANCE_DEPTH ->
  inBounds VARIANCE_DEPTH (writeVariance node v) p.
Proof.
  intros Hs Hn. unfold inBounds, writeVariance.
  destruct (currentVariance p) as [s|]; [|done].
  destruct (Z.ltb_spec node 0); [lia|]. cbn [orb].
  assert (L : Z.of_nat (length (varianceTable p s)) = Z.shiftl 1 VARIANCE_DEPTH).
  { destruct Hs as [S1 S2]. destruct s; simpl; rewrite ?S1, ?S2; lia. }
  destruct (Z.leb_spec (Z.of_nat (length (varianceTable p s))) node); [lia|].
  destruct Hs as [S1 S2].
  destruct s; split; cbn; by rewrite ?length_insert.
Qed.

Lemma RecursComputeVariance_inBounds fuel :
  forall left rght apex hgts node p,
    varSized VARIANCE_DEPTH p -> 0 <= node ->
    inBounds VARIANCE_DEPTH (RCV fuel left rght apex hgts node) p.
Proof.
  induction fuel as [|fuel IH]; intros left rght apex hgts node p Hs Hn; [done|].
  cbn [RecursComputeVariance].
  apply inBounds_bind; [by apply inBounds_GetHeight|]. intros mhgt p1 _ Hs1.
  apply inBounds_bind.
  - destruct (recurseVariance left rght); [|by apply inBounds_ret].
    apply inBounds_bind; [apply IH; [done|rewrite shiftl_1; lia]|]. intros v1 p2 _ Hs2.
    apply inBounds_bind; [apply IH; [done|rewrite shiftl_1; lia]|]. intros v2 p3 _ Hs3.
    by apply inBounds_ret.
  - intros mv p2 _ Hs2. apply inBounds_bind; [|intros; by apply inBounds_ret].
    destruct (Z.ltb_spec node (Z.shiftl 1 VARIANCE_DEPTH)); [|by apply inBounds_ret].
    by apply inBounds_writeVariance.
Qed.

Lemma RecursTessellate_inBounds fuel :
  forall tri left right apex node p,
    varSized VARIANCE_DEPTH p -> 0 <= node ->
    inBounds VARIANCE_DEPTH
      (RecursTessellate PATCH_SIZE VARIANCE_DEPTH fuel tri left right apex node) p.
Proof.
  induction fuel as [|fuel IH]; intros tri left right apex node p Hs Hn; [done|].
  cbn [RecursTessellate].
  destruct (footprintSmall left right); [by apply inBounds_ret|].
  apply inBounds_bind.
  { unfold triVariance.
    destruct (Z.ltb_spec node (Z.shiftl 1 VARIANCE_DEPTH)); [|by apply inBounds_ret].
    apply inBounds_bind; [by apply inBounds_readVariance|]. by intros v p1 _ Hs1. }
  intros m p1 _ Hs1. destruct (Qle_bool m 1); [by apply inBounds_ret|].
  apply inBounds_bind; [apply inBounds_tame; [apply tame_Split|done]|]. intros r p2 _ Hs2.
  apply inBounds_bind; [apply inBounds_tame; [apply tame_isBranch|done]|]. intros br p3 _ Hs3.
  destruct br; [|by apply inBounds_ret].
  apply inBounds_bind; [apply inBounds_tame; [apply tame_load|done]|]. intros lc p4 _ Hs4.
  apply inBounds_bind; [apply IH; [done|rewrite shiftl_1; lia]|]. intros t1 p5 _ Hs5.
  apply inBounds_bind; [apply inBounds_tame; [apply tame_load|done]|]. intros rc p6 _ Hs6.
  apply inBounds_bind; [apply IH; [done|rewrite shiftl_1; lia]|]. intros t2 p7 _ Hs7.
  by apply inBounds_ret.
Qed.

Lemma Patch_new_varSized : varSized VARIANCE_DEPTH (Patch_new VARIANCE_DEPTH).
Proof. split; apply length_replicate. Qed.


End Variance.

Lemma RecursComputeVariance_monotonic_witness :
  0 <= 3 /\ 1 <= 1 /\ currentVariance heightPatch = Some SideLeft
  /\ exists v p',
       RecursComputeVariance 4 3 6 (int2.mk 0 4) (int2.mk 4 0) (int2.mk 0 0)
         (float3.mk 2 (-3) 1) 1 heightPatch = Ok (v, p')
       /\ (1 # 1000 <= v)%Q
       /\ varianceTable p' SideLeft !! Z.to_nat 1 = Some v.
Proof.
  split; [lia|]. split; [lia|]. split; [reflexivity|].
  destruct (RecursComputeVariance 4 3 6 (int2.mk 0 4) (int2.mk 4 0) (int2.mk 0 0)
              (float3.mk 2 (-3) 1) 1 heightPatch) as [[v p']|e] eqn:E;
    [|vm_compute in E; discriminate E].
  exists v, p'. split; [reflexivity|].
  destruct (RecursComputeVariance_monotonic 4 3 6 _ _ _ _ 1 heightPatch SideLeft v p'
              ltac:(lia) ltac:(lia) eq_refl E) as [H0 H].
  destruct (H 1 v H0) as (Fl & St & _).
  split; [exact Fl|]. apply St. lia.
Defined.


(** ** The border of a patch *)

Section Border.

Variable PATCH_SIZE : Z.
Variables (ax : axis) (k : Z).
Hypothesis Hk : k = 0 \/ k = PATCH_SIZE.

Implicit Types (p : Patch) (l r a v : int2.t).

Lemma coord_midpoint l r : coord ax (midpoint l r) = Z.shiftr (coord ax l + coord ax r) 1.
Proof. by destruct ax. Qed.

Lemma inPatch_coord v : inPatch PATCH_SIZE v -> 0 <= coord ax v <= PATCH_SIZE.
Proof. intros [H1 H2]. by destruct ax. Qed.

Lemma inPatch_midpoint l r :
  inPatch PATCH_SIZE l -> inPatch PATCH_SIZE r -> inPatch PATCH_SIZE (midpoint l r).
Proof.
  intros [L1 L2] [R1 R2]. unfold inPatch, midpoint. cbn [int2.x int2.y].
  rewrite !Z.shiftr_div_pow2 by lia. change (2 ^ 1) with 2.
  split; split; try (apply Z.div_pos; lia); apply Z.div_le_upper_bound; lia.
Qed.

Lemma onSide_midpoint l r :
  inPatch PATCH_SIZE l -> inPatch PATCH_SIZE r ->
  Z.even (int2.x l + int2.x r) = true -> Z.even (int2.y l + int2.y r) = true ->
  onSide ax k (midpoint l r) = onSide ax k l && onSide ax k r.
Proof.
  intros Hl Hr Ex Ey. unfold onSide. rewrite coord_midpoint.
  apply inPatch_coord in Hl, Hr.
  assert (E : Z.even (coord ax l + coord ax r) = true) by by destruct ax.
  apply Z.even_spec in E as [m E]. rewrite E.
  rewrite Z.shiftr_div_pow2 by lia. change (2 ^ 1) with 2.
  rewrite Z.mul_comm, Z.div_mul by lia.
  destruct (Z.eqb_spec m k), (Z.eqb_spec (coord ax l) k), (Z.eqb_spec (coord ax r) k);
    cbn; try done; lia.
Qed.


Lemma sideSkirt_app ts1 ts2 :
  sideSkirt PATCH_SIZE ax k (ts1 ++ ts2)
  = sideSkirt PATCH_SIZE ax k ts1 ++ sideSkirt PATCH_SIZE ax k ts2.
Proof. apply flat_map_app. Qed.

(** Below a triangle with at most one corner on the side no leaf has an
    edge on it. *)
Lemma leafTriangles_offSide fuel :
  forall p tri l r a ts,
    inPatch PATCH_SIZE l -> inPatch PATCH_SIZE r -> inPatch PATCH_SIZE a ->
    exactTree fuel p tri l r a -> offSide ax k l r a ->
    leafTriangles fuel p tri l r a = Ok ts ->
    sideSkirt PATCH_SIZE ax k ts = [].
Proof.
  induction fuel as [|fuel IH]; intros p tri l r a ts Hl Hr Ha Hex Hoff; [done|].
  cbn [leafTriangles exactTree] in *.
  destruct (leafAt p tri) as [[|]|]; [| |done].
  - intros [= <-]. unfold sideSkirt. cbn [flat_map sideEdge].
    destruct Hoff as [[-> ->]|[[-> ->]|[-> ->]]]; cbn;
      rewrite ?andb_false_r; cbn; by rewrite ?app_nil_r.
  - destruct Hex as (Ex & Ey & X1 & X2).
    pose proof (onSide_midpoint l r Hl Hr Ex Ey) as Hc.
    pose proof (inPatch_midpoint l r Hl Hr) as Hm.
    destruct (child p tri LC) as [lc|]; [|done].
    destruct (leafTriangles fuel p lc a l (midpoint l r)) as [o1|] eqn:E1; [|done].
    destruct (child p tri RC) as [rc|]; [|done].
    destruct (leafTriangles fuel p rc r a (midpoint l r)) as [o2|] eqn:E2; [|done].
    intros [= <-]. rewrite sideSkirt_app.
    assert (Hcf : onSide ax k (midpoint l r) = false).
    { rewrite Hc. destruct Hoff as [[-> _]|[[-> _]|[-> _]]]; by rewrite ?andb_false_r. }
    rewrite (IH p lc a l (midpoint l r) o1), (IH p rc r a (midpoint l r) o2); try done.
    + destruct Hoff as [[H1 H2]|[[H1 H2]|[H1 H2]]]; unfold offSide; auto.
    + destruct Hoff as [[H1 H2]|[[H1 H2]|[H1 H2]]]; unfold offSide; auto.
Qed.

Lemma parity_succ depth :
  (Z.land depth 1 = 0 -> Z.land (depth + 1) 1 = 1)
  /\ (Z.land depth 1 = 1 -> Z.land (depth + 1) 1 = 0).
Proof.
  rewrite !PoolsFacts.land_1_mod. split; intros H; Z.div_mod_to_equations; lia.
Qed.

(** The walk of [RecursBorderRender] yields the skirt below exactly those
    leaves that have an edge on the side. *)
Lemma RecursBorderRender_side fuel :
  forall p tri l r a depth leftChild ts,
    inPatch PATCH_SIZE l -> inPatch PATCH_SIZE r -> inPatch PATCH_SIZE a ->
    exactTree fuel p tri l r a -> borderMode ax k depth leftChild l r a ->
    leafTriangles fuel p tri l r a = Ok ts ->
    RecursBorderRender PATCH_SIZE fuel p tri l r a depth leftChild
    = Ok (sideSkirt PATCH_SIZE ax k ts).
Proof.
  induction fuel as [|fuel IH]; intros p tri l r a depth leftChild ts Hl Hr Ha Hex Hmode;
    [done|].
  cbn [leafTriangles exactTree RecursBorderRender] in *.
  destruct (leafAt p tri) as [[|]|]; [| |done].
  - intros [= <-]. unfold sideSkirt. cbn [flat_map sideEdge]. rewrite app_nil_r.
    destruct Hmode as [(-> & _ & -> & -> & _)|[(-> & -> & Oa & Ol & Or)
                                              |(-> & -> & Or & Oa & Ol)]]; cbn.
    + done.
    + by rewrite Oa, Ol, Or, andb_false_r.
    + by rewrite Oa, Ol, Or.
  - destruct Hex as (Ex & Ey & X1 & X2).
    pose proof (onSide_midpoint l r Hl Hr Ex Ey) as Hc.
    pose proof (inPatch_midpoint l r Hl Hr) as Hm.
    destruct (parity_succ depth) as [P0 P1].
    destruct (child p tri LC) as [lc|]; [|done].
    destruct (leafTriangles fuel p lc a l (midpoint l r)) as [o1|] eqn:E1; [|done].
    destruct (child p tri RC) as [rc|]; [|done].
    destruct (leafTriangles fuel p rc r a (midpoint l r)) as [o2|] eqn:E2; [|done].
    intros [= <-]. rewrite sideSkirt_app.
    destruct Hmode as [(Hd & -> & Ol & Or & Oa)|[(Hd & -> & Oa & Ol & Or)
                                                |(Hd & -> & Or & Oa & Ol)]];
      rewrite Hd; cbn [Z.eqb negb]; rewrite Ol, Or in Hc; cbn in Hc.
    + (* the hypotenuse lies on the side: both children have a leg on it *)
      rewrite (IH p lc a l (midpoint l r) (depth + 1) false o1); try done.
      * rewrite (IH p rc r a (midpoint l r) (depth + 1) true o2); try done.
        right; left. auto.
      * right; right. auto.
    + (* the left leg: the hypotenuse of the left child *)
      rewrite (leafTriangles_offSide fuel p rc r a (midpoint l r) o2), app_nil_r;
        try done.
      * apply IH; try done. left. auto.
      * unfold offSide. auto.
    + (* the right leg: the hypotenuse of the right child *)
      rewrite (leafTriangles_offSide fuel p lc a l (midpoint l r) o1); try done.
      * apply IH; try done. left. auto.
      * unfold offSide. auto.
Qed.

End Border.

Section PatchBorder.

Variable PATCH_SIZE : Z.

Local Abbreviation PS := PATCH_SIZE.

(** [RecursRender] emits the corners of the leaf triangles. *)
Lemma RecursRender_leafTriangles fuel :
  forall p tri l r a,
    RecursRender PATCH_SIZE fuel p tri l r a
    = match leafTriangles fuel p tri l r a with
      | Ok ts => Ok (flat_map (cornerIndices PATCH_SIZE) ts)
      | Err e => Err e
      end.
Proof.
  induction fuel as [|fuel IH]; intros p tri l r a; [done|].
  cbn [RecursRender leafTriangles].
  destruct (leafAt p tri) as [[|]|]; [done| |done].
  destruct (child p tri LC) as [lc|]; [|done]. rewrite IH.
  destruct (leafTriangles fuel p lc a l (midpoint l r)) as [o1|]; [|done].
  destruct (child p tri RC) as [rc|]; [|done]. rewrite IH.
  destruct (leafTriangles fuel p rc r a (midpoint l r)) as [o2|]; [|done].
  by rewrite flat_map_app.
Qed.

Lemma borderWalk_root fuel p root slot l r a leftChild va :
  root = BaseLeft \/ root = BaseRight ->
  borderWalk PATCH_SIZE fuel p root slot l r a leftChild va
  = match rd p root slot with
    | Some _ => Ok va
    | None =>
        match RecursBorderRender PATCH_SIZE fuel p (Some root) l r a 1 leftChild with
        | Ok o => Ok (va ++ o)
        | Err e => Err e
        end
    end.
Proof. by intros [-> | ->]. Qed.

Lemma inPatch_corner x y :
  0 <= x <= PATCH_SIZE -> 0 <= y <= PATCH_SIZE -> inPatch PATCH_SIZE (int2.mk x y).
Proof. done. Qed.

(** One guarded walk of [GenerateBorderIndices]: the side [ax = k] is that
    of the slot [slot] of the root [root], whose leaves are [ts]; [us] are
    the leaves of the other root. *)
Lemma borderWalk_side fuel p root slot l r a leftChild va ax k ts l' r' a' tri' us :
  root = BaseLeft \/ root = BaseRight ->
  k = 0 \/ k = PATCH_SIZE ->
  inPatch PATCH_SIZE l -> inPatch PATCH_SIZE r -> inPatch PATCH_SIZE a ->
  inPatch PATCH_SIZE l' -> inPatch PATCH_SIZE r' -> inPatch PATCH_SIZE a' ->
  exactTree fuel p (Some root) l r a -> exactTree fuel p tri' l' r' a' ->
  borderMode ax k 1 leftChild l r a -> offSide ax k l' r' a' ->
  leafTriangles fuel p (Some root) l r a = Ok ts ->
  leafTriangles fuel p tri' l' r' a' = Ok us ->
  borderWalk PATCH_SIZE fuel p root slot l r a leftChild va
  = Ok (va ++ borderOf PATCH_SIZE p root slot ax k (ts ++ us))
  /\ borderWalk PATCH_SIZE fuel p root slot l r a leftChild va
     = Ok (va ++ borderOf PATCH_SIZE p root slot ax k (us ++ ts)).
Proof.
  intros Hroot Hk Hl Hr Ha Hl' Hr' Ha' Hex Hex' Hmode Hoff Ets Eus.
  rewrite borderWalk_root by done. unfold borderOf.
  destruct (rd p root slot); [by rewrite app_nil_r|].
  rewrite (RecursBorderRender_side PATCH_SIZE ax k Hk fuel p (Some root) l r a 1
             leftChild ts) by done.
  rewrite !sideSkirt_app.
  rewrite (leafTriangles_offSide PATCH_SIZE ax k Hk fuel p tri' l' r' a' us) by done.
  by rewrite app_nil_r.
Qed.

Ltac corners :=
  unfold onSide; cbn [coord int2.x int2.y];
  rewrite ?Z.eqb_refl; repeat split; (done || (apply Z.eqb_neq; lia)).

(** No walk is made when none of the four outer slots is null. *)
Lemma GenerateBorderIndices_closed fuel p :
  rd p BaseLeft LN <> None -> rd p BaseLeft RN <> None ->
  rd p BaseRight RN <> None -> rd p BaseRight LN <> None ->
  GenerateBorderIndices PATCH_SIZE fuel p = Ok [].
Proof.
  intros H1 H2 H3 H4. unfold GenerateBorderIndices.
  rewrite borderWalk_root by auto. destruct (rd p BaseLeft LN); [|done].
  rewrite borderWalk_root by auto. destruct (rd p BaseLeft RN); [|done].
  rewrite borderWalk_root by auto. destruct (rd p BaseRight RN); [|done].
  rewrite borderWalk_root by auto. by destruct (rd p BaseRight LN).
Qed.

(** The four guarded walks, side by side. *)
Lemma GenerateBorderIndices_sides fuel p tl tr :
  0 < PATCH_SIZE ->
  exactTree fuel p (Some BaseLeft) (int2.mk 0 PS) (int2.mk PS 0) (int2.mk 0 0) ->
  exactTree fuel p (Some BaseRight) (int2.mk PS 0) (int2.mk 0 PS) (int2.mk PS PS) ->
  leafTriangles fuel p (Some BaseLeft) (int2.mk 0 PS) (int2.mk PS 0) (int2.mk 0 0)
    = Ok tl ->
  leafTriangles fuel p (Some BaseRight) (int2.mk PS 0) (int2.mk 0 PS) (int2.mk PS PS)
    = Ok tr ->
  GenerateBorderIndices PATCH_SIZE fuel p
  = Ok (borderOf PATCH_SIZE p BaseLeft LN AxisX 0 (tl ++ tr)
        ++ borderOf PATCH_SIZE p BaseLeft RN AxisY 0 (tl ++ tr)
        ++ borderOf PATCH_SIZE p BaseRight RN AxisY PATCH_SIZE (tl ++ tr)
        ++ borderOf PATCH_SIZE p BaseRight LN AxisX PATCH_SIZE (tl ++ tr)).
Proof.
  intros HPS XL XR EL ER.
  assert (C00 : inPatch PATCH_SIZE (int2.mk 0 0)) by (apply inPatch_corner; lia).
  assert (C0P : inPatch PATCH_SIZE (int2.mk 0 PS)) by (apply inPatch_corner; lia).
  assert (CP0 : inPatch PATCH_SIZE (int2.mk PS 0)) by (apply inPatch_corner; lia).
  assert (CPP : inPatch PATCH_SIZE (int2.mk PS PS)) by (apply inPatch_corner; lia).
  assert (Hne : (PS =? 0) = false) by (apply Z.eqb_neq; lia).
  assert (Hne' : (0 =? PS) = false) by (apply Z.eqb_neq; lia).
  unfold GenerateBorderIndices. cbv zeta.
  destruct (borderWalk_side fuel p BaseLeft LN (int2.mk 0 PS) (int2.mk PS 0)
              (int2.mk 0 0) true [] AxisX 0 tl (int2.mk PS 0) (int2.mk 0 PS)
              (int2.mk PS PS) (Some BaseRight) tr) as [-> _]; try done; auto.
  { right; left. corners. }
  { right; left. corners. }
  destruct (borderWalk_side fuel p BaseLeft RN (int2.mk 0 PS) (int2.mk PS 0)
              (int2.mk 0 0) false
              ([] ++ borderOf PATCH_SIZE p BaseLeft LN AxisX 0 (tl ++ tr))
              AxisY 0 tl (int2.mk PS 0) (int2.mk 0 PS)
              (int2.mk PS PS) (Some BaseRight) tr) as [-> _]; try done; auto.
  { right; right. corners. }
  { right; right. corners. }
  destruct (borderWalk_side fuel p BaseRight RN (int2.mk PS 0) (int2.mk 0 PS)
              (int2.mk PS PS) false
              (([] ++ borderOf PATCH_SIZE p BaseLeft LN AxisX 0 (tl ++ tr))
               ++ borderOf PATCH_SIZE p BaseLeft RN AxisY 0 (tl ++ tr))
              AxisY PS tr (int2.mk 0 PS) (int2.mk PS 0)
              (int2.mk 0 0) (Some BaseLeft) tl) as [_ ->]; try done; auto.
  { right; right. corners. }
  { right; right. corners. }
  destruct (borderWalk_side fuel p BaseRight LN (int2.mk PS 0) (int2.mk 0 PS)
              (int2.mk PS PS) true
              ((([] ++ borderOf PATCH_SIZE p BaseLeft LN AxisX 0 (tl ++ tr))
                ++ borderOf PATCH_SIZE p BaseLeft RN AxisY 0 (tl ++ tr))
               ++ borderOf PATCH_SIZE p BaseRight RN AxisY PS (tl ++ tr))
              AxisX PS tr (int2.mk 0 PS) (int2.mk PS 0)
              (int2.mk 0 0) (Some BaseLeft) tl) as [_ ->]; try done; auto.
  { right; left. corners. }
  { right; left. corners. }
  by rewrite app_nil_l, <- !app_assoc.
Qed.

(** C9.  When the four outer neighbor slots of the two roots are all
    non-null, [GenerateBorderIndices] emits nothing.  In general, on a
    patch whose branches all have their hypotenuse midpoint on the grid,
    it emits, for each of the four slots that is null and in the order of
    the four calls, the skirt below exactly those leaves of the patch that
    have an edge on the side of that slot: [x = 0] for the left neighbor
    of [baseLeft], [y = 0] for its right neighbor, [y = PATCH_SIZE] for
    the right neighbor of [baseRight] and [x = PATCH_SIZE] for its left
    neighbor; and nothing for a slot that is not null. *)
Theorem GenerateBorderIndices_spec fuel p :
  (rd p BaseLeft LN <> None -> rd p BaseLeft RN <> None ->
   rd p BaseRight RN <> None -> rd p BaseRight LN <> None ->
   GenerateBorderIndices PATCH_SIZE fuel p = Ok [])
  /\ (forall tl tr,
        0 < PATCH_SIZE ->
        exactTree fuel p (Some BaseLeft) (int2.mk 0 PS) (int2.mk PS 0) (int2.mk 0 0) ->
        exactTree fuel p (Some BaseRight) (int2.mk PS 0) (int2.mk 0 PS) (int2.mk PS PS) ->
        leafTriangles fuel p (Some BaseLeft) (int2.mk 0 PS) (int2.mk PS 0) (int2.mk 0 0)
          = Ok tl ->
        leafTriangles fuel p (Some BaseRight) (int2.mk PS 0) (int2.mk 0 PS) (int2.mk PS PS)
          = Ok tr ->
        GenerateBorderIndices PATCH_SIZE fuel p
        = Ok (borderOf PATCH_SIZE p BaseLeft LN AxisX 0 (tl ++ tr)
              ++ borderOf PATCH_SIZE p BaseLeft RN AxisY 0 (tl ++ tr)
              ++ borderOf PATCH_SIZE p BaseRight RN AxisY PATCH_SIZE (tl ++ tr)
              ++ borderOf PATCH_SIZE p BaseRight LN AxisX PATCH_SIZE (tl ++ tr))).
Proof.
  split; [apply GenerateBorderIndices_closed|].
  intros tl tr. apply GenerateBorderIndices_sides.
Qed.

End PatchBorder.

Lemma GenerateBorderIndices_spec_witness :
  (rd fencedPatch BaseLeft LN <> None /\ rd fencedPatch BaseLeft RN <> None
   /\ rd fencedPatch BaseRight RN <> None /\ rd fencedPatch BaseRight LN <> None
   /\ GenerateBorderIndices 2 5 fencedPatch = Ok [])
  /\ exists tl tr,
       leafTriangles 5 splitPatch (Some BaseLeft) (int2.mk 0 2) (int2.mk 2 0) (int2.mk 0 0)
         = Ok tl
       /\ leafTriangles 5 splitPatch (Some BaseRight) (int2.mk 2 0) (int2.mk 0 2)
            (int2.mk 2 2) = Ok tr
       /\ GenerateBorderIndices 2 5 splitPatch
          = Ok (sideSkirt 2 AxisX 0 (tl ++ tr) ++ sideSkirt 2 AxisY 0 (tl ++ tr)
                ++ sideSkirt 2 AxisY 2 (tl ++ tr) ++ sideSkirt 2 AxisX 2 (tl ++ tr)).
Proof.
  assert (N1 : rd fencedPatch BaseLeft LN <> None) by (vm_compute; discriminate).
  assert (N2 : rd fencedPatch BaseLeft RN <> None) by (vm_compute; discriminate).
  assert (N3 : rd fencedPatch BaseRight RN <> None) by (vm_compute; discriminate).
  assert (N4 : rd fencedPatch BaseRight LN <> None) by (vm_compute; discriminate).
  split.
  - repeat (split; [assumption|]).
    exact (proj1 (GenerateBorderIndices_spec 2 5 fencedPatch) N1 N2 N3 N4).
  - destruct (leafTriangles 5 splitPatch (Some BaseLeft) (int2.mk 0 2) (int2.mk 2 0)
                (int2.mk 0 0)) as [tl|e] eqn:EL; [|vm_compute in EL; discriminate EL].
    destruct (leafTriangles 5 splitPatch (Some BaseRight) (int2.mk 2 0) (int2.mk 0 2)
                (int2.mk 2 2)) as [tr|e] eqn:ER; [|vm_compute in ER; discriminate ER].
    exists tl, tr. split; [reflexivity|]. split; [reflexivity|].
    apply (proj2 (GenerateBorderIndices_spec 2 5 splitPatch) tl tr); try assumption.
    + lia.
    + vm_compute. tauto.
    + vm_compute. tauto.
Defined.

(** ** A whole tessellation pass *)

Section Pass.

Variables (PATCH_SIZE VARIANCE_DEPTH : Z).

Implicit Types (p q : Patch) (x y t : ptr) (f g s : link).

(** The mesh invariant does not look at the variance tables. *)
Lemma MeshInv_with_variance lv O p vl vr cv :
  MeshInv lv O p -> MeshInv lv O (with_variance p vl vr cv).
Proof.
  intros [A1 A2 A3 A4 A5 A6 A7 A8 A9 A10 A11 A12].
  split; [exact A1|exact A2|exact A3|exact A4|exact A5|exact A6|exact A7|exact A8
         |exact A9|exact A10|exact A11|exact A12].
Qed.

Lemma tessStart_fresh dist viewRadius cap p0 :
  exists p0', tessStart dist viewRadius (newPool cap) (Patch_Reset p0) = freshPatch p0' cap
              /\ varianceLeft p0' = varianceLeft p0
              /\ varianceRight p0' = varianceRight p0
              /\ currentVariance p0' = Some SideLeft.
Proof.
  exists (tessStart dist viewRadius (newPool cap) (Patch_Reset p0)).
  repeat split; reflexivity.
Qed.

(** On a freshly reset patch and a fresh pool of [cap] nodes, [Tessellate]
    returns; it leaves a mesh, its flag tells whether the pool still has
    room, and in that case the diamond invariant holds. *)
Lemma Tessellate_fresh fuel dist viewRadius cap p0 :
  varSized VARIANCE_DEPTH p0 -> (2 * cap + 3 <= fuel)%nat ->
  exists b tr p',
    Tessellate PATCH_SIZE VARIANCE_DEPTH fuel dist viewRadius (newPool cap) (Patch_Reset p0)
      = Ok ((b, tr), p')
    /\ Mesh p' /\ b = negb (exhausted p') /\ (b = true -> diamondInv p').
Proof.
  intros Hs Hf. rewrite Tessellate_unfold. cbv zeta.
  destruct (tessStart_fresh dist viewRadius cap p0) as (p0' & -> & S1 & S2 & S3).
  set (q0 := freshPatch p0' cap).
  pose proof (fresh_inv p0' cap) as Hinv0. fold q0 in Hinv0.
  assert (C0 : capacity q0 = cap) by apply fresh_capacity.
  assert (R0 : varReady VARIANCE_DEPTH q0).
  { split; [|simpl; congruence]. destruct Hs as [H1 H2]. split; simpl; congruence. }
  assert (HO0 : exhausted q0 = false -> forall x : ptr, ~ False) by (intros _ x H; exact H).
  assert (F0 : (2 * capacity q0 + 3 <= fuel + 0)%nat) by lia.
  destruct (RecursTessellate_total PATCH_SIZE VARIANCE_DEPTH fuel (fun _ => 0%nat)
              (fun _ => False) q0 BaseLeft
              (int2.mk (int2.x (coors (Patch_Reset p0)))
                       (int2.y (coors (Patch_Reset p0)) + PATCH_SIZE))
              (int2.mk (int2.x (coors (Patch_Reset p0)) + PATCH_SIZE)
                       (int2.y (coors (Patch_Reset p0))))
              (int2.mk (int2.x (coors (Patch_Reset p0))) (int2.y (coors (Patch_Reset p0))))
              1 Hinv0 HO0 I R0 ltac:(lia) F0)
    as (t1 & lv1 & O1 & p1 & E1 & Hinv1 & HO1 & Ext1).
  rewrite (bind_ok _ _ _ _ _ E1). cbv beta.
  unfold setCurrentVariance at 1. cbn [bind].
  set (q1 := with_variance p1 (varianceLeft p1) (varianceRight p1) (Some SideRight)).
  assert (Hinv1' : MeshInv lv1 O1 q1) by (by apply MeshInv_with_variance).
  assert (C1 : capacity q1 = cap) by (rewrite <- C0; apply (ext_cap _ _ _ _ _ Ext1)).
  assert (R1 : varReady VARIANCE_DEPTH q1).
  { destruct (varReady_params VARIANCE_DEPTH q0 p1 (ext_params _ _ _ _ _ Ext1) R0)
      as [[G1 G2] _].
    split; [split; [exact G1|exact G2]|done]. }
  assert (F1 : (2 * capacity q1 + 3 <= fuel + lv1 BaseRight)%nat) by lia.
  destruct (RecursTessellate_total PATCH_SIZE VARIANCE_DEPTH fuel lv1 O1 q1 BaseRight
              (int2.mk (int2.x (coors (Patch_Reset p0)) + PATCH_SIZE)
                       (int2.y (coors (Patch_Reset p0))))
              (int2.mk (int2.x (coors (Patch_Reset p0)))
                       (int2.y (coors (Patch_Reset p0)) + PATCH_SIZE))
              (int2.mk (int2.x (coors (Patch_Reset p0)) + PATCH_SIZE)
                       (int2.y (coors (Patch_Reset p0)) + PATCH_SIZE))
              1 Hinv1' HO1 I R1 ltac:(lia) F1)
    as (t2 & lv2 & O2 & p2 & E2 & Hinv2 & HO2 & Ext2).
  rewrite (bind_ok _ _ _ _ _ E2). cbv beta.
  exists (negb (exhausted p2)), (t1 ++ t2), p2.
  split; [done|]. split; [by exists lv2, O2|]. split; [done|].
  intros Hb. apply negb_true_iff in Hb.
  by apply (Mesh_diamond lv2 O2); [|apply HO2].
Qed.

End Pass.

(** ** Walks over the leaves return *)

Section Leaves.

Implicit Types (p q : Patch) (x y t : ptr) (f g s : link).

Lemma child_ok p t f : valid p t -> child p (Some t) f = Ok (rd p t f).
Proof. intros Hv. unfold child. by rewrite (load_ok p t f Hv). Qed.

Lemma leafAt_ok p t : valid p t -> leafAt p (Some t) = Ok (leaf p t).
Proof. intros Hv. unfold leafAt. by rewrite (isLeaf_ok p t Hv). Qed.

(** On a mesh the leaves below a node are found with fuel for the depth of
    the tree, which the watermark of the pool bounds. *)
Lemma leafTriangles_total fuel :
  forall lv O p t l r a,
    MeshInv lv O p -> live p t -> (nextIdx p + 1 <= fuel + lv t)%nat ->
    exists ts, leafTriangles fuel p (Some t) l r a = Ok ts.
Proof.
  induction fuel as [|fuel IH]; intros lv O p t l r a Hinv Lt Hf.
  { pose proof (mi_level _ _ _ Hinv t Lt). lia. }
  cbn [leafTriangles]. rewrite leafAt_ok by exact (live_valid _ _ _ Hinv _ Lt).
  destruct (leaf p t) eqn:Hl; [by eexists|].
  destruct (leaf_false_children _ _ _ _ Hinv Lt Hl) as (c & d & Ec & Ed).
  rewrite !child_ok by exact (live_valid _ _ _ Hinv _ Lt). rewrite Ec, Ed.
  pose proof (mi_child _ _ _ Hinv t LC c Lt (or_introl eq_refl) Ec) as Hc.
  pose proof (mi_child _ _ _ Hinv t RC d Lt (or_intror eq_refl) Ed) as Hd.
  destruct (IH lv O p c a l (midpoint l r) Hinv (mi_scope _ _ _ Hinv t LC c Lt Ec)
              ltac:(lia)) as [o1 ->].
  destruct (IH lv O p d r a (midpoint l r) Hinv (mi_scope _ _ _ Hinv t RC d Lt Ed)
              ltac:(lia)) as [o2 ->].
  by eexists.
Qed.

End Leaves.

(** ** [ComputeVariance] returns *)

Section VarianceTotal.

Variables (PATCH_SIZE VARIANCE_DEPTH : Z).

Implicit Types (p q : Patch) (l r a : int2.t).

Local Abbreviation RCV := (RecursComputeVariance PATCH_SIZE VARIANCE_DEPTH).
Local Abbreviation ready := (heightsReady PATCH_SIZE VARIANCE_DEPTH).

Lemma GetHeight_ok pos p :
  ready p -> inPatch PATCH_SIZE pos -> exists h, GetHeight PATCH_SIZE pos p = Ok (h, p).
Proof.
  intros [Hv _] [[X0 X1] [Y0 Y1]]. unfold GetHeight.
  destruct (Z.ltb_spec ((int2.y pos * (PATCH_SIZE + 1) + int2.x pos) * 3 + 1) 0); [nia|].
  assert (L : (Z.to_nat ((int2.y pos * (PATCH_SIZE + 1) + int2.x pos) * 3 + 1)
               < length (vertices p))%nat) by nia.
  apply lookup_lt_is_Some in L as [h ->]. eauto.
Qed.

Lemma storeVariance_ok node v p :
  varSized VARIANCE_DEPTH p -> currentVariance p <> None -> 0 <= node ->
  exists p', (if node <? Z.shiftl 1 VARIANCE_DEPTH then writeVariance node v else ret tt) p
             = Ok (tt, p')
             /\ varSized VARIANCE_DEPTH p' /\ currentVariance p' = currentVariance p
             /\ vertices p' = vertices p.
Proof.
  intros [S1 S2] Hc Hn.
  destruct (Z.ltb_spec node (Z.shiftl 1 VARIANCE_DEPTH)) as [Hlt|_]; [|by exists p].
  unfold writeVariance. destruct (currentVariance p) as [s|] eqn:Ec; [|done].
  destruct (Z.ltb_spec node 0); [lia|]. cbn [orb].
  assert (L : Z.of_nat (length (varianceTable p s)) = Z.shiftl 1 VARIANCE_DEPTH).
  { destruct s; simpl; rewrite ?S1, ?S2; lia. }
  destruct (Z.leb_spec (Z.of_nat (length (varianceTable p s))) node); [lia|].
  destruct s; eexists; (split; [reflexivity|]); (split; [|by split]);
    split; cbn; by rewrite ?length_insert.
Qed.

Lemma recurse_diagonal s l r a : diagonal s l r a -> recurseVariance l r = true -> 4 <= s.
Proof.
  intros (H1 & H2 & _). unfold recurseVariance. rewrite orb_true_iff, !Z.leb_le. lia.
Qed.

Lemma recurse_straight s l r a : straight s l r a -> recurseVariance l r = true -> 4 <= s.
Proof.
  intros [(H1 & H2 & _)|(H1 & H2 & _)]; unfold recurseVariance;
    rewrite orb_true_iff, !Z.leb_le; lia.
Qed.

Lemma midpoint_exact h l r :
  (Z.abs (int2.x r - int2.x l) = 2 * h \/ int2.x r = int2.x l) ->
  (Z.abs (int2.y r - int2.y l) = 2 * h \/ int2.y r = int2.y l) ->
  2 * int2.x (midpoint l r) = int2.x l + int2.x r
  /\ 2 * int2.y (midpoint l r) = int2.y l + int2.y r.
Proof.
  intros Hx Hy. unfold midpoint. cbn [int2.x int2.y].
  rewrite !Z.shiftr_div_pow2 by lia. change (2 ^ 1) with 2.
  split; Z.div_mod_to_equations; lia.
Qed.

(** Bisecting a diagonal triangle gives two straight ones of the same side;
    bisecting a straight one gives two diagonal ones of half the side. *)
Lemma diagonal_children h l r a :
  diagonal (2 * h) l r a ->
  straight (2 * h) a l (midpoint l r) /\ straight (2 * h) r a (midpoint l r).
Proof.
  intros (H1 & H2 & H3).
  destruct (midpoint_exact h l r (or_introl H1) (or_introl H2)) as [Mx My].
  unfold straight. destruct H3 as [[A1 A2]|[A1 A2]]; split.
  - right. lia.
  - left. lia.
  - left. lia.
  - right. lia.
Qed.

Lemma straight_children h l r a :
  straight (2 * h) l r a ->
  diagonal h a l (midpoint l r) /\ diagonal h r a (midpoint l r).
Proof.
  intros [(H1 & H2 & H3 & H4)|(H1 & H2 & H3 & H4)].
  - destruct (midpoint_exact h l r (or_introl H2) (or_intror H1)) as [Mx My].
    unfold diagonal. split; (split; [lia|]); (split; [lia|]); [left|right]; lia.
  - destruct (midpoint_exact h l r (or_intror H1) (or_introl H2)) as [Mx My].
    unfold diagonal. split; (split; [lia|]); (split; [lia|]); [right|left]; lia.
Qed.


Lemma pow2_ge4 (j : nat) : 4 <= 2 ^ Z.of_nat j -> exists i : nat, j = S (S i).
Proof.
  destruct j as [|[|i]]; [simpl; lia|simpl; lia|eauto].
Qed.

Lemma pow2_succ (j : nat) : 2 ^ Z.of_nat (S j) = 2 * 2 ^ Z.of_nat j.
Proof. rewrite Nat2Z.inj_succ. apply Z.pow_succ_r. lia. Qed.

(** On a patch of side [2 ^ j] the recursion of [RecursComputeVariance]
    ends after at most [2 * j + 1] levels, and every height it asks for
    exists. *)
Lemma RecursComputeVariance_total fuel :
  forall (j : nat) l r a hgts node p,
    ready p -> currentVariance p <> None ->
    inPatch PATCH_SIZE l -> inPatch PATCH_SIZE r -> inPatch PATCH_SIZE a -> 0 <= node ->
    (diagonal (2 ^ Z.of_nat j) l r a /\ (2 * j + 1 <= fuel)%nat)
    \/ (straight (2 ^ Z.of_nat j) l r a /\ (1 <= j)%nat /\ (2 * j <= fuel)%nat) ->
    exists v p',
      RCV fuel l r a hgts node p = Ok (v, p')
      /\ ready p' /\ currentVariance p' = currentVariance p.
Proof.
  induction fuel as [|fuel IH]; intros j l r a hgts node p Hr Hc Hl Hrr Ha Hn Hshape.
  { destruct Hshape as [[_ ?]|(_ & ? & ?)]; lia. }
  cbn [RecursComputeVariance].
  pose proof (inPatch_midpoint PATCH_SIZE l r Hl Hrr) as Hm.
  destruct (GetHeight_ok (midpoint l r) p Hr Hm) as [mhgt Em].
  rewrite (bind_ok _ _ _ _ _ Em). cbv beta zeta.
  assert (Inner : exists mv q,
    (if recurseVariance l r
     then
       child1Variance <- RCV fuel a l (midpoint l r)
                           (float3.mk (float3.z hgts) (float3.x hgts) mhgt)
                           (Z.shiftl node 1) ;;
       child2Variance <- RCV fuel r a (midpoint l r)
                           (float3.mk (float3.y hgts) (float3.z hgts) mhgt)
                           (Z.shiftl node 1 + 1) ;;
       ret (fmax (fmax (localVariance hgts mhgt) child1Variance) child2Variance)
     else ret (localVariance hgts mhgt)) p = Ok (mv, q)
    /\ ready q /\ currentVariance q = currentVariance p).
  { destruct (recurseVariance l r) eqn:Hrec; [|by exists (localVariance hgts mhgt), p].
    assert (Shapes :
      (exists j1 : nat,
         (diagonal (2 ^ Z.of_nat j1) a l (midpoint l r) /\ (2 * j1 + 1 <= fuel)%nat)
         \/ (straight (2 ^ Z.of_nat j1) a l (midpoint l r)
             /\ (1 <= j1)%nat /\ (2 * j1 <= fuel)%nat))
      /\ (exists j2 : nat,
            (diagonal (2 ^ Z.of_nat j2) r a (midpoint l r) /\ (2 * j2 + 1 <= fuel)%nat)
            \/ (straight (2 ^ Z.of_nat j2) r a (midpoint l r)
                /\ (1 <= j2)%nat /\ (2 * j2 <= fuel)%nat))).
    { destruct Hshape as [[D Hf]|(S & Hj & Hf)].
      - pose proof (recurse_diagonal _ _ _ _ D Hrec) as H4.
        destruct (pow2_ge4 j H4) as [i ->]. rewrite pow2_succ in D.
        destruct (diagonal_children _ _ _ _ D) as [S1 S2]. rewrite <- pow2_succ in S1, S2.
        split; exists (Datatypes.S (Datatypes.S i)); right; (split; [assumption|lia]).
      - pose proof (recurse_straight _ _ _ _ S Hrec) as H4.
        destruct (pow2_ge4 j H4) as [i ->]. rewrite pow2_succ in S.
        destruct (straight_children _ _ _ _ S) as [D1 D2].
        split; exists (Datatypes.S i); left; (split; [assumption|lia]). }
    destruct Shapes as [Sh1' Sh2'].
    destruct Sh1' as [j1 Sh1']. destruct Sh2' as [j2 Sh2'].
    assert (N1 : 0 <= Z.shiftl node 1) by (rewrite shiftl_1; lia).
    assert (N2 : 0 <= Z.shiftl node 1 + 1) by (rewrite shiftl_1; lia).
    destruct (IH j1 a l (midpoint l r) (float3.mk (float3.z hgts) (float3.x hgts) mhgt)
                (Z.shiftl node 1) p Hr Hc Ha Hl Hm N1 Sh1') as (v1 & p1 & E1 & R1 & C1).
    rewrite (bind_ok _ _ _ _ _ E1). cbv beta.
    assert (Hc1 : currentVariance p1 <> None) by congruence.
    destruct (IH j2 r a (midpoint l r) (float3.mk (float3.y hgts) (float3.z hgts) mhgt)
                (Z.shiftl node 1 + 1) p1 R1 Hc1 Hrr Ha Hm N2 Sh2') as (v2 & p2 & E2 & R2 & C2).
    rewrite (bind_ok _ _ _ _ _ E2). cbv beta.
    eexists _, p2. split; [reflexivity|]. split; [done|congruence]. }
  destruct Inner as (mv & q & Eq & Rq & Cq).
  rewrite (bind_ok _ _ _ _ _ Eq). cbv beta zeta.
  destruct Rq as [Hv Hs].
  destruct (storeVariance_ok node (fmax (1 # 1000) mv) q Hs ltac:(congruence) Hn)
    as (p' & Ew & Hs' & Cw & Vw).
  rewrite (bind_ok _ _ _ _ _ Ew). cbv beta.
  eexists _, p'. split; [reflexivity|]. split; [|congruence].
  split; [by rewrite Vw|done].
Qed.


(** The heap indices of the calls stay small: below [2 ^ (2 * j + 1)] on
    a root triangle of side [2 ^ j], so that [int] holds them for every
    patch size up to [2 ^ 14]. *)
Lemma computed_index fuel :
  forall (j : nat) l r a hgts node p n x,
    1 <= node ->
    computed PATCH_SIZE VARIANCE_DEPTH fuel l r a hgts node p n x ->
    (diagonal (2 ^ Z.of_nat j) l r a -> n < (node + 1) * 2 ^ (2 * Z.of_nat j))
    /\ (straight (2 ^ Z.of_nat j) l r a -> (1 <= j)%nat ->
        n < (node + 1) * 2 ^ (2 * Z.of_nat j - 1)).
Proof.
  induction fuel as [|fuel IH]; intros j l r a hgts node p n x Hn; [done|].
  cbn [computed]. intros [[-> _]|[Hrec H]].
  { split; intros; [pose proof (Z.pow_pos_nonneg 2 (2 * Z.of_nat j) ltac:(lia) ltac:(lia))
                   |pose proof (Z.pow_pos_nonneg 2 (2 * Z.of_nat j - 1) ltac:(lia) ltac:(lia))];
      nia. }
  destruct (GetHeight _ _ _) as [[mhgt ?]|]; [|done]. cbv zeta in H.
  assert (Hn1 : 1 <= 2 * node) by lia. assert (Hn2 : 1 <= 2 * node + 1) by lia.
  assert (Hchild : exists node', (node' = 2 * node \/ node' = 2 * node + 1) /\
    ((computed PATCH_SIZE VARIANCE_DEPTH fuel a l (midpoint l r)
        (float3.mk (float3.z hgts) (float3.x hgts) mhgt) node' p n x /\ node' = 2 * node)
     \/ exists p1, computed PATCH_SIZE VARIANCE_DEPTH fuel r a (midpoint l r)
                     (float3.mk (float3.y hgts) (float3.z hgts) mhgt) node' p1 n x
                   /\ node' = 2 * node + 1)).
  { destruct H as [H|H].
    - exists (2 * node). split; [by left|]. left. done.
    - destruct (RecursComputeVariance _ _ _ _ _ _ _ _ _) as [[? p1]|]; [|done].
      exists (2 * node + 1). split; [by right|]. right. by exists p1. }
  destruct Hchild as (node' & Hnode' & Hc).
  assert (Hn' : 1 <= node') by lia.
  split.
  - intros D. pose proof (recurse_diagonal _ _ _ _ D Hrec) as H4.
    destruct (pow2_ge4 j H4) as [i ->]. rewrite pow2_succ in D.
    destruct (diagonal_children _ _ _ _ D) as [S1 S2]. rewrite <- pow2_succ in S1, S2.
    assert (B : n < (node' + 1) * 2 ^ (2 * Z.of_nat (S (S i)) - 1)).
    { destruct Hc as [[Hc ->]|(p1 & Hc & ->)];
        apply (IH (S (S i)) _ _ _ _ _ _ _ _ Hn' Hc); (done || lia). }
    replace (2 * Z.of_nat (S (S i))) with (Z.succ (2 * Z.of_nat (S (S i)) - 1)) by lia.
    rewrite Z.pow_succ_r by lia.
    pose proof (Z.pow_pos_nonneg 2 (2 * Z.of_nat (S (S i)) - 1) ltac:(lia) ltac:(lia)).
    nia.
  - intros St Hj. pose proof (recurse_straight _ _ _ _ St Hrec) as H4.
    destruct (pow2_ge4 j H4) as [i ->]. rewrite pow2_succ in St.
    destruct (straight_children _ _ _ _ St) as [D1 D2].
    assert (B : n < (node' + 1) * 2 ^ (2 * Z.of_nat (S i))).
    { destruct Hc as [[Hc ->]|(p1 & Hc & ->)];
        apply (IH (S i) _ _ _ _ _ _ _ _ Hn' Hc); done. }
    replace (2 * Z.of_nat (S (S i)) - 1) with (Z.succ (2 * Z.of_nat (S i))) by lia.
    rewrite Z.pow_succ_r by lia.
    pose proof (Z.pow_pos_nonneg 2 (2 * Z.of_nat (S i)) ltac:(lia) ltac:(lia)).
    nia.
Qed.

Lemma inPatch_corners (k : nat) :
  PATCH_SIZE = 2 ^ Z.of_nat k ->
  inPatch PATCH_SIZE (int2.mk 0 0) /\ inPatch PATCH_SIZE (int2.mk 0 PATCH_SIZE)
  /\ inPatch PATCH_SIZE (int2.mk PATCH_SIZE 0)
  /\ inPatch PATCH_SIZE (int2.mk PATCH_SIZE PATCH_SIZE).
Proof.
  intros ->. pose proof (Z.pow_pos_nonneg 2 (Z.of_nat k) ltac:(lia) ltac:(lia)).
  unfold inPatch. cbn [int2.x int2.y]. lia.
Qed.

(** One half of [ComputeVariance]. *)
Lemma rootVariance_total (k fuel : nat) l r a q :
  ready q -> currentVariance q <> None -> (2 * k + 1 <= fuel)%nat ->
  inPatch PATCH_SIZE l -> inPatch PATCH_SIZE r -> inPatch PATCH_SIZE a ->
  diagonal (2 ^ Z.of_nat k) l r a ->
  exists p',
    (hl <- GetHeight PATCH_SIZE l ;;
     hr <- GetHeight PATCH_SIZE r ;;
     ha <- GetHeight PATCH_SIZE a ;;
     _ <- RCV fuel l r a (float3.mk hl hr ha) 1 ;;
     ret tt) q = Ok (tt, p')
    /\ ready p'.
Proof.
  intros Rq Hc Hf Hl Hr Ha D.
  destruct (GetHeight_ok l q Rq Hl) as [hl El].
  destruct (GetHeight_ok r q Rq Hr) as [hr Er].
  destruct (GetHeight_ok a q Rq Ha) as [ha Ea].
  rewrite (bind_ok _ _ _ _ _ El). cbv beta.
  rewrite (bind_ok _ _ _ _ _ Er). cbv beta.
  rewrite (bind_ok _ _ _ _ _ Ea). cbv beta.
  destruct (RecursComputeVariance_total fuel k l r a (float3.mk hl hr ha) 1 q Rq Hc
              Hl Hr Ha ltac:(lia) (or_introl (conj D Hf))) as (v1 & p1 & E1 & R1 & _).
  rewrite (bind_ok _ _ _ _ _ E1). cbv beta. by exists p1.
Qed.

(** On a patch of side [2 ^ k] with a height for every grid point,
    [ComputeVariance] returns, given fuel for [2 * k + 1] levels. *)
Lemma ComputeVariance_total (k fuel : nat) p :
  PATCH_SIZE = 2 ^ Z.of_nat k -> ready p -> (2 * k + 1 <= fuel)%nat ->
  exists p', ComputeVariance PATCH_SIZE VARIANCE_DEPTH fuel p = Ok (tt, p') /\ ready p'.
Proof.
  intros HPS Hr Hf. destruct (inPatch_corners k HPS) as (C00 & C0P & CP0 & CPP).
  assert (Hpos : 0 <= PATCH_SIZE).
  { rewrite HPS. apply Z.pow_nonneg. lia. }
  assert (DL : diagonal (2 ^ Z.of_nat k) (int2.mk 0 PATCH_SIZE) (int2.mk PATCH_SIZE 0)
                 (int2.mk 0 0)).
  { rewrite <- HPS. unfold diagonal. cbn [int2.x int2.y]. lia. }
  assert (DR : diagonal (2 ^ Z.of_nat k) (int2.mk PATCH_SIZE 0) (int2.mk 0 PATCH_SIZE)
                 (int2.mk PATCH_SIZE PATCH_SIZE)).
  { rewrite <- HPS. unfold diagonal. cbn [int2.x int2.y]. lia. }
  unfold ComputeVariance.
  set (q := with_variance p (varianceLeft p) (varianceRight p) (Some SideLeft)).
  rewrite (bind_ok (setCurrentVariance SideLeft) _ p tt q eq_refl). cbv beta.
  destruct (rootVariance_total k fuel _ _ _ q Hr ltac:(done) Hf C0P CP0 C00 DL)
    as (p1 & E1 & R1).
  rewrite (bind_ok _ _ _ _ _ E1). cbv beta.
  set (q1 := with_variance p1 (varianceLeft p1) (varianceRight p1) (Some SideRight)).
  rewrite (bind_ok (setCurrentVariance SideRight) _ p1 tt q1 eq_refl). cbv beta.
  exact (rootVariance_total k fuel _ _ _ q1 R1 ltac:(done) Hf CP0 C0P CPP DR).
Qed.

End VarianceTotal.

(** ** Tessellation keeps the triangles on the grid *)

Section Regular.

Variables (PATCH_SIZE VARIANCE_DEPTH : Z).
Variable k : nat.

Implicit Types (p q : Patch) (x y t : ptr) (l r a : int2.t).

Lemma small_diagonal s l r a : diagonal s l r a -> footprintSmall l r = false -> 2 <= s.
Proof.
  intros (H1 & H2 & _). unfold footprintSmall.
  rewrite andb_false_iff, !Z.leb_gt. lia.
Qed.

Lemma small_straight s l r a : straight s l r a -> footprintSmall l r = false -> 2 <= s.
Proof.
  intros [(H1 & H2 & _)|(H1 & H2 & _)]; unfold footprintSmall;
    rewrite andb_false_iff, !Z.leb_gt; lia.
Qed.

Lemma pow2_ge2 (j : nat) : 2 <= 2 ^ Z.of_nat j -> exists i : nat, j = S i.
Proof. destruct j as [|i]; [simpl; lia|eauto]. Qed.

(** A triangle too large to stop at lies above the last level. *)
Lemma shapeAt_large d l r a :
  shapeAt k d l r a -> footprintSmall l r = false -> (d < 2 * k)%nat.
Proof.
  intros (i & Hi & [[-> D]|[-> S]]) Hf.
  - apply small_diagonal in D; [|done]. apply pow2_ge2 in D as [j Hj]. lia.
  - apply small_straight in S; [|done]. apply pow2_ge2 in S as [j Hj]. lia.
Qed.

Lemma shapeAt_children d l r a :
  shapeAt k d l r a -> (d < 2 * k)%nat ->
  shapeAt k (S d) a l (midpoint l r) /\ shapeAt k (S d) r a (midpoint l r).
Proof.
  intros (i & Hi & [[-> D]|[-> S]]) Hd.
  - assert (E : (k - i = Datatypes.S (k - i - 1))%nat) by lia.
    rewrite E, pow2_succ in D.
    destruct (diagonal_children _ _ _ _ D) as [S1 S2].
    rewrite <- pow2_succ, <- E in S1, S2.
    split; exists i; (split; [lia|]); right; (split; [lia|done]).
  - assert (E : (k - i = Datatypes.S (k - Datatypes.S i))%nat) by lia.
    rewrite E, pow2_succ in S.
    destruct (straight_children _ _ _ _ S) as [D1 D2].
    split; exists (Datatypes.S i); (split; [lia|]); left; (split; [lia|done]).
Qed.

Lemma even_sum u v h : Z.abs (v - u) = 2 * h \/ v = u -> Z.even (u + v) = true.
Proof.
  intros H. apply Z.even_spec. exists ((u + v) / 2). Z.div_mod_to_equations. lia.
Qed.

Lemma shapeAt_exact d l r a :
  shapeAt k d l r a -> (d < 2 * k)%nat ->
  Z.even (int2.x l + int2.x r) = true /\ Z.even (int2.y l + int2.y r) = true.
Proof.
  intros (i & Hi & [[-> D]|[-> S]]) Hd.
  - assert (E : (k - i = Datatypes.S (k - i - 1))%nat) by lia.
    rewrite E, pow2_succ in D. destruct D as (H1 & H2 & _).
    split; eapply even_sum; left; eassumption.
  - assert (E : (k - i = Datatypes.S (k - Datatypes.S i))%nat) by lia.
    rewrite E, pow2_succ in S.
    destruct S as [(H1 & H2 & _)|(H1 & H2 & _)]; split;
      first [eapply even_sum; left; eassumption|apply (even_sum _ _ 0); right; assumption].
Qed.


(** Splitting a node above the last level adds no branch below it. *)
Lemma ext_shallow B L lv p lv' p' :
  ext L lv p lv' p' -> (L < B)%nat -> shallow B lv p -> shallow B lv' p'.
Proof.
  intros E HL Hs x Lx Hl.
  destruct (ext_deep _ _ _ _ _ E x Lx Hl) as [[Lx0 Hl0]|?]; [|lia].
  rewrite (ext_lv _ _ _ _ _ E x Lx0). by apply Hs.
Qed.

(** When all branches lie above the last level, every branch has its
    hypotenuse midpoint on the grid. *)
Lemma shallow_exactTree fuel :
  forall lv O p t l r a,
    MeshInv lv O p -> shallow (2 * k) lv p -> live p t -> shapeAt k (lv t) l r a ->
    exactTree fuel p (Some t) l r a.
Proof.
  induction fuel as [|fuel IH]; intros lv O p t l r a Hinv Hs Lt Sh; [done|].
  cbn [exactTree]. rewrite leafAt_ok by exact (live_valid _ _ _ Hinv _ Lt).
  destruct (leaf p t) eqn:Hl; [done|].
  pose proof (Hs t Lt Hl) as Hd.
  destruct (shapeAt_exact _ _ _ _ Sh Hd) as [Ex Ey].
  destruct (shapeAt_children _ _ _ _ Sh Hd) as [S1 S2].
  destruct (leaf_false_children _ _ _ _ Hinv Lt Hl) as (c & d & Ec & Ed).
  rewrite !child_ok by exact (live_valid _ _ _ Hinv _ Lt). rewrite Ec, Ed.
  rewrite <- (mi_child _ _ _ Hinv t LC c Lt (or_introl eq_refl) Ec) in S1.
  rewrite <- (mi_child _ _ _ Hinv t RC d Lt (or_intror eq_refl) Ed) in S2.
  split; [done|]. split; [done|]. split.
  - apply (IH lv O); try done. exact (mi_scope _ _ _ Hinv t LC c Lt Ec).
  - apply (IH lv O); try done. exact (mi_scope _ _ _ Hinv t RC d Lt Ed).
Qed.

(** The walk of [RecursTessellate] over a patch of side [2 ^ k] returns
    and splits no triangle of the last level. *)
Lemma RecursTessellate_regular fuel :
  forall lv O p t left right apex node,
    MeshInv lv O p -> (exhausted p = false -> forall x, ~ O x) ->
    live p t -> varReady VARIANCE_DEPTH p -> 0 <= node ->
    (2 * capacity p + 3 <= fuel + lv t)%nat ->
    shallow (2 * k) lv p -> shapeAt k (lv t) left right apex ->
    exists trace lv' O' p',
      RecursTessellate PATCH_SIZE VARIANCE_DEPTH fuel (Some t) left right apex node p
        = Ok (trace, p')
      /\ MeshInv lv' O' p'
      /\ (exhausted p' = false -> forall x, ~ O' x)
      /\ ext (capacity p) lv p lv' p'
      /\ shallow (2 * k) lv' p'.
Proof.
  induction fuel as [|fuel IH];
    intros lv O p t left right apex node Hinv HO Lt R Hn Hf Hs Sh.
  { pose proof (mi_level _ _ _ Hinv t Lt). pose proof (mi_cap _ _ _ Hinv). lia. }
  assert (Stop : forall tr, exists trace lv' O' p',
             (Ok (tr, p) : result (list (option ptr) * Patch)) = Ok (trace, p')
             /\ MeshInv lv' O' p'
             /\ (exhausted p' = false -> forall x, ~ O' x)
             /\ ext (capacity p) lv p lv' p' /\ shallow (2 * k) lv' p').
  { intros tr. exists tr, lv, O, p. split; [done|]. split; [done|].
    split; [done|]. split; [apply ext_refl|done]. }
  cbn [RecursTessellate].
  destruct (footprintSmall left right) eqn:Hfs; [apply Stop|].
  pose proof (shapeAt_large _ _ _ _ Sh Hfs) as Hd.
  destruct (shapeAt_children _ _ _ _ Sh Hd) as [S1 S2].
  destruct (triVariance_ok PATCH_SIZE VARIANCE_DEPTH p left right node R Hn) as [m Em].
  rewrite (bind_ok _ _ _ _ _ Em).
  destruct (Qle_bool m 1); [apply Stop|].
  pose proof (mi_level _ _ _ Hinv t Lt) as Hlv. pose proof (mi_cap _ _ _ Hinv) as Hcap.
  assert (Hfuel : (lv t + 2 <= fuel)%nat) by lia.
  destruct (Split_sound fuel lv O p t Hinv HO Lt Hfuel)
    as (r & lv1 & O1 & p1 & X & Hinv1 & HO1 & Ext1 & _).
  rewrite (bind_ok _ _ _ _ _ X). cbv beta.
  pose proof (ext_cap _ _ _ _ _ Ext1) as C1.
  pose proof (ext_shallow _ _ _ _ _ _ Ext1 Hd Hs) as Hs1.
  assert (Lt1 : live p1 t) by (eapply live_mono; [apply (ext_next _ _ _ _ _ Ext1)|done]).
  assert (Ext1' : ext (capacity p) lv p lv1 p1).
  { eapply ext_weaken; [|exact Ext1]. lia. }
  assert (R1 : varReady VARIANCE_DEPTH p1)
    by (eapply varReady_params; [apply (ext_params _ _ _ _ _ Ext1)|done]).
  rewrite bind_isBranch by exact (live_valid _ _ _ Hinv1 _ Lt1). cbv beta.
  destruct (leaf p1 t) eqn:Hl1; cbn [negb].
  { exists [Some t], lv1, O1, p1. done. }
  destruct (leaf_false_children _ _ _ _ Hinv1 Lt1 Hl1) as (c & d & Ec & Ed).
  rewrite bind_load by exact (live_valid _ _ _ Hinv1 _ Lt1). cbv beta. rewrite Ec.
  assert (Lc : live p1 c) by exact (mi_scope _ _ _ Hinv1 t LC c Lt1 Ec).
  assert (Ld : live p1 d) by exact (mi_scope _ _ _ Hinv1 t RC d Lt1 Ed).
  pose proof (mi_child _ _ _ Hinv1 t LC c Lt1 (or_introl eq_refl) Ec) as Hc.
  pose proof (mi_child _ _ _ Hinv1 t RC d Lt1 (or_intror eq_refl) Ed) as Hd'.
  pose proof (ext_lv _ _ _ _ _ Ext1 t Lt) as Elv.
  assert (N1 : 0 <= Z.shiftl node 1) by (rewrite shiftl_1; lia).
  assert (N2 : 0 <= Z.shiftl node 1 + 1) by (rewrite shiftl_1; lia).
  assert (F1 : (2 * capacity p1 + 3 <= fuel + lv1 c)%nat) by lia.
  assert (Sc : shapeAt k (lv1 c) apex left (midpoint left right)) by (by rewrite Hc, Elv).
  destruct (IH lv1 O1 p1 c apex left (midpoint left right) (Z.shiftl node 1)
              Hinv1 HO1 Lc R1 N1 F1 Hs1 Sc)
    as (t1 & lv2 & O2 & p2 & Y & Hinv2 & HO2 & Ext2 & Hs2).
  rewrite (bind_ok _ _ _ _ _ Y). cbv beta.
  assert (Lt2 : live p2 t) by (eapply live_mono; [apply (ext_next _ _ _ _ _ Ext2)|done]).
  assert (Ld2 : live p2 d) by (eapply live_mono; [apply (ext_next _ _ _ _ _ Ext2)|done]).
  destruct (ext_branch _ _ _ _ _ Ext2 t RC Lt1 Hl1) as [Hl2 Ed2].
  rewrite bind_load by exact (live_valid _ _ _ Hinv2 _ Lt2). cbv beta.
  rewrite Ed2, Ed by auto.
  assert (R2 : varReady VARIANCE_DEPTH p2)
    by (eapply varReady_params; [apply (ext_params _ _ _ _ _ Ext2)|done]).
  pose proof (ext_cap _ _ _ _ _ Ext2) as C2.
  pose proof (ext_lv _ _ _ _ _ Ext2 d Ld) as Elvd.
  assert (F2 : (2 * capacity p2 + 3 <= fuel + lv2 d)%nat) by lia.
  assert (Sd : shapeAt k (lv2 d) right apex (midpoint left right))
    by (by rewrite Elvd, Hd', Elv).
  destruct (IH lv2 O2 p2 d right apex (midpoint left right) (Z.shiftl node 1 + 1)
              Hinv2 HO2 Ld2 R2 N2 F2 Hs2 Sd)
    as (t2 & lv3 & O3 & p3 & W & Hinv3 & HO3 & Ext3 & Hs3).
  rewrite (bind_ok _ _ _ _ _ W). cbv beta.
  exists (Some t :: t1 ++ t2), lv3, O3, p3.
  split; [done|]. split; [done|]. split; [done|]. split; [|done].
  rewrite C1 in Ext2. rewrite C2, C1 in Ext3.
  eapply ext_trans; [exact Hinv|exact Ext1'|].
  eapply ext_trans; [exact Hinv1|exact Ext2|exact Ext3].
Qed.


Lemma shapeAt_root (u v : Z) :
  PATCH_SIZE = 2 ^ Z.of_nat k ->
  shapeAt k 0 (int2.mk u (v + PATCH_SIZE)) (int2.mk (u + PATCH_SIZE) v) (int2.mk u v)
  /\ shapeAt k 0 (int2.mk (u + PATCH_SIZE) v) (int2.mk u (v + PATCH_SIZE))
       (int2.mk (u + PATCH_SIZE) (v + PATCH_SIZE)).
Proof.
  intros HPS. pose proof (Z.pow_pos_nonneg 2 (Z.of_nat k) ltac:(lia) ltac:(lia)).
  split; exists 0%nat; (split; [lia|]); left; (split; [done|]);
    rewrite Nat.sub_0_r, <- HPS; unfold diagonal; cbn [int2.x int2.y]; lia.
Qed.

(** A pass of [Tessellate] over a freshly reset patch of side [2 ^ k] and
    a fresh pool leaves a mesh in which no triangle of the last level is
    split. *)
Lemma Tessellate_regular fuel dist viewRadius cap p0 :
  PATCH_SIZE = 2 ^ Z.of_nat k ->
  varSized VARIANCE_DEPTH p0 -> (2 * cap + 3 <= fuel)%nat ->
  exists b tr p' lv' O',
    Tessellate PATCH_SIZE VARIANCE_DEPTH fuel dist viewRadius (newPool cap) (Patch_Reset p0)
      = Ok ((b, tr), p')
    /\ MeshInv lv' O' p' /\ (exhausted p' = false -> forall x, ~ O' x)
    /\ shallow (2 * k) lv' p'
    /\ lv' BaseLeft = 0%nat /\ lv' BaseRight = 0%nat /\ capacity p' = cap.
Proof.
  intros HPS Hs Hf. rewrite Tessellate_unfold. cbv zeta.
  destruct (tessStart_fresh dist viewRadius cap p0) as (p0' & -> & S1 & S2 & S3).
  set (q0 := freshPatch p0' cap).
  pose proof (fresh_inv p0' cap) as Hinv0. fold q0 in Hinv0.
  assert (C0 : capacity q0 = cap) by apply fresh_capacity.
  assert (R0 : varReady VARIANCE_DEPTH q0).
  { split; [|simpl; congruence]. destruct Hs as [H1 H2]. split; simpl; congruence. }
  assert (HO0 : exhausted q0 = false -> forall x : ptr, ~ False) by (intros _ x H; exact H).
  assert (F0 : (2 * capacity q0 + 3 <= fuel + 0)%nat) by lia.
  assert (Hs0 : shallow (2 * k) (fun _ => 0%nat) q0).
  { intros x Lx Hl. apply fresh_live in Lx. unfold leaf, q0 in Hl.
    rewrite !fresh_rd in Hl. by destruct Lx as [-> | ->]. }
  destruct (shapeAt_root (int2.x (coors (Patch_Reset p0))) (int2.y (coors (Patch_Reset p0)))
              HPS) as [ShL ShR].
  destruct (RecursTessellate_regular fuel (fun _ => 0%nat) (fun _ => False) q0 BaseLeft
              _ _ _ 1 Hinv0 HO0 I R0 ltac:(lia) F0 Hs0 ShL)
    as (t1 & lv1 & O1 & p1 & E1 & Hinv1 & HO1 & Ext1 & Hs1).
  rewrite (bind_ok _ _ _ _ _ E1). cbv beta.
  set (q1 := with_variance p1 (varianceLeft p1) (varianceRight p1) (Some SideRight)).
  rewrite (bind_ok (setCurrentVariance SideRight) _ p1 tt q1 eq_refl). cbv beta.
  assert (Hinv1' : MeshInv lv1 O1 q1) by (by apply MeshInv_with_variance).
  assert (C1 : capacity q1 = cap) by (rewrite <- C0; apply (ext_cap _ _ _ _ _ Ext1)).
  assert (R1 : varReady VARIANCE_DEPTH q1).
  { destruct (varReady_params VARIANCE_DEPTH q0 p1 (ext_params _ _ _ _ _ Ext1) R0)
      as [[G1 G2] _].
    split; [split; [exact G1|exact G2]|done]. }
  assert (L1 : lv1 BaseLeft = 0%nat) by exact (ext_lv _ _ _ _ _ Ext1 BaseLeft I).
  assert (L2 : lv1 BaseRight = 0%nat) by exact (ext_lv _ _ _ _ _ Ext1 BaseRight I).
  assert (F1 : (2 * capacity q1 + 3 <= fuel + lv1 BaseRight)%nat) by lia.
  rewrite <- L2 in ShR.
  destruct (RecursTessellate_regular fuel lv1 O1 q1 BaseRight
              _ _ _ 1 Hinv1' HO1 I R1 ltac:(lia) F1 Hs1 ShR)
    as (t2 & lv2 & O2 & p2 & E2 & Hinv2 & HO2 & Ext2 & Hs2).
  rewrite (bind_ok _ _ _ _ _ E2). cbv beta.
  exists (negb (exhausted p2)), (t1 ++ t2), p2, lv2, O2.
  split; [done|]. split; [done|]. split; [done|]. split; [done|].
  split; [by rewrite (ext_lv _ _ _ _ _ Ext2 BaseLeft I)|].
  split; [by rewrite (ext_lv _ _ _ _ _ Ext2 BaseRight I)|].
  by rewrite (ext_cap _ _ _ _ _ Ext2).
Qed.

(** After such a pass [GenerateBorderIndices] returns the skirts of the
    four sides, given fuel for the depth of the tree. *)
Lemma Tessellate_border fuel fuel' dist viewRadius cap p0 :
  PATCH_SIZE = 2 ^ Z.of_nat k ->
  varSized VARIANCE_DEPTH p0 -> (2 * cap + 3 <= fuel)%nat -> (cap + 1 <= fuel')%nat ->
  exists res p' tl tr,
    Tessellate PATCH_SIZE VARIANCE_DEPTH fuel dist viewRadius (newPool cap) (Patch_Reset p0)
      = Ok (res, p')
    /\ leafTriangles fuel' p' (Some BaseLeft) (int2.mk 0 PATCH_SIZE) (int2.mk PATCH_SIZE 0)
         (int2.mk 0 0) = Ok tl
    /\ leafTriangles fuel' p' (Some BaseRight) (int2.mk PATCH_SIZE 0) (int2.mk 0 PATCH_SIZE)
         (int2.mk PATCH_SIZE PATCH_SIZE) = Ok tr
    /\ GenerateBorderIndices PATCH_SIZE fuel' p'
       = Ok (borderOf PATCH_SIZE p' BaseLeft LN AxisX 0 (tl ++ tr)
             ++ borderOf PATCH_SIZE p' BaseLeft RN AxisY 0 (tl ++ tr)
             ++ borderOf PATCH_SIZE p' BaseRight RN AxisY PATCH_SIZE (tl ++ tr)
             ++ borderOf PATCH_SIZE p' BaseRight LN AxisX PATCH_SIZE (tl ++ tr)).
Proof.
  intros HPS Hs Hf Hf'.
  destruct (Tessellate_regular fuel dist viewRadius cap p0 HPS Hs Hf)
    as (b & tr0 & p' & lv' & O' & E & Hinv & HO & Hsh & L1 & L2 & C).
  pose proof (mi_cap _ _ _ Hinv) as Hcap.
  destruct (shapeAt_root 0 0 HPS) as [ShL ShR]. cbn [Z.add] in ShL, ShR.
  rewrite <- L1 in ShL. rewrite <- L2 in ShR.
  assert (F : forall t, (nextIdx p' + 1 <= fuel' + lv' t)%nat) by (intros; lia).
  destruct (leafTriangles_total fuel' lv' O' p' BaseLeft (int2.mk 0 PATCH_SIZE)
              (int2.mk PATCH_SIZE 0) (int2.mk 0 0) Hinv I (F _)) as [tl El].
  destruct (leafTriangles_total fuel' lv' O' p' BaseRight (int2.mk PATCH_SIZE 0)
              (int2.mk 0 PATCH_SIZE) (int2.mk PATCH_SIZE PATCH_SIZE) Hinv I (F _)) as [tr Er].
  exists (b, tr0), p', tl, tr. split; [done|]. split; [done|]. split; [done|].
  apply GenerateBorderIndices_sides; try done.
  - rewrite HPS. apply Z.pow_pos_nonneg; lia.
  - by apply (shallow_exactTree fuel' lv' O').
  - by apply (shallow_exactTree fuel' lv' O').
Qed.

End Regular.

(** ** More on the node pools *)

Module PoolAccessFacts.
Import Pools PoolAccess PoolsFacts.

Lemma Reset_fresh (p : CTriNodePool) : pool_wf p -> Reset p = newPool (poolSize p).
Proof.
  intros [_ Hb Hz].
  { unfold Reset, newPool. f_equal.
    destruct (Nat.ltb_spec 0 (nextTriNodeIdx p)) as [Hpos|Hzero].
    - apply list_eq. intros i.
      destruct (decide (i < nextTriNodeIdx p)%nat) as [Hi|Hi].
      + rewrite lookup_app_l by (rewrite length_replicate; lia).
        rewrite !lookup_replicate_2 by (unfold poolSize in *; lia). done.
      + rewrite lookup_app_r by (rewrite length_replicate; lia).
        rewrite length_replicate, lookup_drop.
        replace (nextTriNodeIdx p + (i - nextTriNodeIdx p))%nat with i by lia.
        destruct (pool p !! i) as [n|] eqn:En.
        * assert (Hge : (nextTriNodeIdx p <= i)%nat) by lia.
          rewrite (Hz i n Hge En). symmetry. apply lookup_replicate_2.
          apply lookup_lt_Some in En. done.
        * symmetry. apply lookup_replicate_None. apply lookup_ge_None in En. done.
    - apply list_eq. intros i.
      destruct (pool p !! i) as [n|] eqn:En.
      + assert (Hge : (nextTriNodeIdx p <= i)%nat) by lia.
        rewrite (Hz i n Hge En). symmetry. apply lookup_replicate_2.
        apply lookup_lt_Some in En. done.
      + symmetry. apply lookup_replicate_None. apply lookup_ge_None in En. done. }
Qed.

(** X1.  When nothing above the watermark has been written, [Reset] puts
    the pool back into the state in which its constructor left it: all
    slots zeroed and the watermark at zero.  It is out of nodes again only
    if it has fewer than two slots. *)
Theorem Reset_newPool (p : CTriNodePool) :
  pool_wf p ->
  Reset p = newPool (poolSize p)
  /\ pool_wf (Reset p)
  /\ OutOfNodes (Reset p) = (poolSize p <? 2)%nat.
Proof.
  intros Hwf. rewrite (Reset_fresh p Hwf).
  split; [done|]. split; [apply newPool_wf|].
  unfold OutOfNodes, newPool, poolSize. cbn [pool nextTriNodeIdx].
  by rewrite length_replicate.
Qed.

Lemma Reset_newPool_witness :
  pool_wf (snd (Allocate (newPool 4)))
  /\ Reset (snd (Allocate (newPool 4))) = newPool 4.
Proof.
  assert (W : pool_wf (snd (Allocate (newPool 4)))).
  { split; [exists 1%nat; reflexivity|vm_compute; lia|].
    intros i n Hi E. vm_compute in Hi, E.
    do 4 (destruct i as [|i]; [first [lia|by injection E as <-]|]).
    discriminate E. }
  split; [exact W|]. exact (proj1 (Reset_newPool _ W)).
Defined.


(** X2.  The pool size that [InitPools] hands to the constructor is always
    even, so the first assertion of the constructor never fails; it is
    positive, as the second assertion wants, exactly when the request is
    for at least three nodes or for at least one node per thread. *)
Theorem InitPools_ctor_asserts (numThreads total : Z) :
  1 <= numThreads < 2 ^ 31 -> 0 <= total < 2 ^ 64 - 1 ->
  Z.land (thrPoolCapacity numThreads total) 1 = 0
  /\ (ctor_asserts (thrPoolCapacity numThreads total) = true
      <-> numThreads <= total \/ 3 <= total).
Proof.
  intros Hn Ht. rewrite thrPoolCapacity_exact by lia. cbv zeta.
  set (t := Z.max (total / numThreads) (total / 3)).
  assert (H0 : 0 <= t).
  { unfold t. apply Z.max_le_iff. right. apply Z.div_pos; lia. }
  assert (Hpos : 0 < t <-> numThreads <= total \/ 3 <= total).
  { unfold t. rewrite Z.max_lt_iff. split.
    - intros [H|H]; [left|right].
      + destruct (Z.lt_ge_cases total numThreads) as [Hlt|]; [|done].
        rewrite Z.div_small in H by lia. lia.
      + destruct (Z.lt_ge_cases total 3) as [Hlt|]; [|done].
        rewrite Z.div_small in H by lia. lia.
    - intros [H|H]; [left|right]; apply Z.div_str_pos; lia. }
  assert (Hev : Z.land (t + t mod 2) 1 = 0).
  { rewrite land_1_mod. Z.div_mod_to_equations. lia. }
  split; [exact Hev|].
  unfold ctor_asserts. rewrite Hev. cbn [Z.eqb andb].
  rewrite Z.ltb_lt, <- Hpos. Z.div_mod_to_equations. lia.
Qed.

Lemma InitPools_ctor_asserts_witness :
  (1 <= 4 < 2 ^ 31) /\ (0 <= 2 < 2 ^ 64 - 1)
  /\ ctor_asserts (thrPoolCapacity 4 2) = false
  /\ ctor_asserts (thrPoolCapacity 4 3) = true.
Proof.
  split; [lia|]. split; [lia|].
  destruct (InitPools_ctor_asserts 4 2 ltac:(lia) ltac:(lia)) as [_ H2].
  destruct (InitPools_ctor_asserts 4 3 ltac:(lia) ltac:(lia)) as [_ H3].
  split.
  - destruct (ctor_asserts (thrPoolCapacity 4 2)); [|reflexivity].
    destruct (proj1 H2 eq_refl); lia.
  - apply H3. right. lia.
Defined.

Lemma set_pools_other g s v : pools (set_pools g s v) (negb s) = pools g (negb s).
Proof. unfold set_pools. cbn. by destruct s. Qed.

Lemma ResetAll_unfold numThreads pass g :
  ResetAll numThreads pass g
  = let cleared := set_pools g pass (map Reset (pools g pass)) in
    if existsb OutOfNodes (pools g pass) && negb (MAX_POOL_SIZE g <=? CUR_POOL_SIZE g)
    then InitPools numThreads pass
           (Z.min (wrap64 (CUR_POOL_SIZE g * 2)) (MAX_POOL_SIZE g)) cleared
    else cleared.
Proof.
  unfold ResetAll. rewrite resetLoop_spec. cbn [orb]. cbv zeta.
  destruct (existsb OutOfNodes (pools g pass)); cbn [negb andb]; [|reflexivity].
  change (MAX_POOL_SIZE (set_pools g pass (map Reset (pools g pass))))
    with (MAX_POOL_SIZE g).
  change (CUR_POOL_SIZE (set_pools g pass (map Reset (pools g pass))))
    with (CUR_POOL_SIZE g).
  by destruct (MAX_POOL_SIZE g <=? CUR_POOL_SIZE g).
Qed.

(** X3.  After [ResetAll], every pool that [GetPool] hands out for the
    pass is as its constructor left it, with all slots zeroed and the
    watermark at zero, whether the pools were only cleared or were
    reallocated; the pools of the other pass are the ones they were. *)
Theorem GetPool_ResetAll (numThreads t : Z) (pass : bool) (g : globals) (q : CTriNodePool) :
  Forall pool_wf (pools g pass) ->
  let g' := ResetAll numThreads pass g in
  (GetPool t pass g' = Some q -> q = newPool (poolSize q))
  /\ GetPool t (negb pass) g' = GetPool t (negb pass) g.
Proof.
  intros Hwf g'. unfold g'. rewrite ResetAll_unfold. cbv zeta.
  destruct (existsb OutOfNodes (pools g pass) && _).
  - split.
    + unfold GetPool, InitPools. rewrite set_pools_same.
      destruct (t <? 0); [done|]. intros H. apply lookup_replicate in H as [-> _].
      unfold newPool, poolSize. cbn [pool]. by rewrite length_replicate.
    + unfold GetPool, InitPools. rewrite set_pools_other. cbn [pools].
      by rewrite set_pools_other.
  - split.
    + unfold GetPool. rewrite set_pools_same.
      destruct (t <? 0); [done|]. intros H.
      change (map Reset (pools g pass)) with (Reset <$> pools g pass) in H.
      rewrite list_lookup_fmap in H.
      destruct (pools g pass !! Z.to_nat t) as [p|] eqn:Hp; [|done]. injection H as <-.
      apply list_elem_of_lookup_2 in Hp.
      rewrite Forall_forall in Hwf. specialize (Hwf p Hp).
      rewrite (Reset_fresh p Hwf). unfold newPool, poolSize. cbn [pool].
      by rewrite length_replicate.
    + unfold GetPool. by rewrite set_pools_other.
Qed.

Lemma GetPool_ResetAll_witness :
  Forall pool_wf (pools exhaustedGlobals false)
  /\ exists q, GetPool 1 false (ResetAll 2 false exhaustedGlobals) = Some q
               /\ q = newPool (poolSize q).
Proof.
  assert (H2 : Forall pool_wf (pools exhaustedGlobals false)).
  { repeat constructor; try (exists 1%nat; reflexivity); try (exists 0%nat; reflexivity);
      try (vm_compute; lia).
    - intros i n Hi E. vm_compute in Hi, E.
      do 2 (destruct i as [|i]; [lia|]). discriminate E.
    - intros i n Hi E. vm_compute in E.
      do 2 (destruct i as [|i]; [by injection E as <-|]). discriminate E. }
  split; [exact H2|].
  destruct (GetPool 1 false (ResetAll 2 false exhaustedGlobals)) as [q|] eqn:E;
    [|vm_compute in E; discriminate E].
  exists q. split; [reflexivity|].
  exact (proj1 (GetPool_ResetAll 2 1 false exhaustedGlobals q H2) E).
Defined.

End PoolAccessFacts.

(** ** The tree only grows *)

Section Keeps.

Implicit Types (p q : Patch) (x y t : ptr) (f g s : link).

Lemma keeps_ok {A} (R : Patch -> Patch -> Prop) (m : M A) p a p' :
  keeps R m -> m p = Ok (a, p') -> R p p'.
Proof. intros H E. specialize (H p). by rewrite E in H. Qed.

Lemma store_inv tri f v p u p' :
  store tri f v p = Ok (u, p') -> exists x, tri = Some x /\ valid p x /\ p' = wr p x f v.
Proof.
  unfold store, wr. destruct tri as [x|]; [|done].
  destruct (nodeAt p x) as [n|] eqn:Hn; [|done].
  intros H. injection H as _ <-. exists x. split; [done|]. split; [|by rewrite Hn].
  apply valid_nodeAt. by rewrite Hn.
Qed.

Lemma allocateChildren_inv t p ok p' :
  allocateChildren t p = Ok (ok, p') ->
  valid p t
  /\ ((exhausted p = true /\ ok = false /\ p' = wr (wr p t LC None) t RC None)
      \/ (exhausted p = false /\ ok = true
          /\ p' = wr (wr (bump p) t LC (Some (PoolNode (nextIdx p)))) t RC
                    (Some (PoolNode (S (nextIdx p)))))).
Proof.
  intros E.
  assert (Hv : valid p t).
  { unfold allocateChildren in E.
    destruct (Allocate (currentPool p)) as [[[o l] r] cp] eqn:EA.
    apply bind_inv in E as (u & q & E & _).
    apply store_inv in E as (x & [= <-] & Hv & _).
    destruct t as [| |i]; try done. simpl in *.
    unfold capacity, poolSize in *. simpl in Hv.
    unfold Allocate in EA. destruct (OutOfNodes (currentPool p)).
    - by injection EA as _ _ _ <-.
    - by injection EA as _ _ _ <-. }
  split; [done|].
  destruct (exhausted p) eqn:Hex.
  - left. split; [done|]. unfold allocateChildren, Allocate in E.
    unfold exhausted in Hex. rewrite Hex, with_nodes_id in E.
    rewrite (bind_ok _ _ _ _ _ (store_ok p t LC None Hv)) in E.
    rewrite (bind_ok _ _ _ _ _ (store_ok _ t RC None (valid_wr_2 _ _ _ _ _ Hv))) in E.
    by injection E as <- <-.
  - right. split; [done|]. rewrite allocateChildren_ok in E by done.
    by injection E as <- <-.
Qed.

(** *** Steps that only touch neighbor links *)

Section Relation.

Variable R : Patch -> Patch -> Prop.
Hypothesis R_refl : forall p, R p p.
Hypothesis R_trans : forall p q r, R p q -> R q r -> R p r.
Hypothesis R_wr : forall p x s v, valid p x -> nbr s -> R p (wr p x s v).

Lemma keeps_ret {A} (a : A) : keeps R (ret a).
Proof. intros p. apply R_refl. Qed.

Lemma keeps_fail {A} e : keeps R (@fail A e).
Proof. by intros p. Qed.

Lemma keeps_bind {A B} (m : M A) (k : A -> M B) :
  keeps R m -> (forall a, keeps R (k a)) -> keeps R (bind m k).
Proof.
  intros Hm Hk p. unfold bind. specialize (Hm p).
  destruct (m p) as [[a p1]|e]; [|done].
  specialize (Hk a p1). destruct (k a p1) as [[b p2]|e]; [eauto|done].
Qed.

Lemma keeps_load (x : option ptr) f : keeps R (load x f).
Proof.
  intros p. destruct (load x f p) as [[v p']|] eqn:E; [|done].
  apply load_inv in E as [-> _]. apply R_refl.
Qed.

Lemma keeps_isLeaf (x : option ptr) : keeps R (isLeaf x).
Proof.
  intros p. destruct (isLeaf x p) as [[v p']|] eqn:E; [|done].
  apply isLeaf_inv in E as [-> _]. apply R_refl.
Qed.

Lemma keeps_store (x : option ptr) s v : nbr s -> keeps R (store x s v).
Proof.
  intros Hs p. destruct (store x s v p) as [[u p']|] eqn:E; [|done].
  apply store_inv in E as (y & _ & Hv & ->). by apply R_wr.
Qed.

Create HintDb keeps discriminated.

#[local] Hint Resolve keeps_ret keeps_fail keeps_load keeps_isLeaf keeps_store
  nbr_BN nbr_LN nbr_RN : keeps.
#[local] Hint Extern 2 (keeps _ (bind _ _)) => apply keeps_bind; [|intros ?] : keeps.
#[local] Hint Extern 2 (keeps _ (match ?x with _ => _ end)) => destruct x : keeps.

Lemma keeps_isBranch (x : option ptr) : keeps R (isBranch x).
Proof. unfold isBranch. auto with keeps. Qed.

Lemma keeps_linkChildren t : keeps R (linkChildren t).
Proof. unfold linkChildren. auto 30 with keeps. Qed.

Lemma keeps_relinkLeft t : keeps R (relinkLeft t).
Proof. unfold relinkLeft. auto 30 with keeps. Qed.

Lemma keeps_relinkRight t : keeps R (relinkRight t).
Proof. unfold relinkRight. auto 30 with keeps. Qed.

Lemma keeps_crossLink t : keeps R (crossLink t).
Proof. unfold crossLink. auto 40 with keeps. Qed.

Lemma keeps_clearEdge t : keeps R (clearEdge t).
Proof. unfold clearEdge. auto 30 with keeps. Qed.

#[local] Hint Resolve keeps_isBranch keeps_linkChildren keeps_relinkLeft
  keeps_relinkRight keeps_crossLink keeps_clearEdge : keeps.

(** The part of [Split] after the children are allocated. *)
Lemma keeps_linkAll (rec : option ptr -> M bool) t :
  (forall b, keeps R (rec b)) ->
  keeps R (linkChildren t ;;;
           relinkLeft t ;;;
           relinkRight t ;;;
           b <- load (Some t) BN ;;
           match b with
           | Some _ =>
               br <- isBranch b ;;
               if br then crossLink t
               else _ <- rec b ;; ret tt
           | None => clearEdge t
           end ;;;
           ret true).
Proof. intros Hrec. auto 40 with keeps. Qed.

Lemma keeps_splitRest (rec : option ptr -> M bool) t :
  keeps R (allocateChildren t) -> (forall b, keeps R (rec b)) ->
  keeps R (splitRest rec t).
Proof.
  intros Ha Hrec. unfold splitRest. apply keeps_bind; [done|].
  intros [|]; cbn [negb]; cbv iota; [by apply keeps_linkAll | apply keeps_ret].
Qed.

Lemma keeps_forced (rec : option ptr -> M bool) (c : Prop) `{Decision c} b :
  keeps R (rec b) ->
  keeps R (if decide c then _ <- rec b ;; ret tt else ret tt).
Proof. intros Hrec. destruct (decide c); auto with keeps. Qed.

Lemma keeps_Split fuel :
  (forall t, keeps R (allocateChildren t)) ->
  forall tri, keeps R (Split fuel tri).
Proof.
  intros Ha. induction fuel as [|fuel IH]; intros tri; [apply keeps_fail|].
  rewrite Split_unfold. apply keeps_bind; [apply keeps_isLeaf|].
  intros [|]; cbn [negb]; cbv iota; [|apply keeps_ret].
  apply keeps_bind; [apply keeps_load|]. intros b.
  apply keeps_bind; [destruct b; auto with keeps|]. intros bb.
  apply keeps_bind; [by apply keeps_forced|]. intros _.
  destruct tri as [t|]; [|apply keeps_fail].
  by apply keeps_splitRest.
Qed.

End Relation.

(** *** The watermark *)

Lemma grows_refl p : grows p p.
Proof. split; [done|]. exists 0%nat. lia. Qed.

Lemma grows_trans p q r : grows p q -> grows q r -> grows p r.
Proof.
  intros [C1 [k1 N1]] [C2 [k2 N2]]. split; [congruence|].
  exists (k1 + k2)%nat. lia.
Qed.

Lemma grows_wr p x s v : valid p x -> nbr s -> grows p (wr p x s v).
Proof.
  intros _ _. split; [apply capacity_wr|]. exists 0%nat. rewrite nextIdx_wr. lia.
Qed.

Lemma grows_allocateChildren t : keeps grows (allocateChildren t).
Proof.
  intros p. destruct (allocateChildren t p) as [[ok p']|] eqn:E; [|done].
  apply allocateChildren_inv in E as [_ [(_ & _ & ->)|(_ & _ & ->)]].
  - split; [by rewrite !capacity_wr|]. exists 0%nat. rewrite !nextIdx_wr. lia.
  - split; [by rewrite !capacity_wr|]. exists 1%nat.
    rewrite !nextIdx_wr, nextIdx_bump. lia.
Qed.

Lemma grows_Split fuel tri : keeps grows (Split fuel tri).
Proof.
  apply (keeps_Split grows grows_refl grows_trans grows_wr fuel grows_allocateChildren).
Qed.

(** *** Branches *)

Lemma leaf_rd p q t :
  rd q t LC = rd p t LC -> rd q t RC = rd p t RC -> leaf q t = leaf p t.
Proof. unfold leaf. by intros -> ->. Qed.

Lemma staysSplit_refl t p : staysSplit t p p.
Proof. by intros ? ?. Qed.

Lemma staysSplit_trans t p q r :
  staysSplit t p q -> staysSplit t q r -> staysSplit t p r.
Proof.
  intros H1 H2 Hv Hl. destruct (H1 Hv Hl) as (V1 & A1 & B1).
  destruct H2 as (V2 & A2 & B2); [done|by rewrite (leaf_rd p q)|].
  split; [done|]. split; congruence.
Qed.

Lemma staysSplit_wr t p x s v : valid p x -> nbr s -> staysSplit t p (wr p x s v).
Proof.
  intros Hx Hs Hv _. split; [by apply valid_wr|].
  split; rewrite rd_wr by done;
    (destruct (decide (x = t /\ s = _)) as [[_ ->]|]; [|done]);
    by destruct Hs as [|[|]].
Qed.

Lemma staysSplit_allocateChildren t x :
  x <> t -> keeps (staysSplit t) (allocateChildren x).
Proof.
  intros Hne p. destruct (allocateChildren x p) as [[ok p']|] eqn:E; [|done].
  intros Hv _.
  apply allocateChildren_inv in E as [Hx [(_ & _ & ->)|(_ & _ & ->)]].
  - split; [vsolve|]. split; rds; done.
  - split; [vsolve|]. split; rds; done.
Qed.

Lemma staysSplit_Split t fuel : forall tri, keeps (staysSplit t) (Split fuel tri).
Proof.
  induction fuel as [|fuel IH]; intros tri; [by intros p|].
  intros p. destruct (Split (S fuel) tri p) as [[r p']|] eqn:E; [|done].
  intros Hv Hl. revert Hv Hl. change (staysSplit t p p').
  rewrite Split_unfold in E.
  apply bind_inv in E as (lf & p1 & H1 & E).
  apply isLeaf_inv in H1 as [-> (x & -> & Hx & ->)].
  destruct (leaf p x) eqn:Hlx; cbn [negb] in E; cbv iota in E.
  2:{ injection E as _ <-. apply staysSplit_refl. }
  intros Hv Hl. assert (Hne : x <> t) by congruence. revert Hv Hl.
  change (staysSplit t p p').
  apply bind_inv in E as (b & p1 & H1 & E).
  apply load_inv in H1 as [-> _].
  apply bind_inv in E as (bb & p1 & H1 & E).
  assert (p1 = p) as ->.
  { destruct b; [by apply load_inv in H1 as [-> _] | by inversion H1]. }
  apply bind_inv in E as ([] & p1 & H2 & E).
  apply (staysSplit_trans t p p1).
  - eapply (keeps_ok _ _ _ _ _ (keeps_forced (staysSplit t) (staysSplit_refl t)
                                  (staysSplit_trans t) (Split fuel) _ b (IH b)) H2).
  - eapply (keeps_ok _ _ _ _ _ (keeps_splitRest (staysSplit t) (staysSplit_refl t)
              (staysSplit_trans t) (staysSplit_wr t) (Split fuel) x
              (staysSplit_allocateChildren t x Hne) IH) E).
Qed.


Lemma triVariance_inv PS VD l r n p v p' :
  triVariance PS VD l r n p = Ok (v, p') -> p' = p.
Proof.
  unfold triVariance. destruct (n <? Z.shiftl 1 VD); [|by intros [= _ <-]].
  intros H. apply bind_inv in H as (a & p1 & H1 & H).
  injection H as _ <-. unfold readVariance in H1.
  destruct (currentVariance p); [|done]. destruct (n <? 0); [done|].
  destruct (_ !! _); [|done]. by injection H1 as _ <-.
Qed.

Lemma isBranch_inv tri p b p1 :
  isBranch tri p = Ok (b, p1) ->
  p1 = p /\ exists t, tri = Some t /\ valid p t /\ b = negb (leaf p t).
Proof.
  unfold isBranch. intros H. apply bind_inv in H as (lf & q & H1 & H).
  apply isLeaf_inv in H1 as [-> (t & -> & Hv & ->)]. injection H as <- <-.
  split; [done|]. by exists t.
Qed.

Section Walk.

Variable R : Patch -> Patch -> Prop.
Hypothesis R_refl : forall p, R p p.
Hypothesis R_trans : forall p q r, R p q -> R q r -> R p r.
Hypothesis R_Split : forall fuel tri, keeps R (Split fuel tri).

Lemma keeps_RecursTessellate PS VD fuel :
  forall tri l r a n, keeps R (RecursTessellate PS VD fuel tri l r a n).
Proof.
  induction fuel as [|fuel IH]; intros tri l r a n p; [done|].
  destruct (RecursTessellate PS VD (S fuel) tri l r a n p) as [[tr p']|] eqn:E; [|done].
  cbn [RecursTessellate] in E.
  destruct (footprintSmall l r); [injection E as _ <-; apply R_refl|].
  apply bind_inv in E as (tv & p1 & H1 & E). apply triVariance_inv in H1 as ->.
  destruct (Qle_bool tv 1); [injection E as _ <-; apply R_refl|].
  apply bind_inv in E as (u & p1 & H1 & E).
  apply (keeps_ok R _ _ _ _ (R_Split fuel tri)) in H1.
  apply (R_trans _ _ _ H1).
  apply bind_inv in E as (br & p2 & H2 & E). apply isBranch_inv in H2 as [-> _].
  destruct br; [|injection E as _ <-; apply R_refl].
  apply bind_inv in E as (lc & p2 & H2 & E). apply load_inv in H2 as [-> _].
  apply bind_inv in E as (t1 & p2 & H2 & E).
  apply (keeps_ok R _ _ _ _ (IH _ _ _ _ _)) in H2. apply (R_trans _ _ _ H2).
  apply bind_inv in E as (rc & p3 & H3 & E). apply load_inv in H3 as [-> _].
  apply bind_inv in E as (t2 & p3 & H3 & E).
  apply (keeps_ok R _ _ _ _ (IH _ _ _ _ _)) in H3. apply (R_trans _ _ _ H3).
  injection E as _ <-. apply R_refl.
Qed.

Lemma keeps_SplitAll fuel calls : keeps R (SplitAll fuel calls).
Proof.
  induction calls as [|t ts IH]; intros p; [apply R_refl|].
  cbn [SplitAll]. destruct (decide (live p t)); [|done].
  destruct (bind _ _ p) as [[u p']|] eqn:E; [|done].
  apply bind_inv in E as (r & p1 & H1 & E).
  apply (keeps_ok R _ _ _ _ (R_Split fuel (Some t))) in H1.
  apply (keeps_ok R _ _ _ _ IH) in E. eauto.
Qed.

End Walk.

End Keeps.

(** X4. [Split] answers true exactly when the node is a branch on return,
    whatever the links of the patch are.  It answers false only when the
    pool is out of nodes, and it never changes the capacity of the pool. *)
Theorem Split_answer (fuel : nat) (t : ptr) (p p' : Patch) (r : bool) :
  Split fuel (Some t) p = Ok (r, p') ->
  r = negb (leaf p' t)
  /\ (r = false -> exhausted p' = true)
  /\ capacity p' = capacity p.
Proof.
  intros E.
  split; [|split; [|exact (proj1 (keeps_ok grows _ _ _ _ (grows_Split fuel (Some t)) E))]].
  all: destruct fuel as [|fuel]; [done|].
  all: rewrite Split_unfold in E.
  all: apply bind_inv in E as (lf & p1 & H1 & E).
  all: apply isLeaf_inv in H1 as [-> (x & [= <-] & Hx & ->)].
  all: destruct (leaf p t) eqn:Hl; cbn [negb] in E; cbv iota in E.
  all: try (injection E as <- <-; by rewrite ?Hl).
  all: apply bind_inv in E as (b & p1 & _ & E).
  all: apply bind_inv in E as (bb & p2 & _ & E).
  all: apply bind_inv in E as (u & p3 & _ & E).
  all: unfold splitRest in E.
  all: apply bind_inv in E as (ok & p4 & Ha & E).
  all: apply allocateChildren_inv in Ha as [Hv [(Hex & -> & ->)|(Hex & -> & ->)]].
  all: cbn [negb] in E; cbv iota in E.
  - injection E as <- <-. unfold leaf. by rds.
  - set (q := wr (wr (bump p3) t LC _) t RC _) in E.
    assert (Hq : valid q t /\ leaf q t = false).
    { split; [unfold q; vsolve|]. unfold leaf, q. by rds. }
    pose proof (keeps_linkAll (staysSplit t) (staysSplit_refl t) (staysSplit_trans t)
                  (staysSplit_wr t) (Split fuel) t (staysSplit_Split t fuel)) as K.
    specialize (K q). rewrite E in K.
    destruct K as (_ & K1 & K2); [apply Hq|apply Hq|].
    assert (r = true) as ->.
    { apply bind_inv in E as (? & ? & _ & E). apply bind_inv in E as (? & ? & _ & E).
      apply bind_inv in E as (? & ? & _ & E). apply bind_inv in E as (? & ? & _ & E).
      apply bind_inv in E as (? & ? & _ & E). by injection E as <- _. }
    rewrite (leaf_rd q p' t K1 K2). by rewrite (proj2 Hq).
  - injection E as <- <-. intros _. by rewrite !exhausted_wr.
  - intros ->. exfalso.
    apply bind_inv in E as (? & ? & _ & E). apply bind_inv in E as (? & ? & _ & E).
    apply bind_inv in E as (? & ? & _ & E). apply bind_inv in E as (? & ? & _ & E).
    apply bind_inv in E as (? & ? & _ & E). by injection E as ? _.
Qed.

Lemma Split_answer_witness :
  exists r p', Split 4 (Some BaseLeft) (freshPatch samplePatch 2) = Ok (r, p')
               /\ r = negb (leaf p' BaseLeft).
Proof.
  destruct (Split 4 (Some BaseLeft) (freshPatch samplePatch 2)) as [[r p']|e] eqn:E;
    [|vm_compute in E; discriminate E].
  exists r, p'. split; [reflexivity|]. exact (proj1 (Split_answer _ _ _ _ _ E)).
Defined.

(** X5. The tree only grows: a node that is a branch keeps its two
    children through every call of [Split] and every walk of
    [RecursTessellate], on any node and whatever the links of the patch
    are. *)
Theorem branches_stay (t : ptr) (p : Patch) :
  valid p t -> leaf p t = false ->
  (forall fuel tri r p', Split fuel tri p = Ok (r, p') ->
     leaf p' t = false /\ rd p' t LC = rd p t LC /\ rd p' t RC = rd p t RC)
  /\ (forall PS VD fuel tri l r a n tr p',
        RecursTessellate PS VD fuel tri l r a n p = Ok (tr, p') ->
        leaf p' t = false /\ rd p' t LC = rd p t LC /\ rd p' t RC = rd p t RC).
Proof.
  intros Hv Hl. split.
  - intros fuel tri r p' E.
    destruct (keeps_ok _ _ _ _ _ (staysSplit_Split t fuel tri) E Hv Hl) as (_ & A & B).
    by rewrite (leaf_rd p p' t A B).
  - intros PS VD fuel tri l r a n tr p' E.
    pose proof (keeps_RecursTessellate (staysSplit t) (staysSplit_refl t)
                  (staysSplit_trans t) (staysSplit_Split t) PS VD fuel tri l r a n) as K.
    destruct (keeps_ok _ _ _ _ _ K E Hv Hl) as (_ & A & B).
    by rewrite (leaf_rd p p' t A B).
Qed.

Lemma branches_stay_witness :
  let p := match Split 6 (Some BaseLeft) (freshPatch samplePatch 8) with
           | Ok (_, q) => q
           | Err _ => samplePatch
           end in
  valid p BaseLeft /\ leaf p BaseLeft = false
  /\ forall fuel tri r p', Split fuel tri p = Ok (r, p') -> leaf p' BaseLeft = false.
Proof.
  intros p.
  assert (Hv : valid p BaseLeft) by exact I.
  assert (Hl : leaf p BaseLeft = false) by (vm_compute; reflexivity).
  split; [exact Hv|]. split; [exact Hl|].
  intros fuel tri r p' E.
  exact (proj1 (proj1 (branches_stay BaseLeft p Hv Hl) fuel tri r p' E)).
Defined.

(** ** Meshes: the arena and the neighbor links *)

Section Arena.

Implicit Types (p q : Patch) (x y t : ptr) (f g s : link).

Lemma zeroNode_links (n : TriTreeNode) :
  (forall f, getLink f n = None) -> n = zeroNode.
Proof.
  intros H. destruct n as [a b c d e].
  pose proof (H LC) as H1. pose proof (H RC) as H2. pose proof (H BN) as H3.
  pose proof (H LN) as H4. pose proof (H RN) as H5. simpl in *. by subst.
Qed.

(** The pool of a mesh whose watermark is even is well formed. *)
Lemma Mesh_pool_wf lv O p :
  MeshInv lv O p -> Nat.Even (nextIdx p) -> pool_wf (currentPool p).
Proof.
  intros Hinv Hev. split.
  - exact Hev.
  - exact (mi_cap _ _ _ Hinv).
  - intros i n Hi Hn. apply zeroNode_links. intros f.
    pose proof (mi_zero _ _ _ Hinv i f Hi) as Z. unfold rd in Z. simpl in Z.
    by rewrite Hn in Z.
Qed.

Lemma grows_even p p' : grows p p' -> Nat.Even (nextIdx p) -> Nat.Even (nextIdx p').
Proof. intros [_ [k ->]] [j ->]. exists (j + k)%nat. lia. Qed.

Lemma SplitAll_ext fuel calls :
  forall lv O p p',
    MeshInv lv O p -> (exhausted p = false -> forall x, ~ O x) ->
    (capacity p + 2 <= fuel)%nat ->
    SplitAll fuel calls p = Ok (tt, p') ->
    exists lv' O',
      MeshInv lv' O' p' /\ (exhausted p' = false -> forall x, ~ O' x)
      /\ ext (capacity p) lv p lv' p'.
Proof.
  induction calls as [|t ts IH]; intros lv O p p' Hinv HO Hf E.
  { injection E as <-. exists lv, O. split; [done|]. split; [done|apply ext_refl]. }
  cbn [SplitAll] in E. destruct (decide (live p t)) as [Lt|]; [|done].
  pose proof (mi_level _ _ _ Hinv t Lt). pose proof (mi_cap _ _ _ Hinv).
  destruct (Split_sound fuel lv O p t Hinv HO Lt ltac:(lia))
    as (r & lv1 & O1 & p1 & X & Hinv1 & HO1 & Ext1 & _).
  rewrite (bind_ok _ _ _ _ _ X) in E.
  pose proof (ext_cap _ _ _ _ _ Ext1) as C.
  assert (Hf1 : (capacity p1 + 2 <= fuel)%nat) by lia.
  destruct (IH lv1 O1 p1 p' Hinv1 HO1 Hf1 E) as (lv' & O' & I' & HO' & Ext2).
  exists lv', O'. split; [done|]. split; [done|].
  rewrite C in Ext2.
  eapply ext_trans; [exact Hinv| |exact Ext2].
  eapply ext_weaken; [|exact Ext1]. lia.
Qed.

Lemma params_reset p p' cp :
  params p' = params p -> Patch_Reset (bindPool p' cp) = Patch_Reset (bindPool p cp).
Proof.
  unfold params, Patch_Reset, bindPool, with_nodes. cbn.
  by intros [= -> -> -> -> -> -> ->].
Qed.

(** What a mesh without open nodes says about the neighbors of leaves. *)
Lemma Mesh_crackFree lv O p :
  MeshInv lv O p -> (forall x, ~ O x) ->
  lv BaseLeft = 0%nat -> lv BaseRight = 0%nat -> crackFree p.
Proof.
  intros Hinv HO L0 R0. exists lv. split.
  - split; [done|done|]. intros x f c Lx Hf E. by apply (mi_child _ _ _ Hinv x f c).
  - intros x s y Lx Hl Hs E.
    destruct (mi_sym _ _ _ Hinv x s y Lx Hl Hs E) as [[Hy|(_ & Hy & _)] H];
      [|by destruct (HO y)].
    split; [exact (mi_scope _ _ _ Hinv x s y Lx E)|]. by split.
Qed.

End Arena.

(** X6. The arena after any sequence of [Split] calls on a freshly reset
    patch: the pool is well formed again (an even watermark within the
    capacity, and untouched slots above it), it has the capacity it was
    created with, and resetting the pool and the patch gives back the
    freshly reset patch. *)
Theorem SplitAll_arena (p0 p' : Patch) (cap fuel : nat) (calls : list ptr) :
  (cap + 2 <= fuel)%nat ->
  SplitAll fuel calls (freshPatch p0 cap) = Ok (tt, p') ->
  pool_wf (currentPool p')
  /\ poolSize (currentPool p') = cap
  /\ Patch_Reset (bindPool p' (Reset (currentPool p'))) = freshPatch p0 cap.
Proof.
  intros Hf E.
  destruct (SplitAll_ext fuel calls _ _ _ p' (fresh_inv p0 cap) ltac:(intros _ x [])
              ltac:(rewrite fresh_capacity; lia) E) as (lv' & O' & Hinv & _ & Ext).
  pose proof (keeps_ok grows _ _ _ _
                (keeps_SplitAll grows grows_refl grows_trans grows_Split fuel calls) E) as G.
  assert (Hwf : pool_wf (currentPool p')).
  { apply (Mesh_pool_wf lv' O'); [done|]. apply (grows_even _ _ G). by exists 0%nat. }
  assert (Hc : poolSize (currentPool p') = cap).
  { pose proof (ext_cap _ _ _ _ _ Ext) as C. by rewrite fresh_capacity in C. }
  split; [done|]. split; [done|].
  rewrite (PoolAccessFacts.Reset_fresh _ Hwf), Hc.
  unfold freshPatch at 1.
  rewrite (params_reset _ _ _ (ext_params _ _ _ _ _ Ext)). reflexivity.
Qed.

Lemma SplitAll_arena_witness :
  exists p', SplitAll 10 [BaseLeft; PoolNode 0] (freshPatch samplePatch 8) = Ok (tt, p')
             /\ Patch_Reset (bindPool p' (Reset (currentPool p')))
                = freshPatch samplePatch 8.
Proof.
  destruct (SplitAll 10 [BaseLeft; PoolNode 0] (freshPatch samplePatch 8))
    as [[[] p']|e] eqn:E; [|vm_compute in E; discriminate E].
  exists p'. split; [reflexivity|].
  exact (proj2 (proj2 (SplitAll_arena samplePatch p' 8 10 _ ltac:(lia) E))).
Defined.

(** X7. No cracks after [Split]: after any sequence of [Split] calls on a
    freshly reset patch that did not run out of nodes, whatever a leaf has
    in a neighbor slot is a leaf that points back at it, and the two are
    at the same depth of their trees when they meet leg to leg or base to
    base and one apart when the base of the deeper one meets a leg. *)
Theorem SplitAll_crackFree (p0 p' : Patch) (cap fuel : nat) (calls : list ptr) :
  (cap + 2 <= fuel)%nat ->
  SplitAll fuel calls (freshPatch p0 cap) = Ok (tt, p') ->
  exhausted p' = false ->
  crackFree p'.
Proof.
  intros Hf E Hex.
  destruct (SplitAll_ext fuel calls _ _ _ p' (fresh_inv p0 cap) ltac:(intros _ x [])
              ltac:(rewrite fresh_capacity; lia) E) as (lv' & O' & Hinv & HO & Ext).
  apply (Mesh_crackFree lv' O'); [done|by apply HO| |].
  - by rewrite (ext_lv _ _ _ _ _ Ext BaseLeft).
  - by rewrite (ext_lv _ _ _ _ _ Ext BaseRight).
Qed.

Lemma SplitAll_crackFree_witness :
  exists p', SplitAll 10 [BaseLeft; PoolNode 0] (freshPatch samplePatch 8) = Ok (tt, p')
             /\ crackFree p'.
Proof.
  destruct (SplitAll 10 [BaseLeft; PoolNode 0] (freshPatch samplePatch 8))
    as [[[] p']|e] eqn:E; [|vm_compute in E; discriminate E].
  exists p'. split; [reflexivity|].
  apply (SplitAll_crackFree samplePatch p' 8 10 _ ltac:(lia) E).
  vm_compute in E. injection E as <-. reflexivity.
Defined.

Section PassArena.

Variables (PATCH_SIZE VARIANCE_DEPTH : Z).

(** [Tessellate_fresh] with the depths of the roots and the watermark. *)
Lemma Tessellate_rooted fuel dist viewRadius cap p0 :
  varSized VARIANCE_DEPTH p0 -> (2 * cap + 3 <= fuel)%nat ->
  exists b tr p' lv O,
    Tessellate PATCH_SIZE VARIANCE_DEPTH fuel dist viewRadius (newPool cap) (Patch_Reset p0)
      = Ok ((b, tr), p')
    /\ MeshInv lv O p' /\ (exhausted p' = false -> forall x, ~ O x)
    /\ b = negb (exhausted p')
    /\ lv BaseLeft = 0%nat /\ lv BaseRight = 0%nat
    /\ capacity p' = cap /\ Nat.Even (nextIdx p').
Proof.
  intros Hs Hf. rewrite Tessellate_unfold. cbv zeta.
  destruct (tessStart_fresh dist viewRadius cap p0) as (p0' & -> & S1 & S2 & S3).
  set (q0 := freshPatch p0' cap).
  pose proof (fresh_inv p0' cap) as Hinv0. fold q0 in Hinv0.
  assert (C0 : capacity q0 = cap) by apply fresh_capacity.
  assert (R0 : varReady VARIANCE_DEPTH q0).
  { split; [|simpl; congruence]. destruct Hs as [H1 H2]. split; simpl; congruence. }
  assert (HO0 : exhausted q0 = false -> forall x : ptr, ~ False) by (intros _ x H; exact H).
  assert (F0 : (2 * capacity q0 + 3 <= fuel + 0)%nat) by lia.
  destruct (RecursTessellate_total PATCH_SIZE VARIANCE_DEPTH fuel (fun _ => 0%nat)
              (fun _ => False) q0 BaseLeft
              (int2.mk (int2.x (coors (Patch_Reset p0)))
                       (int2.y (coors (Patch_Reset p0)) + PATCH_SIZE))
              (int2.mk (int2.x (coors (Patch_Reset p0)) + PATCH_SIZE)
                       (int2.y (coors (Patch_Reset p0))))
              (int2.mk (int2.x (coors (Patch_Reset p0))) (int2.y (coors (Patch_Reset p0))))
              1 Hinv0 HO0 I R0 ltac:(lia) F0)
    as (t1 & lv1 & O1 & p1 & E1 & Hinv1 & HO1 & Ext1).
  rewrite (bind_ok _ _ _ _ _ E1). cbv beta.
  pose proof (keeps_ok grows _ _ _ _
                (keeps_RecursTessellate grows grows_refl grows_trans grows_Split
                   _ _ _ _ _ _ _ _) E1) as G1.
  unfold setCurrentVariance at 1. cbn [bind].
  set (q1 := with_variance p1 (varianceLeft p1) (varianceRight p1) (Some SideRight)).
  assert (Hinv1' : MeshInv lv1 O1 q1) by (by apply MeshInv_with_variance).
  assert (C1 : capacity q1 = cap) by (rewrite <- C0; apply (ext_cap _ _ _ _ _ Ext1)).
  assert (R1 : varReady VARIANCE_DEPTH q1).
  { destruct (varReady_params VARIANCE_DEPTH q0 p1 (ext_params _ _ _ _ _ Ext1) R0)
      as [[G1' G2'] _].
    split; [split; [exact G1'|exact G2']|done]. }
  assert (F1 : (2 * capacity q1 + 3 <= fuel + lv1 BaseRight)%nat) by lia.
  destruct (RecursTessellate_total PATCH_SIZE VARIANCE_DEPTH fuel lv1 O1 q1 BaseRight
              (int2.mk (int2.x (coors (Patch_Reset p0)) + PATCH_SIZE)
                       (int2.y (coors (Patch_Reset p0))))
              (int2.mk (int2.x (coors (Patch_Reset p0)))
                       (int2.y (coors (Patch_Reset p0)) + PATCH_SIZE))
              (int2.mk (int2.x (coors (Patch_Reset p0)) + PATCH_SIZE)
                       (int2.y (coors (Patch_Reset p0)) + PATCH_SIZE))
              1 Hinv1' HO1 I R1 ltac:(lia) F1)
    as (t2 & lv2 & O2 & p2 & E2 & Hinv2 & HO2 & Ext2).
  rewrite (bind_ok _ _ _ _ _ E2). cbv beta.
  pose proof (keeps_ok grows _ _ _ _
                (keeps_RecursTessellate grows grows_refl grows_trans grows_Split
                   _ _ _ _ _ _ _ _) E2) as G2.
  exists (negb (exhausted p2)), (t1 ++ t2), p2, lv2, O2.
  split; [done|]. split; [done|]. split; [done|]. split; [done|].
  split; [|split; [|split]].
  - rewrite (ext_lv _ _ _ _ _ Ext2 BaseLeft I). exact (ext_lv _ _ _ _ _ Ext1 BaseLeft I).
  - rewrite (ext_lv _ _ _ _ _ Ext2 BaseRight I). exact (ext_lv _ _ _ _ _ Ext1 BaseRight I).
  - rewrite (ext_cap _ _ _ _ _ Ext2). exact C1.
  - apply (grows_even _ _ G2). change (nextIdx q1) with (nextIdx p1).
    apply (grows_even _ _ G1). by exists 0%nat.
Qed.

End PassArena.



(** ** The index buffer *)

Section Indices.

Variable PATCH_SIZE : Z.

Lemma totalArea2_app ts us : totalArea2 (ts ++ us) = totalArea2 ts + totalArea2 us.
Proof. induction ts as [|t ts IH]; simpl; [done|]. rewrite IH. lia. Qed.

(** Bisection at the exact midpoint of the hypotenuse halves the area and
    keeps the winding. *)
Lemma area2_children l r a :
  Z.even (int2.x l + int2.x r) = true -> Z.even (int2.y l + int2.y r) = true ->
  2 * area2 (a, l, midpoint l r) = area2 (l, r, a)
  /\ 2 * area2 (r, a, midpoint l r) = area2 (l, r, a).
Proof.
  intros Ex Ey. apply Z.even_spec in Ex as [mx Ex], Ey as [my Ey].
  unfold area2, midpoint. cbn [int2.x int2.y]. rewrite Ex, Ey.
  rewrite !Z.shiftr_div_pow2 by lia. change (2 ^ 1) with 2.
  rewrite !(Z.mul_comm 2), !Z.div_mul by lia.
  assert (int2.x r = mx * 2 - int2.x l) as -> by lia.
  assert (int2.y r = my * 2 - int2.y l) as -> by lia.
  split; ring.
Qed.

Lemma leafTriangles_inPatch fuel :
  forall p tri l r a ts,
    inPatch PATCH_SIZE l -> inPatch PATCH_SIZE r -> inPatch PATCH_SIZE a ->
    leafTriangles fuel p tri l r a = Ok ts ->
    Forall (triangleInPatch PATCH_SIZE) ts.
Proof.
  induction fuel as [|fuel IH]; intros p tri l r a ts Hl Hr Ha; [done|].
  cbn [leafTriangles].
  destruct (leafAt p tri) as [[|]|]; [| |done].
  { intros [= <-]. constructor; [done|constructor]. }
  pose proof (inPatch_midpoint PATCH_SIZE l r Hl Hr) as Hm.
  destruct (child p tri LC) as [lc|]; [|done].
  destruct (leafTriangles fuel p lc a l (midpoint l r)) as [o1|] eqn:E1; [|done].
  destruct (child p tri RC) as [rc|]; [|done].
  destruct (leafTriangles fuel p rc r a (midpoint l r)) as [o2|] eqn:E2; [|done].
  intros [= <-]. apply Forall_app. split; [by eapply IH; [| | |exact E1]|by eapply IH; [| | |exact E2]].
Qed.

Lemma leafTriangles_area fuel :
  forall p tri l r a ts,
    exactTree fuel p tri l r a ->
    leafTriangles fuel p tri l r a = Ok ts ->
    totalArea2 ts = area2 (l, r, a)
    /\ (area2 (l, r, a) < 0 -> Forall (fun t => area2 t < 0) ts).
Proof.
  induction fuel as [|fuel IH]; intros p tri l r a ts Hex; [done|].
  cbn [leafTriangles exactTree] in *.
  destruct (leafAt p tri) as [[|]|]; [| |done].
  { intros [= <-]. split; [simpl; lia|]. intros H. constructor; [done|constructor]. }
  destruct Hex as (Ex & Ey & X1 & X2).
  destruct (area2_children l r a Ex Ey) as [A1 A2].
  destruct (child p tri LC) as [lc|]; [|done].
  destruct (leafTriangles fuel p lc a l (midpoint l r)) as [o1|] eqn:E1; [|done].
  destruct (child p tri RC) as [rc|]; [|done].
  destruct (leafTriangles fuel p rc r a (midpoint l r)) as [o2|] eqn:E2; [|done].
  intros [= <-].
  destruct (IH _ _ _ _ _ _ X1 E1) as [S1 N1]. destruct (IH _ _ _ _ _ _ X2 E2) as [S2 N2].
  split; [rewrite totalArea2_app; lia|].
  intros H. apply Forall_app. split; [apply N1|apply N2]; lia.
Qed.

Lemma gridIndex_inPatch v :
  0 <= PATCH_SIZE -> inPatch PATCH_SIZE v ->
  0 <= gridIndex PATCH_SIZE v < (PATCH_SIZE + 1) * (PATCH_SIZE + 1).
Proof. intros HP [Hx Hy]. unfold gridIndex. nia. Qed.

Lemma cornerIndices_inPatch t :
  0 <= PATCH_SIZE -> (PATCH_SIZE + 1) * (PATCH_SIZE + 1) <= 2 ^ 32 ->
  triangleInPatch PATCH_SIZE t ->
  cornerIndices PATCH_SIZE t
  = (let '(l, r, a) := t in
     [gridIndex PATCH_SIZE a; gridIndex PATCH_SIZE l; gridIndex PATCH_SIZE r])
  /\ Forall (fun i => 0 <= i < (PATCH_SIZE + 1) * (PATCH_SIZE + 1))
       (cornerIndices PATCH_SIZE t).
Proof.
  intros HP Hw. destruct t as [[l r] a]. intros (Hl & Hr & Ha).
  pose proof (gridIndex_inPatch l HP Hl). pose proof (gridIndex_inPatch r HP Hr).
  pose proof (gridIndex_inPatch a HP Ha).
  unfold cornerIndices, wrap32. rewrite !Z.mod_small by lia.
  split; [done|]. repeat constructor; lia.
Qed.

Lemma flat_map_corners ts :
  0 <= PATCH_SIZE -> (PATCH_SIZE + 1) * (PATCH_SIZE + 1) <= 2 ^ 32 ->
  Forall (triangleInPatch PATCH_SIZE) ts ->
  length (flat_map (cornerIndices PATCH_SIZE) ts) = (3 * length ts)%nat
  /\ Forall (fun i => 0 <= i < (PATCH_SIZE + 1) * (PATCH_SIZE + 1))
       (flat_map (cornerIndices PATCH_SIZE) ts).
Proof.
  intros HP Hw. induction 1 as [|t ts Ht Hts [IH1 IH2]]; [by split|].
  cbn [flat_map]. split.
  - rewrite length_app, IH1. destruct t as [[l r] a]. simpl. lia.
  - apply Forall_app. split; [|done]. by apply cornerIndices_inPatch.
Qed.

Lemma GenerateIndices_leaves fuel p idx :
  GenerateIndices PATCH_SIZE fuel p = Ok idx ->
  exists tl tr,
    leafTriangles fuel p (Some BaseLeft) (int2.mk 0 PATCH_SIZE) (int2.mk PATCH_SIZE 0)
      (int2.mk 0 0) = Ok tl
    /\ leafTriangles fuel p (Some BaseRight) (int2.mk PATCH_SIZE 0) (int2.mk 0 PATCH_SIZE)
         (int2.mk PATCH_SIZE PATCH_SIZE) = Ok tr
    /\ idx = flat_map (cornerIndices PATCH_SIZE) (tl ++ tr).
Proof.
  unfold GenerateIndices. rewrite !RecursRender_leafTriangles.
  destruct (leafTriangles fuel p (Some BaseLeft) _ _ _) as [tl|]; [|done].
  destruct (leafTriangles fuel p (Some BaseRight) _ _ _) as [tr|]; [|done].
  intros [= <-]. exists tl, tr. split; [done|]. split; [done|].
  by rewrite flat_map_app.
Qed.

End Indices.



Section Tiling.

Variables (PATCH_SIZE VARIANCE_DEPTH : Z) (k : nat).

(** The trees that [Tessellate] leaves on a patch of side [2 ^ k] bisect
    at grid points, and a walk over their leaves returns. *)
Lemma Tessellate_exact fuel fuel' dist viewRadius cap p0 res p' :
  PATCH_SIZE = 2 ^ Z.of_nat k ->
  varSized VARIANCE_DEPTH p0 -> (2 * cap + 3 <= fuel)%nat -> (cap + 1 <= fuel')%nat ->
  Tessellate PATCH_SIZE VARIANCE_DEPTH fuel dist viewRadius (newPool cap) (Patch_Reset p0)
    = Ok (res, p') ->
  exists tl tr,
    leafTriangles fuel' p' (Some BaseLeft) (int2.mk 0 PATCH_SIZE) (int2.mk PATCH_SIZE 0)
      (int2.mk 0 0) = Ok tl
    /\ leafTriangles fuel' p' (Some BaseRight) (int2.mk PATCH_SIZE 0) (int2.mk 0 PATCH_SIZE)
         (int2.mk PATCH_SIZE PATCH_SIZE) = Ok tr
    /\ exactTree fuel' p' (Some BaseLeft) (int2.mk 0 PATCH_SIZE) (int2.mk PATCH_SIZE 0)
         (int2.mk 0 0)
    /\ exactTree fuel' p' (Some BaseRight) (int2.mk PATCH_SIZE 0) (int2.mk 0 PATCH_SIZE)
         (int2.mk PATCH_SIZE PATCH_SIZE).
Proof.
  intros HPS Hs Hf Hf' E.
  destruct (Tessellate_regular PATCH_SIZE VARIANCE_DEPTH k fuel dist viewRadius cap p0
              HPS Hs Hf)
    as (b & tr0 & p1 & lv & O & E1 & Hinv & HO & Sh & L0 & R0 & C).
  rewrite E in E1. injection E1 as -> <-.
  pose proof (mi_cap _ _ _ Hinv) as Hc.
  destruct (leafTriangles_total fuel' lv O p' BaseLeft (int2.mk 0 PATCH_SIZE)
              (int2.mk PATCH_SIZE 0) (int2.mk 0 0) Hinv I ltac:(lia)) as [tl El].
  destruct (leafTriangles_total fuel' lv O p' BaseRight (int2.mk PATCH_SIZE 0)
              (int2.mk 0 PATCH_SIZE) (int2.mk PATCH_SIZE PATCH_SIZE) Hinv I ltac:(lia))
    as [tr Er].
  exists tl, tr. split; [done|]. split; [done|].
  destruct (shapeAt_root PATCH_SIZE k 0 0 HPS) as [S1 S2]. cbn [Z.add] in S1, S2.
  split.
  - apply (shallow_exactTree k fuel' lv O); [done|done|exact I|]. by rewrite L0.
  - apply (shallow_exactTree k fuel' lv O); [done|done|exact I|]. by rewrite R0.
Qed.

End Tiling.



(** ** The variance pass as a function of the heights *)

Section VarianceFrame.

Variables (PATCH_SIZE VARIANCE_DEPTH : Z).

Implicit Types (p q : Patch) (s : side) (v x y : Q).

Local Abbreviation RCV := (RecursComputeVariance PATCH_SIZE VARIANCE_DEPTH).

Lemma varFrame_refl s p : varFrame s p p.
Proof. by split. Qed.

Lemma varFrame_trans s p q r : varFrame s p q -> varFrame s q r -> varFrame s p r.
Proof. intros [] []. split; congruence. Qed.

Lemma writeVariance_frame node v p s p' :
  currentVariance p = Some s -> writeVariance node v p = Ok (tt, p') ->
  varFrame s p p'
  /\ 0 <= node
  /\ varianceTable p' s = <[Z.to_nat node := v]> (varianceTable p s).
Proof.
  intros Hs. unfold writeVariance. rewrite Hs.
  destruct (Z.ltb_spec node 0); [done|].
  destruct (Z.leb_spec (Z.of_nat (length (varianceTable p s))) node); [done|].
  cbn [orb]. destruct s; intros [= <-]; (split; [|done]);
    split; try done; simpl; by rewrite length_insert.
Qed.

(** A run on the table [s] writes nothing else, and no entry below that
    of the node it starts from. *)
Lemma RecursComputeVariance_frame fuel :
  forall l r a hgts node p s v p',
    1 <= node -> currentVariance p = Some s ->
    RCV fuel l r a hgts node p = Ok (v, p') ->
    varFrame s p p'
    /\ forall n : nat, Z.of_nat n < node ->
         varianceTable p' s !! n = varianceTable p s !! n.
Proof.
  induction fuel as [|fuel IH]; intros l r a hgts node p s v p' Hn Hs E; [done|].
  cbn [RecursComputeVariance] in E.
  apply bind_inv in E as (mhgt & p0 & H0 & E). apply GetHeight_inv in H0 as ->.
  apply bind_inv in E as (mv & p2 & Hm & E).
  assert (F2 : varFrame s p p2
               /\ forall n : nat, Z.of_nat n < node ->
                    varianceTable p2 s !! n = varianceTable p s !! n).
  { destruct (recurseVariance l r); [|by injection Hm as _ <-].
    apply bind_inv in Hm as (c1 & p1 & H1 & Hm).
    apply bind_inv in Hm as (c2 & p3 & H3 & Hm). injection Hm as _ <-.
    rewrite shiftl_1 in H1, H3.
    assert (N1 : 1 <= 2 * node) by lia. assert (N2 : 1 <= 2 * node + 1) by lia.
    destruct (IH _ _ _ _ _ _ s _ _ N1 Hs H1) as [F1 W1].
    assert (Hs1 : currentVariance p1 = Some s) by (rewrite (vf_current _ _ _ F1); done).
    destruct (IH _ _ _ _ _ _ s _ _ N2 Hs1 H3) as [F3 W3].
    split; [by eapply varFrame_trans|].
    intros n Hlt. rewrite W3, W1 by lia. done. }
  destruct F2 as [F2 W2].
  assert (Hs2 : currentVariance p2 = Some s) by (rewrite (vf_current _ _ _ F2); done).
  apply bind_inv in E as ([] & p3 & Hw & E). injection E as _ <-.
  destruct (node <? Z.shiftl 1 VARIANCE_DEPTH).
  - destruct (writeVariance_frame _ _ _ s _ Hs2 Hw) as (F3 & Hn0 & T).
    split; [by eapply varFrame_trans|].
    intros n Hlt. rewrite T, list_lookup_insert_ne by lia. by apply W2.
  - injection Hw as <-. by split.
Qed.

(** The run depends on the state through the heights only: from a state
    with the same heights it returns the same value and writes the same
    values to the same entries. *)
Lemma RecursComputeVariance_replay fuel :
  forall l r a hgts node p q s v p',
    currentVariance p = Some s -> currentVariance q = Some s ->
    vertices q = vertices p ->
    length (varianceTable q s) = length (varianceTable p s) ->
    1 <= node ->
    RCV fuel l r a hgts node p = Ok (v, p') ->
    exists q', RCV fuel l r a hgts node q = Ok (v, q')
               /\ forall n, replayed s p p' q q' n.
Proof.
  induction fuel as [|fuel IH]; intros l r a hgts node p q s v p' Hp Hq Hv Hl Hn E; [done|].
  cbn [RecursComputeVariance] in E |- *.
  apply bind_inv in E as (mhgt & p0 & H0 & E).
  pose proof (GetHeight_inv _ _ _ _ _ H0) as ->.
  assert (G : GetHeight PATCH_SIZE (midpoint l r) q = Ok (mhgt, q)).
  { unfold GetHeight in H0 |- *. rewrite Hv.
    destruct (_ <? 0); [done|]. destruct (_ !! _); [|done]. by injection H0 as ->. }
  rewrite (bind_ok _ _ _ _ _ G). cbv beta.
  apply bind_inv in E as (mv & p2 & Hm & E).
  assert (M2 : exists q2,
             (if recurseVariance l r
              then bind (RCV fuel a l (midpoint l r)
                           (float3.mk (float3.z hgts) (float3.x hgts) mhgt)
                           (Z.shiftl node 1))
                     (fun c1 => bind (RCV fuel r a (midpoint l r)
                                        (float3.mk (float3.y hgts) (float3.z hgts) mhgt)
                                        (Z.shiftl node 1 + 1))
                                  (fun c2 => ret (fmax (fmax (localVariance hgts mhgt) c1) c2)))
              else ret (localVariance hgts mhgt)) q = Ok (mv, q2)
             /\ varFrame s p p2 /\ varFrame s q q2
             /\ forall n, replayed s p p2 q q2 n).
  { destruct (recurseVariance l r).
    2:{ injection Hm as <- <-. exists q. split; [done|].
        split; [apply varFrame_refl|]. split; [apply varFrame_refl|]. by right. }
    apply bind_inv in Hm as (c1 & p1 & H1 & Hm).
    apply bind_inv in Hm as (c2 & p3 & H3 & Hm). injection Hm as <- <-.
    assert (N1 : 1 <= Z.shiftl node 1) by (rewrite shiftl_1; lia).
    assert (N2 : 1 <= Z.shiftl node 1 + 1) by (rewrite shiftl_1; lia).
    destruct (IH _ _ _ _ _ _ q s _ _ Hp Hq Hv Hl N1 H1) as (q1 & G1 & R1).
    destruct (RecursComputeVariance_frame _ _ _ _ _ _ _ s _ _ N1 Hp H1) as [Fp1 _].
    destruct (RecursComputeVariance_frame _ _ _ _ _ _ _ s _ _ N1 Hq G1) as [Fq1 _].
    assert (Hp1 : currentVariance p1 = Some s) by (rewrite (vf_current _ _ _ Fp1); done).
    assert (Hq1 : currentVariance q1 = Some s) by (rewrite (vf_current _ _ _ Fq1); done).
    assert (Hv1 : vertices q1 = vertices p1).
    { rewrite (vf_vertices _ _ _ Fp1), (vf_vertices _ _ _ Fq1). done. }
    assert (Hl1 : length (varianceTable q1 s) = length (varianceTable p1 s)).
    { rewrite (vf_length _ _ _ Fp1), (vf_length _ _ _ Fq1). done. }
    destruct (IH _ _ _ _ _ _ q1 s _ _ Hp1 Hq1 Hv1 Hl1 N2 H3) as (q3 & G3 & R3).
    destruct (RecursComputeVariance_frame _ _ _ _ _ _ _ s _ _ N2 Hp1 H3) as [Fp3 _].
    destruct (RecursComputeVariance_frame _ _ _ _ _ _ _ s _ _ N2 Hq1 G3) as [Fq3 _].
    exists q3. rewrite (bind_ok _ _ _ _ _ G1). cbv beta.
    rewrite (bind_ok _ _ _ _ _ G3). split; [done|].
    split; [by eapply varFrame_trans|]. split; [by eapply varFrame_trans|].
    intros n. destruct (R3 n) as [A|[A B]]; [by left|].
    destruct (R1 n) as [C|[C D]]; [left; congruence|right; split; congruence]. }
  destruct M2 as (q2 & G2 & Fp2 & Fq2 & R2).
  rewrite (bind_ok _ _ _ _ _ G2). cbv beta.
  assert (Hp2 : currentVariance p2 = Some s) by (rewrite (vf_current _ _ _ Fp2); done).
  assert (Hq2 : currentVariance q2 = Some s) by (rewrite (vf_current _ _ _ Fq2); done).
  assert (Hl2 : length (varianceTable q2 s) = length (varianceTable p2 s)).
  { rewrite (vf_length _ _ _ Fp2), (vf_length _ _ _ Fq2). done. }
  apply bind_inv in E as ([] & p3 & Hw & E). injection E as <- <-.
  destruct (node <? Z.shiftl 1 VARIANCE_DEPTH).
  - destruct (writeVariance_frame _ _ _ s _ Hp2 Hw) as (F3 & Hn0 & T).
    assert (W : exists q3, writeVariance node (fmax (1 # 1000) mv) q2 = Ok (tt, q3)
                           /\ varianceTable q3 s
                              = <[Z.to_nat node := fmax (1 # 1000) mv]> (varianceTable q2 s)).
    { unfold writeVariance in Hw |- *. rewrite Hp2 in Hw. rewrite Hq2, Hl2.
      destruct ((node <? 0) || _); [done|].
      destruct s; eexists; (split; [reflexivity|done]). }
    destruct W as (q3 & Gw & Tq). exists q3.
    rewrite (bind_ok _ _ _ _ _ Gw). split; [done|].
    intros n. destruct (decide (n = Z.to_nat node)) as [->|Hne].
    + left. rewrite T, Tq.
      assert (L : (Z.to_nat node < length (varianceTable p2 s))%nat).
      { unfold writeVariance in Hw. rewrite Hp2 in Hw.
        destruct (Z.ltb_spec node 0); [done|].
        destruct (Z.leb_spec (Z.of_nat (length (varianceTable p2 s))) node); [done|lia]. }
      rewrite !list_lookup_insert_eq by lia. done.
    + unfold replayed. rewrite T, Tq. rewrite !list_lookup_insert_ne by done.
      apply R2.
  - injection Hw as <-. exists q2. split; [done|]. apply R2.
Qed.


Lemma varFrame_eq s p p' :
  varFrame s p p' -> varianceTable p' s = varianceTable p s -> p' = p.
Proof.
  intros [] T. destruct p, p', s; simpl in *; by subst.
Qed.

Lemma GetHeight_vertices pos p q h :
  vertices q = vertices p ->
  GetHeight PATCH_SIZE pos p = Ok (h, p) -> GetHeight PATCH_SIZE pos q = Ok (h, q).
Proof.
  intros Hv. unfold GetHeight. rewrite Hv.
  destruct (_ <? 0); [done|]. destruct (_ !! _); [|done]. by intros [= ->].
Qed.

(** A run from a state that already holds what the run writes changes
    nothing. *)
Lemma RecursComputeVariance_fixed fuel l r a hgts node p q s v p' :
  currentVariance p = Some s -> currentVariance q = Some s ->
  vertices q = vertices p -> varianceTable q s = varianceTable p' s ->
  1 <= node ->
  RCV fuel l r a hgts node p = Ok (v, p') ->
  RCV fuel l r a hgts node q = Ok (v, q).
Proof.
  intros Hp Hq Hv Ht Hn E.
  destruct (RecursComputeVariance_frame _ _ _ _ _ _ _ s _ _ Hn Hp E) as [Fp _].
  assert (Hl : length (varianceTable q s) = length (varianceTable p s)).
  { rewrite Ht. apply (vf_length _ _ _ Fp). }
  destruct (RecursComputeVariance_replay _ _ _ _ _ _ _ q s _ _ Hp Hq Hv Hl Hn E)
    as (q' & G & Rp).
  destruct (RecursComputeVariance_frame _ _ _ _ _ _ _ s _ _ Hn Hq G) as [Fq _].
  rewrite G. f_equal. f_equal. apply (varFrame_eq s); [done|].
  apply list_eq. intros n. destruct (Rp n) as [A|[A _]]; congruence.
Qed.

(** The two runs of [ComputeVariance]. *)
Lemma ComputeVariance_inv fuel p p' :
  ComputeVariance PATCH_SIZE VARIANCE_DEPTH fuel p = Ok (tt, p') ->
  exists hl hr ha v1 p1 hl' hr' ha' v2,
    let p0 := with_variance p (varianceLeft p) (varianceRight p) (Some SideLeft) in
    let p2 := with_variance p1 (varianceLeft p1) (varianceRight p1) (Some SideRight) in
    RCV fuel (int2.mk 0 PATCH_SIZE) (int2.mk PATCH_SIZE 0) (int2.mk 0 0)
      (float3.mk hl hr ha) 1 p0 = Ok (v1, p1)
    /\ RCV fuel (int2.mk PATCH_SIZE 0) (int2.mk 0 PATCH_SIZE)
         (int2.mk PATCH_SIZE PATCH_SIZE) (float3.mk hl' hr' ha') 1 p2 = Ok (v2, p')
    /\ GetHeight PATCH_SIZE (int2.mk 0 PATCH_SIZE) p0 = Ok (hl, p0)
    /\ GetHeight PATCH_SIZE (int2.mk PATCH_SIZE 0) p0 = Ok (hr, p0)
    /\ GetHeight PATCH_SIZE (int2.mk 0 0) p0 = Ok (ha, p0)
    /\ GetHeight PATCH_SIZE (int2.mk PATCH_SIZE 0) p2 = Ok (hl', p2)
    /\ GetHeight PATCH_SIZE (int2.mk 0 PATCH_SIZE) p2 = Ok (hr', p2)
    /\ GetHeight PATCH_SIZE (int2.mk PATCH_SIZE PATCH_SIZE) p2 = Ok (ha', p2).
Proof.
  unfold ComputeVariance. intros E.
  apply bind_inv in E as ([] & p0 & H0 & E). injection H0 as <-.
  apply bind_inv in E as ([] & p1 & H1 & E).
  apply bind_inv in H1 as (hl & q & Gl & H1). pose proof (GetHeight_inv _ _ _ _ _ Gl) as ->.
  apply bind_inv in H1 as (hr & q & Gr & H1). pose proof (GetHeight_inv _ _ _ _ _ Gr) as ->.
  apply bind_inv in H1 as (ha & q & Ga & H1). pose proof (GetHeight_inv _ _ _ _ _ Ga) as ->.
  apply bind_inv in H1 as (v1 & q & R1 & H1). injection H1 as ->.
  apply bind_inv in E as ([] & p2 & H2 & E). injection H2 as <-.
  apply bind_inv in E as (hl' & q & Gl' & E). pose proof (GetHeight_inv _ _ _ _ _ Gl') as ->.
  apply bind_inv in E as (hr' & q & Gr' & E). pose proof (GetHeight_inv _ _ _ _ _ Gr') as ->.
  apply bind_inv in E as (ha' & q & Ga' & E). pose proof (GetHeight_inv _ _ _ _ _ Ga') as ->.
  apply bind_inv in E as (v2 & q & R2 & E). injection E as ->.
  exists hl, hr, ha, v1, p1, hl', hr', ha', v2. cbv zeta. done.
Qed.

Lemma ComputeVariance_run fuel p hl hr ha v1 p1 hl' hr' ha' v2 p' :
  let p0 := with_variance p (varianceLeft p) (varianceRight p) (Some SideLeft) in
  let p2 := with_variance p1 (varianceLeft p1) (varianceRight p1) (Some SideRight) in
  GetHeight PATCH_SIZE (int2.mk 0 PATCH_SIZE) p0 = Ok (hl, p0) ->
  GetHeight PATCH_SIZE (int2.mk PATCH_SIZE 0) p0 = Ok (hr, p0) ->
  GetHeight PATCH_SIZE (int2.mk 0 0) p0 = Ok (ha, p0) ->
  RCV fuel (int2.mk 0 PATCH_SIZE) (int2.mk PATCH_SIZE 0) (int2.mk 0 0)
    (float3.mk hl hr ha) 1 p0 = Ok (v1, p1) ->
  GetHeight PATCH_SIZE (int2.mk PATCH_SIZE 0) p2 = Ok (hl', p2) ->
  GetHeight PATCH_SIZE (int2.mk 0 PATCH_SIZE) p2 = Ok (hr', p2) ->
  GetHeight PATCH_SIZE (int2.mk PATCH_SIZE PATCH_SIZE) p2 = Ok (ha', p2) ->
  RCV fuel (int2.mk PATCH_SIZE 0) (int2.mk 0 PATCH_SIZE)
    (int2.mk PATCH_SIZE PATCH_SIZE) (float3.mk hl' hr' ha') 1 p2 = Ok (v2, p') ->
  ComputeVariance PATCH_SIZE VARIANCE_DEPTH fuel p = Ok (tt, p').
Proof.
  intros p0 p2 Gl Gr Ga R1 Gl' Gr' Ga' R2. unfold ComputeVariance.
  unfold setCurrentVariance at 1. cbn [bind]. fold p0.
  change (bind ?m ?k p0) with (match m p0 with Ok (a, q) => k a q | Err e => Err e end).
  rewrite (bind_ok _ _ _ _ _ Gl). cbv beta.
  rewrite (bind_ok _ _ _ _ _ Gr). cbv beta.
  rewrite (bind_ok _ _ _ _ _ Ga). cbv beta.
  rewrite (bind_ok _ _ _ _ _ R1). cbv beta. cbn [ret].
  unfold setCurrentVariance at 1. cbn [bind]. fold p2.
  rewrite (bind_ok _ _ _ _ _ Gl'). cbv beta.
  rewrite (bind_ok _ _ _ _ _ Gr'). cbv beta.
  rewrite (bind_ok _ _ _ _ _ Ga'). cbv beta.
  rewrite (bind_ok _ _ _ _ _ R2). done.
Qed.

(** *** Flat ground *)

Lemma flat_vertices h p q :
  vertices q = vertices p -> flatHeights PATCH_SIZE h p -> flatHeights PATCH_SIZE h q.
Proof.
  intros Hv Hf pos hh G. apply (Hf pos).
  by apply (GetHeight_vertices pos q p).
Qed.

Lemma flat_error h : (Qabs (h - (h + h) * (1 # 2)) == 0)%Q.
Proof.
  assert (E : (h - (h + h) * (1 # 2) == 0)%Q) by ring.
  rewrite E. reflexivity.
Qed.

Lemma flat_shoreLine h : shoreLine (float3.mk h h h) h = false.
Proof.
  unfold shoreLine. cbn [float3.x float3.y float3.z].
  assert (N : Qltb (h * h) 0 = false).
  { unfold Qltb. apply negb_false_iff, Qle_bool_iff.
    unfold Qle, Qmult. simpl. nia. }
  by rewrite N.
Qed.

Lemma flat_localVariance h : (localVariance (float3.mk h h h) h == 0)%Q.
Proof.
  unfold localVariance. rewrite flat_shoreLine. apply flat_error.
Qed.

Lemma fmax_floor x : (x == 0)%Q -> fmax (1 # 1000) x = (1 # 1000)%Q /\ fmax x (1 # 1000) = (1 # 1000)%Q.
Proof.
  intros E. unfold fmax, Qltb. split.
  - assert (L : Qle_bool x (1 # 1000) = true) by (apply Qle_bool_iff; rewrite E; done).
    by rewrite L.
  - destruct (Qle_bool (1 # 1000) x) eqn:L; [|done].
    apply Qle_bool_iff in L. rewrite E in L. done.
Qed.

Lemma RecursComputeVariance_flat h fuel :
  forall l r a node p s v p',
    flatHeights PATCH_SIZE h p -> currentVariance p = Some s -> 1 <= node ->
    RCV fuel l r a (float3.mk h h h) node p = Ok (v, p') ->
    v = (1 # 1000)%Q
    /\ forall n x, varianceTable p' s !! n = Some x ->
         x = (1 # 1000)%Q \/ varianceTable p s !! n = Some x.
Proof.
  induction fuel as [|fuel IH]; intros l r a node p s v p' Hf Hs Hn E; [done|].
  cbn [RecursComputeVariance] in E.
  apply bind_inv in E as (mhgt & p0 & H0 & E).
  pose proof (GetHeight_inv _ _ _ _ _ H0) as ->. apply Hf in H0 as ->.
  apply bind_inv in E as (mv & p2 & Hm & E).
  destruct (fmax_floor _ (flat_localVariance h)) as [M1 M2].
  assert (F2 : fmax (1 # 1000) mv = (1 # 1000)%Q
               /\ currentVariance p2 = Some s
               /\ forall n x, varianceTable p2 s !! n = Some x ->
                    x = (1 # 1000)%Q \/ varianceTable p s !! n = Some x).
  { destruct (recurseVariance l r).
    2:{ injection Hm as <- <-. split; [done|]. split; [done|]. by right. }
    apply bind_inv in Hm as (c1 & p1 & H1 & Hm).
    apply bind_inv in Hm as (c2 & p3 & H3 & Hm). injection Hm as <- <-.
    assert (N1 : 1 <= Z.shiftl node 1) by (rewrite shiftl_1; lia).
    assert (N2 : 1 <= Z.shiftl node 1 + 1) by (rewrite shiftl_1; lia).
    destruct (IH _ _ _ _ _ _ _ _ Hf Hs N1 H1) as [-> W1].
    destruct (RecursComputeVariance_frame _ _ _ _ _ _ _ s _ _ N1 Hs H1) as [F1 _].
    assert (Hs1 : currentVariance p1 = Some s) by (rewrite (vf_current _ _ _ F1); done).
    assert (Hf1 : flatHeights PATCH_SIZE h p1).
    { apply (flat_vertices h p); [apply (vf_vertices _ _ _ F1)|done]. }
    destruct (IH _ _ _ _ _ _ _ _ Hf1 Hs1 N2 H3) as [-> W3].
    destruct (RecursComputeVariance_frame _ _ _ _ _ _ _ s _ _ N2 Hs1 H3) as [F3 _].
    rewrite M2. split; [done|]. split; [rewrite (vf_current _ _ _ F3); done|].
    intros n x Hx. destruct (W3 n x Hx) as [?|Hx1]; [by left|]. by apply W1. }
  destruct F2 as (Fv & Hs2 & W2). rewrite Fv in E.
  apply bind_inv in E as ([] & p3 & Hw & E). injection E as <- <-.
  split; [done|].
  destruct (node <? Z.shiftl 1 VARIANCE_DEPTH).
  - destruct (writeVariance_frame _ _ _ s _ Hs2 Hw) as (_ & Hn0 & T).
    intros n x. rewrite T. destruct (decide (n = Z.to_nat node)) as [->|Hne].
    + intros Hx. apply list_lookup_insert_Some in Hx as [(_ & <- & _)|[? _]]; [by left|done].
    + rewrite list_lookup_insert_ne by done. apply W2.
  - injection Hw as <-. apply W2.
Qed.

End VarianceFrame.

(** X11. [ComputeVariance] writes nothing but entries of the two variance
    tables: the tree, the pool, the vertices and the level-of-detail
    parameters are as before, the tables keep their sizes, and entry 0 of
    each table is never written. *)
Theorem ComputeVariance_frame (PATCH_SIZE VARIANCE_DEPTH : Z) (fuel : nat) (p p' : Patch) :
  ComputeVariance PATCH_SIZE VARIANCE_DEPTH fuel p = Ok (tt, p') ->
  p' = with_variance p (varianceLeft p') (varianceRight p') (Some SideRight)
  /\ length (varianceLeft p') = length (varianceLeft p)
  /\ length (varianceRight p') = length (varianceRight p)
  /\ varianceLeft p' !! 0%nat = varianceLeft p !! 0%nat
  /\ varianceRight p' !! 0%nat = varianceRight p !! 0%nat.
Proof.
  intros E.
  destruct (ComputeVariance_inv _ _ _ _ _ E)
    as (hl & hr & ha & v1 & p1 & hl' & hr' & ha' & v2 & R1 & R2 & _).
  cbv zeta in R1, R2. assert (N1 : 1 <= 1) by lia.
  destruct (RecursComputeVariance_frame _ _ _ _ _ _ _ _
              (with_variance p (varianceLeft p) (varianceRight p) (Some SideLeft))
              SideLeft _ _ N1 eq_refl R1) as [F1 W1].
  destruct (RecursComputeVariance_frame _ _ _ _ _ _ _ _
              (with_variance p1 (varianceLeft p1) (varianceRight p1) (Some SideRight))
              SideRight _ _ N1 eq_refl R2) as [F2 W2].
  destruct F1 as [A1 A2 A3 A4 A5 A6 A7 A8 A9 A10], F2 as [B1 B2 B3 B4 B5 B6 B7 B8 B9 B10].
  assert (Z0 : Z.of_nat 0 < 1) by lia.
  specialize (W1 0%nat Z0). specialize (W2 0%nat Z0).
  destruct p, p1, p'; simpl in *. subst. done.
Qed.

Lemma ComputeVariance_frame_witness :
  exists p', ComputeVariance 4 3 5 heightPatch = Ok (tt, p')
             /\ vertices p' = vertices heightPatch
             /\ varianceLeft p' !! 0%nat = Some 0%Q.
Proof.
  destruct (ComputeVariance 4 3 5 heightPatch) as [[[] p']|e] eqn:E;
    [|vm_compute in E; discriminate E].
  exists p'. split; [reflexivity|].
  destruct (ComputeVariance_frame 4 3 5 heightPatch p' E) as (F & _ & _ & Z & _).
  split; [by rewrite F|exact Z].
Defined.

(** X12. [ComputeVariance] is a function of the heights: run again on its
    own result, it returns the very same patch. *)
Theorem ComputeVariance_idempotent (PATCH_SIZE VARIANCE_DEPTH : Z) (fuel : nat)
    (p p' : Patch) :
  ComputeVariance PATCH_SIZE VARIANCE_DEPTH fuel p = Ok (tt, p') ->
  ComputeVariance PATCH_SIZE VARIANCE_DEPTH fuel p' = Ok (tt, p').
Proof.
  intros E.
  destruct (ComputeVariance_inv _ _ _ _ _ E)
    as (hl & hr & ha & v1 & p1 & hl' & hr' & ha' & v2 & R1 & R2 & Gl & Gr & Ga & Gl' & Gr' & Ga').
  cbv zeta in *. assert (N1 : 1 <= 1) by lia.
  set (p0 := with_variance p (varianceLeft p) (varianceRight p) (Some SideLeft)) in *.
  set (p2 := with_variance p1 (varianceLeft p1) (varianceRight p1) (Some SideRight)) in *.
  destruct (RecursComputeVariance_frame _ _ _ _ _ _ _ _ p0 SideLeft _ _ N1 eq_refl R1)
    as [F1 _].
  destruct (RecursComputeVariance_frame _ _ _ _ _ _ _ _ p2 SideRight _ _ N1 eq_refl R2)
    as [F2 _].
  set (q0 := with_variance p' (varianceLeft p') (varianceRight p') (Some SideLeft)).
  assert (V0 : vertices q0 = vertices p0).
  { change (vertices p' = vertices p). rewrite (vf_vertices _ _ _ F2).
    change (vertices p1 = vertices p0). apply (vf_vertices _ _ _ F1). }
  assert (T0 : varianceTable q0 SideLeft = varianceTable p1 SideLeft).
  { exact (vf_other _ _ _ F2). }
  pose proof (RecursComputeVariance_fixed _ _ _ _ _ _ _ _ p0 q0 SideLeft _ _
                eq_refl eq_refl V0 T0 N1 R1) as Q1.
  assert (E2 : with_variance q0 (varianceLeft q0) (varianceRight q0) (Some SideRight) = p').
  { pose proof (vf_current _ _ _ F2) as C. destruct p'; simpl in *. by subst. }
  assert (V2 : vertices p' = vertices p2) by apply (vf_vertices _ _ _ F2).
  assert (C2 : currentVariance p' = Some SideRight).
  { rewrite (vf_current _ _ _ F2). done. }
  pose proof (RecursComputeVariance_fixed _ _ _ _ _ _ _ _ p2 p' SideRight _ _
                eq_refl C2 V2 eq_refl N1 R2) as Q2.
  apply (ComputeVariance_run PATCH_SIZE VARIANCE_DEPTH fuel p' hl hr ha v1 q0 hl' hr' ha' v2).
  - by apply (GetHeight_vertices _ _ p0).
  - by apply (GetHeight_vertices _ _ p0).
  - by apply (GetHeight_vertices _ _ p0).
  - exact Q1.
  - rewrite E2. by apply (GetHeight_vertices _ _ p2).
  - rewrite E2. by apply (GetHeight_vertices _ _ p2).
  - rewrite E2. by apply (GetHeight_vertices _ _ p2).
  - rewrite E2. exact Q2.
Qed.

Lemma ComputeVariance_idempotent_witness :
  exists p', ComputeVariance 4 3 5 heightPatch = Ok (tt, p')
             /\ ComputeVariance 4 3 5 p' = Ok (tt, p').
Proof.
  destruct (ComputeVariance 4 3 5 heightPatch) as [[[] p']|e] eqn:E;
    [|vm_compute in E; discriminate E].
  exists p'. split; [reflexivity|].
  exact (ComputeVariance_idempotent 4 3 5 heightPatch p' E).
Defined.

(** X13. Flat ground: when every height of the patch is the same, every
    entry that [ComputeVariance] writes is the floor value 0.001. *)
Theorem ComputeVariance_flat (PATCH_SIZE VARIANCE_DEPTH : Z) (fuel : nat) (h : Q)
    (p p' : Patch) :
  flatHeights PATCH_SIZE h p ->
  ComputeVariance PATCH_SIZE VARIANCE_DEPTH fuel p = Ok (tt, p') ->
  forall s n x, varianceTable p' s !! n = Some x ->
    x = (1 # 1000)%Q \/ varianceTable p s !! n = Some x.
Proof.
  intros Hf E.
  destruct (ComputeVariance_inv _ _ _ _ _ E)
    as (hl & hr & ha & v1 & p1 & hl' & hr' & ha' & v2 & R1 & R2 & Gl & Gr & Ga & Gl' & Gr' & Ga').
  cbv zeta in *. assert (N1 : 1 <= 1) by lia.
  set (p0 := with_variance p (varianceLeft p) (varianceRight p) (Some SideLeft)) in *.
  set (p2 := with_variance p1 (varianceLeft p1) (varianceRight p1) (Some SideRight)) in *.
  assert (Hf0 : flatHeights PATCH_SIZE h p0) by (by apply (flat_vertices PATCH_SIZE h p)).
  rewrite (Hf0 _ _ Gl), (Hf0 _ _ Gr), (Hf0 _ _ Ga) in R1.
  destruct (RecursComputeVariance_frame _ _ _ _ _ _ _ _ p0 SideLeft _ _ N1 eq_refl R1)
    as [F1 _].
  assert (Hf2 : flatHeights PATCH_SIZE h p2).
  { apply (flat_vertices PATCH_SIZE h p0); [|done]. apply (vf_vertices _ _ _ F1). }
  rewrite (Hf2 _ _ Gl'), (Hf2 _ _ Gr'), (Hf2 _ _ Ga') in R2.
  destruct (RecursComputeVariance_frame _ _ _ _ _ _ _ _ p2 SideRight _ _ N1 eq_refl R2)
    as [F2 _].
  destruct (RecursComputeVariance_flat _ _ h _ _ _ _ _ p0 SideLeft _ _ Hf0 eq_refl N1 R1)
    as [_ W1].
  destruct (RecursComputeVariance_flat _ _ h _ _ _ _ _ p2 SideRight _ _ Hf2 eq_refl N1 R2)
    as [_ W2].
  intros [|] n x Hx.
  - rewrite (vf_other _ _ _ F2 : varianceTable p' SideLeft = varianceTable p2 SideLeft) in Hx.
    exact (W1 n x Hx).
  - destruct (W2 n x Hx) as [?|Hx2]; [by left|]. right.
    pose proof (vf_other _ _ _ F1) as O1.
    change (varianceRight p1 = varianceRight p) in O1.
    change (varianceRight p1 !! n = Some x) in Hx2.
    rewrite O1 in Hx2. exact Hx2.
Qed.

Lemma ComputeVariance_flat_witness :
  flatHeights 2 5 flatPatch
  /\ exists p', ComputeVariance 2 2 3 flatPatch = Ok (tt, p')
                /\ forall x, varianceLeft p' !! 1%nat = Some x ->
                     x = (1 # 1000)%Q \/ varianceLeft flatPatch !! 1%nat = Some x.
Proof.
  assert (Hf : flatHeights 2 5 flatPatch).
  { intros pos hh. unfold GetHeight, flatPatch. cbn [vertices].
    destruct (_ <? 0); [done|].
    destruct (replicate 27 5%Q !! _) as [y|] eqn:L; [|done].
    apply lookup_replicate in L as [-> _]. by intros [= <-]. }
  split; [exact Hf|].
  destruct (ComputeVariance 2 2 3 flatPatch) as [[[] p']|e] eqn:E;
    [|vm_compute in E; discriminate E].
  exists p'. split; [reflexivity|].
  exact (ComputeVariance_flat 2 2 3 5 flatPatch p' Hf E SideLeft 1%nat).
Defined.

(** ** The vertices of a patch *)

Section Loops.

(** The rule of the [for] loop: an invariant in the number of rounds. *)
Lemma forLoop_inv {S : Type} (I : nat -> S -> Patch -> Prop) n i0
    (body : Z -> S -> M S) s p :
  I 0%nat s p ->
  (forall k s p, (k < n)%nat -> I k s p ->
     exists s' p', body (i0 + Z.of_nat k) s p = Ok (s', p') /\ I (Datatypes.S k) s' p') ->
  exists s' p', forLoop n i0 body s p = Ok (s', p') /\ I n s' p'.
Proof.
  revert I i0 s p. induction n as [|n IH]; intros I i0 s p H0 Hstep.
  { exists s, p. by split. }
  cbn [forLoop].
  destruct (Hstep 0%nat s p ltac:(lia) H0) as (s1 & p1 & E1 & I1).
  rewrite Z.add_0_r in E1. rewrite (bind_ok _ _ _ _ _ E1). cbv beta.
  destruct (IH (fun k => I (Datatypes.S k)) (i0 + 1) s1 p1 I1) as (s' & p' & E & In).
  { intros k s2 p2 Hk Ik. destruct (Hstep (Datatypes.S k) s2 p2 ltac:(lia) Ik) as (s3 & p3 & E3 & I3).
    exists s3, p3. split; [|done]. rewrite <- E3. f_equal. lia. }
  exists s', p'. by split.
Qed.

Lemma writeVertex_ok i v p :
  0 <= i < Z.of_nat (length (vertices p)) ->
  writeVertex i v p = Ok (tt, with_vertices p (<[Z.to_nat i := v]> (vertices p))).
Proof.
  intros Hi. unfold writeVertex.
  destruct (Z.ltb_spec i 0); [lia|].
  destruct (Z.leb_spec (Z.of_nat (length (vertices p))) i); [lia|]. done.
Qed.

End Loops.

Section HeightMapFacts.

Variables (PATCH_SIZE mapxp1 : Z) (hMap : Z -> Q).

Implicit Types (p q : Patch) (C : Z -> Z -> Prop).

Local Abbreviation hidx := (hidx PATCH_SIZE).
Local Abbreviation heightsWritten := (heightsWritten PATCH_SIZE mapxp1 hMap).

Lemma hidx_inj z x z' x' :
  0 <= x <= PATCH_SIZE -> 0 <= x' <= PATCH_SIZE ->
  hidx z x = hidx z' x' -> z = z' /\ x = x'.
Proof.
  unfold hidx. intros Hx Hx' E.
  assert (z = z') by nia. subst. split; [done|nia].
Qed.

Lemma heightsWritten_ext C C' p q :
  (forall z x, C z x <-> C' z x) -> heightsWritten C p q -> heightsWritten C' p q.
Proof.
  intros HC (A1 & A2 & A3 & A4). split; [done|]. split; [done|]. split.
  - intros z x Hc. apply A3. by apply HC.
  - intros i Hi. apply A4. intros z x Hc. apply Hi. by apply HC.
Qed.

Lemma heightsWritten_none p : heightsWritten (fun _ _ => False) p p.
Proof. split; [by destruct p|]. by split. Qed.

Lemma heightsWritten_step C p q z x :
  heightsWritten C p q ->
  (forall z' x', C z' x' -> 0 <= z' /\ 0 <= x' <= PATCH_SIZE) ->
  0 <= x <= PATCH_SIZE ->
  0 <= hidx z x < Z.of_nat (length (vertices p)) ->
  exists q',
    (c <- (fun p => Ok (coors p, p)) ;;
     writeVertex ((z * (PATCH_SIZE + 1) + x) * 3 + 1)
       (hMap ((z + int2.y c) * mapxp1 + (x + int2.x c)))) q = Ok (tt, q')
    /\ heightsWritten (fun z' x' => C z' x' \/ (z' = z /\ x' = x)) p q'.
Proof.
  intros (A1 & A2 & A3 & A4) HC Hx Hi. fold (hidx z x).
  assert (Hc : coors q = coors p) by (rewrite A1; done).
  unfold bind. rewrite writeVertex_ok by (rewrite A2; done).
  eexists. split; [reflexivity|]. rewrite Hc.
  split; [rewrite A1 at 1; done|]. cbn [vertices with_vertices].
  split; [by rewrite length_insert|]. split.
  - intros z' x' [Hc'|[-> ->]].
    + destruct (HC z' x' Hc') as [Hz' Hx'].
      assert (0 <= hidx z' x') by (unfold hidx; nia).
      destruct (decide (hidx z' x' = hidx z x)) as [E|N].
      * apply hidx_inj in E as [-> ->]; [|done|done].
        apply list_lookup_insert_eq. rewrite A2. lia.
      * rewrite list_lookup_insert_ne by lia. by apply A3.
    + apply list_lookup_insert_eq. rewrite A2. lia.
  - intros i Hne. rewrite list_lookup_insert_ne.
    + apply A4. intros z' x' Hc'. apply Hne. by left.
    + specialize (Hne z x (or_intror (conj eq_refl eq_refl))). lia.
Qed.

Lemma UpdateHeightMap_written rect p :
  0 <= PATCH_SIZE ->
  0 <= SRectangle.x1 rect -> SRectangle.x2 rect <= PATCH_SIZE ->
  0 <= SRectangle.z1 rect -> SRectangle.z2 rect <= PATCH_SIZE ->
  3 * (PATCH_SIZE + 1) * (PATCH_SIZE + 1) <= Z.of_nat (length (vertices p)) ->
  exists p',
    UpdateHeightMap PATCH_SIZE mapxp1 hMap rect p = Ok (tt, p')
    /\ heightsWritten (fun z x => SRectangle.z1 rect <= z <= SRectangle.z2 rect
                                  /\ SRectangle.x1 rect <= x <= SRectangle.x2 rect) p p'.
Proof.
  destruct rect as [x1 z1 x2 z2]. cbn [SRectangle.x1 SRectangle.x2 SRectangle.z1 SRectangle.z2].
  intros HP Hx1 Hx2 Hz1 Hz2 Hlen. unfold UpdateHeightMap, forUpTo.
  cbn [SRectangle.x1 SRectangle.x2 SRectangle.z1 SRectangle.z2].
  set (nz := Z.to_nat (z2 - z1 + 1)). set (nx := Z.to_nat (x2 - x1 + 1)).
  destruct (forLoop_inv
              (fun k (_ : unit) q =>
                 heightsWritten (fun z x => z1 <= z < z1 + Z.of_nat k /\ x1 <= x <= x2) p q)
              nz z1
              (fun z (_ : unit) =>
                 forLoop nx x1
                   (fun x (_ : unit) =>
                      c <- (fun p => Ok (coors p, p)) ;;
                      writeVertex ((z * (PATCH_SIZE + 1) + x) * 3 + 1)
                        (hMap ((z + int2.y c) * mapxp1 + (x + int2.x c)))) tt)
              tt p) as ([] & p' & E & W).
  { eapply heightsWritten_ext; [|apply heightsWritten_none]. intros z x. lia. }
  { intros k [] q Hk Wq.
    destruct (forLoop_inv
                (fun j (_ : unit) q' =>
                   heightsWritten (fun z x => (z1 <= z < z1 + Z.of_nat k /\ x1 <= x <= x2)
                                              \/ (z = z1 + Z.of_nat k
                                                  /\ x1 <= x < x1 + Z.of_nat j)) p q')
                nx x1
                (fun x (_ : unit) =>
                   c <- (fun p => Ok (coors p, p)) ;;
                   writeVertex (((z1 + Z.of_nat k) * (PATCH_SIZE + 1) + x) * 3 + 1)
                     (hMap ((z1 + Z.of_nat k + int2.y c) * mapxp1 + (x + int2.x c))))
                tt q) as ([] & q' & E & W).
    { eapply heightsWritten_ext; [|exact Wq]. intros z x. lia. }
    { intros j [] q1 Hj W1.
      destruct (heightsWritten_step _ p q1 (z1 + Z.of_nat k) (x1 + Z.of_nat j) W1)
        as (q2 & E2 & W2).
      - intros z' x' H. cbv beta in H. subst nx. lia.
      - subst nx. lia.
      - subst nz nx. unfold hidx. nia.
      - exists tt, q2. split; [exact E2|].
        eapply heightsWritten_ext; [|exact W2]. intros z x. cbv beta. lia. }
    exists tt, q'. split; [exact E|].
    eapply heightsWritten_ext; [|exact W]. intros z x. cbv beta. subst nx. lia. }
  exists p'. split; [exact E|].
  eapply heightsWritten_ext; [|exact W]. intros z x. cbv beta. subst nz. lia.
Qed.

End HeightMapFacts.

(** X14. [UpdateHeightMap] on a rectangle of the patch returns; it gives
    every grid point of the rectangle the height that the map has there,
    so that the assertion of [GetHeight] holds at these points, and it
    changes no other entry of [vertices] and nothing else of the patch. *)
Theorem UpdateHeightMap_spec (PATCH_SIZE mapxp1 : Z) (hMap : Z -> Q)
    (rect : SRectangle.t) (p : Patch) :
  0 <= PATCH_SIZE ->
  0 <= SRectangle.x1 rect -> SRectangle.x2 rect <= PATCH_SIZE ->
  0 <= SRectangle.z1 rect -> SRectangle.z2 rect <= PATCH_SIZE ->
  3 * (PATCH_SIZE + 1) * (PATCH_SIZE + 1) <= Z.of_nat (length (vertices p)) ->
  exists p',
    UpdateHeightMap PATCH_SIZE mapxp1 hMap rect p = Ok (tt, p')
    /\ p' = with_vertices p (vertices p')
    /\ length (vertices p') = length (vertices p)
    /\ (forall pos, inRect rect pos ->
          heightSynced PATCH_SIZE mapxp1 hMap pos p'
          /\ GetHeight PATCH_SIZE pos p'
             = Ok (hMap ((int2.y (coors p) + int2.y pos) * mapxp1
                         + (int2.x (coors p) + int2.x pos)), p'))
    /\ (forall i : nat,
          (forall pos, inRect rect pos ->
             Z.of_nat i <> (int2.y pos * (PATCH_SIZE + 1) + int2.x pos) * 3 + 1) ->
          vertices p' !! i = vertices p !! i).
Proof.
  intros HP Hx1 Hx2 Hz1 Hz2 Hlen.
  destruct (UpdateHeightMap_written PATCH_SIZE mapxp1 hMap rect p HP Hx1 Hx2 Hz1 Hz2 Hlen)
    as (p' & E & A1 & A2 & A3 & A4).
  exists p'. split; [exact E|]. split; [exact A1|]. split; [exact A2|]. split.
  - intros [x z] [Hx Hz]. cbn [int2.x int2.y] in *.
    assert (Hc : coors p' = coors p) by (rewrite A1; done).
    specialize (A3 z x (conj Hz Hx)). unfold hidx in A3.
    assert (S : heightSynced PATCH_SIZE mapxp1 hMap (int2.mk x z) p').
    { unfold heightSynced. cbn [int2.x int2.y]. rewrite A3, Hc. do 2 f_equal. lia. }
    split; [exact S|].
    unfold GetHeight. cbn [int2.x int2.y].
    destruct (Z.ltb_spec ((z * (PATCH_SIZE + 1) + x) * 3 + 1) 0); [nia|].
    rewrite A3. do 3 f_equal. lia.
  - intros i Hi. apply A4. intros z x [Hz Hx].
    exact (Hi (int2.mk x z) (conj Hx Hz)).
Qed.

Lemma UpdateHeightMap_spec_witness :
  exists p',
    UpdateHeightMap 4 5 (fun i => inject_Z i) (SRectangle.mk 1 1 2 3) heightPatch
      = Ok (tt, p')
    /\ GetHeight 4 (int2.mk 2 3) p' = Ok (inject_Z 17, p').
Proof.
  destruct (UpdateHeightMap_spec 4 5 (fun i => inject_Z i) (SRectangle.mk 1 1 2 3)
              heightPatch)
    as (p' & E & _ & _ & G & _); try (simpl; lia).
  exists p'. split; [exact E|].
  exact (proj2 (G (int2.mk 2 3) ltac:(split; simpl; lia))).
Defined.

Section InitFacts.

Variables (PATCH_SIZE SQUARE_SIZE mapxp1 : Z) (hMap : Z -> Q).

Implicit Types (p q : Patch).

Local Abbreviation gridFilled := (gridFilled PATCH_SIZE SQUARE_SIZE).

(** One round of the inner loop of [Patch::Init]. *)
Lemma fillVertex_step c p0 q r k :
  0 <= PATCH_SIZE -> 3 * (PATCH_SIZE + 1) * (PATCH_SIZE + 1) < 2 ^ 32 ->
  0 <= r <= PATCH_SIZE -> 0 <= k <= PATCH_SIZE ->
  q = with_vertices p0 (vertices q) ->
  Z.of_nat (length (vertices q)) = 3 * (PATCH_SIZE + 1) * (PATCH_SIZE + 1) ->
  gridFilled c (r * (PATCH_SIZE + 1) + k) (vertices q) ->
  let index := 3 * (r * (PATCH_SIZE + 1) + k) in
  exists q',
    (writeVertex index (inject_Z ((int2.x c + k) * SQUARE_SIZE)) ;;;
     writeVertex (wrap32 (index + 1)) 0%Q ;;;
     writeVertex (wrap32 (wrap32 (index + 1) + 1))
       (inject_Z ((int2.y c + r) * SQUARE_SIZE)) ;;;
     ret (wrap32 (wrap32 (wrap32 (index + 1) + 1) + 1))) q
    = Ok (3 * (r * (PATCH_SIZE + 1) + k + 1), q')
    /\ q' = with_vertices p0 (vertices q')
    /\ Z.of_nat (length (vertices q')) = 3 * (PATCH_SIZE + 1) * (PATCH_SIZE + 1)
    /\ gridFilled c (r * (PATCH_SIZE + 1) + k + 1) (vertices q').
Proof.
  intros HP Hw Hr Hk Hq Hlen Hfill index.
  assert (Hi : 0 <= index /\ index + 3 <= 3 * (PATCH_SIZE + 1) * (PATCH_SIZE + 1))
    by (unfold index; nia).
  assert (W1 : wrap32 (index + 1) = index + 1) by (unfold wrap32; apply Z.mod_small; lia).
  assert (W2 : wrap32 (index + 1 + 1) = index + 2)
    by (unfold wrap32; rewrite Z.mod_small by lia; lia).
  assert (W3 : wrap32 (index + 2 + 1) = index + 3)
    by (unfold wrap32; rewrite Z.mod_small by lia; lia).
  rewrite W1, W2, W3.
  rewrite (bind_ok _ _ _ _ _ (writeVertex_ok index _ q ltac:(lia))). cbv beta.
  set (q1 := with_vertices q _).
  assert (L1 : length (vertices q1) = length (vertices q))
    by (unfold q1; cbn [vertices with_vertices]; apply length_insert).
  rewrite (bind_ok _ _ _ _ _ (writeVertex_ok (index + 1) _ q1 ltac:(lia))). cbv beta.
  set (q2 := with_vertices q1 _).
  assert (L2 : length (vertices q2) = length (vertices q))
    by (unfold q2; cbn [vertices with_vertices]; rewrite length_insert; exact L1).
  rewrite (bind_ok _ _ _ _ _ (writeVertex_ok (index + 2) _ q2 ltac:(lia))). cbv beta.
  set (q3 := with_vertices q2 _).
  exists q3. split; [unfold ret; do 2 f_equal; unfold index; lia|].
  split; [unfold q3, q2, q1; rewrite Hq; reflexivity|].
  split; [unfold q3; cbn [vertices with_vertices]; rewrite length_insert; lia|].
  intros r' x' Hr' Hx' Hlt. cbv zeta.
  set (i' := 3 * (r' * (PATCH_SIZE + 1) + x')).
  unfold q3, q2, q1. cbn [vertices with_vertices].
  destruct (decide (r' * (PATCH_SIZE + 1) + x' = r * (PATCH_SIZE + 1) + k)) as [E|N].
  - assert (r' = r) by nia. subst r'. assert (x' = k) by lia. subst x'.
    fold index in i'. subst i'.
    split; [|split].
    + rewrite list_lookup_insert_ne by lia. rewrite list_lookup_insert_ne by lia.
      apply list_lookup_insert_eq. lia.
    + rewrite list_lookup_insert_ne by lia.
      apply list_lookup_insert_eq. rewrite length_insert. lia.
    + apply list_lookup_insert_eq. rewrite !length_insert. lia.
  - assert (Hlt' : r' * (PATCH_SIZE + 1) + x' < r * (PATCH_SIZE + 1) + k) by lia.
    destruct (Hfill r' x' Hr' Hx' Hlt') as (F1 & F2 & F3). fold i' in F1, F2, F3.
    assert (0 <= i' /\ i' + 3 <= index) by (unfold i', index; lia).
    rewrite !list_lookup_insert_ne by lia. done.
Qed.

Lemma fillVertices c p0 q :
  0 <= PATCH_SIZE -> 3 * (PATCH_SIZE + 1) * (PATCH_SIZE + 1) < 2 ^ 32 ->
  q = with_vertices p0 (vertices q) ->
  Z.of_nat (length (vertices q)) = 3 * (PATCH_SIZE + 1) * (PATCH_SIZE + 1) ->
  exists index q',
    forUpTo (int2.y c) (int2.y c + PATCH_SIZE)
      (fun z index =>
         forUpTo (int2.x c) (int2.x c + PATCH_SIZE)
           (fun x index =>
              writeVertex index (inject_Z (x * SQUARE_SIZE)) ;;;
              let index := wrap32 (index + 1) in
              writeVertex index 0%Q ;;;
              let index := wrap32 (index + 1) in
              writeVertex index (inject_Z (z * SQUARE_SIZE)) ;;;
              ret (wrap32 (index + 1)))
           index)
      0 q = Ok (index, q')
    /\ q' = with_vertices p0 (vertices q')
    /\ Z.of_nat (length (vertices q')) = 3 * (PATCH_SIZE + 1) * (PATCH_SIZE + 1)
    /\ gridFilled c ((PATCH_SIZE + 1) * (PATCH_SIZE + 1)) (vertices q').
Proof.
  intros HP Hw Hq Hlen. unfold forUpTo.
  replace (int2.y c + PATCH_SIZE - int2.y c + 1) with (PATCH_SIZE + 1) by lia.
  replace (int2.x c + PATCH_SIZE - int2.x c + 1) with (PATCH_SIZE + 1) by lia.
  set (n := Z.to_nat (PATCH_SIZE + 1)).
  destruct (forLoop_inv
              (fun r index q' =>
                 index = 3 * (Z.of_nat r * (PATCH_SIZE + 1))
                 /\ q' = with_vertices p0 (vertices q')
                 /\ Z.of_nat (length (vertices q')) = 3 * (PATCH_SIZE + 1) * (PATCH_SIZE + 1)
                 /\ gridFilled c (Z.of_nat r * (PATCH_SIZE + 1)) (vertices q'))
              n (int2.y c)
              (fun z index =>
                 forLoop n (int2.x c)
                   (fun x index =>
                      writeVertex index (inject_Z (x * SQUARE_SIZE)) ;;;
                      let index := wrap32 (index + 1) in
                      writeVertex index 0%Q ;;;
                      let index := wrap32 (index + 1) in
                      writeVertex index (inject_Z (z * SQUARE_SIZE)) ;;;
                      ret (wrap32 (index + 1)))
                   index)
              0 q) as (index & q' & E & I1 & I2 & I3 & I4).
  { split; [lia|]. split; [done|]. split; [done|]. intros r x Hr Hx Hlt. nia. }
  { intros r index q1 Hr (-> & B2 & B3 & B4).
    destruct (forLoop_inv
                (fun k index q' =>
                   index = 3 * (Z.of_nat r * (PATCH_SIZE + 1) + Z.of_nat k)
                   /\ q' = with_vertices p0 (vertices q')
                   /\ Z.of_nat (length (vertices q'))
                      = 3 * (PATCH_SIZE + 1) * (PATCH_SIZE + 1)
                   /\ gridFilled c (Z.of_nat r * (PATCH_SIZE + 1) + Z.of_nat k)
                        (vertices q'))
                n (int2.x c)
                (fun x index =>
                   writeVertex index (inject_Z (x * SQUARE_SIZE)) ;;;
                   let index := wrap32 (index + 1) in
                   writeVertex index 0%Q ;;;
                   let index := wrap32 (index + 1) in
                   writeVertex index (inject_Z ((int2.y c + Z.of_nat r) * SQUARE_SIZE)) ;;;
                   ret (wrap32 (index + 1)))
                (3 * (Z.of_nat r * (PATCH_SIZE + 1))) q1)
      as (index' & q2 & E2 & C1 & C2 & C3 & C4).
    { split; [lia|]. split; [done|]. split; [done|]. by rewrite Z.add_0_r. }
    { intros k index1 q3 Hk (-> & D2 & D3 & D4).
      destruct (fillVertex_step c p0 q3 (Z.of_nat r) (Z.of_nat k) HP Hw
                  ltac:(subst n; lia) ltac:(subst n; lia) D2 D3 D4)
        as (q4 & E4 & F2 & F3 & F4).
      exists (3 * (Z.of_nat r * (PATCH_SIZE + 1) + Z.of_nat k + 1)), q4.
      split; [exact E4|]. split; [lia|]. split; [done|]. split; [done|].
      replace (Z.of_nat r * (PATCH_SIZE + 1) + Z.of_nat (Datatypes.S k))
        with (Z.of_nat r * (PATCH_SIZE + 1) + Z.of_nat k + 1) by lia. done. }
    exists index', q2. split; [exact E2|]. subst n.
    replace (Z.of_nat (Datatypes.S r) * (PATCH_SIZE + 1))
      with (Z.of_nat r * (PATCH_SIZE + 1) + Z.of_nat (Z.to_nat (PATCH_SIZE + 1))) by lia.
    done. }
  exists index, q'. split; [exact E|]. split; [done|]. split; [done|].
  subst n. replace ((PATCH_SIZE + 1) * (PATCH_SIZE + 1))
    with (Z.of_nat (Z.to_nat (PATCH_SIZE + 1)) * (PATCH_SIZE + 1)) by lia. done.
Qed.

End InitFacts.

(** What [Patch::Init] leaves, with [UpdateHeightMap] run on the whole
    patch. *)
Lemma Patch_Init_filled (PATCH_SIZE SQUARE_SIZE mapxp1 : Z) (hMap : Z -> Q)
    (patchX patchZ : Z) (p : Patch) :
  0 <= PATCH_SIZE -> 3 * (PATCH_SIZE + 1) * (PATCH_SIZE + 1) < 2 ^ 32 ->
  exists p',
    Patch_Init PATCH_SIZE SQUARE_SIZE mapxp1 hMap patchX patchZ
      (SRectangle.mk 0 0 PATCH_SIZE PATCH_SIZE) p = Ok (tt, p')
    /\ coors p' = int2.mk patchX patchZ
    /\ rd p' BaseLeft BN = Some BaseRight /\ rd p' BaseRight BN = Some BaseLeft
    /\ Z.of_nat (length (vertices p')) = 3 * (PATCH_SIZE + 1) * (PATCH_SIZE + 1)
    /\ (forall x z, 0 <= x <= PATCH_SIZE -> 0 <= z <= PATCH_SIZE ->
          let i := 3 * (z * (PATCH_SIZE + 1) + x) in
          vertices p' !! Z.to_nat i = Some (inject_Z ((patchX + x) * SQUARE_SIZE))
          /\ vertices p' !! Z.to_nat (i + 1)
             = Some (hMap ((patchZ + z) * mapxp1 + (patchX + x)))
          /\ vertices p' !! Z.to_nat (i + 2) = Some (inject_Z ((patchZ + z) * SQUARE_SIZE))
          /\ heightSynced PATCH_SIZE mapxp1 hMap (int2.mk x z) p')
    /\ currentPool p' = currentPool p
    /\ varianceLeft p' = varianceLeft p /\ varianceRight p' = varianceRight p.
Proof.
  intros HP Hw. unfold Patch_Init.
  set (c := int2.mk patchX patchZ).
  cbn [bind]. set (p1 := with_coors p c).
  rewrite bind_store by exact I. rewrite bind_store by exact I.
  set (p2 := wr (wr p1 BaseLeft BN (Some BaseRight)) BaseRight BN (Some BaseLeft)).
  cbn [bind].
  set (p3 := with_vertices p2 _).
  assert (L3 : Z.of_nat (length (vertices p3)) = 3 * (PATCH_SIZE + 1) * (PATCH_SIZE + 1)).
  { unfold p3. cbn [vertices with_vertices]. rewrite length_resize. nia. }
  assert (C3 : coors p3 = c) by reflexivity. rewrite C3.
  destruct (fillVertices PATCH_SIZE SQUARE_SIZE c p3 p3 HP Hw ltac:(by destruct p3) L3)
    as (index & p4 & E4 & F1 & F2 & F3).
  rewrite (bind_ok _ _ _ _ _ E4). cbv beta.
  destruct (UpdateHeightMap_written PATCH_SIZE mapxp1 hMap
              (SRectangle.mk 0 0 PATCH_SIZE PATCH_SIZE) p4 HP
              ltac:(simpl; lia) ltac:(simpl; lia) ltac:(simpl; lia) ltac:(simpl; lia)
              ltac:(lia))
    as (p5 & E5 & G1 & G2 & G3 & G4).
  cbn [SRectangle.x1 SRectangle.x2 SRectangle.z1 SRectangle.z2] in G3, G4.
  exists p5. split; [exact E5|].
  assert (C5 : coors p5 = c) by (rewrite G1, F1; reflexivity).
  assert (C4 : coors p4 = c) by (rewrite F1; reflexivity).
  split; [exact C5|].
  split; [rewrite G1, F1; reflexivity|]. split; [rewrite G1, F1; reflexivity|].
  split; [lia|]. split; [|rewrite G1, F1; done].
  intros x z Hx Hz. set (i := 3 * (z * (PATCH_SIZE + 1) + x)).
  destruct (F3 z x ltac:(lia) Hx ltac:(nia)) as (V1 & V2 & V3). fold i in V1, V2, V3.
  pose proof (G3 z x ltac:(lia)) as H3. unfold hidx in H3. rewrite C4 in H3.
  cbn [int2.x int2.y c] in H3.
  assert (Ei : (z * (PATCH_SIZE + 1) + x) * 3 + 1 = i + 1) by (unfold i; lia).
  rewrite Ei in H3.
  assert (Hi : 0 <= i) by (unfold i; nia).
  split; [|split; [|split]].
  - rewrite G4; [exact V1|]. intros z' x' _. unfold hidx. rewrite Z2Nat.id by lia.
    unfold i. lia.
  - rewrite H3. do 2 f_equal. unfold c. cbn [int2.x int2.y]. lia.
  - rewrite G4; [exact V3|]. intros z' x' _. unfold hidx. rewrite Z2Nat.id by lia.
    unfold i. lia.
  - unfold heightSynced. cbn [int2.x int2.y]. rewrite Ei, H3, C5.
    do 2 f_equal. unfold c. cbn [int2.x int2.y]. lia.
Qed.

(** X15. [Patch::Init], with [UpdateHeightMap] run on the whole patch,
    returns on any patch; it places the patch at [(patchX, patchZ)],
    attaches the two roots to each other, and leaves [vertices] with
    three entries for every grid point of the patch: its two world
    coordinates and, between them, the height of the map at that point,
    so that the assertion of [GetHeight] holds everywhere.  The pool and
    the variance tables are untouched. *)
Theorem Patch_Init_spec (PATCH_SIZE SQUARE_SIZE mapxp1 : Z) (hMap : Z -> Q)
    (patchX patchZ : Z) (p : Patch) :
  0 <= PATCH_SIZE -> 3 * (PATCH_SIZE + 1) * (PATCH_SIZE + 1) < 2 ^ 32 ->
  exists p',
    Patch_Init PATCH_SIZE SQUARE_SIZE mapxp1 hMap patchX patchZ
      (SRectangle.mk 0 0 PATCH_SIZE PATCH_SIZE) p = Ok (tt, p')
    /\ coors p' = int2.mk patchX patchZ
    /\ rd p' BaseLeft BN = Some BaseRight /\ rd p' BaseRight BN = Some BaseLeft
    /\ Z.of_nat (length (vertices p')) = 3 * (PATCH_SIZE + 1) * (PATCH_SIZE + 1)
    /\ (forall x z, 0 <= x <= PATCH_SIZE -> 0 <= z <= PATCH_SIZE ->
          let i := 3 * (z * (PATCH_SIZE + 1) + x) in
          vertices p' !! Z.to_nat i = Some (inject_Z ((patchX + x) * SQUARE_SIZE))
          /\ vertices p' !! Z.to_nat (i + 1)
             = Some (hMap ((patchZ + z) * mapxp1 + (patchX + x)))
          /\ vertices p' !! Z.to_nat (i + 2) = Some (inject_Z ((patchZ + z) * SQUARE_SIZE))
          /\ heightSynced PATCH_SIZE mapxp1 hMap (int2.mk x z) p')
    /\ currentPool p' = currentPool p
    /\ varianceLeft p' = varianceLeft p /\ varianceRight p' = varianceRight p.
Proof. exact (Patch_Init_filled PATCH_SIZE SQUARE_SIZE mapxp1 hMap patchX patchZ p). Qed.

Lemma Patch_Init_spec_witness :
  exists p',
    Patch_Init 2 8 3 (fun i => inject_Z i) 4 6 (SRectangle.mk 0 0 2 2) samplePatch
      = Ok (tt, p')
    /\ vertices p' !! 3%nat = Some (inject_Z 40)
    /\ vertices p' !! 4%nat = Some (inject_Z 23)
    /\ vertices p' !! 5%nat = Some (inject_Z 48).
Proof.
  destruct (Patch_Init_spec 2 8 3 (fun i => inject_Z i) 4 6 samplePatch
              ltac:(lia) ltac:(lia))
    as (p' & E & _ & _ & _ & _ & V & _).
  exists p'. split; [exact E|].
  destruct (V 1 0 ltac:(lia) ltac:(lia)) as (V1 & V2 & V3 & _).
  split; [exact V1|]. split; [exact V2|exact V3].
Defined.

(** ** The directory of the binary *)

Module PlatformFacts.
Import Ascii Platform.

Lemma c_str_id (s : list ascii) : zero ∉ s -> c_str s = s.
Proof.
  induction s as [|a s IH]; [done|]. intros H.
  apply not_elem_of_cons in H as [H1 H2]. cbn [c_str].
  rewrite (proj2 (Ascii.eqb_neq a zero)) by congruence. by rewrite IH.
Qed.

Lemma last_index_None (s : list ascii) (c : ascii) : last_index s c = None <-> c ∉ s.
Proof.
  induction s as [|a s IH]; cbn [last_index].
  - split; [intros _; apply not_elem_of_nil|done].
  - rewrite not_elem_of_cons. destruct (last_index s c) as [i|].
    + split; [done|]. intros [_ H]. by apply IH in H.
    + destruct (Ascii.eqb_spec a c) as [->|N]; [split; [done|by intros [? _]]|].
      split; [|done]. intros _. split; [congruence|]. by apply IH.
Qed.

Lemma last_index_app (dir name : list ascii) (c : ascii) :
  c ∉ name -> last_index (dir ++ c :: name) c = Some (length dir).
Proof.
  intros H. apply last_index_None in H.
  induction dir as [|a dir IH]; cbn [app last_index length].
  - rewrite H. by rewrite Ascii.eqb_refl.
  - by rewrite IH.
Qed.

(** X16. [GetBinaryPath] on Linux: the result is what precedes the last
    slash of the link target, without that slash; a target without a
    slash is returned whole; and the result is empty when [readlink]
    fails, as it is when the only slash is the first character. *)
Theorem GetBinaryPath_spec (dir name : list ascii) :
  zero ∉ dir -> zero ∉ name -> "/"%char ∉ name ->
  (length dir + length name < 255)%nat ->
  GetBinaryPath (Some (dir ++ "/"%char :: name)) = dir
  /\ GetBinaryPath (Some name) = name
  /\ GetBinaryPath None = [].
Proof.
  intros Zd Zn Sn Hlen. unfold GetBinaryPath. split; [|split; [|done]].
  - rewrite c_str_id.
    2:{ rewrite not_elem_of_app, not_elem_of_cons. done. }
    unfold find_last_of, substr0.
    rewrite last_index_app by done.
    rewrite length_app. cbn [length].
    rewrite Z.min_l by lia. rewrite Nat2Z.id. by rewrite take_app_length.
  - rewrite c_str_id by done.
    unfold find_last_of, substr0.
    rewrite (proj2 (last_index_None name "/"%char) Sn).
    unfold npos. rewrite Z.min_r by lia. rewrite Nat2Z.id. apply firstn_all.
Qed.

Lemma GetBinaryPath_spec_witness :
  GetBinaryPath (Some ["/"; "o"; "p"; "t"; "/"; "r"; "t"; "s"]%char) = ["/"; "o"; "p"; "t"]%char
  /\ GetBinaryPath (Some ["r"; "t"; "s"]%char) = ["r"; "t"; "s"]%char.
Proof.
  destruct (GetBinaryPath_spec ["/"; "o"; "p"; "t"]%char ["r"; "t"; "s"]%char)
    as (A & B & _).
  - vm_compute. intros H. repeat (apply elem_of_cons in H as [H|H]; [discriminate H|]).
    by apply elem_of_nil in H.
  - vm_compute. intros H. repeat (apply elem_of_cons in H as [H|H]; [discriminate H|]).
    by apply elem_of_nil in H.
  - vm_compute. intros H. repeat (apply elem_of_cons in H as [H|H]; [discriminate H|]).
    by apply elem_of_nil in H.
  - simpl. lia.
  - split; [exact A|exact B].
Defined.

End PlatformFacts.

(** ** The level-of-detail parameters of a pass *)

Section Lod.

Implicit Types (p q : Patch).

Lemma tame_keeps {A} (m : M A) : tame m -> keeps sameParams m.
Proof.
  intros T p. specialize (T p). by destruct (m p) as [[a p']|e].
Qed.

Lemma sameParams_trans p q r : sameParams p q -> sameParams q r -> sameParams p r.
Proof. unfold sameParams. congruence. Qed.

Lemma RecursTessellate_params PS VD fuel tri l r a n p tr p' :
  RecursTessellate PS VD fuel tri l r a n p = Ok (tr, p') -> params p' = params p.
Proof.
  apply (keeps_ok sameParams).
  apply keeps_RecursTessellate; [done|exact sameParams_trans|].
  intros f t. apply tame_keeps, tame_Split.
Qed.

(** The factor [1 / max(1, dist * (300 / viewRadius))]. *)
Lemma lodFactor_range (dist : Q) (viewRadius : Z) :
  let f := (1 / fmax 1 (dist * (300 / inject_Z viewRadius)))%Q in
  (0 < f)%Q /\ (f <= 1)%Q
  /\ (0 < viewRadius -> (dist * 300 <= inject_Z viewRadius)%Q -> f = (1 / 1)%Q)
  /\ (0 < viewRadius -> (inject_Z viewRadius < dist * 300)%Q ->
      (f == inject_Z viewRadius / (dist * 300))%Q).
Proof.
  cbv zeta. set (x := (dist * (300 / inject_Z viewRadius))%Q).
  assert (Hm : (1 <= fmax 1 x)%Q).
  { unfold fmax, Qltb. destruct (Qle_bool x 1) eqn:E; cbn [negb]; [apply Qle_refl|].
    destruct (Qlt_le_dec 1 x) as [H|H]; [by apply Qlt_le_weak|].
    apply Qle_bool_iff in H. congruence. }
  assert (Hp : (0 < fmax 1 x)%Q) by (eapply Qlt_le_trans; [|exact Hm]; done).
  split; [|split; [|split]].
  - apply Qlt_shift_div_l; [done|]. rewrite Qmult_0_l. done.
  - apply Qle_shift_div_r; [done|]. by rewrite Qmult_1_l.
  - intros Hv Hd. assert (Hx : (x <= 1)%Q).
    { unfold x. assert (Hr : (0 < inject_Z viewRadius)%Q).
      { pose proof Hv as Hv'. rewrite Zlt_Qlt in Hv'. exact Hv'. }
      assert (Ex : (dist * (300 / inject_Z viewRadius) == dist * 300 / inject_Z viewRadius)%Q).
      { field. by apply Qnot_eq_sym, Qlt_not_eq. }
      rewrite Ex. apply Qle_shift_div_r; [done|]. by rewrite Qmult_1_l. }
    unfold fmax, Qltb. apply Qle_bool_iff in Hx. by rewrite Hx.
  - intros Hv Hd. assert (Hr : (0 < inject_Z viewRadius)%Q).
    { pose proof Hv as Hv'. rewrite Zlt_Qlt in Hv'. exact Hv'. }
    assert (Hd0 : (0 < dist * 300)%Q) by (eapply Qlt_trans; [exact Hr|exact Hd]).
    assert (Ex : (x == dist * 300 / inject_Z viewRadius)%Q).
    { unfold x. field. by apply Qnot_eq_sym, Qlt_not_eq. }
    assert (Hx : (1 < x)%Q).
    { rewrite Ex. apply Qlt_shift_div_l; [done|]. by rewrite Qmult_1_l. }
    assert (Ef : fmax 1 x = x).
    { unfold fmax, Qltb. destruct (Qle_bool x 1) eqn:E; [|done].
      apply Qle_bool_iff in E. exfalso. by apply (Qlt_not_le _ _ Hx). }
    rewrite Ef, Ex. field. split; [|by apply Qnot_eq_sym, Qlt_not_eq].
    intros Hz. rewrite Hz in Hd0. unfold Qlt in Hd0. simpl in Hd0. lia.
Qed.

End Lod.



(** ** The skirt stays inside the vertex array *)

Section BorderBounds.

Variable PATCH_SIZE : Z.
Hypothesis HPS : 0 <= PATCH_SIZE.

Lemma vertexIndex_ok v (l : bool) :
  inPatch PATCH_SIZE v ->
  borderVertexOk PATCH_SIZE
    (mkBorderVertex (vertexIndex PATCH_SIZE v) l (if l then 0 else 255)).
Proof.
  intros Hv. split; [by exists v|]. cbn [vindex alpha lowered].
  pose proof (gridIndex_inPatch PATCH_SIZE v HPS Hv). unfold vertexIndex.
  split; [lia|]. split; [lia|]. done.
Qed.

Lemma skirt_ok u v :
  inPatch PATCH_SIZE u -> inPatch PATCH_SIZE v ->
  Forall (borderVertexOk PATCH_SIZE)
    (skirt (vertexIndex PATCH_SIZE u) (vertexIndex PATCH_SIZE v)).
Proof.
  intros Hu Hv. unfold skirt, white, trans.
  repeat (apply Forall_cons; split;
          [first [exact (vertexIndex_ok u false Hu) | exact (vertexIndex_ok u true Hu)
                 | exact (vertexIndex_ok v false Hv) | exact (vertexIndex_ok v true Hv)]|]).
  apply Forall_nil_2.
Qed.

Lemma RecursBorderRender_bounds fuel :
  forall p tri l r a depth leftChild o,
    inPatch PATCH_SIZE l -> inPatch PATCH_SIZE r -> inPatch PATCH_SIZE a ->
    RecursBorderRender PATCH_SIZE fuel p tri l r a depth leftChild = Ok o ->
    Forall (borderVertexOk PATCH_SIZE) o /\ exists n : nat, length o = (6 * n)%nat.
Proof.
  induction fuel as [|fuel IH]; intros p tri l r a depth leftChild o Hl Hr Ha; [done|].
  cbn [RecursBorderRender]. cbv zeta.
  destruct (leafAt p tri) as [[|]|]; [| |done].
  { destruct (Z.land depth 1 =? 0); [|destruct leftChild]; intros [= <-];
      (split; [by apply skirt_ok|by exists 1%nat]). }
  pose proof (inPatch_midpoint PATCH_SIZE l r Hl Hr) as Hm.
  destruct (Z.land depth 1 =? 0).
  - destruct (child p tri LC) as [lc|]; [|done].
    destruct (RecursBorderRender _ fuel p lc _ _ _ _ _) as [o1|] eqn:E1; [|done].
    destruct (child p tri RC) as [rc|]; [|done].
    destruct (RecursBorderRender _ fuel p rc _ _ _ _ _) as [o2|] eqn:E2; [|done].
    intros [= <-].
    destruct (IH _ _ _ _ _ _ _ _ Ha Hl Hm E1) as [F1 [n1 L1]].
    destruct (IH _ _ _ _ _ _ _ _ Hr Ha Hm E2) as [F2 [n2 L2]].
    split; [by apply Forall_app|]. exists (n1 + n2)%nat. rewrite length_app. lia.
  - destruct leftChild.
    + destruct (child p tri LC) as [lc|]; [|done]. intros E. by apply (IH _ _ _ _ _ _ _ _ Ha Hl Hm E).
    + destruct (child p tri RC) as [rc|]; [|done]. intros E. by apply (IH _ _ _ _ _ _ _ _ Hr Ha Hm E).
Qed.

Lemma borderWalk_bounds fuel p root slot l r a leftChild va o :
  inPatch PATCH_SIZE l -> inPatch PATCH_SIZE r -> inPatch PATCH_SIZE a ->
  (Forall (borderVertexOk PATCH_SIZE) va /\ exists n : nat, length va = (6 * n)%nat) ->
  borderWalk PATCH_SIZE fuel p root slot l r a leftChild va = Ok o ->
  Forall (borderVertexOk PATCH_SIZE) o /\ exists n : nat, length o = (6 * n)%nat.
Proof.
  intros Hl Hr Ha [Fa [na La]]. unfold borderWalk.
  destruct (child p (Some root) slot) as [[x|]|];
    [intros [= <-]; split; [done|by exists na]| |done].
  destruct (RecursBorderRender _ _ _ _ _ _ _ _ _) as [o1|] eqn:E1; [|done].
  intros [= <-].
  destruct (RecursBorderRender_bounds _ _ _ _ _ _ _ _ _ Hl Hr Ha E1) as [F1 [n1 L1]].
  split; [by apply Forall_app|]. exists (na + n1)%nat. rewrite length_app. lia.
Qed.

End BorderBounds.

(** X18. Whatever the tree is, the skirt that [GenerateBorderIndices]
    emits stays inside the vertex array: every vertex is read from the
    three floats of a grid point of the patch, vertices come in groups of
    six (two triangles for every boundary leaf), and a vertex is
    transparent exactly when it is lowered to -400. *)
Theorem GenerateBorderIndices_bounds (PATCH_SIZE : Z) (fuel : nat) (p : Patch)
    (va : list borderVertex) :
  0 <= PATCH_SIZE ->
  GenerateBorderIndices PATCH_SIZE fuel p = Ok va ->
  Forall (borderVertexOk PATCH_SIZE) va /\ exists n : nat, length va = (6 * n)%nat.
Proof.
  intros HPS. unfold GenerateBorderIndices. cbv zeta.
  assert (C00 : inPatch PATCH_SIZE (int2.mk 0 0)) by (apply inPatch_corner; lia).
  assert (C0P : inPatch PATCH_SIZE (int2.mk 0 PATCH_SIZE)) by (apply inPatch_corner; lia).
  assert (CP0 : inPatch PATCH_SIZE (int2.mk PATCH_SIZE 0)) by (apply inPatch_corner; lia).
  assert (CPP : inPatch PATCH_SIZE (int2.mk PATCH_SIZE PATCH_SIZE))
    by (apply inPatch_corner; lia).
  destruct (borderWalk _ _ _ BaseLeft LN _ _ _ _ _) as [va1|] eqn:E1; [|done].
  destruct (borderWalk _ _ _ BaseLeft RN _ _ _ _ _) as [va2|] eqn:E2; [|done].
  destruct (borderWalk _ _ _ BaseRight RN _ _ _ _ _) as [va3|] eqn:E3; [|done].
  intros E4.
  pose proof (borderWalk_bounds PATCH_SIZE HPS _ _ _ _ _ _ _ _ _ _ C0P CP0 C00
                (conj (Forall_nil_2 _) (ex_intro _ 0%nat eq_refl)) E1) as B1.
  pose proof (borderWalk_bounds PATCH_SIZE HPS _ _ _ _ _ _ _ _ _ _ C0P CP0 C00 B1 E2) as B2.
  pose proof (borderWalk_bounds PATCH_SIZE HPS _ _ _ _ _ _ _ _ _ _ CP0 C0P CPP B2 E3) as B3.
  exact (borderWalk_bounds PATCH_SIZE HPS _ _ _ _ _ _ _ _ _ _ CP0 C0P CPP B3 E4).
Qed.

Lemma GenerateBorderIndices_bounds_witness :
  exists va, GenerateBorderIndices 2 5 splitPatch = Ok va
             /\ Forall (borderVertexOk 2) va /\ length va = 24%nat.
Proof.
  destruct (GenerateBorderIndices 2 5 splitPatch) as [va|e] eqn:E;
    [|vm_compute in E; discriminate E].
  exists va. split; [reflexivity|].
  split; [exact (proj1 (GenerateBorderIndices_bounds 2 5 splitPatch va ltac:(lia) E))|].
  vm_compute in E. injection E as <-. reflexivity.
Defined.

(** ** From construction to the index buffer *)

(** X19. The life of a patch never faults: on a map of any heights, a
    newly constructed patch of side [2 ^ k] is set up by [Init], its
    variances are computed by [ComputeVariance], and, after [Reset], a
    pass of [Tessellate] on a fresh pool of any size followed by
    [GenerateIndices] and [GenerateBorderIndices] runs to its end; no
    call dereferences a null or dangling node or indexes the vertex
    array or a variance table out of range.  The depth of the recursion
    is bounded by [2 * k + 1] for the variances and by twice the pool
    size plus three for the rest. *)
Theorem patch_lifecycle (PATCH_SIZE VARIANCE_DEPTH SQUARE_SIZE mapxp1 : Z)
    (hMap : Z -> Q) (k : nat) (patchX patchZ : Z) (dist : Q) (viewRadius : Z)
    (cap fuel : nat) :
  PATCH_SIZE = 2 ^ Z.of_nat k ->
  3 * (PATCH_SIZE + 1) * (PATCH_SIZE + 1) < 2 ^ 32 ->
  (2 * k + 1 <= fuel)%nat -> (2 * cap + 3 <= fuel)%nat ->
  exists p1 p2 res p3 idx va,
    Patch_Init PATCH_SIZE SQUARE_SIZE mapxp1 hMap patchX patchZ
      (SRectangle.mk 0 0 PATCH_SIZE PATCH_SIZE) (Patch_new VARIANCE_DEPTH) = Ok (tt, p1)
    /\ ComputeVariance PATCH_SIZE VARIANCE_DEPTH fuel p1 = Ok (tt, p2)
    /\ Tessellate PATCH_SIZE VARIANCE_DEPTH fuel dist viewRadius (newPool cap)
         (Patch_Reset p2) = Ok (res, p3)
    /\ GenerateIndices PATCH_SIZE fuel p3 = Ok idx
    /\ GenerateBorderIndices PATCH_SIZE fuel p3 = Ok va.
Proof.
  intros HPS Hw Hk Hf.
  assert (HP : 0 <= PATCH_SIZE) by (rewrite HPS; apply Z.pow_nonneg; lia).
  destruct (Patch_Init_filled PATCH_SIZE SQUARE_SIZE mapxp1 hMap patchX patchZ
              (Patch_new VARIANCE_DEPTH) HP Hw)
    as (p1 & E1 & _ & _ & _ & L1 & _ & _ & VL & VR).
  assert (R1 : heightsReady PATCH_SIZE VARIANCE_DEPTH p1).
  { split; [lia|]. destruct (Patch_new_varSized VARIANCE_DEPTH) as [S1 S2].
    split; [by rewrite VL|by rewrite VR]. }
  destruct (ComputeVariance_total PATCH_SIZE VARIANCE_DEPTH k fuel p1 HPS R1 Hk)
    as (p2 & E2 & [_ S2]).
  destruct (Tessellate_border PATCH_SIZE VARIANCE_DEPTH k fuel fuel dist viewRadius cap p2
              HPS S2 Hf ltac:(lia))
    as (res & p3 & tl & tr & E3 & Tl & Tr & E5).
  exists p1, p2, res, p3. eexists. eexists.
  split; [exact E1|]. split; [exact E2|]. split; [exact E3|].
  split; [|exact E5].
  unfold GenerateIndices. rewrite !RecursRender_leafTriangles, Tl, Tr. reflexivity.
Qed.

Lemma patch_lifecycle_witness :
  exists p1 p2 res p3 idx va,
    Patch_Init 4 8 5 (fun i => inject_Z (i mod 7 - 3)) 0 0 (SRectangle.mk 0 0 4 4)
      (Patch_new 3) = Ok (tt, p1)
    /\ ComputeVariance 4 3 19 p1 = Ok (tt, p2)
    /\ Tessellate 4 3 19 1 1000 (newPool 8) (Patch_Reset p2) = Ok (res, p3)
    /\ GenerateIndices 4 19 p3 = Ok idx
    /\ GenerateBorderIndices 4 19 p3 = Ok va.
Proof.
  exact (patch_lifecycle 4 3 8 5 (fun i => inject_Z (i mod 7 - 3)) 2 0 0 1 1000 8 19
           eq_refl ltac:(lia) ltac:(lia) ltac:(lia)).
Defined.

(** ** How many triangles a pool can give *)

Section Pairs.

Implicit Types (p q : Patch) (x y t z : ptr) (f g s : link).

Lemma keepsPairs_refl p : keepsPairs p p.
Proof. by intros H. Qed.

Lemma keepsPairs_trans p q r : keepsPairs p q -> keepsPairs q r -> keepsPairs p r.
Proof. unfold keepsPairs. auto. Qed.

Lemma keepsPairs_wr p x s v : valid p x -> nbr s -> keepsPairs p (wr p x s v).
Proof.
  intros Hx Hs (Ev & Hp & Hi).
  assert (Hrd : forall y f, f = LC \/ f = RC -> rd (wr p x s v) y f = rd p y f).
  { intros y f Hf. rewrite rd_wr by done.
    destruct (decide (x = y /\ s = f)) as [[_ <-]|]; [|done].
    destruct Hs as [-> | [-> | ->]], Hf as [H1|H1]; done. }
  assert (Hlf : forall y, leaf (wr p x s v) y = leaf p y).
  { intros y. apply leaf_rd; apply Hrd; auto. }
  split; [by rewrite nextIdx_wr|]. split.
  - intros y Hy Hl. apply valid_wr in Hy. rewrite Hlf in Hl.
    destruct (Hp y Hy Hl) as (j & A & B & C). exists j.
    rewrite !Hrd by auto. by rewrite nextIdx_wr.
  - intros y y' Hy Hy' Hl E. apply valid_wr in Hy, Hy'. rewrite Hlf in Hl.
    rewrite !Hrd in E by auto. by apply Hi.
Qed.

Lemma keepsPairs_allocateChildren t : keeps keepsPairs (allocateChildren t).
Proof.
  intros p. destruct (allocateChildren t p) as [[ok p']|] eqn:E; [|done].
  apply allocateChildren_inv in E as [Ht [(Hex & _ & ->)|(Hex & _ & ->)]];
    intros (Ev & Hp & Hi).
  - set (q := wr (wr p t LC None) t RC None).
    assert (Hv : forall y, valid q y <-> valid p y).
    { intros y. unfold q. by rewrite !valid_wr. }
    assert (Hn : nextIdx q = nextIdx p) by (unfold q; by rewrite !nextIdx_wr).
    assert (Ht1 : rd q t LC = None) by (unfold q; rds; done).
    assert (Ht2 : rd q t RC = None) by (unfold q; rds; done).
    assert (Ho : forall y f, y <> t -> rd q y f = rd p y f).
    { intros y f Hne. unfold q. rds. done. }
    assert (Hlt : leaf q t = true) by (unfold leaf; by rewrite Ht1, Ht2).
    assert (Hlo : forall y, y <> t -> leaf q y = leaf p y).
    { intros y Hne. apply leaf_rd; by apply Ho. }
    split; [by rewrite Hn|]. split.
    + intros y Hy Hl. destruct (decide (y = t)) as [->|Hne]; [congruence|].
      rewrite Hlo in Hl by done. destruct (Hp y (proj1 (Hv y) Hy) Hl) as (j & A & B & C).
      exists j. rewrite !Ho by done. by rewrite Hn.
    + intros y y' Hy Hy' Hl E.
      destruct (decide (y = t)) as [->|Hne]; [congruence|].
      rewrite Hlo in Hl by done. rewrite (Ho y) in E by done.
      destruct (Hp y (proj1 (Hv y) Hy) Hl) as (j & A & _).
      destruct (decide (y' = t)) as [->|Hne']; [rewrite Ht1, A in E; done|].
      rewrite (Ho y') in E by done. apply Hi; [by apply Hv|by apply Hv|done|done].
  - set (n := nextIdx p).
    set (q := wr (wr (bump p) t LC (Some (PoolNode n))) t RC (Some (PoolNode (S n)))).
    assert (Hv : forall y, valid q y <-> valid p y).
    { intros y. unfold q. by rewrite !valid_wr, valid_bump. }
    assert (Hn : nextIdx q = S (S n)) by (unfold q; by rewrite !nextIdx_wr).
    assert (Ht1 : rd q t LC = Some (PoolNode n)) by (unfold q; rds; done).
    assert (Ht2 : rd q t RC = Some (PoolNode (S n))) by (unfold q; rds; done).
    assert (Ho : forall y f, y <> t -> rd q y f = rd p y f).
    { intros y f Hne. unfold q. rds. done. }
    assert (Hlo : forall y, y <> t -> leaf q y = leaf p y).
    { intros y Hne. apply leaf_rd; by apply Ho. }
    destruct Ev as [m Em]. fold n in Em.
    split; [rewrite Hn; exists (S m); lia|]. split.
    + intros y Hy Hl. destruct (decide (y = t)) as [->|Hne].
      * exists m. rewrite Ht1, Ht2, Hn.
        replace (2 * m)%nat with n by lia. replace (n + 1)%nat with (S n) by lia.
        split; [done|]. split; [done|lia].
      * rewrite Hlo in Hl by done.
        destruct (Hp y (proj1 (Hv y) Hy) Hl) as (j & A & B & C).
        exists j. rewrite !Ho by done. rewrite Hn. fold n in C.
        split; [done|]. split; [done|lia].
    + intros y y' Hy Hy' Hl E.
      assert (Old : forall z, z <> t -> valid q z -> leaf q z = false ->
                      rd q z LC <> Some (PoolNode n)).
      { intros z Hne Hz Hlz. rewrite Hlo in Hlz by done. rewrite Ho by done.
        destruct (Hp z (proj1 (Hv z) Hz) Hlz) as (j & A & _ & C).
        rewrite A. fold n in C. intros [= ?]. lia. }
      destruct (decide (y = t)) as [-> |Hne], (decide (y' = t)) as [-> |Hne']; [done| | |].
      * exfalso. rewrite Ht1 in E. symmetry in E.
        apply (Old y' Hne' Hy'); [|done].
        unfold leaf. by rewrite E.
      * exfalso. rewrite Ht1 in E. by apply (Old y Hne Hy Hl).
      * rewrite Hlo in Hl by done. rewrite !Ho in E by done.
        apply Hi; [by apply Hv|by apply Hv|done|done].
Qed.

Lemma keepsPairs_Split fuel tri : keeps keepsPairs (Split fuel tri).
Proof.
  apply (keeps_Split keepsPairs keepsPairs_refl keepsPairs_trans keepsPairs_wr fuel
           keepsPairs_allocateChildren).
Qed.

Lemma fresh_pairs p0 cap : pairsInv (freshPatch p0 cap).
Proof.
  split; [by exists 0%nat|]. split.
  - intros x _ Hl. unfold leaf in Hl. rewrite !fresh_rd in Hl. by destruct x.
  - intros x x' _ _ Hl. unfold leaf in Hl. rewrite !fresh_rd in Hl. by destruct x.
Qed.


(** *** Trees *)

Lemma unique_parent p w w' f f' c :
  pairsInv p -> valid p w -> valid p w' ->
  f = LC \/ f = RC -> f' = LC \/ f' = RC ->
  rd p w f = Some c -> rd p w' f' = Some c -> w = w'.
Proof.
  intros (_ & Hp & Hi) Hw Hw' Hf Hf' E E'.
  assert (Lw : leaf p w = false).
  { unfold leaf. destruct Hf as [-> | ->]; rewrite E; [done|by destruct (rd p w LC)]. }
  assert (Lw' : leaf p w' = false).
  { unfold leaf. destruct Hf' as [-> | ->]; rewrite E'; [done|by destruct (rd p w' LC)]. }
  destruct (Hp w Hw Lw) as (j & A & B & _). destruct (Hp w' Hw' Lw') as (j' & A' & B' & _).
  apply Hi; [done|done|done|]. rewrite A, A'. do 2 f_equal.
  destruct Hf as [-> | ->], Hf' as [-> | ->];
    rewrite ?A, ?B in E; rewrite ?A', ?B' in E'; rewrite <- E in E';
    injection E' as E'; lia.
Qed.

Section Trees.

Context (lv : ptr -> nat) (O : ptr -> Prop) (p : Patch).
Hypothesis Hinv : MeshInv lv O p.
Hypothesis Hpairs : pairsInv p.

Lemma desc_live x z d : live p x -> desc p x z d -> live p z /\ lv z = (lv x + d)%nat.
Proof.
  intros Lx. induction 1 as [|z d f c _ [Lz Ez] Hf Ec]; [split; [done|lia]|].
  split; [exact (mi_scope _ _ _ Hinv z f c Lz Ec)|].
  rewrite (mi_child _ _ _ Hinv z f c Lz Hf Ec). lia.
Qed.

Lemma desc_unique x x' z d :
  live p x -> live p x' -> desc p x z d -> desc p x' z d -> x = x'.
Proof.
  intros Lx Lx' D. revert x' Lx'.
  induction D as [|z d f c D IH Hf Ec]; intros x' Lx' D'.
  - by inversion D'.
  - inversion D' as [|z' d' f' c' D1 Hf' Ec']; subst.
    destruct (desc_live _ _ _ Lx D) as [Lz _].
    destruct (desc_live _ _ _ Lx' D1) as [Lz' _].
    assert (z = z') as <-.
    { apply (unique_parent p z z' f f' c Hpairs);
        [exact (live_valid _ _ _ Hinv z Lz)|exact (live_valid _ _ _ Hinv z' Lz')
        |done|done|done|done]. }
    by apply IH.
Qed.

Lemma desc_trans x y z d e : desc p x y d -> desc p y z e -> desc p x z (d + e).
Proof.
  intros D. induction 1 as [|z e f c _ IH Hf Ec].
  - by rewrite Nat.add_0_r.
  - rewrite Nat.add_succ_r. by eapply desc_child.
Qed.

(** The branches that a walk meets lie below its start; none is met
    twice. *)
Lemma branchesBelow_desc fuel :
  forall x bs, live p x -> branchesBelow fuel p (Some x) = Ok bs ->
    (forall z, z ∈ bs -> leaf p z = false /\ exists d, desc p x z d) /\ NoDup bs.
Proof.
  induction fuel as [|fuel IH]; intros x bs Lx; [done|].
  pose proof (live_valid _ _ _ Hinv x Lx) as Vx.
  cbn [branchesBelow]. rewrite leafAt_ok by done.
  destruct (leaf p x) eqn:Hl.
  { intros [= <-]. split; [by intros z Hz%elem_of_nil|constructor]. }
  rewrite !child_ok by done.
  destruct (leaf_false_children _ _ _ _ Hinv Lx Hl) as (c1 & c2 & E1 & E2).
  rewrite E1, E2.
  assert (L1 : live p c1) by exact (mi_scope _ _ _ Hinv x LC c1 Lx E1).
  assert (L2 : live p c2) by exact (mi_scope _ _ _ Hinv x RC c2 Lx E2).
  destruct (branchesBelow fuel p (Some c1)) as [b1|] eqn:B1; [|done].
  destruct (branchesBelow fuel p (Some c2)) as [b2|] eqn:B2; [|done].
  intros [= <-].
  destruct (IH c1 b1 L1 B1) as [D1 N1]. destruct (IH c2 b2 L2 B2) as [D2 N2].
  assert (Dc1 : desc p x c1 1) by (eapply desc_child; [apply desc_here|by left|done]).
  assert (Dc2 : desc p x c2 1) by (eapply desc_child; [apply desc_here|by right|done]).
  assert (Lv1 : lv c1 = S (lv x)) by (apply (mi_child _ _ _ Hinv x LC); auto).
  assert (Lv2 : lv c2 = S (lv x)) by (apply (mi_child _ _ _ Hinv x RC); auto).
  assert (Below : forall c (b : list ptr), live p c -> lv c = S (lv x) ->
                    (forall z, z ∈ b -> leaf p z = false /\ exists d, desc p c z d) ->
                    x ∉ b).
  { intros c b Lc Lvc Db Hx. destruct (Db x Hx) as (_ & d & Dd).
    destruct (desc_live _ _ _ Lc Dd) as [_ El]. lia. }
  split.
  - intros z Hz. apply elem_of_cons in Hz as [-> |Hz].
    { split; [done|]. exists 0%nat. apply desc_here. }
    apply elem_of_app in Hz as [Hz|Hz].
    + destruct (D1 z Hz) as (Hlz & d & Dd). split; [done|].
      exists (1 + d)%nat. exact (desc_trans x c1 z 1 d Dc1 Dd).
    + destruct (D2 z Hz) as (Hlz & d & Dd). split; [done|].
      exists (1 + d)%nat. exact (desc_trans x c2 z 1 d Dc2 Dd).
  - apply NoDup_cons. split.
    + rewrite not_elem_of_app. split; [by apply (Below c1)|by apply (Below c2)].
    + apply NoDup_app. split; [done|]. split; [|done].
      intros z Hz1 Hz2. destruct (D1 z Hz1) as (_ & d1 & Dd1).
      destruct (D2 z Hz2) as (_ & d2 & Dd2).
      destruct (desc_live _ _ _ L1 Dd1) as [_ El1].
      destruct (desc_live _ _ _ L2 Dd2) as [_ El2].
      assert (d1 = d2) as <- by lia.
      pose proof (desc_unique _ _ _ _ L1 L2 Dd1 Dd2) as Ec.
      destruct Hpairs as (_ & Hp & _). destruct (Hp x Vx Hl) as (j & A & B & _).
      rewrite A in E1. rewrite B in E2. injection E1 as <-. injection E2 as <-.
      injection Ec as Ec. lia.
Qed.

(** Branches that are all different need as many allocations. *)
Lemma branches_bound bs :
  NoDup bs -> (forall z, z ∈ bs -> live p z /\ leaf p z = false) ->
  (2 * length bs <= nextIdx p)%nat.
Proof.
  intros Nd Hb. destruct Hpairs as (Ev & Hp & Hi).
  set (h := fun z => match rd p z LC with
                     | Some (PoolNode a) => Nat.div2 a
                     | _ => 0%nat
                     end).
  assert (Hh : forall z, z ∈ bs ->
                 rd p z LC = Some (PoolNode (2 * h z)) /\ (2 * h z + 1 < nextIdx p)%nat).
  { intros z Hz. destruct (Hb z Hz) as [Lz Hl].
    destruct (Hp z (live_valid _ _ _ Hinv z Lz) Hl) as (j & A & _ & C).
    unfold h. rewrite A. rewrite Nat.div2_double. by split. }
  assert (N : NoDup (h <$> bs)).
  { apply NoDup_fmap_2_strong; [|done]. intros z z' Hz Hz' E.
    destruct (Hb z Hz) as [Lz Hl]. destruct (Hb z' Hz') as [Lz' _].
    apply Hi; [by apply (live_valid _ _ _ Hinv)|by apply (live_valid _ _ _ Hinv)|done|].
    rewrite (proj1 (Hh z Hz)), (proj1 (Hh z' Hz')). by rewrite E. }
  assert (S : h <$> bs ⊆+ seq 0 (Nat.div2 (nextIdx p))).
  { apply NoDup_submseteq; [done|]. intros j Hj.
    apply list_elem_of_fmap in Hj as (z & -> & Hz).
    apply elem_of_seq. destruct (Hh z Hz) as [_ C]. destruct Ev as [m Em].
    rewrite Em in C |- *. rewrite Nat.div2_double. lia. }
  apply submseteq_length in S. rewrite length_fmap, length_seq in S.
  destruct Ev as [m Em]. rewrite Em in S |- *. rewrite Nat.div2_double in S. lia.
Qed.

End Trees.

Lemma leafTriangles_count fuel :
  forall p tri l r a ts,
    leafTriangles fuel p tri l r a = Ok ts ->
    exists bs, branchesBelow fuel p tri = Ok bs /\ length ts = S (length bs).
Proof.
  induction fuel as [|fuel IH]; intros p tri l r a ts; [done|].
  cbn [leafTriangles branchesBelow].
  destruct (leafAt p tri) as [[|]|] eqn:El; [| |done].
  { intros [= <-]. by exists []. }
  destruct tri as [t|]; [|done].
  destruct (child p (Some t) LC) as [lc|]; [|done].
  destruct (leafTriangles fuel p lc a l (midpoint l r)) as [o1|] eqn:E1; [|done].
  destruct (child p (Some t) RC) as [rc|]; [|done].
  destruct (leafTriangles fuel p rc r a (midpoint l r)) as [o2|] eqn:E2; [|done].
  intros [= <-].
  destruct (IH _ _ _ _ _ _ E1) as (b1 & -> & L1).
  destruct (IH _ _ _ _ _ _ E2) as (b2 & -> & L2).
  eexists. split; [reflexivity|]. cbn [length]. rewrite !length_app. lia.
Qed.

End Pairs.

Section Count.

Variables (PATCH_SIZE VARIANCE_DEPTH : Z).

Lemma length_corners (ts : list triangle) :
  length (flat_map (cornerIndices PATCH_SIZE) ts) = (3 * length ts)%nat.
Proof.
  induction ts as [|[[l r] a] ts IH]; [done|].
  cbn [flat_map]. rewrite length_app, IH. simpl. lia.
Qed.

Lemma pairsInv_with_variance p vl vr cv :
  pairsInv p -> pairsInv (with_variance p vl vr cv).
Proof. intros (A & B & C). split; [exact A|]. split; [exact B|exact C]. Qed.

Lemma Tessellate_pairs fuel dist viewRadius cap p0 res p' :
  Tessellate PATCH_SIZE VARIANCE_DEPTH fuel dist viewRadius (newPool cap) (Patch_Reset p0)
    = Ok (res, p') ->
  pairsInv p'.
Proof.
  intros E. rewrite Tessellate_unfold in E. cbv zeta in E.
  destruct (tessStart_fresh dist viewRadius cap p0) as (p0' & Es & _).
  rewrite Es in E.
  apply bind_inv in E as (t1 & p1 & E1 & E).
  unfold setCurrentVariance in E at 1. cbn [bind] in E.
  apply bind_inv in E as (t2 & p2 & E2 & E). injection E as _ <-.
  pose proof (keeps_RecursTessellate keepsPairs keepsPairs_refl keepsPairs_trans
                keepsPairs_Split) as K.
  apply (keeps_ok _ _ _ _ _ (K _ _ _ _ _ _ _ _)) in E2. apply E2.
  apply pairsInv_with_variance.
  apply (keeps_ok _ _ _ _ _ (K _ _ _ _ _ _ _ _)) in E1. apply E1.
  apply fresh_pairs.
Qed.

End Count.

(** X20. The size of the index buffer: after a pass of [Tessellate] on a
    freshly reset patch and a fresh pool of [cap] nodes, [GenerateIndices]
    returns three indices for each of [n] triangles, where [n] is at
    least 2 and at most 2 plus half the number of nodes that the pass has
    taken from the pool; so the buffer never holds more than
    [3 * (cap / 2 + 2)] indices. *)
Theorem Tessellate_index_count (PATCH_SIZE VARIANCE_DEPTH : Z) (fuel fuel' : nat)
    (dist : Q) (viewRadius : Z) (cap : nat) (p0 p' : Patch)
    (res : bool * list (option ptr)) :
  varSized VARIANCE_DEPTH p0 -> (2 * cap + 3 <= fuel)%nat -> (cap + 1 <= fuel')%nat ->
  Tessellate PATCH_SIZE VARIANCE_DEPTH fuel dist viewRadius (newPool cap) (Patch_Reset p0)
    = Ok (res, p') ->
  exists idx n,
    GenerateIndices PATCH_SIZE fuel' p' = Ok idx
    /\ length idx = (3 * n)%nat
    /\ (2 <= n)%nat /\ (2 * n <= nextIdx p' + 4)%nat /\ (nextIdx p' <= cap)%nat.
Proof.
  intros Hs Hf Hf' E.
  destruct (Tessellate_rooted PATCH_SIZE VARIANCE_DEPTH fuel dist viewRadius cap p0 Hs Hf)
    as (b1 & tr1 & p1 & lv & O & E1 & Hinv & _ & _ & L0 & R0 & C & _).
  rewrite E in E1. injection E1 as _ <-.
  pose proof (Tessellate_pairs PATCH_SIZE VARIANCE_DEPTH fuel dist viewRadius cap p0
                res p' E) as Hp.
  pose proof (mi_cap _ _ _ Hinv) as Hc. rewrite C in Hc.
  assert (Fl : (nextIdx p' + 1 <= fuel' + lv BaseLeft)%nat) by lia.
  assert (Fr : (nextIdx p' + 1 <= fuel' + lv BaseRight)%nat) by lia.
  destruct (leafTriangles_total fuel' lv O p' BaseLeft (int2.mk 0 PATCH_SIZE)
              (int2.mk PATCH_SIZE 0) (int2.mk 0 0) Hinv I Fl) as [tl El].
  destruct (leafTriangles_total fuel' lv O p' BaseRight (int2.mk PATCH_SIZE 0)
              (int2.mk 0 PATCH_SIZE) (int2.mk PATCH_SIZE PATCH_SIZE) Hinv I Fr) as [tr Er].
  destruct (leafTriangles_count _ _ _ _ _ _ _ El) as (bl & Bl & Ll).
  destruct (leafTriangles_count _ _ _ _ _ _ _ Er) as (br & Br & Lr).
  destruct (branchesBelow_desc lv O p' Hinv Hp fuel' BaseLeft bl I Bl) as [Dl Nl].
  destruct (branchesBelow_desc lv O p' Hinv Hp fuel' BaseRight br I Br) as [Dr Nr].
  assert (Nd : NoDup (bl ++ br)).
  { apply NoDup_app. split; [done|]. split; [|done].
    intros z Hz1 Hz2. destruct (Dl z Hz1) as (_ & d1 & D1).
    destruct (Dr z Hz2) as (_ & d2 & D2).
    destruct (desc_live lv O p' Hinv BaseLeft z d1 I D1) as [_ X1].
    destruct (desc_live lv O p' Hinv BaseRight z d2 I D2) as [_ X2].
    assert (d1 = d2) as <- by lia.
    by pose proof (desc_unique lv O p' Hinv Hp BaseLeft BaseRight z d1 I I D1 D2). }
  assert (Hb : forall z, z ∈ bl ++ br -> live p' z /\ leaf p' z = false).
  { intros z Hz. apply elem_of_app in Hz as [Hz|Hz].
    - destruct (Dl z Hz) as (Hl & d & D). split; [|done].
      exact (proj1 (desc_live lv O p' Hinv BaseLeft z d I D)).
    - destruct (Dr z Hz) as (Hl & d & D). split; [|done].
      exact (proj1 (desc_live lv O p' Hinv BaseRight z d I D)). }
  pose proof (branches_bound lv O p' Hinv Hp (bl ++ br) Nd Hb) as Bd.
  rewrite length_app in Bd.
  exists (flat_map (cornerIndices PATCH_SIZE) (tl ++ tr)), (length (tl ++ tr)).
  split.
  - unfold GenerateIndices. rewrite !RecursRender_leafTriangles, El, Er.
    by rewrite flat_map_app.
  - split; [apply length_corners|]. rewrite length_app. lia.
Qed.

Lemma Tessellate_index_count_witness :
  exists res p' idx,
    Tessellate 4 1 140 1 1000 (newPool 64) (Patch_Reset (tablePatch 100)) = Ok (res, p')
    /\ GenerateIndices 4 65 p' = Ok idx
    /\ (2 * length idx <= 3 * (nextIdx p' + 4))%nat.
Proof.
  destruct (Tessellate 4 1 140 1 1000 (newPool 64) (Patch_Reset (tablePatch 100)))
    as [[res p']|e] eqn:E; [|vm_compute in E; discriminate E].
  destruct (Tessellate_index_count 4 1 140 65 1 1000 64 (tablePatch 100) p' res
              ltac:(split; reflexivity) ltac:(lia) ltac:(lia) E)
    as (idx & n & G & L & _ & B & _).
  exists res, p', idx. split; [reflexivity|]. split; [exact G|]. lia.
Defined.
